(** * ASTGCN: attention-weighted Chebyshev graph convolution

    A shallow embedding of [src/models/baselines/attention/astgcn.py]
    (classes [ChebConvAttention], [SpatialAttention], [TemporalAttention],
    [ASTGCNBlock]) and of the gated [TemporalConv] of
    [src/models/baselines/attention/stgcn.py].

    Conventions.
    - A float is a value of [fval]: a finite number (an exact rational, so
      rounding and overflow of finite arithmetic are not modelled) or one of
      the IEEE-754 special values [+inf], [-inf], [nan].  Arithmetic on the
      special values follows IEEE-754; zero is unsigned.
    - A tensor is a nested list, outermost axis first.  Tensors are
      rectangular and their shapes agree where torch requires it; this is
      the typing discipline of the program and appears in theorems as the
      [shape] hypotheses.
    - Python exceptions are the [Raise] results of the [res] monad.
    - The functions of torch and torch_geometric that the source calls
      ([remove_self_loops], [get_laplacian], [add_self_loops],
      [MessagePassing.propagate], [Conv2d], [softmax]) are written out after
      the behaviour of those libraries. *)

From Stdlib Require Import List Bool Arith Lia ZArith QArith Qcanon Lqa.
Import ListNotations.
Open Scope nat_scope.



(** ** Floats with the IEEE special values *)

Inductive fval : Type :=
| Fin (q : Qc)
| PInf
| NInf
| NaN.

Definition f0 : fval := Fin (Q2Qc 0).
Definition f1 : fval := Fin (Q2Qc 1).
Definition f2 : fval := Fin (Q2Qc 2).
Definition fm1 : fval := Fin (Q2Qc (-1)).

(** The infinity (or nan) whose sign is the sign of a finite number
    compared with zero. *)
Definition inf_of_sign (c : comparison) : fval :=
  match c with Gt => PInf | Lt => NInf | Eq => NaN end.

Definition flip (c : comparison) : comparison := CompOpp c.

Definition sgn (q : Qc) : comparison := (q ?= Q2Qc 0)%Qc.

Definition fneg (a : fval) : fval :=
  match a with
  | Fin q => Fin (- q)%Qc
  | PInf => NInf
  | NInf => PInf
  | NaN => NaN
  end.

Definition fadd (a b : fval) : fval :=
  match a, b with
  | NaN, _ | _, NaN => NaN
  | Fin p, Fin q => Fin (p + q)%Qc
  | PInf, NInf | NInf, PInf => NaN
  | PInf, _ | _, PInf => PInf
  | NInf, _ | _, NInf => NInf
  end.

Definition fsub (a b : fval) : fval := fadd a (fneg b).

Definition fmul (a b : fval) : fval :=
  match a, b with
  | NaN, _ | _, NaN => NaN
  | Fin p, Fin q => Fin (p * q)%Qc
  | Fin p, PInf | PInf, Fin p => inf_of_sign (sgn p)
  | Fin p, NInf | NInf, Fin p => inf_of_sign (flip (sgn p))
  | PInf, PInf | NInf, NInf => PInf
  | PInf, NInf | NInf, PInf => NInf
  end.

(** Division.  A finite non-zero number over zero is an infinity of its
    sign, zero over zero is nan, a finite number over an infinity is zero. *)
Definition fdiv (a b : fval) : fval :=
  match a, b with
  | NaN, _ | _, NaN => NaN
  | Fin p, Fin q =>
      match sgn q with
      | Eq => inf_of_sign (sgn p)
      | _ => Fin (p / q)%Qc
      end
  | Fin _, PInf | Fin _, NInf => f0
  | PInf, Fin q => match sgn q with Lt => NInf | _ => PInf end
  | NInf, Fin q => match sgn q with Lt => PInf | _ => NInf end
  | PInf, PInf | PInf, NInf | NInf, PInf | NInf, NInf => NaN
  end.

(** Python's [==] on floats: nan equals nothing. *)
Definition feqb (a b : fval) : bool :=
  match a, b with
  | Fin p, Fin q => Qc_eq_bool p q
  | PInf, PInf => true
  | NInf, NInf => true
  | _, _ => false
  end.

(** [F.relu]: [max(x, 0)], which keeps nan. *)
Definition relu (a : fval) : fval :=
  match a with
  | Fin q => match sgn q with Lt => f0 | _ => Fin q end
  | PInf => PInf
  | NInf => f0
  | NaN => NaN
  end.

Definition is_fin (a : fval) : bool :=
  match a with Fin _ => true | _ => false end.

(** Structural equality, used to evaluate the model on concrete inputs. *)
Definition fval_eqb (a b : fval) : bool :=
  match a, b with
  | Fin p, Fin q => Qeq_bool (this p) (this q)
  | PInf, PInf | NInf, NInf | NaN, NaN => true
  | _, _ => false
  end.

(** ** Exceptions *)

Inductive error : Type :=
| ValueError
| IndexError
| RuntimeError
| AssertionError
| TypeError.

Inductive res (A : Type) : Type :=
| Ok (a : A)
| Raise (e : error).

Arguments Ok {A} a.
Arguments Raise {A} e.

Definition bind {A B} (m : res A) (k : A -> res B) : res B :=
  match m with
  | Ok a => k a
  | Raise e => Raise e
  end.

Declare Scope res_scope.
Delimit Scope res_scope with res.
Notation "x <- m ;; k" := (bind m (fun x => k))
  (at level 61, m at next level, right associativity) : res_scope.
Notation "' pat <- m ;; k" := (bind m (fun x => match x with pat => k end))
  (at level 61, pat pattern, m at next level, right associativity) : res_scope.
Open Scope res_scope.

Fixpoint mapM {A B} (f : A -> res B) (l : list A) : res (list B) :=
  match l with
  | [] => Ok []
  | a :: l' => b <- f a ;; bs <- mapM f l' ;; Ok (b :: bs)
  end.

Fixpoint foldM {A B} (f : A -> B -> res A) (l : list B) (a : A) : res A :=
  match l with
  | [] => Ok a
  | b :: l' => a' <- f a b ;; foldM f l' a'
  end.

(** ** Tensors as nested lists *)

Definition vec := list fval.
Definition mat := list vec.
Definition tensor3 := list mat.
Definition tensor4 := list tensor3.

Fixpoint map2 {A B C} (f : A -> B -> C) (l : list A) (l' : list B) : list C :=
  match l, l' with
  | a :: t, b :: t' => f a b :: map2 f t t'
  | _, _ => []
  end.

Definition zeros (n : nat) : vec := repeat f0 n.
Definition zeros2 (n m : nat) : mat := repeat (zeros m) n.

Definition vadd : vec -> vec -> vec := map2 fadd.
Definition vsub : vec -> vec -> vec := map2 fsub.
Definition vscale (a : fval) : vec -> vec := map (fmul a).
Definition madd : mat -> mat -> mat := map2 vadd.
Definition msub : mat -> mat -> mat := map2 vsub.
Definition mscale (a : fval) : mat -> mat := map (vscale a).
Definition tadd : tensor3 -> tensor3 -> tensor3 := map2 madd.
Definition tsub : tensor3 -> tensor3 -> tensor3 := map2 msub.
Definition tscale (a : fval) : tensor3 -> tensor3 := map (mscale a).

Definition nrows (m : mat) : nat := length m.
Definition ncols (m : mat) : nat := length (hd [] m).

(** [torch.sum] of a vector, accumulated from the left. *)
Definition vsum (v : vec) : fval := fold_left fadd v f0.

Definition dot (u v : vec) : fval := vsum (map2 fmul u v).

Definition column (j : nat) (m : mat) : vec := map (fun r => nth j r f0) m.

(** [m.T], [m.transpose(-1, -2)], and [t.permute(0, 2, 1)] on each batch
    element. *)
Definition transpose (m : mat) : mat :=
  map (fun j => column j m) (seq 0 (ncols m)).

(** [torch.matmul] of two matrices. *)
Definition matmul (a b : mat) : mat :=
  map (fun r => map (fun j => dot r (column j b)) (seq 0 (ncols b))) a.

(** [torch.eye(n)]. *)
Definition eye (n : nat) : mat :=
  map (fun i => map (fun j => if i =? j then f1 else f0) (seq 0 n)) (seq 0 n).

(** Elementwise product of two matrices. *)
Definition hadamard : mat -> mat -> mat := map2 (map2 fmul).

(** [x.size(-2)] and [x.size(-1)] of a (batch, node, feature) tensor. *)
Definition size_node (x : tensor3) : nat := nrows (hd [] x).
Definition size_feat (x : tensor3) : nat := ncols (hd [] x).

Definition is_mat (n m : nat) (a : mat) : Prop :=
  length a = n /\ Forall (fun r => length r = m) a.

Definition is_tensor3 (b n m : nat) (t : tensor3) : Prop :=
  length t = b /\ Forall (is_mat n m) t.

Definition fin_vec (v : vec) : Prop := Forall (fun a => is_fin a = true) v.
Definition fin_mat (m : mat) : Prop := Forall fin_vec m.
Definition fin_tensor3 (t : tensor3) : Prop := Forall fin_mat t.

(** ** Indexing, gathering and scattering *)

Definition edges := list (nat * nat).

(** [t[mask]] for a boolean mask. *)
Fixpoint mask_select {A} (mask : list bool) (l : list A) : list A :=
  match mask, l with
  | b :: mask', a :: l' =>
      if b then a :: mask_select mask' l' else mask_select mask' l'
  | _, _ => []
  end.

(** [t.masked_fill_(mask, value)], as the new content of [t]. *)
Definition masked_fill (t : vec) (mask : list bool) (value : fval) : vec :=
  map2 (fun a (b : bool) => if b then value else a) t mask.

(** [t[i]]; an index past the end raises. *)
Definition index {A} (t : list A) (i : nat) : res A :=
  match nth_error t i with
  | Some a => Ok a
  | None => Raise IndexError
  end.

(** [t[idx]] and [t.index_select(0, idx)] for an index tensor [idx]. *)
Definition gather {A} (t : list A) (idx : list nat) : res (list A) :=
  mapM (index t) idx.

(** [acc[i] += v], raising when [i] is out of range. *)
Fixpoint add_at {A} (add : A -> A -> A) (i : nat) (v : A) (acc : list A)
  : res (list A) :=
  match acc, i with
  | [], _ => Raise IndexError
  | a :: acc', O => Ok (add a v :: acc')
  | a :: acc', S i' => r <- add_at add i' v acc' ;; Ok (a :: r)
  end.

(** [scatter(src, index, dim_size=n, reduce='sum')] onto the start value
    [init] (all zeros, of length [n]): the entries are added in order. *)
Definition scatter_add {A} (add : A -> A -> A) (init : list A)
  (src : list A) (idx : list nat) : res (list A) :=
  foldM (fun acc iv => add_at add (fst iv) (snd iv) acc) (combine idx src) init.

Definition scatter (src : vec) (idx : list nat) (dim_size : nat) : res vec :=
  scatter_add fadd (zeros dim_size) src idx.

Definition scatter_rows (src : mat) (idx : list nat) (dim_size width : nat)
  : res mat :=
  scatter_add vadd (zeros2 dim_size width) src idx.

(** The entries that a scatter sends to position [k], in order. *)
Definition sent_to {A} (k : nat) (l : list (nat * A)) : list A :=
  map snd (filter (fun iv => fst iv =? k) l).

(** The edges that are not self-loops. *)
Definition no_loops (E : edges) : edges :=
  filter (fun e => negb (fst e =? snd e)) E.

(** The edge weights have one entry per edge. *)
Definition weights_ok (E : edges) (w : option vec) : Prop :=
  match w with
  | None => True
  | Some v => length v = length E
  end.

(** ** torch_geometric.utils *)

Inductive normalization : Type :=
| NormNone    (* None *)
| NormSym     (* 'sym' *)
| NormRw.     (* 'rw' *)

Definition is_sym (n : normalization) : bool :=
  match n with NormSym => true | _ => false end.

(** [remove_self_loops(edge_index, edge_attr)]. *)
Definition remove_self_loops (edge_index : edges) (edge_attr : option vec)
  : edges * option vec :=
  let mask := map (fun e => negb (fst e =? snd e)) edge_index in
  (mask_select mask edge_index, option_map (mask_select mask) edge_attr).

Definition loop_index (n : nat) : edges := map (fun i => (i, i)) (seq 0 n).

(** [add_self_loops(edge_index, edge_attr, fill_value, num_nodes)]: the
    loops [(i, i)], [i < num_nodes], are appended after the given edges,
    and their attributes, all [fill_value], after the given attributes. *)
Definition add_self_loops (edge_index : edges) (edge_attr : option vec)
  (fill_value : fval) (num_nodes : nat) : edges * option vec :=
  (edge_index ++ loop_index num_nodes,
   option_map (fun a => a ++ repeat fill_value num_nodes) edge_attr).

Section Laplacian.

(** [t.pow(-0.5)] on one float.  It is irrational in general and stays a
    parameter of the development. *)
Variable pow_neg_half : fval -> fval.

Definition mask_inf (t : vec) : vec :=
  masked_fill t (map (fun a => feqb a PInf) t) f0.

(** [get_laplacian(edge_index, edge_weight, normalization, dtype,
    num_nodes)]. *)
Definition get_laplacian (edge_index : edges) (edge_weight : option vec)
  (norm : normalization) (num_nodes : nat) : res (edges * vec) :=
  let '(edge_index, edge_weight) := remove_self_loops edge_index edge_weight in
  let edge_weight :=
    match edge_weight with
    | Some w => w
    | None => repeat f1 (length edge_index)
    end in
  let row := map fst edge_index in
  let col := map snd edge_index in
  deg <- scatter edge_weight row num_nodes ;;
  match norm with
  | NormNone =>
      (* L = D - A *)
      let '(edge_index, _) := add_self_loops edge_index None f1 num_nodes in
      Ok (edge_index, map fneg edge_weight ++ deg)
  | NormSym =>
      (* A_norm = -D^{-1/2} A D^{-1/2}; L = I - A_norm *)
      let deg_inv_sqrt := mask_inf (map pow_neg_half deg) in
      dr <- gather deg_inv_sqrt row ;;
      dc <- gather deg_inv_sqrt col ;;
      let edge_weight := map2 fmul (map2 fmul dr edge_weight) dc in
      match add_self_loops edge_index (Some (map fneg edge_weight)) f1 num_nodes with
      | (edge_index, Some tmp) => Ok (edge_index, tmp)
      | (_, None) => Raise AssertionError
      end
  | NormRw =>
      (* A_norm = -D^{-1} A; L = I - A_norm *)
      let deg_inv := mask_inf (map (fdiv f1) deg) in
      dr <- gather deg_inv row ;;
      let edge_weight := map2 fmul dr edge_weight in
      match add_self_loops edge_index (Some (map fneg edge_weight)) f1 num_nodes with
      | (edge_index, Some tmp) => Ok (edge_index, tmp)
      | (_, None) => Raise AssertionError
      end
  end.

(** ** ChebConvAttention *)

(** [lambda_max]: a Python float or zero-dimensional tensor, or a
    one-dimensional tensor with one entry per graph of a mini-batch. *)
Inductive lam : Type :=
| Scalar (v : fval)
| PerGraph (vs : vec).

Definition numel (l : lam) : nat :=
  match l with Scalar _ => 1 | PerGraph vs => length vs end.

(** [lambda_max[idx]]. *)
Definition lam_index (l : lam) (idx : list nat) : res lam :=
  match l with
  | Scalar _ => Raise IndexError
  | PerGraph vs => r <- gather vs idx ;; Ok (PerGraph r)
  end.

(** [w / lambda_max] with broadcasting; sizes that do not broadcast raise
    torch's [RuntimeError]. *)
Definition div_lam (w : vec) (l : lam) : res vec :=
  match l with
  | Scalar v => Ok (map (fun a => fdiv a v) w)
  | PerGraph [v] => Ok (map (fun a => fdiv a v) w)
  | PerGraph vs =>
      if length vs =? length w then Ok (map2 fdiv w vs) else Raise RuntimeError
  end.

Record ChebConvAttention : Type := {
  _normalization : normalization;
  _weight : list mat;          (* shape (K, in_channels, out_channels) *)
  _bias : option vec           (* shape (out_channels), or None *)
}.

(** [ChebConvAttention.__norm__]. *)
Definition __norm__ (edge_index : edges) (num_nodes : nat)
  (edge_weight : option vec) (norm : normalization) (lambda_max : lam)
  (batch : option (list nat)) : res (edges * vec) :=
  let '(edge_index, edge_weight) := remove_self_loops edge_index edge_weight in
  '(edge_index, edge_weight) <-
     get_laplacian edge_index edge_weight norm num_nodes ;;
  lambda_max <-
    match batch with
    | Some b =>
        if 1 <? numel lambda_max
        then (i <- gather b (map fst edge_index) ;; lam_index lambda_max i)
        else Ok lambda_max
    | None => Ok lambda_max
    end ;;
  edge_weight <- div_lam (map (fmul f2) edge_weight) lambda_max ;;
  let edge_weight := mask_inf edge_weight in
  match add_self_loops edge_index (Some edge_weight) fm1 num_nodes with
  | (edge_index, Some edge_weight) => Ok (edge_index, edge_weight)
  | (_, None) => Raise AssertionError
  end.

(** The [norm] argument of [message]: one-dimensional (one weight per
    edge) or two-dimensional (batch, edge). *)
Inductive norm_arg : Type :=
| Norm1 (n : vec)
| Norm2 (n : list vec).

(** [ChebConvAttention.message(x_j, norm)], with [x_j] of shape
    (batch, edge, feature). *)
Definition message (x_j : tensor3) (norm : norm_arg) : tensor3 :=
  match norm with
  | Norm1 n => map (fun xb => map2 vscale n xb) x_j
  | Norm2 n => map2 (fun nb xb => map2 vscale nb xb) n x_j
  end.

(** [MessagePassing.propagate(edge_index, x=x, norm=norm, size=None)] with
    [aggr='add'], [flow='source_to_target'], [node_dim=-2]: [x_j] gathers
    the rows [x[:, edge_index[0]]], and the messages are summed into the
    rows [edge_index[1]] of a zero tensor with as many rows as [x]. *)
Definition propagate (edge_index : edges) (x : tensor3) (norm : norm_arg)
  : res tensor3 :=
  let src := map fst edge_index in
  let dst := map snd edge_index in
  x_j <- mapM (fun xb => gather xb src) x ;;
  mapM (fun mb => scatter_rows mb dst (size_node x) (size_feat x))
       (message x_j norm).

(** [spatial_attention[:, row, col]], of shape (batch, edge). *)
Definition index_rc (spatial_attention : tensor3) (row col : list nat)
  : res (list vec) :=
  mapM (fun a =>
          mapM (fun rc => r <- index a (fst rc) ;; index r (snd rc))
               (combine row col))
       spatial_attention.

Definition swap (e : nat * nat) : nat * nat := (snd e, fst e).

(** [torch.matmul(t, w)] of a batched tensor with a matrix. *)
Definition tmatmul (t : tensor3) (w : mat) : tensor3 :=
  map (fun m => matmul m w) t.

(** [out += self._bias], when there is a bias. *)
Definition add_bias (bias : option vec) (out : tensor3) : tensor3 :=
  match bias with
  | Some b => map (map (fun r => vadd r b)) out
  | None => out
  end.

(** One turn of the loop [for k in range(2, K)] on the state
    [(out, TAx_0, TAx_1)], with [wk = self._weight[k]]. *)
Definition cheb_step (edge_index_transpose : edges) (norm : vec)
  (st : tensor3 * tensor3 * tensor3) (wk : mat)
  : res (tensor3 * tensor3 * tensor3) :=
  let '(out, TAx_0, TAx_1) := st in
  TAx_2 <- propagate edge_index_transpose TAx_1 (Norm1 norm) ;;
  let TAx_2 := tsub (tscale f2 TAx_2) TAx_0 in
  let out := tadd out (tmatmul TAx_2 wk) in
  Ok (out, TAx_1, TAx_2).

(** [o is None]. *)
Definition is_None {A} (o : option A) : bool :=
  match o with None => true | Some _ => false end.

(** [ChebConvAttention.forward]. *)
Definition forward (self : ChebConvAttention) (x : tensor3)
  (edge_index : edges) (spatial_attention : tensor3)
  (edge_weight : option vec) (batch : option (list nat))
  (lambda_max : option lam) : res tensor3 :=
  if negb (is_sym (_normalization self)) && is_None lambda_max
  then Raise ValueError
  else
    let lambda_max :=
      match lambda_max with
      | None => Scalar f2
      | Some l => l
      end in
    '(edge_index, norm) <-
       __norm__ edge_index (size_node x) edge_weight (_normalization self)
                lambda_max batch ;;
    let row := map fst edge_index in
    let col := map snd edge_index in
    att_rc <- index_rc spatial_attention row col ;;
    let Att_norm := map (map2 fmul norm) att_rc in
    let num_nodes := size_node x in
    let TAx_0 :=
      map2 matmul
           (map (fun a => transpose (hadamard (eye num_nodes) a))
                spatial_attention)
           x in
    w0 <- index (_weight self) 0 ;;
    let out := tmatmul TAx_0 w0 in
    let edge_index_transpose := map swap edge_index in
    match skipn 1 (_weight self) with
    | [] => Ok (add_bias (_bias self) out)
    | w1 :: ws =>
        TAx_1 <- propagate edge_index_transpose TAx_0 (Norm2 Att_norm) ;;
        let out := tadd out (tmatmul TAx_1 w1) in
        '(out, _, _) <-
           foldM (cheb_step edge_index_transpose norm) ws (out, TAx_0, TAx_1) ;;
        Ok (add_bias (_bias self) out)
    end.

End Laplacian.

(** ** The Chebyshev recursion, as the specification words it

    These definitions follow the text of the specification and are compared
    with [forward] below. *)

(** [Att_norm[e] = w[e] * spatial_attention[:, src(e), dst(e)]], for each
    batch element. *)
Definition att_norm_spec (w : vec) (E : edges) (spatial_attention : tensor3)
  : list vec :=
  map (fun a =>
         map2 (fun we e => fmul we (nth (snd e) (nth (fst e) a []) f0)) w E)
      spatial_attention.

(** The sum, over the edges [(u, v)] of the list [rev] that arrive at node
    [v], of [w[e] * T[u]]. *)
Definition incoming (rev : edges) (w : vec) (T : mat) (width : nat) (v : nat)
  : vec :=
  fold_left vadd
    (map (fun ew => vscale (snd ew) (nth (fst (fst ew)) T []))
         (filter (fun ew => snd (fst ew) =? v) (combine rev w)))
    (zeros width).

Definition propagate_mat (rev : edges) (w : vec) (n width : nat) (T : mat)
  : mat :=
  map (incoming rev w T width) (seq 0 n).

(** Propagation with one weight per edge, shared by the batch. *)
Definition propagate_plain (rev : edges) (w : vec) (T : tensor3) : tensor3 :=
  map (propagate_mat rev w (size_node T) (size_feat T)) T.

(** Propagation with one weight per batch element and edge. *)
Definition propagate_att (rev : edges) (ws : list vec) (T : tensor3)
  : tensor3 :=
  map2 (fun wb Tb => propagate_mat rev wb (size_node T) (size_feat T) Tb) ws T.

(** [T0 = (I * spatial_attention)^T @ x]. *)
Definition order0 (spatial_attention x : tensor3) : tensor3 :=
  map2 matmul
       (map (fun a => transpose (hadamard (eye (size_node x)) a))
            spatial_attention)
       x.

(** The terms [T_k], [T_{k+1}], ... given [T_{k-2}] and [T_{k-1}]. *)
Fixpoint cheb_terms (rev : edges) (w : vec) (Tprev Tcur : tensor3) (n : nat)
  : list tensor3 :=
  match n with
  | O => []
  | S n' =>
      let Tn := tsub (tscale f2 (propagate_plain rev w Tcur)) Tprev in
      Tn :: cheb_terms rev w Tcur Tn n'
  end.

(** The terms [T_0, ..., T_{K-1}] of a filter of order [K]: [T_1] is
    propagated with the attention-reweighted weights [att], the later
    terms with the plain weights [w]. *)
Definition cheb_term_list (rev : edges) (w : vec) (att : list vec)
  (T0 : tensor3) (K : nat) : list tensor3 :=
  match K with
  | 0 => []
  | 1 => [T0]
  | S (S m) =>
      let T1 := propagate_att rev att T0 in
      T0 :: T1 :: cheb_terms rev w T0 T1 m
  end.

(** The sum of a non-empty list of tensors, in order. *)
Definition tsum (l : list tensor3) : tensor3 :=
  match l with
  | [] => []
  | t :: ts => fold_left tadd ts t
  end.

(** ** Validity of the inputs *)

(** The value with which [forward] calls [__norm__]. *)
Definition lam_or_default (lambda_max : option lam) : lam :=
  match lambda_max with
  | None => Scalar f2
  | Some l => l
  end.

(** The guard of [forward] passes: the normalization is symmetric or
    [lambda_max] is given. *)
Definition lam_given (norm : normalization) (lambda_max : option lam) : Prop :=
  norm = NormSym \/ lambda_max <> None.


Definition valid_edges (n : nat) (E : edges) : Prop :=
  Forall (fun e => fst e < n /\ snd e < n) E.

(** [lambda_max] is a scalar, or a one-entry vector, or comes with a batch
    vector that names a graph for every node. *)
Definition valid_lam (n : nat) (batch : option (list nat)) (l : lam) : Prop :=
  match l with
  | Scalar _ => True
  | PerGraph vs =>
      length vs = 1 \/
      exists b, batch = Some b /\ n <= length b /\
                Forall (fun g => g < length vs) b
  end.

(** The shapes of a call: [x] is (b, n, f), [spatial_attention] is
    (b, n, n), the weights are (K, f, o) and the bias (o). *)
Record shapes (self : ChebConvAttention) (x spatial_attention : tensor3)
  (b n f o : nat) : Prop := {
  shape_x : is_tensor3 b n f x;
  shape_att : is_tensor3 b n n spatial_attention;
  shape_weight : Forall (is_mat f o) (_weight self);
  shape_bias : forall bv, _bias self = Some bv -> length bv = o
}.

(** The layer [self] with one more weight slice [z], at the end. *)
Definition with_extra_slice (self : ChebConvAttention) (z : mat)
  : ChebConvAttention :=
  {| _normalization := _normalization self;
     _weight := _weight self ++ [z];
     _bias := _bias self |}.

(** No dimension of [t] exceeds those of a (b, n, o) tensor. *)
Definition within (b n o : nat) (t : tensor3) : Prop :=
  length t <= b /\
  Forall (fun m => length m <= n /\ Forall (fun r => length r <= o) m) t.

(** Every batch element of [T] has [n] rows. *)
Definition rows_are (n : nat) (T : tensor3) : Prop :=
  Forall (fun m => length m = n) T.

(** The weights stored at position [(i, j)] of an edge list, in order. *)
Definition weights_at (E : edges) (w : vec) (i j : nat) : vec :=
  map snd
      (filter (fun ew => (fst (fst ew) =? i) && (snd (fst ew) =? j))
              (combine E w)).

(** The total weight that the edge list carries at position [(i, j)]: under
    sum aggregation the entries of a repeated position add up. *)
Definition effective_weight (E : edges) (w : vec) (i j : nat) : fval :=
  vsum (weights_at E w i j).

(** ** SpatialAttention and TemporalAttention *)

(** [torch.matmul] of a matrix with a vector, and of a vector with a
    matrix. *)
Definition matvec (m : mat) (v : vec) : vec := map (fun r => dot r v) m.

Definition vecmat (v : vec) (m : mat) : vec :=
  map (fun j => dot v (column j m)) (seq 0 (ncols m)).

(** [t + bias] for a bias of shape (1, n, m), broadcast over the batch. *)
Definition add_broadcast (t : tensor3) (bias : tensor3) : tensor3 :=
  match bias with
  | [b0] => map (fun m => madd m b0) t
  | _ => tadd t bias
  end.

(** [x.permute(2, 1, 0)] on a tensor of shape (n, f, t): the axes of one
    batch element under [X.permute(0, 3, 2, 1)]. *)
Definition permute_210 (x : tensor3) : tensor3 :=
  let f := length (hd [] x) in
  let t := length (hd [] (hd [] x)) in
  map (fun k =>
         map (fun j => map (fun m => nth k (nth j m []) f0) x) (seq 0 f))
      (seq 0 t).

Section Attention.

(** The logistic sigmoid and the exponential on one float; both are
    transcendental and stay parameters. *)
Variable sigmoid : fval -> fval.
Variable exp : fval -> fval.

(** [F.softmax(s, dim=1)] on one batch element [s] of shape (n, m): the
    exponentials are divided by their sum over the first axis of [s], that
    is, over each column. *)
Definition softmax_dim1 (s : mat) : mat :=
  let e := map (map exp) s in
  let total := map (fun j => vsum (column j e)) (seq 0 (ncols e)) in
  map (fun r => map2 fdiv r total) e.

Record SpatialAttention : Type := {
  _W1 : vec;        (* (num_of_timesteps) *)
  _W2 : mat;        (* (in_channels, num_of_timesteps) *)
  _W3 : vec;        (* (in_channels) *)
  _bs : tensor3;    (* (1, num_of_vertices, num_of_vertices) *)
  _Vs : mat         (* (num_of_vertices, num_of_vertices) *)
}.

(** The scores before the softmax, [S] of line 204. *)
Definition SpatialAttention_scores (self : SpatialAttention) (X : tensor4)
  : tensor3 :=
  let LHS := tmatmul (map (map (fun m => matvec m (_W1 self))) X) (_W2 self) in
  let RHS := map (fun xb => transpose (map (vecmat (_W3 self)) xb)) X in
  map (fun m => matmul (_Vs self) (map (map sigmoid) m))
      (add_broadcast (map2 matmul LHS RHS) (_bs self)).

(** [SpatialAttention.forward]. *)
Definition SpatialAttention_forward (self : SpatialAttention) (X : tensor4)
  : tensor3 :=
  map softmax_dim1 (SpatialAttention_scores self X).

Record TemporalAttention : Type := {
  _U1 : vec;        (* (num_of_vertices) *)
  _U2 : mat;        (* (in_channels, num_of_vertices) *)
  _U3 : vec;        (* (in_channels) *)
  _be : tensor3;    (* (1, num_of_timesteps, num_of_timesteps) *)
  _Ve : mat         (* (num_of_timesteps, num_of_timesteps) *)
}.

(** The scores before the softmax, [E] of line 249. *)
Definition TemporalAttention_scores (self : TemporalAttention) (X : tensor4)
  : tensor3 :=
  let LHS :=
    tmatmul (map (fun xb => map (fun m => matvec m (_U1 self))
                                (permute_210 xb)) X)
            (_U2 self) in
  let RHS := map (fun xb => map (vecmat (_U3 self)) xb) X in
  map (fun m => matmul (_Ve self) (map (map sigmoid) m))
      (add_broadcast (map2 matmul LHS RHS) (_be self)).

(** [TemporalAttention.forward]. *)
Definition TemporalAttention_forward (self : TemporalAttention) (X : tensor4)
  : tensor3 :=
  map softmax_dim1 (TemporalAttention_scores self X).

End Attention.

Definition fin_tensor4 (t : tensor4) : Prop := Forall fin_tensor3 t.

Definition is_tensor4 (b n f t : nat) (x : tensor4) : Prop :=
  length x = b /\ Forall (is_tensor3 n f t) x.

(** The parameters of the attention layers are finite. *)
Definition fin_spatial (p : SpatialAttention) : Prop :=
  fin_vec (_W1 p) /\ fin_mat (_W2 p) /\ fin_vec (_W3 p) /\
  fin_tensor3 (_bs p) /\ fin_mat (_Vs p).

Definition fin_temporal (p : TemporalAttention) : Prop :=
  fin_vec (_U1 p) /\ fin_mat (_U2 p) /\ fin_vec (_U3 p) /\
  fin_tensor3 (_be p) /\ fin_mat (_Ve p).

(** The shapes of [SpatialAttention] for [n] vertices, [f] channels and
    [t] time steps, and of [TemporalAttention]. *)
Definition shape_spatial (n f t : nat) (p : SpatialAttention) : Prop :=
  length (_W1 p) = t /\ is_mat f t (_W2 p) /\ length (_W3 p) = f /\
  is_tensor3 1 n n (_bs p) /\ is_mat n n (_Vs p).

Definition shape_temporal (n f t : nat) (p : TemporalAttention) : Prop :=
  length (_U1 p) = n /\ is_mat f n (_U2 p) /\ length (_U3 p) = f /\
  is_tensor3 1 t t (_be p) /\ is_mat t t (_Ve p).

(** On finite numbers [exp] is finite and positive, and [sigmoid] is
    finite. *)
Definition exp_positive (exp : fval -> fval) : Prop :=
  forall q, exists r, exp (Fin q) = Fin r /\ (Q2Qc 0 < r)%Qc.

Definition sigmoid_finite (sigmoid : fval -> fval) : Prop :=
  forall q, is_fin (sigmoid (Fin q)) = true.

(** ** torch.nn.Conv2d *)

Record Conv2d : Type := {
  cv_weight : list (list mat);   (* (out_channels, in_channels, kh, kw) *)
  cv_bias : vec;                 (* (out_channels) *)
  cv_kernel_size : nat * nat;
  cv_stride : nat * nat;
  cv_padding : nat * nat
}.

(** Zero padding of one channel: [ph] rows above and below, [pw] entries
    left and right. *)
Definition pad2 (ph pw : nat) (m : mat) : mat :=
  let w := ncols m + 2 * pw in
  repeat (zeros w) ph
  ++ map (fun r => zeros pw ++ r ++ zeros pw) m
  ++ repeat (zeros w) ph.

(** The [kh] by [kw] window of [m] whose corner is at [(i, j)]. *)
Definition window (kh kw i j : nat) (m : mat) : mat :=
  map (fun r => firstn kw (skipn j r)) (firstn kh (skipn i m)).

(** The sum of the elementwise product of two matrices. *)
Definition mdot (a b : mat) : fval := vsum (map2 dot a b).

Definition out_size (n k s p : nat) : nat := (n + 2 * p - k) / s + 1.

(** [Conv2d.forward] on one batch element of shape (in_channels, h, w): a
    cross-correlation with zero padding, plus the bias.  A kernel larger
    than the padded input and a zero stride raise. *)
Definition conv2d_one (cv : Conv2d) (x : tensor3) : res tensor3 :=
  let '(kh, kw) := cv_kernel_size cv in
  let '(sh, sw) := cv_stride cv in
  let '(ph, pw) := cv_padding cv in
  let h := nrows (hd [] x) in
  let w := ncols (hd [] x) in
  if (h + 2 * ph <? kh) || (w + 2 * pw <? kw) || (sh =? 0) || (sw =? 0)
  then Raise RuntimeError
  else
    let xp := map (pad2 ph pw) x in
    Ok (map2
          (fun wo bo =>
             map (fun i =>
                    map (fun j =>
                           fadd (vsum (map2 (fun wc xc =>
                                               mdot wc (window kh kw (i * sh)
                                                               (j * sw) xc))
                                            wo xp))
                                bo)
                        (seq 0 (out_size w kw sw pw)))
                 (seq 0 (out_size h kh sh ph)))
          (cv_weight cv) (cv_bias cv)).

Definition conv2d (cv : Conv2d) (X : tensor4) : res tensor4 :=
  mapM (conv2d_one cv) X.

(** ** Axis permutations and reshapes of rank-4 tensors

    Each acts on one batch element, a rank-3 tensor whose innermost lists
    are kept or rebuilt as the permutation requires. *)

(** [X.permute(0, 2, 1, 3)] on one batch element: (n, c, t) to (c, n, t). *)
Definition swap01 (x : tensor3) : tensor3 :=
  map (fun c => map (fun m => nth c m []) x) (seq 0 (length (hd [] x))).

(** [X.permute(0, 2, 3, 1)] on one batch element: (t, n, c) to (n, c, t). *)
Definition permute_120 (y : tensor3) : tensor3 :=
  map (fun n =>
         map (fun c => map (fun m => nth c (nth n m []) f0) y)
             (seq 0 (length (hd [] (hd [] y)))))
      (seq 0 (length (hd [] y))).

(** [X[:, :, :, t]]. *)
Definition select_last (t : nat) (X : tensor4) : tensor3 :=
  map (map (map (fun r => nth t r f0))) X.

(** [torch.cat([o.unsqueeze(-1) for o in outs], dim=-1)]: the tensors
    [outs], each of shape (b, n, c), side by side along a new last axis. *)
Definition stack_last (outs : list tensor3) : tensor4 :=
  let o0 := hd [] outs in
  map (fun b =>
         map (fun n =>
                map (fun c =>
                       map (fun o => nth c (nth n (nth b o []) []) f0) outs)
                    (seq 0 (size_feat o0)))
             (seq 0 (size_node o0)))
      (seq 0 (length o0)).

Definition relu4 (X : tensor4) : tensor4 := map (map (map (map relu))) X.

Definition tadd4 (X Y : tensor4) : tensor4 := map2 tadd X Y.

(** [x.reshape(-1, t)] on one batch element of shape (n, f, t), and back. *)
Definition flatten01 (x : tensor3) : mat := concat x.

Fixpoint chunks (f : nat) (k : nat) (m : mat) : tensor3 :=
  match k with
  | O => []
  | S k' => firstn f m :: chunks f k' (skipn f m)
  end.

(** ** The gated temporal convolution of stgcn.py *)

Record TemporalConv : Type := {
  conv_1 : Conv2d;
  conv_2 : Conv2d;
  conv_3 : Conv2d
}.

Section Block.

Variable pow_neg_half : fval -> fval.
Variable sigmoid : fval -> fval.
Variable exp : fval -> fval.

(** [TemporalConv.forward]: [relu(P * sigmoid(Q) + R)] for three
    convolutions [P], [Q], [R] of the input, between two
    [permute(0, 3, 2, 1)]. *)
Definition TemporalConv_forward (self : TemporalConv) (X : tensor4)
  : res tensor4 :=
  let X := map permute_210 X in
  P <- conv2d (conv_1 self) X ;;
  Q <- conv2d (conv_2 self) X ;;
  let Q := map (map (map (map sigmoid))) Q in
  let PQ := map2 (map2 hadamard) P Q in
  R <- conv2d (conv_3 self) X ;;
  let H := relu4 (tadd4 PQ R) in
  Ok (map permute_210 H).

(** ** ASTGCNBlock *)

(** [LaplacianLambdaMax()(data).lambda_max], the largest eigenvalue of the
    Laplacian, and [nn.LayerNorm] on one vector of channels; both are
    parameters. *)
Variable laplacian_lambda_max : edges -> nat -> fval.
Variable layer_norm : vec -> vec.

Record ASTGCNBlock : Type := {
  _temporal_attention : TemporalAttention;
  _spatial_attention : SpatialAttention;
  _chebconv_attention : ChebConvAttention;
  _time_convolution : Conv2d;
  _residual_convolution : Conv2d;
  _block_normalization : normalization     (* self._normalization *)
}.

(** The modules that [ASTGCNBlock.__init__] builds with
    [kernel_size=(1, 3), stride=(1, time_strides), padding=(0, 1)] and with
    [kernel_size=(1, 1), stride=(1, time_strides)]. *)
Definition time_convolution (w : list (list mat)) (b : vec)
  (time_strides : nat) : Conv2d :=
  {| cv_weight := w; cv_bias := b; cv_kernel_size := (1, 3);
     cv_stride := (1, time_strides); cv_padding := (0, 1) |}.

Definition residual_convolution (w : list (list mat)) (b : vec)
  (time_strides : nat) : Conv2d :=
  {| cv_weight := w; cv_bias := b; cv_kernel_size := (1, 1);
     cv_stride := (1, time_strides); cv_padding := (0, 0) |}.

(** [edge_index]: one edge list, or a Python list with one edge list per
    time step. *)
Inductive graph_input : Type :=
| Static (edge_index : edges)
| Dynamic (edge_index : list edges).

(** Steps (a) to (c): the spatial attention of the input reweighted by its
    temporal attention. *)
Definition block_attention (self : ASTGCNBlock) (X : tensor4) : tensor3 :=
  let num_of_vertices := length (hd [] X) in
  let num_of_features := length (hd [] (hd [] X)) in
  let X_tilde := TemporalAttention_forward sigmoid exp
                   (_temporal_attention self) X in
  let X_tilde := map2 matmul (map flatten01 X) X_tilde in
  let X_tilde := map (chunks num_of_features num_of_vertices) X_tilde in
  SpatialAttention_forward sigmoid exp (_spatial_attention self) X_tilde.

(** Step (d): the attention-Chebyshev convolution of every time step,
    concatenated along time and rectified. *)
Definition block_X_hat (self : ASTGCNBlock) (X : tensor4) (g : graph_input)
  : res tensor4 :=
  let num_of_vertices := length (hd [] X) in
  let num_of_timesteps := length (hd [] (hd [] (hd [] X))) in
  let X_tilde := block_attention self X in
  let lambda_of e :=
    if is_sym (_block_normalization self) then None
    else Some (Scalar (laplacian_lambda_max e num_of_vertices)) in
  X_hat <-
    mapM (fun t =>
            e <- match g with
                 | Static e => Ok e
                 | Dynamic es => index es t
                 end ;;
            forward pow_neg_half (_chebconv_attention self)
                    (select_last t X) e X_tilde None None (lambda_of e))
         (seq 0 num_of_timesteps) ;;
  Ok (relu4 (stack_last X_hat)).

(** Step (e): the time convolution of [X_hat.permute(0, 2, 1, 3)]. *)
Definition block_time_branch (self : ASTGCNBlock) (X_hat : tensor4)
  : res tensor4 :=
  conv2d (_time_convolution self) (map swap01 X_hat).

(** [ASTGCNBlock.forward]. *)
Definition ASTGCNBlock_forward (self : ASTGCNBlock) (X : tensor4)
  (g : graph_input) : res tensor4 :=
  X_hat <- block_X_hat self X g ;;
  X_hat <- block_time_branch self X_hat ;;
  Xr <- conv2d (_residual_convolution self) (map swap01 X) ;;
  let Y := map permute_210 (relu4 (tadd4 Xr X_hat)) in
  let Y := map (map (map layer_norm)) Y in
  Ok (map permute_120 Y).

End Block.

(** ** The time convolution, as the specification words it *)

(** The entry of a time row at padded position [k]: the row has one zero
    before its first entry and zeros after its last. *)
Definition tap (r : vec) (k : nat) : fval := nth k (f0 :: r) f0.

(** A convolution of kernel width 3 along time with stride [s], at output
    position [j]: [wo] holds one 1 by 3 kernel per input channel and
    [rows] the time row of every input channel. *)
Definition conv3_at (wo : list mat) (bo : fval) (s : nat) (rows : list vec)
  (j : nat) : fval :=
  fadd (vsum (map2 (fun wc r =>
                      mdot wc [[tap r (j * s); tap r (j * s + 1);
                                tap r (j * s + 2)]])
                   wo rows))
       bo.

(** The weights of a convolution are (o, c, kh, kw). *)
Definition is_kernel (o c kh kw : nat) (w : list (list mat)) : Prop :=
  length w = o /\ Forall (fun wo => length wo = c /\ Forall (is_mat kh kw) wo) w.

(** A float that [relu] leaves unchanged. *)
Definition rectified (a : fval) : Prop := relu a = a.

Definition all4 (P : fval -> Prop) (X : tensor4) : Prop :=
  Forall (Forall (Forall (Forall P))) X.

(** ** Tensors in a store

    For the effects of [forward] on its arguments every tensor lives at a
    location of a store.  An operation that builds a tensor allocates a new
    location; an in-place operation ([masked_fill_], [+=]) overwrites the
    content of a location and is recorded in the log [written].  The
    content of a tensor is read from the store when the tensor comes from
    the caller or from a callee, or may have been written since it was
    built. *)

Inductive tval : Type :=
| TFloat1 (v : vec)          (* float tensor, one axis *)
| TFloat2 (m : list vec)     (* float tensor, two axes *)
| TFloat3 (t : tensor3)      (* float tensor, three axes *)
| TEdges (e : edges)         (* long tensor of shape (2, E) *)
| TLong1 (l : list nat)      (* long tensor, one axis *)
| TLam (l : lam).            (* the tensor [lambda_max] *)

Record state : Type := {
  heap : list tval;
  written : list nat
}.

Definition M (A : Type) : Type := state -> res A * state.

Definition ret {A} (a : A) : M A := fun s => (Ok a, s).

Definition raise {A} (e : error) : M A := fun s => (Raise e, s).

Definition lift {A} (r : res A) : M A := fun s => (r, s).

Definition bindM {A B} (m : M A) (k : A -> M B) : M B :=
  fun s =>
    match m s with
    | (Ok a, s') => k a s'
    | (Raise e, s') => (Raise e, s')
    end.

Declare Scope store_scope.
Delimit Scope store_scope with store.
Notation "x <~ m ;; k" := (bindM m (fun x => k))
  (at level 61, m at next level, right associativity) : store_scope.
Notation "' pat <~ m ;; k" := (bindM m (fun x => match x with pat => k end))
  (at level 61, pat pattern, m at next level, right associativity)
  : store_scope.
Notation "m ;;; k" := (bindM m (fun _ => k))
  (at level 61, right associativity) : store_scope.
Open Scope store_scope.

(** The store [s] with one more tensor, of content [v]. *)
Definition grow (s : state) (v : tval) : state :=
  {| heap := heap s ++ [v]; written := written s |}.

(** A new tensor with content [v]. *)
Definition alloc (v : tval) : M nat :=
  fun s => (Ok (length (heap s)), grow s v).

Definition load (l : nat) : M tval := fun s => (index (heap s) l, s).

Fixpoint set_nth {A} (i : nat) (a : A) (l : list A) : list A :=
  match l, i with
  | [], _ => []
  | _ :: t, O => a :: t
  | x :: t, S i' => x :: set_nth i' a t
  end.

(** The store [s] after the tensor at [l] has been overwritten with
    [v]. *)
Definition overwrite (s : state) (l : nat) (v : tval) : state :=
  {| heap := set_nth l v (heap s); written := written s ++ [l] |}.

(** An in-place write to the tensor at [l]. *)
Definition store_ (l : nat) (v : tval) : M unit :=
  fun s =>
    if l <? length (heap s)
    then (Ok tt, overwrite s l v)
    else (Raise IndexError, s).

Definition load_float1 (l : nat) : M vec :=
  v <~ load l ;;
  match v with TFloat1 x => ret x | _ => raise TypeError end.

Definition load_float3 (l : nat) : M tensor3 :=
  v <~ load l ;;
  match v with TFloat3 x => ret x | _ => raise TypeError end.

Definition load_edges (l : nat) : M edges :=
  v <~ load l ;;
  match v with TEdges x => ret x | _ => raise TypeError end.

Definition load_long1 (l : nat) : M (list nat) :=
  v <~ load l ;;
  match v with TLong1 x => ret x | _ => raise TypeError end.

Definition load_lam (l : nat) : M lam :=
  v <~ load l ;;
  match v with TLam x => ret x | _ => raise TypeError end.

Definition load_opt_float1 (l : option nat) : M (option vec) :=
  match l with
  | None => ret None
  | Some l => v <~ load_float1 l ;; ret (Some v)
  end.

Definition alloc_opt_float1 (v : option vec) : M (option nat) :=
  match v with
  | None => ret None
  | Some v => l <~ alloc (TFloat1 v) ;; ret (Some l)
  end.

Fixpoint foldM_st {A B} (f : A -> B -> M A) (l : list B) (a : A) : M A :=
  match l with
  | [] => ret a
  | b :: l' => a' <~ f a b ;; foldM_st f l' a'
  end.

(** [lambda_max] as the caller passes it: a Python float or a tensor. *)
Inductive lam_arg : Type :=
| LamFloat (v : fval)
| LamTensor (l : nat).

Section StoreModel.

Variable pow_neg_half : fval -> fval.

(** [ChebConvAttention.__norm__] on locations. *)
Definition norm_st (edge_index : nat) (num_nodes : nat)
  (edge_weight : option nat) (norm : normalization) (lambda_max : nat)
  (batch : option nat) : M (nat * nat) :=
  ei <~ load_edges edge_index ;;
  ew <~ load_opt_float1 edge_weight ;;
  (* remove_self_loops: indexing by a mask builds new tensors *)
  let '(ei1, ew1) := remove_self_loops ei ew in
  edge_index <~ alloc (TEdges ei1) ;;
  edge_weight <~ alloc_opt_float1 ew1 ;;
  (* get_laplacian: its results are concatenations, new tensors *)
  ' (ei2, ew2) <~ lift (get_laplacian pow_neg_half ei1 ew1 norm num_nodes) ;;
  edge_index <~ alloc (TEdges ei2) ;;
  edge_weight <~ alloc (TFloat1 ew2) ;;
  lam <~ load_lam lambda_max ;;
  lambda_max <~
    match batch with
    | Some b =>
        if 1 <? numel lam
        then (bv <~ load_long1 b ;;
              i <~ lift (gather bv (map fst ei2)) ;;
              l' <~ lift (lam_index lam i) ;;
              alloc (TLam l'))
        else ret lambda_max
    | None => ret lambda_max
    end ;;
  lam <~ load_lam lambda_max ;;
  (* edge_weight = (2.0 * edge_weight) / lambda_max: a new tensor *)
  w <~ lift (div_lam (map (fmul f2) ew2) lam) ;;
  edge_weight <~ alloc (TFloat1 w) ;;
  (* edge_weight.masked_fill_(edge_weight == float('inf'), 0): in place *)
  store_ edge_weight (TFloat1 (mask_inf w)) ;;;
  w <~ load_float1 edge_weight ;;
  (* add_self_loops: concatenations, new tensors *)
  match add_self_loops ei2 (Some w) fm1 num_nodes with
  | (ei4, Some w4) =>
      edge_index <~ alloc (TEdges ei4) ;;
      edge_weight <~ alloc (TFloat1 w4) ;;
      ret (edge_index, edge_weight)
  | (_, None) => raise AssertionError
  end.

(** One turn of the loop of [forward]; [out] is a location and its
    content, the terms are contents of tensors that are never written. *)
Definition cheb_step_st (edge_index_transpose : edges) (norm : vec)
  (st : (nat * tensor3) * tensor3 * tensor3) (wk : mat)
  : M ((nat * tensor3) * tensor3 * tensor3) :=
  let '((out, outv), TAx_0, TAx_1) := st in
  TAx_2 <~ lift (propagate edge_index_transpose TAx_1 (Norm1 norm)) ;;
  _ <~ alloc (TFloat3 TAx_2) ;;
  let TAx_2 := tsub (tscale f2 TAx_2) TAx_0 in
  _ <~ alloc (TFloat3 TAx_2) ;;
  (* out = out + torch.matmul(TAx_2, self._weight[k]): a new tensor *)
  let outv := tadd outv (tmatmul TAx_2 wk) in
  out <~ alloc (TFloat3 outv) ;;
  ret ((out, outv), TAx_1, TAx_2).

(** [ChebConvAttention.forward] on locations; it returns the location of
    [out]. *)
Definition forward_st (self : ChebConvAttention)
  (x edge_index spatial_attention : nat) (edge_weight batch : option nat)
  (lambda_max : option lam_arg) : M nat :=
  if negb (is_sym (_normalization self)) && is_None lambda_max
  then raise ValueError
  else
    xv <~ load_float3 x ;;
    lambda_max <~
      match lambda_max with
      | None => alloc (TLam (Scalar f2))          (* torch.tensor(2.0) *)
      | Some (LamFloat v) => alloc (TLam (Scalar v))
      | Some (LamTensor l) => ret l               (* the caller's tensor *)
      end ;;
    ' (edge_index, norm) <~
       norm_st edge_index (size_node xv) edge_weight (_normalization self)
               lambda_max batch ;;
    ei <~ load_edges edge_index ;;
    normv <~ load_float1 norm ;;
    att <~ load_float3 spatial_attention ;;
    att_rc <~ lift (index_rc att (map fst ei) (map snd ei)) ;;
    let Att_norm := map (map2 fmul normv) att_rc in
    _ <~ alloc (TFloat2 Att_norm) ;;
    let TAx_0 := order0 att xv in
    _ <~ alloc (TFloat3 TAx_0) ;;
    w0 <~ lift (index (_weight self) 0) ;;
    let outv := tmatmul TAx_0 w0 in
    out <~ alloc (TFloat3 outv) ;;
    let edge_index_transpose := map swap ei in
    _ <~ alloc (TEdges edge_index_transpose) ;;
    ' (out, outv) <~
      match skipn 1 (_weight self) with
      | [] => ret (out, outv)
      | w1 :: ws =>
          TAx_1 <~ lift (propagate edge_index_transpose TAx_0
                                   (Norm2 Att_norm)) ;;
          _ <~ alloc (TFloat3 TAx_1) ;;
          let outv := tadd outv (tmatmul TAx_1 w1) in
          out <~ alloc (TFloat3 outv) ;;
          ' (o, _, _) <~
            foldM_st (cheb_step_st edge_index_transpose normv) ws
                     ((out, outv), TAx_0, TAx_1) ;;
          ret o
      end ;;
    match _bias self with
    | Some _ =>
        (* out += self._bias: in place *)
        store_ out (TFloat3 (add_bias (_bias self) outv)) ;;;
        ret out
    | None => ret out
    end.

End StoreModel.

(** The store [s'] extends [s]: the locations of [s] keep their content,
    and every location written since is a new one. *)
Definition extends (s s' : state) : Prop :=
  firstn (length (heap s)) (heap s') = heap s /\
  exists ws,
    written s' = written s ++ ws /\
    Forall (fun l => length (heap s) <= l) ws.

(** The content of location [l]. *)
Definition holds (s : state) (l : nat) (v : tval) : Prop :=
  nth_error (heap s) l = Some v.

Definition holds_opt (s : state) (l : option nat) (v : option vec) : Prop :=
  match l, v with
  | None, None => True
  | Some l, Some v => holds s l (TFloat1 v)
  | _, _ => False
  end.

Definition holds_long_opt (s : state) (l : option nat) (v : option (list nat))
  : Prop :=
  match l, v with
  | None, None => True
  | Some l, Some v => holds s l (TLong1 v)
  | _, _ => False
  end.

(** The content of [lambda_max], for a float and for a tensor. *)
Definition holds_lam (s : state) (a : option lam_arg) (v : option lam)
  : Prop :=
  match a, v with
  | None, None => True
  | Some (LamFloat x), Some (Scalar y) => x = y
  | Some (LamTensor l), Some v => holds s l (TLam v)
  | _, _ => False
  end.

(** Run from a store that extends [s0], the computation [m] ends in a store
    that extends [s0], and its result, if any, satisfies [Q]. *)
Definition keeps (s0 : state) {A} (m : M A) (Q : A -> Prop) : Prop :=
  forall s, extends s0 s ->
    extends s0 (snd (m s)) /\ forall a, fst (m s) = Ok a -> Q a.

(** A location that [s0] does not have. *)
Definition fresh (s0 : state) (l : nat) : Prop := length (heap s0) <= l.

(** Every tensor of [s] has the same content in [s']. *)
Definition mono (s s' : state) : Prop :=
  forall l v, holds s l v -> holds s' l v.
(** ** Rows of a weighted edge list *)

(** The weights that an edge list carries in row [i] (the edges whose first
    index is [i]), in order, and their sum: the entry [i] of the product of
    the sparse matrix with the vector of ones. *)
Definition row_weights (E : edges) (w : vec) (i : nat) : vec :=
  map snd (filter (fun ew => fst (fst ew) =? i) (combine E w)).

Definition row_sum (E : edges) (w : vec) (i : nat) : fval :=
  vsum (row_weights E w i).

(** The edge weights that [get_laplacian] works with: the given ones
    without those of the self-loops, or all [1]. *)
Definition weights_or_ones (E : edges) (ew : option vec) : vec :=
  match snd (remove_self_loops E ew) with
  | Some w => w
  | None => repeat f1 (length (no_loops E))
  end.

(** The degree of node [i]: the sum of the weights of the edges that are
    not self-loops and whose first index is [i]. *)
Definition degree (E : edges) (ew : option vec) (i : nat) : fval :=
  row_sum (no_loops E) (weights_or_ones E ew) i.

(** The given edge weights are finite. *)
Definition fin_weights (ew : option vec) : Prop :=
  match ew with
  | Some w => fin_vec w
  | None => True
  end.
(** ** The layers that the constructors build *)

(** [nn.Conv2d(in_channels, out_channels, (1, k))]: a kernel of height 1
    and width [k], with the default stride 1 and no padding. *)
Definition conv_1xk (w : list (list mat)) (b : vec) (k : nat) : Conv2d :=
  {| cv_weight := w; cv_bias := b; cv_kernel_size := (1, k);
     cv_stride := (1, 1); cv_padding := (0, 0) |}.

(** [TemporalConv.__init__(in_channels, out_channels, kernel_sizeatt)]:
    three convolutions of the same configuration, with whatever values
    their weights and biases are initialised to. *)
Definition TemporalConv_init (kernel_sizeatt : nat)
  (w1 w2 w3 : list (list mat)) (b1 b2 b3 : vec) : TemporalConv :=
  {| conv_1 := conv_1xk w1 b1 kernel_sizeatt;
     conv_2 := conv_1xk w2 b2 kernel_sizeatt;
     conv_3 := conv_1xk w3 b3 kernel_sizeatt |}.
(** ** What [ASTGCNBlock.__init__] builds

    The constructor draws the values of the parameters at random; their
    shapes, the configuration of the two convolutions and the normalization
    mode, which the block and its [ChebConvAttention] share, are fixed by
    its arguments.  [ChebConvAttention.__init__] asserts [K > 0]. *)
Record built_ASTGCNBlock (in_channels K nb_chev_filter nb_time_filter
  time_strides num_of_vertices num_of_timesteps : nat)
  (norm : normalization) (bias : bool) (self : ASTGCNBlock) : Prop := {
  built_temporal :
    shape_temporal num_of_vertices in_channels num_of_timesteps
                   (_temporal_attention self);
  built_spatial :
    shape_spatial num_of_vertices in_channels num_of_timesteps
                  (_spatial_attention self);
  built_K : 0 < K;
  built_weight :
    length (_weight (_chebconv_attention self)) = K /\
    Forall (is_mat in_channels nb_chev_filter)
           (_weight (_chebconv_attention self));
  built_bias :
    match _bias (_chebconv_attention self) with
    | Some bv => bias = true /\ length bv = nb_chev_filter
    | None => bias = false
    end;
  built_cheb_norm : _normalization (_chebconv_attention self) = norm;
  built_time :
    exists w b,
      _time_convolution self = time_convolution w b time_strides /\
      is_kernel nb_time_filter nb_chev_filter 1 3 w /\
      length b = nb_time_filter;
  built_residual :
    exists w b,
      _residual_convolution self = residual_convolution w b time_strides /\
      is_kernel nb_time_filter in_channels 1 1 w /\
      length b = nb_time_filter;
  built_norm : _block_normalization self = norm
}.

(** ** ASTGCN *)

(** A block with its [_layer_norm], which [ASTGCNBlock_forward] takes as an
    argument. *)
Record block_module : Type := {
  block : ASTGCNBlock;
  _layer_norm : vec -> vec
}.

Record ASTGCN : Type := {
  pred_len : nat;
  output_size : nat;
  _blocklist : list block_module;
  _final_conv : Conv2d
}.

(** [X.permute(0, 3, 1, 2)] on one batch element: (n, f, t) to (t, n, f). *)
Definition permute_201 (x : tensor3) : tensor3 :=
  map (fun t => map (map (fun r => nth t r f0)) x)
      (seq 0 (length (hd [] (hd [] x)))).

(** [r[-1]]; an empty [r] raises. *)
Definition last_entry (r : vec) : res fval :=
  match r with
  | [] => Raise IndexError
  | _ => Ok (last r f0)
  end.

(** [X[:, :, :, -1]]. *)
Definition select_final (X : tensor4) : res tensor3 :=
  mapM (mapM (mapM last_entry)) X.

(** [X.reshape(B, T_out, F_out, N_nodes)] of a rank-3 tensor: the entries
    are read in row-major order; a different number of entries raises. *)
Definition reshape4 (X : tensor3) (B T_out F_out N_nodes : nat)
  : res tensor4 :=
  let flat := concat (concat X) in
  if length flat =? B * T_out * F_out * N_nodes
  then
    Ok (map (fun b =>
               map (fun t =>
                      map (fun f =>
                             map (fun n =>
                                    nth (((b * T_out + t) * F_out + f)
                                         * N_nodes + n) flat f0)
                                 (seq 0 N_nodes))
                          (seq 0 F_out))
                   (seq 0 T_out))
            (seq 0 B))
  else Raise RuntimeError.

(** [X.permute(1, 0, 3, 2)] of a tensor of shape (b, t, f, n). *)
Definition permute_1032 (X : tensor4) (b t f n : nat) : tensor4 :=
  map (fun t' =>
         map (fun b' =>
                map (fun n' =>
                       map (fun f' =>
                              nth n' (nth f' (nth t' (nth b' X []) []) []) f0)
                           (seq 0 f))
                    (seq 0 n))
             (seq 0 b))
      (seq 0 t).

Section Network.

Variable pow_neg_half : fval -> fval.
Variable sigmoid : fval -> fval.
Variable exp : fval -> fval.
Variable laplacian_lambda_max : edges -> nat -> fval.

(** The loop [for block in self._blocklist: X = block(X, edge_index)]. *)
Definition run_blocks (blocks : list block_module) (X : tensor4)
  (edge_index : graph_input) : res tensor4 :=
  foldM (fun X blk =>
           ASTGCNBlock_forward pow_neg_half sigmoid exp laplacian_lambda_max
                               (_layer_norm blk) (block blk) X edge_index)
        blocks X.

(** [ASTGCN.forward]. *)
Definition ASTGCN_forward (self : ASTGCN) (X : tensor4)
  (edge_index : graph_input) : res tensor4 :=
  let B := length X in
  let N_nodes := length (hd [] X) in
  let F_out := output_size self in
  let T_out := pred_len self in
  X <- run_blocks (_blocklist self) X edge_index ;;
  X <- conv2d (_final_conv self) (map permute_201 X) ;;
  X <- select_final X ;;
  X <- reshape4 X B T_out F_out N_nodes ;;
  Ok (permute_1032 X B T_out F_out N_nodes).

End Network.

(** What [ASTGCN.__init__] builds: a first block for the input, with the
    given time stride, [nb_block - 1] more blocks on its output, with
    stride 1, and a final convolution over the whole feature axis. *)
Record built_ASTGCN (nb_block input_size out_size max_view nb_chev_filter
  nb_time_filter time_strides pred seq_len num_of_nodes : nat)
  (norm : normalization) (bias : bool) (self : ASTGCN) : Prop := {
  built_pred_len : pred_len self = pred;
  built_output_size : output_size self = out_size;
  built_blocks :
    exists first rest,
      _blocklist self = first :: rest /\
      length rest = nb_block - 1 /\
      built_ASTGCNBlock input_size max_view nb_chev_filter nb_time_filter
        time_strides num_of_nodes seq_len norm bias (block first) /\
      Forall (fun blk =>
                built_ASTGCNBlock nb_time_filter max_view nb_chev_filter
                  nb_time_filter 1 num_of_nodes (seq_len / time_strides)
                  norm bias (block blk))
             rest;
  built_final_conv :
    exists w b,
      _final_conv self = conv_1xk w b nb_time_filter /\
      is_kernel (pred * out_size) (seq_len / time_strides) 1 nb_time_filter
                w /\
      length b = pred * out_size
}.

(** The edge lists that a block reads on an input of [t] time steps name
    nodes below [n]; a list of edge lists has an entry for each of the
    steps. *)
Definition valid_graph (n t : nat) (g : graph_input) : Prop :=
  match g with
  | Static e => valid_edges n e
  | Dynamic es => t <= length es /\ Forall (valid_edges n) (firstn t es)
  end.
(** ** The exceptions of a computation *)

(** Every exception that [m] can raise satisfies [P]. *)
Definition raises_only {A} (P : error -> Prop) (m : res A) : Prop :=
  forall e, m = Raise e -> P e.

Definition not_ValueError (e : error) : Prop := e <> ValueError.
(** ** Non-negative weights *)

(** A finite float that is not negative. *)
Definition nonneg (a : fval) : Prop :=
  exists q, a = Fin q /\ (Q2Qc 0 <= q)%Qc.

Definition nonneg_weights (ew : option vec) : Prop :=
  match ew with
  | Some w => Forall nonneg w
  | None => True
  end.

(** What the development needs of [pow(-0.5)]: on a finite number that is
    not negative it is finite or [+inf] (as it is at zero). *)
Definition pow_neg_half_total (pow_neg_half : fval -> fval) : Prop :=
  forall q, (Q2Qc 0 <= q)%Qc ->
    pow_neg_half (Fin q) = PInf \/ is_fin (pow_neg_half (Fin q)) = true.
(** ** The residual convolution and the layer normalization, entry by
    entry *)

(** A convolution of kernel 1 by 1 at one position: [wo] holds one 1 by 1
    kernel per input channel and [xs] the entry of every input channel. *)
Definition conv1_at (wo : list mat) (bo : fval) (xs : vec) : fval :=
  fadd (vsum (map2 (fun wc x => mdot wc [[x]]) wo xs)) bo.

(** The vector over the channels of a tensor [S] of shape (o, n, t) at node
    [i] and time [j]. *)
Definition channel_vector (S : tensor3) (i j : nat) : vec :=
  map (fun m => nth j (nth i m []) f0) S.
(** ** STGCN *)

(** [ChebConv] of torch_geometric and [nn.BatchNorm2d] are layers of
    libraries: the network holds them as the functions that they compute,
    [ChebConv] on one graph signal of shape (n, c) and [BatchNorm2d] on a
    batch of shape (b, n, t, c).  Both may raise. *)
Record STGCN : Type := {
  _temporal_conv1 : TemporalConv;
  _graph_conv : mat -> edges -> option vec -> res mat;
  _temporal_conv2 : TemporalConv;
  _batch_norm : tensor4 -> res tensor4
}.

(** Broadcasting along one axis to length [n]: a list of this length is
    kept, a single entry is repeated, any other length raises. *)
Definition expand_to {A} (n : nat) (l : list A) : res (list A) :=
  if length l =? n then Ok l
  else match l with
       | [a] => Ok (repeat a n)
       | _ => Raise RuntimeError
       end.

(** [T[b][t] = y] for a slot of shape (n, m). *)
Definition assign_slot (n m : nat) (y : mat) : res mat :=
  rows <- mapM (expand_to m) y ;;
  expand_to n rows.

(** [T.permute(3, 0, 1, 2)[..., -1]] of a tensor of shape (b, n, t, c): the
    entries of the last step, of shape (c, b, n). *)
Definition last_step_channels (T : tensor4) : res tensor3 :=
  if length (hd [] (hd [] T)) =? 0 then Raise IndexError
  else
    Ok (map (fun c => map (map (fun steps => nth c (last steps []) f0)) T)
            (seq 0 (length (hd [] (hd [] (hd [] T)))))).

(** [U.reshape(a, b, c, -1)] of a rank-3 tensor: the last size is the
    number of entries divided by [a * b * c], and the entries are read in
    row-major order; torch raises when the division is not exact or is by
    zero. *)
Definition reshape_infer (U : tensor3) (a b c : nat) : res tensor4 :=
  let flat := concat (concat U) in
  let known := a * b * c in
  if (known =? 0) || negb (length flat mod known =? 0)
  then Raise RuntimeError
  else
    let m := length flat / known in
    Ok (map (fun i =>
               map (fun j =>
                      map (fun k =>
                             map (fun l =>
                                    nth (((i * b + j) * c + k) * m + l)
                                        flat f0)
                                 (seq 0 m))
                          (seq 0 c))
                   (seq 0 b))
            (seq 0 a)).

Section SpatioTemporal.

Variable sigmoid : fval -> fval.

(** One pass of the loop body [T[b][t] = self._graph_conv(T_0[b][t],
    edge_index, edge_weight)]; [T] has the shape of [T_0]. *)
Definition STGCN_graph_step (self : STGCN) (edge_index : edges)
  (edge_weight : option vec) (x : mat) : res mat :=
  y <- _graph_conv self x edge_index edge_weight ;;
  assign_slot (nrows x) (ncols x) y.

(** [STGCN.forward] up to the batch normalization. *)
Definition STGCN_features (self : STGCN) (X : tensor4) (edge_index : edges)
  (edge_weight : option vec) : res tensor4 :=
  let X := map permute_201 X in
  T_0 <- TemporalConv_forward sigmoid (_temporal_conv1 self) X ;;
  T <- mapM (mapM (STGCN_graph_step self edge_index edge_weight)) T_0 ;;
  let T := relu4 T in
  T <- TemporalConv_forward sigmoid (_temporal_conv2 self) T ;;
  _batch_norm self (map swap01 T).

(** [STGCN.forward]. *)
Definition STGCN_forward (self : STGCN) (X : tensor4) (edge_index : edges)
  (edge_weight : option vec) : res tensor4 :=
  let Xp := map permute_201 X in
  let batch_size := length Xp in
  let seq_len := length (hd [] Xp) in
  let num_of_nodes := length (hd [] (hd [] Xp)) in
  T <- STGCN_features self X edge_index edge_weight ;;
  U <- last_step_channels T ;;
  reshape_infer U seq_len batch_size num_of_nodes.

End SpatioTemporal.

(** A gated convolution as [TemporalConv.__init__] builds it. *)
Definition built_TemporalConv (in_channels out_channels kernel_sizeatt : nat)
  (tc : TemporalConv) : Prop :=
  exists w1 w2 w3 b1 b2 b3,
    tc = TemporalConv_init kernel_sizeatt w1 w2 w3 b1 b2 b3 /\
    is_kernel out_channels in_channels 1 kernel_sizeatt w1 /\
    is_kernel out_channels in_channels 1 kernel_sizeatt w2 /\
    is_kernel out_channels in_channels 1 kernel_sizeatt w3 /\
    length b1 = out_channels /\ length b2 = out_channels /\
    length b3 = out_channels.

(** What [STGCN.__init__] builds: a gated convolution from the input to
    the hidden channels and one from the hidden channels to
    [output_size * pred_len] channels. *)
Record built_STGCN (input_size hidden_units out_size kernel_sizeatt
  pred : nat) (self : STGCN) : Prop := {
  built_conv1 :
    built_TemporalConv input_size hidden_units kernel_sizeatt
                       (_temporal_conv1 self);
  built_conv2 :
    built_TemporalConv hidden_units (out_size * pred) kernel_sizeatt
                       (_temporal_conv2 self)
}.

(** ** A computable [pow(-0.5)]

    Used to run the model on concrete graphs: exact on the squares of
    rationals, truncated to thirty binary digits elsewhere. *)

Definition is_square (z : Z) : bool := (Z.sqrt z * Z.sqrt z =? z)%Z.

Definition pow_neg_half_approx (a : fval) : fval :=
  match a with
  | Fin q =>
      match sgn q with
      | Eq => PInf
      | Lt => NaN
      | Gt =>
          let n := Qnum (this q) in
          let d := Zpos (Qden (this q)) in
          if is_square n && is_square d
          then Fin (Q2Qc (Qmake (Z.sqrt d) (Z.to_pos (Z.sqrt n))))
          else Fin (Q2Qc (Qmake (Z.sqrt (d * 2 ^ 60 / n)) (2 ^ 30)))
      end
  | PInf => f0
  | NInf => NaN
  | NaN => NaN
  end.

(** [masked_fill_(t == inf, 0)] on one entry. *)
Definition clamp_inf (a : fval) : fval := if feqb a PInf then f0 else a.

(** ** A small instance

    One batch element, two nodes joined by the edges [0 -> 1] and [1 -> 0],
    one input and one output channel. *)

Definition num (z : Z) : fval := Fin (Q2Qc (inject_Z z)).

Definition ex_x : tensor3 := [[[num 1]; [num 2]]].

Definition ex_att : tensor3 := [[[num 1; num 2]; [num 3; num 4]]].

Definition ex_edges : edges := [(0, 1); (1, 0)].

(** The edge list and weights that [__norm__] returns on [ex_edges] with
    symmetric normalization and the default [lambda_max]. *)
Definition ex_norm_edges : edges :=
  [(0, 1); (1, 0); (0, 0); (1, 1); (0, 0); (1, 1)].

Definition ex_norm_weights : vec := [fm1; fm1; f1; f1; fm1; fm1].

(** Layers of order 1, 2 and 3 over the same first weight slices. *)
Definition ex_conv1 : ChebConvAttention :=
  {| _normalization := NormSym;
     _weight := [[[num 1]]];
     _bias := Some [num 1] |}.

Definition ex_conv3 : ChebConvAttention :=
  {| _normalization := NormSym;
     _weight := [[[num 1]]; [[num 2]]; [[num 3]]];
     _bias := Some [num 1] |}.

(** The same layer without normalization, whose [forward] needs
    [lambda_max]. *)
Definition ex_conv1_none : ChebConvAttention :=
  {| _normalization := NormNone;
     _weight := [[[num 1]]];
     _bias := Some [num 1] |}.

(** What [spatial_attention[:, row, col]] is on [ex_att] for the edges
    [ex_norm_edges]. *)
Definition ex_att_rc : list vec := [[num 2; num 3; num 1; num 4; num 1; num 4]].

(** ** Computable stand-ins for [exp] and [sigmoid]

    Used to run the attention layers on concrete inputs.  The stand-in for
    [exp] is [1 + q] above zero and [1 / (1 - q)] below, which is positive
    and increasing; the sigmoid is [1 / (1 + exp (-x))] over it. *)

Definition exp_approx (a : fval) : fval :=
  match a with
  | Fin q =>
      match sgn q with
      | Gt => Fin (Q2Qc 1 + q)%Qc
      | _ => Fin (Q2Qc 1 / (Q2Qc 1 - q))%Qc
      end
  | PInf => PInf
  | NInf => f0
  | NaN => NaN
  end.

Definition sigmoid_approx (a : fval) : fval :=
  fdiv f1 (fadd f1 (exp_approx (fneg a))).

(** One batch element, two nodes, one channel, two time steps. *)
Definition ex_X : tensor4 := [[[[num 1; num 2]]; [[num 3; num 4]]]].

Definition ex_spatial : SpatialAttention :=
  {| _W1 := [num 1; num 0];
     _W2 := [[num 1; num 1]];
     _W3 := [num 1];
     _bs := [[[num 0; num 0]; [num 0; num 0]]];
     _Vs := [[num 1; num 0]; [num 0; num 1]] |}.

Definition ex_temporal : TemporalAttention :=
  {| _U1 := [num 1; num 1];
     _U2 := [[num 1; num 0]];
     _U3 := [num 1];
     _be := [[[num 0; num 0]; [num 0; num 0]]];
     _Ve := [[num 1; num 0]; [num 0; num 1]] |}.

(** ** A small block

    One node, one channel, two time steps; the time convolution has the
    kernel [0, -1, 0], no bias and stride 1. *)

Definition ex_time_convolution : Conv2d :=
  time_convolution [[[[num 0; num (-1); num 0]]]] [num 0] 1.

Definition ex_block : ASTGCNBlock :=
  {| _temporal_attention := ex_temporal;
     _spatial_attention := ex_spatial;
     _chebconv_attention := ex_conv1;
     _time_convolution := ex_time_convolution;
     _residual_convolution := residual_convolution [[[[num 1]]]] [num 0] 1;
     _block_normalization := NormSym |}.

(** A rectified tensor of shape (batch 1, node 1, channel 1, time 2). *)
Definition ex_X_hat : tensor4 := [[[[num 1; num 2]]]].

(** A store with the three tensors of the small instance, at the
    locations 0, 1 and 2. *)
Definition ex_store : state :=
  {| heap := [TFloat3 ex_x; TEdges ex_edges; TFloat3 ex_att];
     written := [] |}.
(** ** A small sequence for the temporal convolution

    One batch element, four time steps, one node and one channel; the
    kernels have width 3. *)

Definition ex_seq : tensor4 :=
  [[[[num 1]]; [[num (-2)]]; [[num 3]]; [[num 5]]]].

Definition ex_kernel : list (list mat) := [[[[num 1; num 0; num (-1)]]]].

Definition ex_tconv : TemporalConv :=
  TemporalConv_init 3 ex_kernel ex_kernel ex_kernel [num 0] [num 0] [num 1].
(** ** A small network

    Two blocks on the small input (two nodes, one channel, two time steps),
    each with the identity in the place of its layer normalization, and a
    final convolution with two output channels, for two prediction steps
    of one feature. *)

Definition ex_module : block_module :=
  {| block := ex_block; _layer_norm := fun v => v |}.

Definition ex_net : ASTGCN :=
  {| pred_len := 2;
     output_size := 1;
     _blocklist := [ex_module; ex_module];
     _final_conv :=
       conv_1xk [[[[num 1]]; [[num 0]]]; [[[num 0]]; [[num 1]]]]
                [num 0; num 0] 1 |}.
(** ** A small STGCN

    One input channel, one hidden channel, kernels of width 2 and
    [output_size * pred_len = 2 * 3] channels after the second gated
    convolution; the graph convolution and the batch normalization of the
    example return their argument.  The inputs have two batch elements and
    one node, with three, four and six time steps. *)

Definition ex_stgcn : STGCN :=
  {| _temporal_conv1 :=
       TemporalConv_init 2 [[[[num 1; num 1]]]] [[[[num 1; num 0]]]]
                         [[[[num 0; num 1]]]] [num 0] [num 0] [num 1];
     _graph_conv := fun x _ _ => Ok x;
     _temporal_conv2 :=
       TemporalConv_init 2
         [[[[num 1; num 0]]]; [[[num 0; num 1]]]; [[[num 1; num 1]]];
          [[[num 2; num 0]]]; [[[num 0; num 2]]]; [[[num 2; num 1]]]]
         [[[[num 0; num 0]]]; [[[num 0; num 0]]]; [[[num 0; num 0]]];
          [[[num 0; num 0]]]; [[[num 0; num 0]]]; [[[num 0; num 0]]]]
         [[[[num 0; num 0]]]; [[[num 0; num 0]]]; [[[num 0; num 0]]];
          [[[num 0; num 0]]]; [[[num 0; num 0]]]; [[[num 0; num 0]]]]
         [num 0; num 0; num 0; num 0; num 0; num 0]
         [num 0; num 0; num 0; num 0; num 0; num 0]
         [num 1; num 2; num 3; num 4; num 5; num 6];
     _batch_norm := fun T => Ok T |}.

Definition ex_steps3 : tensor4 :=
  [[[[num 1; num 2; num 3]]]; [[[num 4; num 5; num 6]]]].

Definition ex_steps4 : tensor4 :=
  [[[[num 1; num 2; num 3; num 4]]]; [[[num 5; num 6; num 7; num 8]]]].

Definition ex_steps6 : tensor4 :=
  [[[[num 1; num 2; num 3; num 4; num 5; num 6]]];
   [[[num 6; num 5; num 4; num 3; num 2; num 1]]]].

(** * Properties *)

(** ** Evaluation on concrete inputs *)

Lemma fval_eqb_sound (a b : fval) : fval_eqb a b = true -> a = b.
Proof.
  destruct a as [p| | |], b as [q| | |]; simpl; try discriminate; auto.
  intros H. f_equal. apply Qc_is_canon. now apply Qeq_bool_eq.
Qed.

(** Closes an equation between closed terms of the model: both sides are
    evaluated, and rationals are compared by value. *)
Ltac eval_eq :=
  vm_compute;
  repeat first [ reflexivity | apply Qc_is_canon; reflexivity | f_equal ].

(** Linear arithmetic over lengths of tensors, whatever name their type
    goes by. *)
Ltac llia := unfold tensor4, tensor3, mat, vec in *; lia.

(** ** The error monad *)

Lemma bind_ok {A B} (m : res A) (k : A -> res B) (b : B) :
  bind m k = Ok b -> exists a, m = Ok a /\ k a = Ok b.
Proof. destruct m; simpl; [eauto | discriminate]. Qed.

Lemma mapM_ok {A B} (f : A -> res B) (g : A -> B) (l : list A) :
  Forall (fun a => f a = Ok (g a)) l -> mapM f l = Ok (map g l).
Proof.
  induction 1 as [|a l Ha _ IH]; simpl; [reflexivity|].
  now rewrite Ha, IH.
Qed.

Lemma mapM_inv {A B} (f : A -> res B) (l : list A) (l' : list B) :
  mapM f l = Ok l' -> Forall2 (fun a b => f a = Ok b) l l'.
Proof.
  revert l'. induction l as [|a l IH]; simpl; intros l' H.
  - injection H as <-. constructor.
  - destruct (f a) as [b|e] eqn:Hb; simpl in H; [|discriminate].
    destruct (mapM f l) as [bs|e] eqn:Hbs; simpl in H; [|discriminate].
    injection H as <-. constructor; auto.
Qed.

Lemma mapM_ext {A B} (f g : A -> res B) (l : list A) :
  Forall (fun a => f a = g a) l -> mapM f l = mapM g l.
Proof.
  induction 1 as [|a l Ha _ IH]; simpl; [reflexivity|].
  now rewrite Ha, IH.
Qed.

Lemma index_ok {A} (d : A) (t : list A) (i : nat) :
  i < length t -> index t i = Ok (nth i t d).
Proof.
  intros H. unfold index.
  destruct (nth_error t i) as [a|] eqn:Hn.
  - f_equal. symmetry. now apply nth_error_nth.
  - apply nth_error_None in Hn. lia.
Qed.

Lemma index_inv {A} (d : A) (t : list A) (i : nat) (a : A) :
  index t i = Ok a -> i < length t /\ a = nth i t d.
Proof.
  unfold index. destruct (nth_error t i) as [a'|] eqn:Hn; [|discriminate].
  intros H; injection H as <-. split.
  - apply nth_error_Some. congruence.
  - symmetry. now apply nth_error_nth.
Qed.

Lemma gather_ok {A} (d : A) (t : list A) (idx : list nat) :
  Forall (fun i => i < length t) idx ->
  gather t idx = Ok (map (fun i => nth i t d) idx).
Proof.
  intros H. apply mapM_ok. eapply Forall_impl; [|exact H].
  intros i Hi. now apply index_ok.
Qed.

(** ** Lists *)

Lemma map2_length {A B C} (f : A -> B -> C) (l : list A) (l' : list B) :
  length (map2 f l l') = Nat.min (length l) (length l').
Proof.
  revert l'. induction l as [|a l IH]; intros [|b l']; simpl; auto.
Qed.

Lemma map2_combine {A B C} (f : A -> B -> C) (l : list A) (l' : list B) :
  map2 f l l' = map (fun p => f (fst p) (snd p)) (combine l l').
Proof.
  revert l'. induction l as [|a l IH]; intros [|b l']; simpl; auto.
  now rewrite IH.
Qed.

Lemma map2_map_l {A A' B C} (f : A' -> B -> C) (g : A -> A')
  (l : list A) (l' : list B) :
  map2 f (map g l) l' = map2 (fun a b => f (g a) b) l l'.
Proof.
  revert l'. induction l as [|a l IH]; intros [|b l']; simpl; auto.
  now rewrite IH.
Qed.

Lemma map2_map_r {A B B' C} (f : A -> B' -> C) (g : B -> B')
  (l : list A) (l' : list B) :
  map2 f l (map g l') = map2 (fun a b => f a (g b)) l l'.
Proof.
  revert l'. induction l as [|a l IH]; intros [|b l']; simpl; auto.
  now rewrite IH.
Qed.

Lemma map2_ext_in {A B C} (f g : A -> B -> C) (l : list A) (l' : list B) :
  (forall a b, In (a, b) (combine l l') -> f a b = g a b) ->
  map2 f l l' = map2 g l l'.
Proof.
  revert l'. induction l as [|a l IH]; intros [|b l'] H; simpl; auto.
  f_equal.
  - apply H. now left.
  - apply IH. intros a' b' Hin. apply H. now right.
Qed.

Lemma combine_map_l {A A' B} (g : A -> A') (l : list A) (l' : list B) :
  combine (map g l) l' = map (fun p => (g (fst p), snd p)) (combine l l').
Proof.
  revert l'. induction l as [|a l IH]; intros [|b l']; simpl; auto.
  now rewrite IH.
Qed.

Lemma combine_map2_r {A B C D} (f : B -> C -> D)
  (l : list A) (l1 : list B) (l2 : list C) :
  combine l (map2 f l1 l2) =
  map (fun p => (fst (fst p), f (snd (fst p)) (snd p)))
      (combine (combine l l1) l2).
Proof.
  revert l1 l2.
  induction l as [|a l IH]; intros [|b l1] [|c l2]; simpl; auto.
  now rewrite IH.
Qed.

Lemma filter_map_comm {A B} (g : A -> B) (p : B -> bool) (l : list A) :
  filter p (map g l) = map g (filter (fun a => p (g a)) l).
Proof.
  induction l as [|a l IH]; simpl; [reflexivity|].
  destruct (p (g a)); simpl; now rewrite IH.
Qed.

(** ** Scattering

    Adding the entries one at a time into an accumulator gives, at each
    position, the start value plus the entries sent there, in order. *)

Lemma add_at_ok {A} (add : A -> A -> A) (d : A) (i : nat) (v : A)
  (acc : list A) :
  i < length acc ->
  exists acc',
    add_at add i v acc = Ok acc' /\ length acc' = length acc /\
    forall k, nth k acc' d =
              if i =? k then add (nth k acc d) v else nth k acc d.
Proof.
  revert i. induction acc as [|a acc IH]; intros i Hi; simpl in *; [lia|].
  destruct i as [|i]; simpl.
  - eexists; split; [reflexivity|]. split; [reflexivity|].
    intros [|k]; reflexivity.
  - destruct (IH i) as (acc' & -> & Hlen & Hnth); [lia|]. simpl.
    eexists; split; [reflexivity|]. split; [simpl; congruence|].
    intros [|k]; simpl; [reflexivity|apply Hnth].
Qed.

Lemma add_at_inv {A} (add : A -> A -> A) (i : nat) (v : A)
  (acc acc' : list A) :
  add_at add i v acc = Ok acc' -> i < length acc.
Proof.
  revert i acc'. induction acc as [|a acc IH]; intros i acc' H.
  - destruct i; discriminate.
  - destruct i as [|i]; simpl in *; [lia|].
    destruct (add_at add i v acc) eqn:E; simpl in H; [|discriminate].
    apply IH in E. lia.
Qed.

Lemma scatter_add_ok {A} (add : A -> A -> A) (d : A)
  (l : list (nat * A)) (init : list A) :
  Forall (fun iv => fst iv < length init) l ->
  exists r,
    foldM (fun acc iv => add_at add (fst iv) (snd iv) acc) l init = Ok r /\
    length r = length init /\
    forall k, nth k r d = fold_left add (sent_to k l) (nth k init d).
Proof.
  revert init. induction l as [|[i v] l IH]; intros init H; simpl.
  - eexists; split; [reflexivity|]. split; reflexivity.
  - inversion H as [|? ? Hi Hl]; subst. simpl in Hi.
    destruct (add_at_ok add d i v init Hi) as (acc' & -> & Hlen & Hnth).
    simpl. destruct (IH acc') as (r & -> & Hlen' & Hnth').
    { rewrite Hlen. exact Hl. }
    eexists; split; [reflexivity|]. split; [congruence|].
    intros k. rewrite Hnth', Hnth. unfold sent_to. simpl.
    destruct (i =? k); reflexivity.
Qed.

Lemma scatter_add_inv {A} (add : A -> A -> A)
  (l : list (nat * A)) (init r : list A) :
  foldM (fun acc iv => add_at add (fst iv) (snd iv) acc) l init = Ok r ->
  Forall (fun iv => fst iv < length init) l.
Proof.
  revert init. induction l as [|[i v] l IH]; intros init H; simpl in *.
  - constructor.
  - destruct (add_at add i v init) as [acc'|] eqn:E; simpl in H;
      [|discriminate].
    pose proof (add_at_inv _ _ _ _ _ E) as Hi.
    destruct (add_at_ok add v i v init Hi) as (acc2 & E2 & Hlen & _).
    rewrite E in E2. injection E2 as <-.
    constructor; [exact Hi|].
    apply IH in H. rewrite Hlen in H. exact H.
Qed.

(** ** Laplacian normalization *)

Lemma mask_select_filter {A} (p : A -> bool) (l : list A) :
  mask_select (map p l) l = filter p l.
Proof.
  induction l as [|a l IH]; simpl; [reflexivity|].
  destruct (p a); now rewrite IH.
Qed.

Lemma mask_select_length {A B} (p : A -> bool) (l : list A) (l' : list B) :
  length l' = length l ->
  length (mask_select (map p l) l') = length (filter p l).
Proof.
  revert l'. induction l as [|a l IH]; intros [|b l'] H; simpl in *;
    try discriminate; auto.
  destruct (p a); simpl; rewrite IH; auto.
Qed.

Lemma mask_select_all {A B} (p : A -> bool) (l : list A) (l' : list B) :
  Forall (fun a => p a = true) l -> length l' = length l ->
  mask_select (map p l) l' = l'.
Proof.
  intros H. revert l'.
  induction H as [|a l Ha _ IH]; intros [|b l'] Hl; simpl in *;
    try discriminate; auto.
  rewrite Ha, IH; auto.
Qed.

Lemma remove_self_loops_fst (E : edges) (w : option vec) :
  fst (remove_self_loops E w) = no_loops E.
Proof. unfold remove_self_loops. simpl. apply mask_select_filter. Qed.

Lemma no_loops_spec (E : edges) :
  Forall (fun e => negb (fst e =? snd e) = true) (no_loops E).
Proof.
  apply Forall_forall. intros e He. apply filter_In in He. tauto.
Qed.

Lemma no_loops_valid (n : nat) (E : edges) :
  valid_edges n E -> valid_edges n (no_loops E).
Proof.
  unfold valid_edges. rewrite !Forall_forall. intros H e He.
  apply H. apply filter_In in He. tauto.
Qed.

Lemma remove_self_loops_weights (E : edges) (w : option vec) :
  weights_ok E w ->
  weights_ok (no_loops E) (snd (remove_self_loops E w)).
Proof.
  destruct w as [v|]; simpl; [|trivial].
  intros H. now apply mask_select_length.
Qed.

(** Removing self-loops twice is removing them once. *)
Lemma remove_self_loops_idem (E : edges) (w : option vec) :
  weights_ok E w ->
  remove_self_loops (fst (remove_self_loops E w)) (snd (remove_self_loops E w))
  = remove_self_loops E w.
Proof.
  intros Hw. pose proof (remove_self_loops_weights E w Hw) as Hw'.
  pose proof (no_loops_spec E) as Hn.
  unfold remove_self_loops in *. simpl in *.
  rewrite (mask_select_filter _ E). fold (no_loops E).
  f_equal.
  - rewrite mask_select_filter. apply forallb_filter_id.
    apply forallb_forall. apply Forall_forall. exact Hn.
  - destruct w as [v|]; simpl in *; [|reflexivity].
    f_equal. apply mask_select_all; assumption.
Qed.

Lemma loop_index_length (n : nat) : length (loop_index n) = n.
Proof. unfold loop_index. now rewrite length_map, length_seq. Qed.

Lemma loop_index_valid (n : nat) : valid_edges n (loop_index n).
Proof.
  unfold valid_edges, loop_index. apply Forall_forall. intros e He.
  apply in_map_iff in He. destruct He as (i & <- & Hi).
  apply in_seq in Hi. simpl. lia.
Qed.

Lemma valid_edges_app (n : nat) (E E' : edges) :
  valid_edges n E -> valid_edges n E' -> valid_edges n (E ++ E').
Proof. unfold valid_edges. intros. apply Forall_app. auto. Qed.

Lemma zeros_length (n : nat) : length (zeros n) = n.
Proof. apply repeat_length. Qed.

Lemma mask_inf_length (t : vec) : length (mask_inf t) = length t.
Proof.
  unfold mask_inf, masked_fill.
  rewrite map2_length, length_map. lia.
Qed.

Lemma scatter_ok (src : vec) (idx : list nat) (n : nat) :
  Forall (fun i => i < n) idx ->
  exists deg, scatter src idx n = Ok deg /\ length deg = n.
Proof.
  intros H. unfold scatter, scatter_add.
  destruct (scatter_add_ok fadd f0 (combine idx src) (zeros n))
    as (r & Hr & Hlen & _).
  - rewrite zeros_length. apply Forall_forall. intros [i v] Hin.
    apply in_combine_l in Hin. rewrite Forall_forall in H. now apply H.
  - exists r. split; [exact Hr|]. now rewrite Hlen, zeros_length.
Qed.

Section LaplacianFacts.

Variable pow_neg_half : fval -> fval.

Lemma valid_edges_rows (n : nat) (E : edges) :
  valid_edges n E -> Forall (fun i => i < n) (map fst E).
Proof.
  unfold valid_edges. intros H. apply Forall_map.
  eapply Forall_impl; [|exact H]. simpl. tauto.
Qed.

Lemma valid_edges_cols (n : nat) (E : edges) :
  valid_edges n E -> Forall (fun i => i < n) (map snd E).
Proof.
  unfold valid_edges. intros H. apply Forall_map.
  eapply Forall_impl; [|exact H]. simpl. tauto.
Qed.

Lemma gather_length {A} (t : list A) (idx : list nat) (r : list A) :
  gather t idx = Ok r -> length r = length idx.
Proof.
  intros H. apply mapM_inv in H.
  symmetry. eapply Forall2_length. exact H.
Qed.

Lemma gather_ok_ex {A} (t : list A) (idx : list nat) :
  Forall (fun i => i < length t) idx ->
  exists r, gather t idx = Ok r /\ length r = length idx.
Proof.
  intros H. destruct t as [|d t].
  - destruct idx as [|i idx].
    + exists []. split; reflexivity.
    + inversion H; subst. simpl in *. lia.
  - rewrite (gather_ok d (d :: t) idx H). eexists. split; [reflexivity|].
    now rewrite length_map.
Qed.

(** On a graph whose edges name existing nodes, [get_laplacian] returns the
    edges without self-loops followed by one loop per node; the loops carry
    the degree (no normalization) or [1] (symmetric and random-walk). *)
Lemma get_laplacian_ok (E : edges) (ew : option vec) (norm : normalization)
  (n : nat) :
  valid_edges n E -> weights_ok E ew ->
  exists off diag,
    get_laplacian pow_neg_half E ew norm n
    = Ok (no_loops E ++ loop_index n, off ++ diag) /\
    length off = length (no_loops E) /\ length diag = n /\
    (norm <> NormNone -> diag = repeat f1 n).
Proof.
  intros Hv Hw. unfold get_laplacian.
  pose proof (remove_self_loops_fst E ew) as HE.
  pose proof (remove_self_loops_weights E ew Hw) as Hw1.
  destruct (remove_self_loops E ew) as [E1 w1]. simpl in HE, Hw1. subst E1.
  set (w := match w1 with Some w => w | None => repeat f1 _ end).
  assert (Hlw : length w = length (no_loops E)).
  { subst w. destruct w1; simpl in *; [exact Hw1|apply repeat_length]. }
  pose proof (no_loops_valid n E Hv) as Hv1.
  destruct (scatter_ok w (map fst (no_loops E)) n) as (deg & -> & Hdeg).
  { now apply valid_edges_rows. }
  simpl. destruct norm.
  - simpl. exists (map fneg w), deg. split; [reflexivity|].
    rewrite length_map. repeat split; auto. congruence.
  - set (dis := mask_inf (map pow_neg_half deg)).
    assert (Hdis : length dis = n).
    { subst dis. now rewrite mask_inf_length, length_map. }
    destruct (gather_ok_ex dis (map fst (no_loops E))) as (dr & -> & Hdr).
    { rewrite Hdis. now apply valid_edges_rows. }
    destruct (gather_ok_ex dis (map snd (no_loops E))) as (dc & -> & Hdc).
    { rewrite Hdis. now apply valid_edges_cols. }
    simpl. eexists _, _. split; [reflexivity|].
    rewrite length_map, !map2_length, Hdr, Hdc, !length_map, Hlw.
    repeat split; auto using repeat_length. lia.
  - set (di := mask_inf (map (fdiv f1) deg)).
    assert (Hdi : length di = n).
    { subst di. now rewrite mask_inf_length, length_map. }
    destruct (gather_ok_ex di (map fst (no_loops E))) as (dr & -> & Hdr).
    { rewrite Hdi. now apply valid_edges_rows. }
    simpl. eexists _, _. split; [reflexivity|].
    rewrite length_map, !map2_length, Hdr, !length_map, Hlw.
    repeat split; auto using repeat_length. lia.
Qed.

Lemma no_loops_idem (E : edges) : no_loops (no_loops E) = no_loops E.
Proof.
  unfold no_loops at 1. apply forallb_filter_id.
  apply forallb_forall. apply Forall_forall. apply no_loops_spec.
Qed.

(** The division by [lambda_max] succeeds on a valid [lambda_max] and
    keeps the number of weights. *)
Lemma lam_select_ok (n : nat) (batch : option (list nat)) (l : lam)
  (E : edges) (w : vec) :
  valid_edges n E -> valid_lam n batch l -> length w = length E ->
  exists w',
    (l' <- match batch with
           | Some b =>
               if 1 <? numel l
               then (i <- gather b (map fst E) ;; lam_index l i)
               else Ok l
           | None => Ok l
           end ;;
     div_lam w l') = Ok w' /\ length w' = length w.
Proof.
  intros Hv Hl Hw.
  assert (Hscalar : forall v, exists w',
             div_lam w (Scalar v) = Ok w' /\ length w' = length w).
  { intros v. simpl. eexists; split; [reflexivity|]. now rewrite length_map. }
  assert (Hone : forall v, exists w',
             div_lam w (PerGraph [v]) = Ok w' /\ length w' = length w).
  { intros v. simpl. eexists; split; [reflexivity|]. now rewrite length_map. }
  destruct l as [v|vs].
  - destruct batch as [b|]; simpl; apply Hscalar.
  - simpl in Hl. destruct Hl as [H1|(b & -> & Hnb & Hb)].
    + destruct vs as [|v [|]]; try discriminate.
      destruct batch as [b|]; simpl; apply Hone.
    + simpl. destruct (1 <? length vs) eqn:Hlt.
      * destruct (gather_ok_ex b (map fst E)) as (i & Hi & Hil).
        { apply valid_edges_rows in Hv.
          eapply Forall_impl; [|exact Hv]. simpl. lia. }
        rewrite Hi. simpl.
        destruct (gather_ok_ex vs i) as (r & Hr & Hrl).
        { apply mapM_inv in Hi. clear - Hi Hb.
          induction Hi as [|a g idx i Hag _ IH]; constructor; auto.
          apply (index_inv 0) in Hag. destruct Hag as [Ha ->].
          rewrite Forall_forall in Hb. apply Hb. now apply nth_In. }
        rewrite Hr. simpl.
        assert (Hrw : length r = length w).
        { rewrite Hrl, Hil, length_map. auto. }
        destruct r as [|v0 [|v1 r]].
        -- simpl. rewrite <- Hrw. simpl. eexists; split; [reflexivity|].
           destruct w; [reflexivity|discriminate].
        -- simpl. eexists; split; [reflexivity|]. now rewrite length_map.
        -- unfold div_lam. rewrite Hrw, Nat.eqb_refl.
           eexists; split; [reflexivity|].
           rewrite map2_length, Hrw. lia.
      * apply Nat.ltb_ge in Hlt. destruct vs as [|v [|]]; simpl in *.
        -- destruct w as [|a w]; simpl.
           ++ eexists; split; reflexivity.
           ++ destruct E as [|e E]; [discriminate|].
              inversion Hv as [|? ? [He _] _]; subst.
              destruct b; simpl in *; [lia|].
              inversion Hb; subst; lia.
        -- apply Hone.
        -- lia.
Qed.

(** On valid inputs [__norm__] succeeds.  Its edge list is: the edges
    without self-loops, then the loops of the Laplacian diagonal, then one
    more loop per node; the weights of these last loops are all [-1]. *)
Lemma norm_struct (E : edges) (n : nat) (ew : option vec)
  (norm : normalization) (l : lam) (batch : option (list nat)) :
  valid_edges n E -> weights_ok E ew -> valid_lam n batch l ->
  exists off diag w',
    __norm__ pow_neg_half E n ew norm l batch
    = Ok ((no_loops E ++ loop_index n) ++ loop_index n, w' ++ repeat fm1 n) /\
    length w' = length (no_loops E) + n /\
    length off = length (no_loops E) /\ length diag = n /\
    (norm <> NormNone -> diag = repeat f1 n) /\
    (forall v, l = Scalar v ->
       w' = mask_inf (map (fun a => fdiv a v) (map (fmul f2) (off ++ diag)))).
Proof.
  intros Hv Hw Hl. unfold __norm__.
  pose proof (remove_self_loops_fst E ew) as HE.
  pose proof (remove_self_loops_weights E ew Hw) as Hw1.
  destruct (remove_self_loops E ew) as [E1 w1]. simpl in HE, Hw1. subst E1.
  destruct (get_laplacian_ok (no_loops E) w1 norm n)
    as (off & diag & -> & Hoff & Hdiag & Hd); auto using no_loops_valid.
  rewrite no_loops_idem in *. simpl.
  destruct (lam_select_ok n batch l (no_loops E ++ loop_index n)
              (map (fmul f2) (off ++ diag))) as (w' & Hw' & Hlen); auto.
  { apply valid_edges_app; auto using no_loops_valid, loop_index_valid. }
  { rewrite length_map, !length_app, loop_index_length. lia. }
  exists off, diag, (mask_inf w').
  assert (Hsc : forall v, l = Scalar v ->
            w' = map (fun a => fdiv a v) (map (fmul f2) (off ++ diag))).
  { intros v ->. destruct batch; simpl in Hw'; congruence. }
  unfold bind in Hw' |- *.
  destruct (match batch with Some _ => _ | None => _ end) as [l'|e];
    [|discriminate].
  rewrite Hw'. simpl. split; [reflexivity|].
  rewrite mask_inf_length, Hlen, length_map, length_app.
  repeat split; auto; try lia.
  intros v Hvl. now rewrite (Hsc v Hvl).
Qed.

End LaplacianFacts.

(** ** Self-loops after normalization *)

Lemma weights_at_app (E1 E2 : edges) (w1 w2 : vec) (i j : nat) :
  length E1 = length w1 ->
  weights_at (E1 ++ E2) (w1 ++ w2) i j
  = weights_at E1 w1 i j ++ weights_at E2 w2 i j.
Proof.
  intros H. unfold weights_at.
  rewrite <- map_app, <- filter_app. do 2 f_equal.
  revert w1 H. induction E1 as [|e E1 IH]; intros [|a w1] H; simpl in *;
    try discriminate; auto.
  f_equal. apply IH. lia.
Qed.

Lemma weights_at_no_loops (E : edges) (w : vec) (i : nat) :
  weights_at (no_loops E) w i i = [].
Proof.
  unfold weights_at.
  assert (H : Forall (fun ew => (fst (fst ew) =? i) && (snd (fst ew) =? i)
                                = false) (combine (no_loops E) w)).
  { apply Forall_forall. intros [[a b] c] Hin. simpl.
    apply in_combine_l in Hin.
    pose proof (no_loops_spec E) as Hn. rewrite Forall_forall in Hn.
    apply Hn in Hin. simpl in Hin.
    destruct (Nat.eqb_spec a i), (Nat.eqb_spec b i); simpl; auto.
    subst. rewrite Nat.eqb_refl in Hin. discriminate. }
  induction H as [|x l Hx _ IH]; simpl; [reflexivity|].
  now rewrite Hx.
Qed.

Lemma weights_at_seq_loops (s n : nat) (d : vec) (i : nat) :
  length d = n -> s <= i < s + n ->
  weights_at (map (fun k => (k, k)) (seq s n)) d i i = [nth (i - s) d f0].
Proof.
  revert s d. induction n as [|n IH]; intros s [|a d] Hd Hi; simpl in *;
    try lia; try discriminate.
  unfold weights_at in *. simpl.
  destruct (Nat.eqb_spec s i) as [->|Hne]; simpl.
  - rewrite Nat.sub_diag. f_equal.
    assert (H : Forall (fun ew => (fst (fst ew) =? i) && (snd (fst ew) =? i)
                  = false)
                  (combine (map (fun k => (k, k)) (seq (S i) n)) d)).
    { apply Forall_forall. intros [[x y] c] Hin. apply in_combine_l in Hin.
      apply in_map_iff in Hin. destruct Hin as (k & Hk & Hin).
      injection Hk as <- <-. apply in_seq in Hin. simpl.
      destruct (Nat.eqb_spec k i); simpl; auto. lia. }
    induction H as [|x l Hx _ IH']; simpl; [reflexivity|]. now rewrite Hx.
  - rewrite (IH (S s) d); try lia.
    replace (i - s) with (S (i - S s)) by lia. reflexivity.
Qed.

Lemma weights_at_loops (n : nat) (d : vec) (i : nat) :
  length d = n -> i < n ->
  weights_at (loop_index n) d i i = [nth i d f0].
Proof.
  intros Hd Hi. unfold loop_index.
  rewrite (weights_at_seq_loops 0 n d i Hd); [|lia].
  now rewrite Nat.sub_0_r.
Qed.

Lemma mask_inf_map (t : vec) : mask_inf t = map clamp_inf t.
Proof.
  unfold mask_inf, masked_fill, clamp_inf.
  induction t as [|a t IH]; simpl; [reflexivity|]. now rewrite IH.
Qed.

Lemma nth_repeat_lt {A} (a d : A) (n i : nat) :
  i < n -> nth i (repeat a n) d = a.
Proof.
  revert i. induction n as [|n IH]; intros [|i] H; simpl; try lia; auto.
  apply IH. lia.
Qed.

Lemma vsum_two (a b : fval) : vsum [a; b] = fadd (fadd f0 a) b.
Proof. reflexivity. Qed.

(** C2, as the code has it.  After symmetric normalization every node [i]
    has two entries at position [(i, i)]: the scaled diagonal of the
    Laplacian, [2 * 1 / lambda_max] with [+inf] replaced by [0], followed by
    the appended self-loop, whose weight is exactly [-1] whatever the input
    edge weights are.  The appended loop does not replace the diagonal
    entry: under sum aggregation the two add up, to [2 / lambda_max - 1],
    which is [0] for the default [lambda_max = 2]. *)
Theorem norm_sym_self_loops (pow_neg_half : fval -> fval)
  (E : edges) (n : nat) (ew : option vec) (l : lam)
  (batch : option (list nat)) (i : nat) :
  valid_edges n E -> weights_ok E ew -> valid_lam n batch l -> i < n ->
  exists Eo wo c,
    __norm__ pow_neg_half E n ew NormSym l batch = Ok (Eo, wo) /\
    weights_at Eo wo i i = [c; fm1] /\
    effective_weight Eo wo i i = fadd (fadd f0 c) fm1 /\
    (forall v, l = Scalar v -> c = clamp_inf (fdiv (fmul f2 f1) v)) /\
    (l = Scalar f2 -> effective_weight Eo wo i i = f0).
Proof.
  intros Hv Hw Hl Hi.
  destruct (norm_struct pow_neg_half E n ew NormSym l batch Hv Hw Hl)
    as (off & diag & w' & Hn & Hlen & Hoff & Hdiag & Hd & Hsc).
  set (k := length (no_loops E)) in *.
  exists ((no_loops E ++ loop_index n) ++ loop_index n), (w' ++ repeat fm1 n),
    (nth i (skipn k w') f0).
  assert (Hat : weights_at ((no_loops E ++ loop_index n) ++ loop_index n)
                  (w' ++ repeat fm1 n) i i = [nth i (skipn k w') f0; fm1]).
  { rewrite weights_at_app
      by (rewrite length_app, loop_index_length; subst k; lia).
    rewrite (weights_at_loops n (repeat fm1 n) i (repeat_length _ _) Hi).
    rewrite nth_repeat_lt by exact Hi.
    rewrite <- (firstn_skipn k w') at 1.
    rewrite weights_at_app by (rewrite length_firstn; subst k; lia).
    rewrite weights_at_no_loops. simpl.
    rewrite (weights_at_loops n (skipn k w') i); [reflexivity| |exact Hi].
    rewrite length_skipn. lia. }
  assert (Hc : forall v, l = Scalar v ->
                 nth i (skipn k w') f0 = clamp_inf (fdiv (fmul f2 f1) v)).
  { intros v Hvl. rewrite (Hsc v Hvl), mask_inf_map, !map_map, map_app.
    rewrite skipn_app, length_map, Hoff, Nat.sub_diag. simpl.
    rewrite skipn_all2 by (rewrite length_map; lia). simpl.
    rewrite Hd by discriminate.
    rewrite (nth_indep _ f0 (clamp_inf (fdiv (fmul f2 f0) v)))
      by (rewrite length_map, repeat_length; exact Hi).
    rewrite map_nth with (d := f0) (f := fun a => clamp_inf (fdiv (fmul f2 a) v)).
    now rewrite nth_repeat_lt by exact Hi. }
  split; [exact Hn|]. split; [exact Hat|].
  assert (He : effective_weight
                 ((no_loops E ++ loop_index n) ++ loop_index n)
                 (w' ++ repeat fm1 n) i i
               = fadd (fadd f0 (nth i (skipn k w') f0)) fm1).
  { unfold effective_weight. rewrite Hat. apply vsum_two. }
  split; [exact He|]. split; [exact Hc|].
  intros Hl2. rewrite He, (Hc f2 Hl2). eval_eq.
Qed.

(** A run of the theorem: the two-node graph with the edges [0 -> 1] and
    [1 -> 0], unit weights and the default [lambda_max]. *)
Lemma norm_sym_self_loops_witness :
  exists Eo wo c,
    __norm__ pow_neg_half_approx [(0, 1); (1, 0)] 2 None NormSym (Scalar f2)
             None = Ok (Eo, wo) /\
    weights_at Eo wo 0 0 = [c; fm1] /\
    effective_weight Eo wo 0 0 = fadd (fadd f0 c) fm1 /\
    (forall v, Scalar f2 = Scalar v -> c = clamp_inf (fdiv (fmul f2 f1) v)) /\
    (Scalar f2 = Scalar f2 -> effective_weight Eo wo 0 0 = f0).
Proof.
  apply (norm_sym_self_loops pow_neg_half_approx [(0, 1); (1, 0)] 2 None
           (Scalar f2) None 0).
  - repeat constructor.
  - exact I.
  - exact I.
  - lia.
Defined.

(** C2 as stated fails: on the same graph the position [(0, 0)] holds the
    Laplacian diagonal [1] and the appended loop [-1], and their total is
    [0], not [-1]. *)
Lemma self_loop_weight_accumulates :
  exists Eo wo,
    __norm__ pow_neg_half_approx [(0, 1); (1, 0)] 2 None NormSym (Scalar f2)
             None = Ok (Eo, wo) /\
    weights_at Eo wo 0 0 = [f1; fm1] /\
    effective_weight Eo wo 0 0 = f0 /\
    effective_weight Eo wo 0 0 <> fm1.
Proof.
  exists [(0, 1); (1, 0); (0, 0); (1, 1); (0, 0); (1, 1)],
         [fm1; fm1; f1; f1; fm1; fm1].
  split; [eval_eq|]. split; [eval_eq|]. split; [eval_eq|].
  intros H. vm_compute in H. discriminate H.
Qed.

(** ** Message passing *)

Lemma mapM_map {A B C} (f : B -> res C) (g : A -> B) (l : list A) :
  mapM f (map g l) = mapM (fun a => f (g a)) l.
Proof.
  induction l as [|a l IH]; simpl; [reflexivity|]. now rewrite IH.
Qed.

Lemma zeros2_length (n m : nat) : length (zeros2 n m) = n.
Proof. apply repeat_length. Qed.

Lemma sent_to_messages (rev : edges) (wb : vec) (Tb : mat) (k : nat) :
  sent_to k (combine (map snd rev)
                     (map2 vscale wb (map (fun i => nth i Tb []) (map fst rev))))
  = map (fun ew => vscale (snd ew) (nth (fst (fst ew)) Tb []))
        (filter (fun ew => snd (fst ew) =? k) (combine rev wb)).
Proof.
  unfold sent_to. revert wb.
  induction rev as [|[u v] rev IH]; intros [|a wb]; simpl; auto.
  destruct (v =? k); simpl; now rewrite IH.
Qed.

(** Scattering the messages of one batch element is the sum over incoming
    edges, node by node. *)
Lemma scatter_messages (rev : edges) (wb : vec) (Tb : mat) (n width : nat) :
  valid_edges n rev ->
  scatter_rows (map2 vscale wb (map (fun i => nth i Tb []) (map fst rev)))
               (map snd rev) n width
  = Ok (propagate_mat rev wb n width Tb).
Proof.
  intros Hv. unfold scatter_rows, scatter_add.
  destruct (scatter_add_ok vadd (zeros width)
              (combine (map snd rev)
                 (map2 vscale wb (map (fun i => nth i Tb []) (map fst rev))))
              (zeros2 n width)) as (r & -> & Hlen & Hnth).
  - rewrite zeros2_length. apply Forall_forall. intros [i v] Hin.
    apply in_combine_l in Hin. simpl.
    apply valid_edges_cols in Hv. rewrite Forall_forall in Hv. now apply Hv.
  - f_equal. rewrite zeros2_length in Hlen.
    apply (nth_ext _ _ (zeros width) (zeros width)).
    + unfold propagate_mat. now rewrite length_map, length_seq.
    + intros k Hk. rewrite Hlen in Hk. rewrite Hnth, sent_to_messages.
      unfold zeros2 at 1. rewrite nth_repeat_lt by exact Hk.
      unfold propagate_mat.
      rewrite (nth_indep _ (zeros width) (incoming rev wb Tb width 0))
        by (now rewrite length_map, length_seq).
      rewrite map_nth with (d := 0) (f := incoming rev wb Tb width).
      rewrite seq_nth by exact Hk. reflexivity.
Qed.

Lemma rows_are_size (n : nat) (T : tensor3) (Tb : mat) :
  rows_are n T -> In Tb T -> size_node T = n /\ length Tb = n.
Proof.
  unfold rows_are. intros H Hin. rewrite Forall_forall in H. split.
  - destruct T as [|m T]; [contradiction|]. simpl. apply H. now left.
  - now apply H.
Qed.

Lemma gather_rows_ok (n : nat) (rev : edges) (T : tensor3) :
  valid_edges n rev -> rows_are n T ->
  mapM (fun xb => gather xb (map fst rev)) T
  = Ok (map (fun xb => map (fun i => nth i xb []) (map fst rev)) T).
Proof.
  intros Hv Hr. apply mapM_ok. unfold rows_are in Hr.
  eapply Forall_impl; [|exact Hr]. intros xb Hxb.
  apply gather_ok. rewrite Hxb. now apply valid_edges_rows.
Qed.

(** On valid edges [propagate] succeeds and computes, for every node, the
    sum over the incoming edges. *)
Lemma propagate_plain_ok (n : nat) (rev : edges) (w : vec) (T : tensor3) :
  valid_edges n rev -> rows_are n T ->
  propagate rev T (Norm1 w) = Ok (propagate_plain rev w T).
Proof.
  intros Hv Hr. unfold propagate.
  rewrite (gather_rows_ok n rev T Hv Hr). simpl.
  rewrite map_map, mapM_map. unfold propagate_plain.
  apply mapM_ok. apply Forall_forall. intros Tb Hin.
  destruct (rows_are_size n T Tb Hr Hin) as [-> _].
  now apply scatter_messages.
Qed.

Lemma propagate_att_ok (n : nat) (rev : edges) (ws : list vec) (T : tensor3) :
  valid_edges n rev -> rows_are n T ->
  propagate rev T (Norm2 ws) = Ok (propagate_att rev ws T).
Proof.
  intros Hv Hr. unfold propagate.
  rewrite (gather_rows_ok n rev T Hv Hr). simpl.
  rewrite map2_map_r, map2_combine, mapM_map. unfold propagate_att.
  rewrite map2_combine.
  apply mapM_ok. apply Forall_forall. intros [wb Tb] Hin. simpl.
  apply in_combine_r in Hin.
  destruct (rows_are_size n T Tb Hr Hin) as [-> _].
  now apply scatter_messages.
Qed.

Lemma propagate_mat_rows (rev : edges) (w : vec) (n width : nat) (T : mat) :
  length (propagate_mat rev w n width T) = n.
Proof. unfold propagate_mat. now rewrite length_map, length_seq. Qed.

Lemma propagate_plain_rows (n : nat) (rev : edges) (w : vec) (T : tensor3) :
  rows_are n T -> rows_are n (propagate_plain rev w T).
Proof.
  intros Hr. unfold rows_are, propagate_plain. apply Forall_map.
  apply Forall_forall. intros Tb Hin.
  destruct (rows_are_size n T Tb Hr Hin) as [-> _].
  apply propagate_mat_rows.
Qed.

Lemma propagate_att_rows (n : nat) (rev : edges) (ws : list vec)
  (T : tensor3) :
  rows_are n T -> rows_are n (propagate_att rev ws T).
Proof.
  intros Hr. unfold rows_are, propagate_att. rewrite map2_combine.
  apply Forall_map. apply Forall_forall. intros [wb Tb] Hin. simpl.
  apply in_combine_r in Hin.
  destruct (rows_are_size n T Tb Hr Hin) as [-> _].
  apply propagate_mat_rows.
Qed.

Lemma map2_Forall {A B C} (P : C -> Prop) (f : A -> B -> C)
  (l : list A) (l' : list B) :
  (forall a b, In (a, b) (combine l l') -> P (f a b)) ->
  Forall P (map2 f l l').
Proof.
  intros H. rewrite map2_combine. apply Forall_map.
  apply Forall_forall. intros [a b] Hin. now apply H.
Qed.

Lemma tsub_rows (n : nat) (T T' : tensor3) :
  rows_are n T -> rows_are n T' -> rows_are n (tsub T T').
Proof.
  intros H H'. unfold rows_are, tsub in *. apply map2_Forall.
  intros a b Hin. unfold msub. rewrite map2_length.
  rewrite Forall_forall in H, H'.
  rewrite (H a (in_combine_l _ _ _ _ Hin)), (H' b (in_combine_r _ _ _ _ Hin)).
  lia.
Qed.

Lemma tscale_rows (n : nat) (c : fval) (T : tensor3) :
  rows_are n T -> rows_are n (tscale c T).
Proof.
  intros H. unfold rows_are, tscale in *. apply Forall_map.
  eapply Forall_impl; [|exact H]. intros m Hm. unfold mscale.
  now rewrite length_map.
Qed.

(** ** The forward pass of ChebConvAttention *)

Lemma propagate_nil (rev : edges) (norm : norm_arg) :
  propagate rev [] norm = Ok [].
Proof. unfold propagate. simpl. destruct norm as [w|[|w ws]]; reflexivity. Qed.

Lemma propagate_plain_ok' (n : nat) (rev : edges) (w : vec) (T : tensor3) :
  (T <> [] -> valid_edges n rev) -> rows_are n T ->
  propagate rev T (Norm1 w) = Ok (propagate_plain rev w T).
Proof.
  intros Hv Hr. destruct T as [|m T].
  - apply propagate_nil.
  - apply (propagate_plain_ok n); auto. apply Hv. discriminate.
Qed.

Lemma propagate_att_ok' (n : nat) (rev : edges) (ws : list vec)
  (T : tensor3) :
  (T <> [] -> valid_edges n rev) -> rows_are n T ->
  propagate rev T (Norm2 ws) = Ok (propagate_att rev ws T).
Proof.
  intros Hv Hr. destruct T as [|m T].
  - rewrite propagate_nil. unfold propagate_att.
    destruct ws; reflexivity.
  - apply (propagate_att_ok n); auto. apply Hv. discriminate.
Qed.

Lemma cheb_terms_length (rev : edges) (w : vec) (T0 T1 : tensor3) (m : nat) :
  length (cheb_terms rev w T0 T1 m) = m.
Proof.
  revert T0 T1. induction m as [|m IH]; intros T0 T1; simpl; auto.
Qed.

(** The three-term recurrence, read off the list of terms. *)
Lemma cheb_terms_rec (rev : edges) (w : vec) (T0 T1 : tensor3) (m k : nat) :
  k < m ->
  nth (S (S k)) (T0 :: T1 :: cheb_terms rev w T0 T1 m) []
  = tsub (tscale f2
            (propagate_plain rev w
               (nth (S k) (T0 :: T1 :: cheb_terms rev w T0 T1 m) [])))
         (nth k (T0 :: T1 :: cheb_terms rev w T0 T1 m) []).
Proof.
  revert T0 T1 k. induction m as [|m IH]; intros T0 T1 k Hk; [lia|].
  destruct k as [|k]; [reflexivity|].
  simpl cheb_terms.
  change (nth (S (S (S k))) (T0 :: ?l) []) with (nth (S (S k)) l []).
  change (nth (S (S k)) (T0 :: ?l) []) with (nth (S k) l []).
  change (nth (S k) (T0 :: ?l) []) with (nth k l []).
  apply IH. lia.
Qed.

(** The loop of [forward] adds the products of the later terms with their
    weight slices to the accumulator. *)
Lemma cheb_loop (n : nat) (rev : edges) (w : vec) (ws : list mat)
  (out T0 T1 : tensor3) :
  (T1 <> [] -> valid_edges n rev) ->
  rows_are n T0 -> rows_are n T1 ->
  exists Ta Tb,
    foldM (cheb_step rev w) ws (out, T0, T1)
    = Ok (fold_left tadd
            (map2 tmatmul (cheb_terms rev w T0 T1 (length ws)) ws) out,
          Ta, Tb).
Proof.
  revert out T0 T1. induction ws as [|wk ws IH]; intros out T0 T1 Hv H0 H1.
  - simpl. eauto.
  - simpl. rewrite (propagate_plain_ok' n rev w T1 Hv H1). simpl.
    apply IH.
    + intros Hne. apply Hv. intros ->. apply Hne.
      unfold propagate_plain, tscale, tsub. simpl. reflexivity.
    + exact H1.
    + apply tsub_rows; [|exact H0]. apply tscale_rows.
      now apply propagate_plain_rows.
Qed.

Lemma combine_fst_snd_id {A B} (l : list (A * B)) :
  combine (map fst l) (map snd l) = l.
Proof.
  induction l as [|[a b] l IH]; simpl; [reflexivity|]. now rewrite IH.
Qed.

(** The attention lookup succeeds on valid edges. *)
Lemma index_rc_ok (n : nat) (att : tensor3) (E : edges) :
  Forall (is_mat n n) att -> valid_edges n E ->
  index_rc att (map fst E) (map snd E)
  = Ok (map (fun a => map (fun e => nth (snd e) (nth (fst e) a []) f0) E) att).
Proof.
  intros Ha Hv. unfold index_rc. rewrite combine_fst_snd_id.
  apply mapM_ok. eapply Forall_impl; [|exact Ha].
  intros a [Hla Hra]. apply mapM_ok.
  unfold valid_edges in Hv. eapply Forall_impl; [|exact Hv].
  intros [r c] [Hr Hc]. simpl in *.
  rewrite (index_ok [] a r) by (unfold vec in *; lia). simpl.
  apply index_ok. rewrite Forall_forall in Hra. rewrite Hra; [exact Hc|].
  apply nth_In. unfold vec in *. lia.
Qed.

(** A successful attention lookup returns the looked-up entries, and, when
    the batch is not empty, shows that the edges name existing nodes. *)
Lemma index_rc_inv (n : nat) (att : tensor3) (E : edges) (a : list vec) :
  Forall (is_mat n n) att ->
  index_rc att (map fst E) (map snd E) = Ok a ->
  a = map (fun ab => map (fun e => nth (snd e) (nth (fst e) ab []) f0) E) att
  /\ (att <> [] -> valid_edges n E).
Proof.
  intros Ha H. unfold index_rc in H. rewrite combine_fst_snd_id in H.
  apply mapM_inv in H.
  assert (Hone : forall ab r, is_mat n n ab ->
            mapM (fun rc => r0 <- index ab (fst rc) ;; index r0 (snd rc)) E
            = Ok r ->
            r = map (fun e => nth (snd e) (nth (fst e) ab []) f0) E
            /\ valid_edges n E).
  { clear H. intros ab r [Hla Hra] Hm. apply mapM_inv in Hm.
    rewrite Forall_forall in Hra.
    induction Hm as [|e v E' r' He _ IH]; [split; [reflexivity|constructor]|].
    destruct IH as [-> Hv].
    destruct (index ab (fst e)) as [r0|] eqn:Hr0; simpl in He; [|discriminate].
    apply (index_inv []) in Hr0. destruct Hr0 as [Hlt ->].
    apply (index_inv f0) in He. destruct He as [Hlt' ->].
    split; [reflexivity|]. constructor; [|exact Hv].
    rewrite Hra in Hlt' by (apply nth_In; exact Hlt).
    unfold vec in *. lia. }
  split.
  - clear - H Ha Hone. induction H as [|ab r att' a' Hab _ IH].
    + reflexivity.
    + inversion Ha; subst. simpl.
      destruct (Hone ab r) as [-> _]; auto. f_equal. now apply IH.
  - intros Hne. destruct att as [|ab att']; [congruence|].
    inversion H as [|? r ? a' Hab]; subst.
    inversion Ha; subst. now destruct (Hone ab r) as [_ Hv].
Qed.

Lemma eye_length (n : nat) : length (eye n) = n.
Proof. unfold eye. now rewrite length_map, length_seq. Qed.

Lemma matmul_rows (a b : mat) : length (matmul a b) = length a.
Proof. unfold matmul. now rewrite length_map. Qed.

Lemma transpose_rows (m : mat) : length (transpose m) = ncols m.
Proof. unfold transpose. now rewrite length_map, length_seq. Qed.

Lemma eye_cols (n : nat) : Forall (fun r => length r = n) (eye n).
Proof.
  unfold eye. apply Forall_map. apply Forall_forall. intros i _.
  now rewrite length_map, length_seq.
Qed.

Lemma gate_rows (n : nat) (a : mat) :
  is_mat n n a -> length (transpose (hadamard (eye n) a)) = n.
Proof.
  intros [Hl Hr]. rewrite transpose_rows. unfold ncols, hadamard.
  pose proof (eye_length n) as He. pose proof (eye_cols n) as Hc.
  destruct (eye n) as [|e0 es], a as [|r a]; simpl in *; try congruence.
  inversion Hr; subst. inversion Hc; subst.
  rewrite map2_length. unfold vec in *. lia.
Qed.

Lemma order0_rows (b n f : nat) (x att : tensor3) :
  is_tensor3 b n f x -> is_tensor3 b n n att -> rows_are n (order0 att x).
Proof.
  intros [Hbx Hx] [Hba Ha]. unfold rows_are, order0.
  apply map2_Forall. intros g xb Hin. rewrite matmul_rows.
  pose proof (in_combine_l _ _ _ _ Hin) as Hg.
  pose proof (in_combine_r _ _ _ _ Hin) as Hxb.
  apply in_map_iff in Hg. destruct Hg as (a & <- & Hain).
  assert (Hn : size_node x = n).
  { destruct x as [|m x]; [contradiction|]. inversion Hx; subst.
    simpl. unfold nrows. apply H1. }
  rewrite Hn. apply gate_rows. rewrite Forall_forall in Ha. now apply Ha.
Qed.

Lemma order0_length (b n f : nat) (x att : tensor3) :
  is_tensor3 b n f x -> is_tensor3 b n n att -> length (order0 att x) = b.
Proof.
  intros [Hbx _] [Hba _]. unfold order0.
  rewrite map2_length, length_map. lia.
Qed.

Lemma valid_edges_swap (n : nat) (E : edges) :
  valid_edges n E -> valid_edges n (map swap E).
Proof.
  unfold valid_edges. intros H. apply Forall_map.
  eapply Forall_impl; [|exact H]. intros e. unfold swap. simpl. tauto.
Qed.

(** The attention-reweighted weights that [forward] builds are those of
    the specification. *)
Lemma att_norm_code (w : vec) (E : edges) (att : tensor3) :
  map (map2 fmul w)
      (map (fun ab => map (fun e => nth (snd e) (nth (fst e) ab []) f0) E) att)
  = att_norm_spec w E att.
Proof.
  unfold att_norm_spec. rewrite map_map. apply map_ext. intros ab.
  now rewrite map2_map_r.
Qed.


Section Forward.

Variable pow_neg_half : fval -> fval.

Lemma guard_passes (norm : normalization) (lambda_max : option lam) :
  lam_given norm lambda_max ->
  negb (is_sym norm) && is_None lambda_max = false.
Proof.
  intros [->|H]; [reflexivity|].
  destruct lambda_max; [apply andb_false_r|congruence].
Qed.

(** Once normalization and the attention lookup have succeeded, the whole
    forward pass succeeds, and its result is the sum of the Chebyshev terms
    times their weight slices, plus the bias. *)
Lemma forward_terms (self : ChebConvAttention) (x : tensor3) (ei : edges)
  (att : tensor3) (ew : option vec) (batch : option (list nat))
  (lm : option lam) (b n f : nat) (E : edges) (w : vec) (a : list vec) :
  is_tensor3 b n f x -> is_tensor3 b n n att ->
  _weight self <> [] ->
  lam_given (_normalization self) lm ->
  __norm__ pow_neg_half ei (size_node x) ew (_normalization self)
           (lam_or_default lm) batch = Ok (E, w) ->
  index_rc att (map fst E) (map snd E) = Ok a ->
  forward pow_neg_half self x ei att ew batch lm
  = Ok (add_bias (_bias self)
          (tsum (map2 tmatmul
                   (cheb_term_list (map swap E) w (att_norm_spec w E att)
                      (order0 att x) (length (_weight self)))
                   (_weight self)))).
Proof.
  intros Hx Ha HW Hg Hn Hi. unfold forward.
  rewrite (guard_passes _ _ Hg).
  fold (lam_or_default lm). rewrite Hn. simpl.
  rewrite Hi. simpl.
  destruct (index_rc_inv n att E a (proj2 Ha) Hi) as [-> Hv].
  rewrite att_norm_code. fold (order0 att x).
  destruct (_weight self) as [|w0 [|w1 ws]]; [congruence| |].
  - reflexivity.
  - simpl.
    assert (Hv' : order0 att x <> [] -> valid_edges n (map swap E)).
    { intros Hne. apply valid_edges_swap, Hv. intros ->.
      apply Hne. reflexivity. }
    pose proof (order0_rows b n f x att Hx Ha) as Hr0.
    rewrite (propagate_att_ok' n _ _ _ Hv' Hr0). simpl.
    set (T0 := order0 att x) in *.
    set (T1 := propagate_att _ _ T0) in *.
    destruct (cheb_loop n (map swap E) w ws
                (tadd (tmatmul T0 w0) (tmatmul T1 w1)) T0 T1)
      as (Ta & Tb & Hloop).
    + intros Hne. apply Hv'. intros H0. apply Hne. subst T1.
      rewrite H0. unfold propagate_att.
      destruct (att_norm_spec w E att); reflexivity.
    + exact Hr0.
    + subst T1. now apply propagate_att_rows.
    + match goal with
      | |- bind ?m ?k = _ =>
          transitivity (bind (Ok (fold_left tadd
             (map2 tmatmul (cheb_terms (map swap E) w T0 T1 (length ws)) ws)
             (tadd (tmatmul T0 w0) (tmatmul T1 w1)), Ta, Tb)) k);
          [f_equal; exact Hloop | reflexivity]
      end.
Qed.

Lemma size_node_shape (b n f : nat) (x : tensor3) :
  is_tensor3 b n f x -> 0 < b -> size_node x = n.
Proof.
  intros [Hb Hx] Hpos. destruct x as [|m x]; simpl in *; [lia|].
  inversion Hx as [|? ? Hm _]; subst. apply Hm.
Qed.

(** On valid inputs the forward pass succeeds. *)
Lemma forward_valid (self : ChebConvAttention) (x : tensor3) (ei : edges)
  (att : tensor3) (ew : option vec) (batch : option (list nat))
  (lm : option lam) (b n f : nat) :
  is_tensor3 b n f x -> is_tensor3 b n n att -> 0 < b ->
  _weight self <> [] ->
  lam_given (_normalization self) lm ->
  valid_lam n batch (lam_or_default lm) ->
  valid_edges n ei -> weights_ok ei ew ->
  exists E w,
    __norm__ pow_neg_half ei (size_node x) ew (_normalization self)
             (lam_or_default lm) batch = Ok (E, w) /\
    forward pow_neg_half self x ei att ew batch lm
    = Ok (add_bias (_bias self)
            (tsum (map2 tmatmul
                     (cheb_term_list (map swap E) w (att_norm_spec w E att)
                        (order0 att x) (length (_weight self)))
                     (_weight self)))).
Proof.
  intros Hx Ha Hb HW Hg Hl Hv Hw.
  rewrite (size_node_shape b n f x Hx Hb).
  destruct (norm_struct pow_neg_half ei n ew (_normalization self)
              (lam_or_default lm) batch Hv Hw Hl)
    as (off & diag & w' & Hn & _).
  eexists _, _. split; [exact Hn|].
  eapply (forward_terms self x ei att ew batch lm b n f _ _ _ Hx Ha HW Hg).
  - rewrite (size_node_shape b n f x Hx Hb). exact Hn.
  - apply (index_rc_ok n); [apply Ha|].
    repeat apply valid_edges_app;
      auto using no_loops_valid, loop_index_valid.
Qed.

End Forward.

(** ** The claims about ChebConvAttention *)

Section Claims.

Variable pow_neg_half : fval -> fval.

(** C1.  In a forward call with filter order [K >= 2] whose normalization
    returned the edge list [E] with weights [w]: the term [T_1] is the
    propagation of [T_0] along the reversed edges with the weights
    [Att_norm[e] = w[e] * spatial_attention[:, src(e), dst(e)]], summed into
    each destination node; every later term is [T_k = 2 * P - T_{k-2}]
    where [P] is the propagation of [T_{k-1}] along the reversed edges with
    the plain weights [w]; and the output is the sum over [k] of
    [T_k @ W[k]], plus the bias if there is one. *)
Theorem forward_chebyshev_recursion (self : ChebConvAttention) (x : tensor3)
  (ei : edges) (att : tensor3) (ew : option vec) (batch : option (list nat))
  (lm : option lam) (b n f : nat) (E : edges) (w : vec) (a : list vec) :
  is_tensor3 b n f x -> is_tensor3 b n n att ->
  2 <= length (_weight self) ->
  lam_given (_normalization self) lm ->
  __norm__ pow_neg_half ei (size_node x) ew (_normalization self)
           (lam_or_default lm) batch = Ok (E, w) ->
  index_rc att (map fst E) (map snd E) = Ok a ->
  exists T : list tensor3,
    length T = length (_weight self) /\
    map (map2 fmul w) a = att_norm_spec w E att /\
    nth 0 T [] = order0 att x /\
    nth 1 T [] = propagate_att (map swap E) (att_norm_spec w E att)
                               (nth 0 T []) /\
    (forall k, 2 <= k < length (_weight self) ->
       nth k T [] = tsub (tscale f2 (propagate_plain (map swap E) w
                                       (nth (k - 1) T [])))
                         (nth (k - 2) T [])) /\
    forward pow_neg_half self x ei att ew batch lm
    = Ok (add_bias (_bias self) (tsum (map2 tmatmul T (_weight self)))).
Proof.
  intros Hx Ha HK Hg Hn Hi.
  exists (cheb_term_list (map swap E) w (att_norm_spec w E att)
            (order0 att x) (length (_weight self))).
  assert (HW : _weight self <> []).
  { intros HW. rewrite HW in HK. simpl in HK. lia. }
  pose proof (forward_terms pow_neg_half self x ei att ew batch lm b n f
                E w a Hx Ha HW Hg Hn Hi) as Hf.
  destruct (index_rc_inv n att E a (proj2 Ha) Hi) as [Hav _].
  destruct (length (_weight self)) as [|[|m]] eqn:HL; try lia.
  unfold cheb_term_list.
  split; [simpl; now rewrite cheb_terms_length|].
  split; [rewrite Hav; apply att_norm_code|].
  split; [reflexivity|]. split; [reflexivity|].
  split; [|exact Hf].
  intros k Hk. destruct k as [|[|k]]; try lia.
  replace (S (S k) - 1) with (S k) by lia.
  replace (S (S k) - 2) with k by lia.
  apply cheb_terms_rec. lia.
Qed.

(** C3 and C9 rest on this: with one weight slice the forward pass on a
    valid graph returns the attention-gated projection. *)
Lemma forward_order0_valid (self : ChebConvAttention) (x : tensor3)
  (ei : edges) (att : tensor3) (ew : option vec) (batch : option (list nat))
  (lm : option lam) (b n f : nat) (w0 : mat) :
  is_tensor3 b n f x -> is_tensor3 b n n att -> 0 < b ->
  _weight self = [w0] ->
  lam_given (_normalization self) lm ->
  valid_lam n batch (lam_or_default lm) ->
  valid_edges n ei -> weights_ok ei ew ->
  forward pow_neg_half self x ei att ew batch lm
  = Ok (add_bias (_bias self) (tmatmul (order0 att x) w0)).
Proof.
  intros Hx Ha Hb HW Hg Hl Hv Hw.
  destruct (forward_valid pow_neg_half self x ei att ew batch lm b n f)
    as (E & w & _ & Hf); auto.
  { rewrite HW. discriminate. }
  rewrite Hf, HW. reflexivity.
Qed.

(** C3.  With [K = 1] the layer returns
    [(I * spatial_attention)^T @ x @ W[0]], plus the bias if there is one:
    a projection of every node gated by its own attention entry, with no
    message passing.  The result is the same for any two edge lists and
    edge weights. *)
Theorem forward_order0_independent (self : ChebConvAttention) (x : tensor3)
  (att : tensor3) (batch : option (list nat)) (lm : option lam)
  (b n f : nat) (w0 : mat)
  (ei1 ei2 : edges) (ew1 ew2 : option vec) :
  is_tensor3 b n f x -> is_tensor3 b n n att -> 0 < b ->
  _weight self = [w0] ->
  lam_given (_normalization self) lm ->
  valid_lam n batch (lam_or_default lm) ->
  valid_edges n ei1 -> weights_ok ei1 ew1 ->
  valid_edges n ei2 -> weights_ok ei2 ew2 ->
  forward pow_neg_half self x ei1 att ew1 batch lm
  = Ok (add_bias (_bias self)
          (tmatmul (map2 matmul
                      (map (fun a => transpose (hadamard (eye n) a)) att) x)
                   w0)) /\
  forward pow_neg_half self x ei2 att ew2 batch lm
  = forward pow_neg_half self x ei1 att ew1 batch lm.
Proof.
  intros Hx Ha Hb HW Hg Hl Hv1 Hw1 Hv2 Hw2.
  rewrite (forward_order0_valid self x ei1 att ew1 batch lm b n f w0),
          (forward_order0_valid self x ei2 att ew2 batch lm b n f w0); auto.
  split; [|reflexivity].
  unfold order0. now rewrite (size_node_shape b n f x Hx Hb).
Qed.

(** C9.  On a graph without edges and with [K = 1] the forward pass
    succeeds, Laplacian normalization included, and returns the order-0
    term alone: [(I * spatial_attention)^T @ x @ W[0]], plus the bias if
    there is one. *)
Theorem forward_no_edges (self : ChebConvAttention) (x : tensor3)
  (att : tensor3) (ew : option vec) (batch : option (list nat))
  (lm : option lam) (b n f : nat) (w0 : mat) :
  is_tensor3 b n f x -> is_tensor3 b n n att -> 0 < b ->
  _weight self = [w0] ->
  lam_given (_normalization self) lm ->
  valid_lam n batch (lam_or_default lm) ->
  weights_ok [] ew ->
  (exists w,
     __norm__ pow_neg_half [] (size_node x) ew (_normalization self)
              (lam_or_default lm) batch
     = Ok (loop_index n ++ loop_index n, w ++ repeat fm1 n) /\
     length w = n) /\
  forward pow_neg_half self x [] att ew batch lm
  = Ok (add_bias (_bias self)
          (tmatmul (map2 matmul
                      (map (fun a => transpose (hadamard (eye n) a)) att) x)
                   w0)).
Proof.
  intros Hx Ha Hb HW Hg Hl Hw.
  assert (Hv : valid_edges n []) by constructor.
  split.
  - rewrite (size_node_shape b n f x Hx Hb).
    destruct (norm_struct pow_neg_half [] n ew (_normalization self)
                (lam_or_default lm) batch Hv Hw Hl)
      as (off & diag & w' & Hn & Hlen & _).
    exists w'. split; [exact Hn|exact Hlen].
  - rewrite (forward_order0_valid self x [] att ew batch lm b n f w0); auto.
    unfold order0. now rewrite (size_node_shape b n f x Hx Hb).
Qed.

(** C7.  Without [lambda_max], a layer whose normalization is not
    symmetric raises [ValueError] whatever the other arguments are; a layer
    with symmetric normalization runs as with [lambda_max = 2.0] and
    succeeds on valid inputs. *)
Theorem forward_lambda_max_required (self : ChebConvAttention) (x : tensor3)
  (ei : edges) (att : tensor3) (ew : option vec) (batch : option (list nat))
  (b n f : nat) :
  (_normalization self <> NormSym ->
   forward pow_neg_half self x ei att ew batch None = Raise ValueError) /\
  (_normalization self = NormSym ->
   forward pow_neg_half self x ei att ew batch None
   = forward pow_neg_half self x ei att ew batch (Some (Scalar f2))) /\
  (_normalization self = NormSym ->
   is_tensor3 b n f x -> is_tensor3 b n n att -> 0 < b ->
   _weight self <> [] -> valid_edges n ei -> weights_ok ei ew ->
   exists out, forward pow_neg_half self x ei att ew batch None = Ok out).
Proof.
  split; [|split].
  - intros Hns. unfold forward.
    destruct (_normalization self); [reflexivity|congruence|reflexivity].
  - intros Hs. unfold forward. now rewrite Hs.
  - intros Hs Hx Ha Hb HW Hv Hw.
    destruct (forward_valid pow_neg_half self x ei att ew batch None b n f)
      as (E & w & _ & Hf); auto.
    + now left.
    + exact I.
    + eauto.
Qed.

End Claims.

(** ** Runs on the small instance *)

(** The layer of order 3 on the small instance: [T_0 = (1, 8)],
    [T_1 = (-16, -3)], [T_2 = (5, 24)], and the output is
    [1 * T_0 + 2 * T_1 + 3 * T_2 + 1]. *)
Example forward_order3_run :
  forward pow_neg_half_approx ex_conv3 ex_x ex_edges ex_att None None None
  = Ok [[[num (-15)]; [num 75]]].
Proof. eval_eq. Qed.

Example forward_order1_run :
  forward pow_neg_half_approx ex_conv1 ex_x ex_edges ex_att None None None
  = Ok [[[num 2]; [num 9]]].
Proof. eval_eq. Qed.

Lemma forward_chebyshev_recursion_witness :
  exists T : list tensor3,
    length T = length (_weight ex_conv3) /\
    map (map2 fmul ex_norm_weights) ex_att_rc
    = att_norm_spec ex_norm_weights ex_norm_edges ex_att /\
    nth 0 T [] = order0 ex_att ex_x /\
    nth 1 T [] = propagate_att (map swap ex_norm_edges)
                   (att_norm_spec ex_norm_weights ex_norm_edges ex_att)
                   (nth 0 T []) /\
    (forall k, 2 <= k < length (_weight ex_conv3) ->
       nth k T [] = tsub (tscale f2 (propagate_plain (map swap ex_norm_edges)
                                       ex_norm_weights (nth (k - 1) T [])))
                         (nth (k - 2) T [])) /\
    forward pow_neg_half_approx ex_conv3 ex_x ex_edges ex_att None None None
    = Ok (add_bias (_bias ex_conv3)
            (tsum (map2 tmatmul T (_weight ex_conv3)))).
Proof.
  apply (forward_chebyshev_recursion pow_neg_half_approx ex_conv3 ex_x
           ex_edges ex_att None None None 1 2 1
           ex_norm_edges ex_norm_weights ex_att_rc).
  - split; [reflexivity|]. repeat constructor.
  - split; [reflexivity|]. repeat constructor.
  - simpl. lia.
  - left. reflexivity.
  - eval_eq.
  - eval_eq.
Defined.

Lemma forward_order0_independent_witness :
  forward pow_neg_half_approx ex_conv1 ex_x ex_edges ex_att None None None
  = Ok (add_bias (_bias ex_conv1)
          (tmatmul (map2 matmul
                      (map (fun a => transpose (hadamard (eye 2) a)) ex_att)
                      ex_x)
                   [[num 1]])) /\
  forward pow_neg_half_approx ex_conv1 ex_x [(0, 1)] ex_att
          (Some [num 5]) None None
  = forward pow_neg_half_approx ex_conv1 ex_x ex_edges ex_att None None None.
Proof.
  apply (forward_order0_independent pow_neg_half_approx ex_conv1 ex_x ex_att
           None None 1 2 1 [[num 1]] ex_edges [(0, 1)] None (Some [num 5])).
  - split; [reflexivity|]. repeat constructor.
  - split; [reflexivity|]. repeat constructor.
  - lia.
  - reflexivity.
  - left. reflexivity.
  - exact I.
  - repeat constructor.
  - exact I.
  - repeat constructor.
  - reflexivity.
Defined.

Lemma forward_no_edges_witness :
  (exists w,
     __norm__ pow_neg_half_approx [] (size_node ex_x) None
              (_normalization ex_conv1_none)
              (lam_or_default (Some (Scalar f0))) None
     = Ok (loop_index 2 ++ loop_index 2, w ++ repeat fm1 2) /\
     length w = 2) /\
  forward pow_neg_half_approx ex_conv1_none ex_x [] ex_att None None
          (Some (Scalar f0))
  = Ok (add_bias (_bias ex_conv1_none)
          (tmatmul (map2 matmul
                      (map (fun a => transpose (hadamard (eye 2) a)) ex_att)
                      ex_x)
                   [[num 1]])).
Proof.
  apply (forward_no_edges pow_neg_half_approx ex_conv1_none ex_x ex_att
           None None (Some (Scalar f0)) 1 2 1 [[num 1]]).
  - split; [reflexivity|]. repeat constructor.
  - split; [reflexivity|]. repeat constructor.
  - lia.
  - reflexivity.
  - right. discriminate.
  - exact I.
  - exact I.
Defined.

Lemma forward_lambda_max_required_witness :
  forward pow_neg_half_approx ex_conv1_none ex_x ex_edges ex_att None None
          None = Raise ValueError /\
  exists out,
    forward pow_neg_half_approx ex_conv3 ex_x ex_edges ex_att None None None
    = Ok out.
Proof.
  split.
  - apply (forward_lambda_max_required pow_neg_half_approx ex_conv1_none
             ex_x ex_edges ex_att None None 1 2 1).
    discriminate.
  - apply (forward_lambda_max_required pow_neg_half_approx ex_conv3
             ex_x ex_edges ex_att None None 1 2 1).
    + reflexivity.
    + split; [reflexivity|]. repeat constructor.
    + split; [reflexivity|]. repeat constructor.
    + lia.
    + discriminate.
    + repeat constructor.
    + exact I.
Defined.

(** ** Division by [lambda_max = 0] *)

(** What line 87-88 of the source make of one Laplacian weight when
    [lambda_max] is zero: only a positive weight, which gives [+inf], is
    reset to zero. *)
Lemma scale_by_zero (q : Qc) :
  clamp_inf (fdiv (fmul f2 (Fin q)) f0)
  = match sgn q with
    | Gt => f0
    | Lt => NInf
    | Eq => NaN
    end.
Proof.
  assert (Hs : sgn (Q2Qc 2 * q) = sgn q).
  { unfold sgn, Qccompare.
    change (this (Q2Qc 2 * q)) with (Qred (this (Q2Qc 2) * this q)).
    change (this (Q2Qc 0)) with (Qred 0).
    rewrite <- Qred_compare.
    destruct q as [[a d] Hq]. unfold Qcompare. simpl.
    rewrite !Z.mul_1_r. destruct a; reflexivity. }
  unfold fmul, f2, fdiv, f0.
  change (sgn (Q2Qc 0)) with Eq. cbv iota. rewrite Hs.
  destruct (sgn q); reflexivity.
Qed.

(** C4, at a failing input.  With [lambda_max = 0] the two edges of the
    small graph, whose Laplacian weights are negative, come out of
    [__norm__] with the weight [-inf]: the mask of the source compares with
    [+inf] only.  Without normalization a node of degree zero comes out
    with [nan]. *)
Theorem norm_lambda_zero_not_clamped :
  __norm__ pow_neg_half_approx ex_edges 2 None NormSym (Scalar f0) None
  = Ok (ex_norm_edges, [NInf; NInf; f0; f0; fm1; fm1]) /\
  __norm__ pow_neg_half_approx [(0, 1)] 2 None NormNone (Scalar f0) None
  = Ok ([(0, 1); (0, 0); (1, 1); (0, 0); (1, 1)],
        [NInf; f0; NaN; fm1; fm1]).
Proof. split; eval_eq. Qed.

(** ** One more weight slice, all zeros *)

Lemma fadd_0_r (a : fval) : fadd a f0 = a.
Proof.
  destruct a as [q| | |]; simpl; try reflexivity.
  f_equal. apply Qcplus_0_r.
Qed.

Lemma fmul_fin_0 (a : fval) : is_fin a = true -> fmul a f0 = f0.
Proof.
  destruct a as [q| | |]; simpl; try discriminate. intros _.
  unfold f0. f_equal. ring.
Qed.

Lemma vsum_zeros (v : vec) : Forall (fun a => a = f0) v -> vsum v = f0.
Proof.
  unfold vsum. induction 1 as [|a v -> _ IH]; cbn [fold_left];
    [reflexivity|].
  rewrite fadd_0_r. exact IH.
Qed.

Lemma dot_zeros (r : vec) (m : nat) :
  fin_vec r -> dot r (repeat f0 m) = f0.
Proof.
  intros Hr. unfold dot. apply vsum_zeros.
  revert m. induction Hr as [|a r Ha _ IH]; intros [|m]; simpl;
    constructor; auto using fmul_fin_0.
Qed.

Lemma column_zeros2 (j f o : nat) : column j (zeros2 f o) = repeat f0 f.
Proof.
  unfold column, zeros2. rewrite map_repeat. f_equal.
  unfold zeros. destruct (Nat.lt_ge_cases j o) as [H|H].
  - now apply nth_repeat_lt.
  - apply nth_overflow. now rewrite repeat_length.
Qed.

(** A finite tensor times a zero matrix is zero everywhere. *)
Lemma tmatmul_zeros (T : tensor3) (f o : nat) :
  fin_tensor3 T ->
  tmatmul T (zeros2 f o)
  = map (map (fun _ => repeat f0 (ncols (zeros2 f o)))) T.
Proof.
  intros HT. unfold tmatmul, matmul. apply map_ext_in. intros m Hm.
  apply map_ext_in. intros r Hr.
  assert (Hfin : fin_vec r).
  { unfold fin_tensor3, fin_mat in HT. rewrite Forall_forall in HT.
    specialize (HT m Hm). rewrite Forall_forall in HT. now apply HT. }
  transitivity (map (fun _ : nat => f0) (seq 0 (ncols (zeros2 f o)))).
  - apply map_ext. intros j. rewrite column_zeros2. now apply dot_zeros.
  - now rewrite map_const, length_seq.
Qed.

Lemma map2_absorb {A B} (f : A -> B -> A) (l : list A) (l' : list B) :
  length l <= length l' ->
  (forall a b, In (a, b) (combine l l') -> f a b = a) ->
  map2 f l l' = l.
Proof.
  revert l'. induction l as [|a l IH]; intros [|b l'] Hl H; simpl in *;
    try lia; auto.
  f_equal.
  - apply H. now left.
  - apply IH; [lia|]. intros a' b' Hin. apply H. now right.
Qed.

(** Adding a zero tensor that is at least as large changes nothing. *)
Lemma tadd_zeros (b n o : nat) (X T : tensor3) :
  within b n o X -> length T = b -> rows_are n T ->
  tadd X (map (map (fun _ => repeat f0 o)) T) = X.
Proof.
  intros [HXl HX] HT Hr. unfold tadd.
  apply map2_absorb; [rewrite length_map; llia|].
  intros m z Hin.
  pose proof (in_combine_l _ _ _ _ Hin) as Hm.
  pose proof (in_combine_r _ _ _ _ Hin) as Hz.
  apply in_map_iff in Hz. destruct Hz as (t & <- & Ht).
  rewrite Forall_forall in HX. destruct (HX m Hm) as [Hml Hmr].
  unfold rows_are in Hr. rewrite Forall_forall in Hr.
  unfold madd. apply map2_absorb.
  - rewrite length_map, (Hr t Ht). exact Hml.
  - intros r z Hin'.
    pose proof (in_combine_l _ _ _ _ Hin') as Hrin.
    pose proof (in_combine_r _ _ _ _ Hin') as Hzin.
    apply in_map_iff in Hzin. destruct Hzin as (t' & <- & _).
    rewrite Forall_forall in Hmr. specialize (Hmr r Hrin).
    unfold vadd. apply map2_absorb.
    + now rewrite repeat_length.
    + intros a z Hin''. apply in_combine_r in Hin''.
      apply repeat_spec in Hin''. subst z. apply fadd_0_r.
Qed.

Lemma within_tadd (b n o : nat) (X Y : tensor3) :
  within b n o X -> within b n o (tadd X Y).
Proof.
  intros [Hl HX]. unfold within, tadd. split.
  - rewrite map2_length. llia.
  - apply map2_Forall. intros m m' Hin.
    rewrite Forall_forall in HX.
    destruct (HX m (in_combine_l _ _ _ _ Hin)) as [Hml Hmr].
    unfold madd. split; [rewrite map2_length; llia|].
    apply map2_Forall. intros r r' Hin'.
    rewrite Forall_forall in Hmr.
    specialize (Hmr r (in_combine_l _ _ _ _ Hin')).
    unfold vadd. rewrite map2_length. llia.
Qed.

Lemma within_fold (b n o : nat) (l : list tensor3) (X : tensor3) :
  within b n o X -> within b n o (fold_left tadd l X).
Proof.
  revert X. induction l as [|Y l IH]; intros X HX; simpl; auto.
  apply IH. now apply within_tadd.
Qed.

Lemma within_tmatmul (b n : nat) (T : tensor3) (w : mat) :
  length T = b -> rows_are n T -> within b n (ncols w) (tmatmul T w).
Proof.
  intros Hl Hr. unfold within, tmatmul. split.
  - rewrite length_map. llia.
  - apply Forall_map. unfold rows_are in Hr.
    eapply Forall_impl; [|exact Hr]. intros m Hm. unfold matmul.
    split; [rewrite length_map; llia|].
    apply Forall_map. apply Forall_forall. intros r _.
    now rewrite length_map, length_seq.
Qed.

Lemma ncols_is_mat (f o : nat) (a b : mat) :
  is_mat f o a -> is_mat f o b -> ncols a = ncols b.
Proof.
  intros [Hla Ha] [Hlb Hb]. unfold ncols.
  destruct a as [|r a], b as [|r' b]; simpl in *; try congruence.
  inversion Ha; inversion Hb; subst. unfold vec in *. congruence.
Qed.

Lemma zeros2_is_mat (f o : nat) : is_mat f o (zeros2 f o).
Proof.
  split; [apply zeros2_length|].
  unfold zeros2. apply Forall_forall. intros r Hr.
  apply repeat_spec in Hr. subst r. apply zeros_length.
Qed.

Lemma cheb_terms_snoc (rev : edges) (w : vec) (T0 T1 : tensor3) (m : nat) :
  exists t,
    cheb_terms rev w T0 T1 (S m) = cheb_terms rev w T0 T1 m ++ [t].
Proof.
  revert T0 T1. induction m as [|m IH]; intros T0 T1.
  - simpl. eexists. reflexivity.
  - destruct (IH T1 (tsub (tscale f2 (propagate_plain rev w T1)) T0))
      as (t & Ht).
    exists t. change (cheb_terms rev w T0 T1 (S (S m)))
      with (tsub (tscale f2 (propagate_plain rev w T1)) T0
            :: cheb_terms rev w T1
                 (tsub (tscale f2 (propagate_plain rev w T1)) T0) (S m)).
    rewrite Ht. reflexivity.
Qed.

Lemma cheb_term_list_length (rev : edges) (w : vec) (att : list vec)
  (T0 : tensor3) (K : nat) :
  length (cheb_term_list rev w att T0 K) = K.
Proof.
  destruct K as [|[|m]]; simpl; auto. now rewrite cheb_terms_length.
Qed.

(** The terms of order [K + 1] are those of order [K] and one more. *)
Lemma cheb_term_list_snoc (rev : edges) (w : vec) (att : list vec)
  (T0 : tensor3) (K : nat) :
  1 <= K ->
  cheb_term_list rev w att T0 (S K)
  = cheb_term_list rev w att T0 K
    ++ [nth K (cheb_term_list rev w att T0 (S K)) []].
Proof.
  intros HK.
  assert (H : exists t, cheb_term_list rev w att T0 (S K)
                        = cheb_term_list rev w att T0 K ++ [t]).
  { destruct K as [|[|m]]; [lia| |].
    - simpl. eexists. reflexivity.
    - destruct (cheb_terms_snoc rev w T0 (propagate_att rev att T0) m)
        as (t & Ht).
      exists t. unfold cheb_term_list. rewrite Ht. reflexivity. }
  destruct H as (t & Ht). rewrite Ht at 1. do 2 f_equal.
  rewrite Ht, app_nth2; rewrite cheb_term_list_length; [|lia].
  now rewrite Nat.sub_diag.
Qed.

Lemma cheb_terms_shape (b n : nat) (rev : edges) (w : vec)
  (T0 T1 : tensor3) (m : nat) :
  length T0 = b -> rows_are n T0 -> length T1 = b -> rows_are n T1 ->
  Forall (fun T => length T = b /\ rows_are n T) (cheb_terms rev w T0 T1 m).
Proof.
  revert T0 T1. induction m as [|m IH]; intros T0 T1 H0 R0 H1 R1; simpl;
    constructor.
  - split.
    + unfold tsub, tscale, propagate_plain.
      rewrite map2_length, !length_map. llia.
    + apply tsub_rows; [|exact R0]. apply tscale_rows.
      now apply propagate_plain_rows.
  - apply IH; auto.
    + unfold tsub, tscale, propagate_plain.
      rewrite map2_length, !length_map. llia.
    + apply tsub_rows; [|exact R0]. apply tscale_rows.
      now apply propagate_plain_rows.
Qed.

Lemma cheb_term_list_shape (b n : nat) (rev : edges) (w : vec)
  (att : list vec) (T0 : tensor3) (K : nat) :
  length att = b -> length T0 = b -> rows_are n T0 ->
  Forall (fun T => length T = b /\ rows_are n T)
         (cheb_term_list rev w att T0 K).
Proof.
  intros Ha H0 R0.
  assert (H1 : length (propagate_att rev att T0) = b).
  { unfold propagate_att. rewrite map2_length. llia. }
  pose proof (propagate_att_rows n rev att T0 R0) as R1.
  destruct K as [|[|m]]; simpl; repeat constructor; auto.
  now apply cheb_terms_shape.
Qed.

Lemma map2_app {A B C} (f : A -> B -> C) (l1 l2 : list A) (l1' l2' : list B) :
  length l1 = length l1' ->
  map2 f (l1 ++ l2) (l1' ++ l2') = map2 f l1 l1' ++ map2 f l2 l2'.
Proof.
  revert l1'. induction l1 as [|a l1 IH]; intros [|b l1'] H; simpl in *;
    try discriminate; auto.
  f_equal. apply IH. lia.
Qed.

Lemma tsum_snoc (l : list tensor3) (t : tensor3) :
  l <> [] -> tsum (l ++ [t]) = tadd (tsum l) t.
Proof.
  destruct l as [|t0 l]; [congruence|]. intros _. simpl.
  now rewrite fold_left_app.
Qed.

Lemma att_norm_spec_length (w : vec) (E : edges) (att : tensor3) :
  length (att_norm_spec w E att) = length att.
Proof. unfold att_norm_spec. apply length_map. Qed.

Section ExtraSlice.

Variable pow_neg_half : fval -> fval.

(** A forward pass that returns has passed the guard, normalization and the
    attention lookup. *)
Lemma forward_inv (self : ChebConvAttention) (x : tensor3) (ei : edges)
  (att : tensor3) (ew : option vec) (batch : option (list nat))
  (lm : option lam) (out : tensor3) :
  forward pow_neg_half self x ei att ew batch lm = Ok out ->
  lam_given (_normalization self) lm /\
  exists E w a,
    __norm__ pow_neg_half ei (size_node x) ew (_normalization self)
             (lam_or_default lm) batch = Ok (E, w) /\
    index_rc att (map fst E) (map snd E) = Ok a.
Proof.
  unfold forward. intros H. split.
  - unfold lam_given. destruct (_normalization self), lm; simpl in H;
      try discriminate; auto; right; discriminate.
  - destruct (negb (is_sym (_normalization self)) && is_None lm);
      [discriminate|].
    fold (lam_or_default lm) in H.
    destruct (__norm__ pow_neg_half ei (size_node x) ew
                (_normalization self) (lam_or_default lm) batch)
      as [[E w]|e] eqn:Hn; [|discriminate].
    simpl in H.
    destruct (index_rc att (map fst E) (map snd E)) as [a|e] eqn:Hi;
      [|discriminate].
    exists E, w, a. split; [reflexivity|exact Hi].
Qed.

(** C8, as the code has it.  Let a layer of order [K] return [out].  The
    layer with one more weight slice, all zeros, and the same other
    parameters returns the same [out], provided the extra term [T_K] is
    finite.  (A [nan] or an infinity in [T_K] times zero is [nan].) *)
Theorem forward_extra_zero_slice (self : ChebConvAttention) (x : tensor3)
  (ei : edges) (att : tensor3) (ew : option vec) (batch : option (list nat))
  (lm : option lam) (b n f o : nat) (out : tensor3) :
  shapes self x att b n f o ->
  _weight self <> [] ->
  forward pow_neg_half self x ei att ew batch lm = Ok out ->
  (forall E w,
     __norm__ pow_neg_half ei (size_node x) ew (_normalization self)
              (lam_or_default lm) batch = Ok (E, w) ->
     fin_tensor3
       (nth (length (_weight self))
            (cheb_term_list (map swap E) w (att_norm_spec w E att)
               (order0 att x) (S (length (_weight self)))) [])) ->
  forward pow_neg_half (with_extra_slice self (zeros2 f o)) x ei att ew
          batch lm = Ok out.
Proof.
  intros [Hx Ha HWs _] HW Hf Hfin.
  destruct (forward_inv self x ei att ew batch lm out Hf)
    as (Hg & E & w & a & Hn & Hi).
  specialize (Hfin E w Hn).
  rewrite (forward_terms pow_neg_half self x ei att ew batch lm b n f
             E w a Hx Ha HW Hg Hn Hi) in Hf.
  rewrite (forward_terms pow_neg_half (with_extra_slice self (zeros2 f o))
             x ei att ew batch lm b n f E w a Hx Ha);
    [| simpl; now destruct (_weight self) | exact Hg | exact Hn | exact Hi].
  rewrite <- Hf. simpl. do 2 f_equal.
  set (K := length (_weight self)) in *.
  set (TL := cheb_term_list (map swap E) w (att_norm_spec w E att)
               (order0 att x)) in *.
  assert (HK : 1 <= K).
  { subst K. destruct (_weight self); [congruence|simpl; lia]. }
  rewrite length_app. change (length [zeros2 f o]) with 1.
  rewrite Nat.add_1_r.
  subst TL. rewrite (cheb_term_list_snoc _ _ _ _ K HK).
  set (TL := cheb_term_list (map swap E) w (att_norm_spec w E att)
               (order0 att x)) in *.
  rewrite map2_app by (subst TL K; apply cheb_term_list_length).
  change (map2 tmatmul [nth K (TL (S K)) []] [zeros2 f o])
    with [tmatmul (nth K (TL (S K)) []) (zeros2 f o)].
  assert (Hne : map2 tmatmul (TL K) (_weight self) <> []).
  { subst TL K. destruct (_weight self) as [|w0 [|w1 ws]]; [congruence| |];
      simpl; discriminate. }
  rewrite tsum_snoc by exact Hne.
  rewrite (tmatmul_zeros _ f o Hfin).
  pose proof (cheb_term_list_shape b n (map swap E) w
                (att_norm_spec w E att) (order0 att x) (S K)) as Hsh.
  rewrite att_norm_spec_length in Hsh.
  specialize (Hsh (proj1 Ha) (order0_length b n f x att Hx Ha)
                  (order0_rows b n f x att Hx Ha)).
  rewrite Forall_forall in Hsh.
  destruct (Hsh (nth K (TL (S K)) [])) as [HTl HTr].
  { apply nth_In. subst TL. rewrite cheb_term_list_length. lia. }
  apply (tadd_zeros b n); auto.
  (* the accumulated output is no larger than (b, n, o) *)
  subst TL K. clear HTl HTr Hsh Hne Hfin Hf.
  destruct (_weight self) as [|w0 ws] eqn:EW; [congruence|].
  assert (Hw0 : is_mat f o w0) by (inversion HWs; assumption).
  rewrite (ncols_is_mat f o _ w0 (zeros2_is_mat f o) Hw0).
  assert (H0 : within b n (ncols w0) (tmatmul (order0 att x) w0)).
  { apply within_tmatmul.
    - exact (order0_length b n f x att Hx Ha).
    - exact (order0_rows b n f x att Hx Ha). }
  destruct ws as [|w1 ws]; simpl.
  - exact H0.
  - apply within_fold, within_tadd. exact H0.
Qed.

End ExtraSlice.

Lemma forward_extra_zero_slice_witness :
  forward pow_neg_half_approx (with_extra_slice ex_conv1 (zeros2 1 1))
          ex_x ex_edges ex_att None None None
  = Ok [[[num 2]; [num 9]]].
Proof.
  apply (forward_extra_zero_slice pow_neg_half_approx ex_conv1 ex_x ex_edges
           ex_att None None None 1 2 1 1).
  - constructor.
    + split; [reflexivity|]. repeat constructor.
    + split; [reflexivity|]. repeat constructor.
    + repeat constructor.
    + intros bv H. injection H as <-. reflexivity.
  - discriminate.
  - eval_eq.
  - intros E w H. vm_compute in H. injection H as <- <-.
    vm_compute. repeat constructor.
Defined.

(** C8 as stated fails.  With [lambda_max = 0] the two edges of the small
    graph carry the weight [-inf] (see C4), the term [T_1] is infinite, and
    its product with the zero slice is [nan]: the layer of order 2 returns
    [nan] where the layer of order 1 returns 2 and 9. *)
Lemma extra_zero_slice_changes_output :
  forward pow_neg_half_approx ex_conv1_none ex_x ex_edges ex_att None None
          (Some (Scalar f0))
  = Ok [[[num 2]; [num 9]]] /\
  forward pow_neg_half_approx (with_extra_slice ex_conv1_none (zeros2 1 1))
          ex_x ex_edges ex_att None None (Some (Scalar f0))
  = Ok [[[NaN]; [NaN]]] /\
  forward pow_neg_half_approx (with_extra_slice ex_conv1_none (zeros2 1 1))
          ex_x ex_edges ex_att None None (Some (Scalar f0))
  <> forward pow_neg_half_approx ex_conv1_none ex_x ex_edges ex_att None None
          (Some (Scalar f0)).
Proof.
  split; [eval_eq|]. split; [eval_eq|].
  intros H. vm_compute in H. discriminate H.
Qed.

(** ** Finite values stay finite *)

Lemma fadd_fin (a b : fval) :
  is_fin a = true -> is_fin b = true -> is_fin (fadd a b) = true.
Proof. destruct a, b; simpl; auto. Qed.

Lemma fmul_fin (a b : fval) :
  is_fin a = true -> is_fin b = true -> is_fin (fmul a b) = true.
Proof. destruct a, b; simpl; auto; discriminate. Qed.

Lemma vsum_fin (v : vec) : fin_vec v -> is_fin (vsum v) = true.
Proof.
  unfold vsum. generalize f0 (eq_refl : is_fin f0 = true).
  intros a Ha Hv. revert a Ha.
  induction Hv as [|x v Hx _ IH]; intros a Ha; simpl; auto.
  apply IH. now apply fadd_fin.
Qed.

Lemma map2_fmul_fin (u v : vec) :
  fin_vec u -> fin_vec v -> fin_vec (map2 fmul u v).
Proof.
  intros Hu. revert v. induction Hu as [|a u Ha _ IH]; intros v Hv;
    destruct Hv as [|b v Hb Hv]; simpl; constructor; auto using fmul_fin.
  now apply IH.
Qed.

Lemma map2_fadd_fin (u v : vec) :
  fin_vec u -> fin_vec v -> fin_vec (map2 fadd u v).
Proof.
  intros Hu. revert v. induction Hu as [|a u Ha _ IH]; intros v Hv;
    destruct Hv as [|b v Hb Hv]; simpl; constructor; auto using fadd_fin.
  now apply IH.
Qed.

Lemma dot_fin (u v : vec) : fin_vec u -> fin_vec v -> is_fin (dot u v) = true.
Proof. intros. apply vsum_fin. now apply map2_fmul_fin. Qed.

Lemma nth_fin (v : vec) (j : nat) : fin_vec v -> is_fin (nth j v f0) = true.
Proof.
  intros Hv. destruct (Nat.lt_ge_cases j (length v)) as [H|H].
  - unfold fin_vec in Hv. rewrite Forall_forall in Hv.
    apply Hv. now apply nth_In.
  - now rewrite nth_overflow.
Qed.

Lemma column_fin (m : mat) (j : nat) : fin_mat m -> fin_vec (column j m).
Proof.
  intros Hm. unfold column. apply Forall_map.
  eapply Forall_impl; [|exact Hm]. intros r Hr. now apply nth_fin.
Qed.

Lemma matmul_fin (a b : mat) : fin_mat a -> fin_mat b -> fin_mat (matmul a b).
Proof.
  intros Ha Hb. unfold matmul. apply Forall_map.
  eapply Forall_impl; [|exact Ha]. intros r Hr.
  apply Forall_map. apply Forall_forall. intros j _.
  apply dot_fin; [exact Hr|now apply column_fin].
Qed.

Lemma matvec_fin (m : mat) (v : vec) :
  fin_mat m -> fin_vec v -> fin_vec (matvec m v).
Proof.
  intros Hm Hv. unfold matvec. apply Forall_map.
  eapply Forall_impl; [|exact Hm]. intros r Hr. now apply dot_fin.
Qed.

Lemma vecmat_fin (v : vec) (m : mat) :
  fin_vec v -> fin_mat m -> fin_vec (vecmat v m).
Proof.
  intros Hv Hm. unfold vecmat. apply Forall_map.
  apply Forall_forall. intros j _.
  apply dot_fin; [exact Hv|now apply column_fin].
Qed.

Lemma transpose_fin (m : mat) : fin_mat m -> fin_mat (transpose m).
Proof.
  intros Hm. unfold transpose. apply Forall_map.
  apply Forall_forall. intros j _. now apply column_fin.
Qed.

Lemma madd_fin (a b : mat) : fin_mat a -> fin_mat b -> fin_mat (madd a b).
Proof.
  intros Ha. revert b. induction Ha as [|r a Hr _ IH]; intros b Hb;
    destruct Hb as [|r' b Hr' Hb]; simpl; constructor.
  - now apply map2_fadd_fin.
  - now apply IH.
Qed.

Lemma add_broadcast_fin (t bias : tensor3) :
  fin_tensor3 t -> fin_tensor3 bias -> fin_tensor3 (add_broadcast t bias).
Proof.
  intros Ht Hb. unfold add_broadcast.
  assert (Hgen : fin_tensor3 (tadd t bias)).
  { unfold tadd. clear - Ht Hb. revert bias Hb.
    induction Ht as [|m t Hm _ IH]; intros bias Hb;
      destruct Hb as [|m' bias Hm' Hb]; simpl; constructor.
    - now apply madd_fin.
    - now apply IH. }
  destruct bias as [|b0 [|b1 bias]]; auto.
  inversion Hb; subst. apply Forall_map.
  eapply Forall_impl; [|exact Ht]. intros m Hm. now apply madd_fin.
Qed.

Lemma permute_210_fin (x : tensor3) :
  fin_tensor3 x -> fin_tensor3 (permute_210 x).
Proof.
  intros Hx. unfold permute_210.
  apply Forall_map. apply Forall_forall. intros k _.
  apply Forall_map. apply Forall_forall. intros j _.
  apply Forall_map. eapply Forall_impl; [|exact Hx]. intros m Hm.
  apply nth_fin.
  destruct (Nat.lt_ge_cases j (length m)) as [H|H].
  - unfold fin_mat in Hm. rewrite Forall_forall in Hm.
    apply Hm. now apply nth_In.
  - rewrite nth_overflow by exact H. constructor.
Qed.

Section AttentionFinite.

Variable sigmoid : fval -> fval.
Hypothesis sigmoid_fin : sigmoid_finite sigmoid.

Lemma map_sigmoid_fin (m : mat) : fin_mat m -> fin_mat (map (map sigmoid) m).
Proof.
  intros Hm. apply Forall_map. eapply Forall_impl; [|exact Hm].
  intros r Hr. apply Forall_map. eapply Forall_impl; [|exact Hr].
  intros a Ha. destruct a; try discriminate. apply sigmoid_fin.
Qed.

(** The scores of both attention layers are finite on finite inputs. *)
Lemma spatial_scores_fin (p : SpatialAttention) (X : tensor4) :
  fin_spatial p -> fin_tensor4 X ->
  fin_tensor3 (SpatialAttention_scores sigmoid p X).
Proof.
  intros (H1 & H2 & H3 & Hb & HV) HX. unfold SpatialAttention_scores.
  apply Forall_map.
  assert (Hs : fin_tensor3
            (add_broadcast
               (map2 matmul
                  (tmatmul (map (map (fun m => matvec m (_W1 p))) X) (_W2 p))
                  (map (fun xb => transpose (map (vecmat (_W3 p)) xb)) X))
               (_bs p))).
  { apply add_broadcast_fin; [|exact Hb].
    apply map2_Forall. intros l r Hin.
    pose proof (in_combine_l _ _ _ _ Hin) as Hl.
    pose proof (in_combine_r _ _ _ _ Hin) as Hr.
    unfold tmatmul in Hl. rewrite map_map in Hl.
    apply in_map_iff in Hl. destruct Hl as (xb & <- & Hxb).
    apply in_map_iff in Hr. destruct Hr as (xb' & <- & Hxb').
    unfold fin_tensor4 in HX. rewrite Forall_forall in HX.
    apply matmul_fin.
    - apply matmul_fin; [|exact H2]. apply Forall_map.
      eapply Forall_impl; [|exact (HX xb Hxb)]. intros m Hm.
      now apply matvec_fin.
    - apply transpose_fin. apply Forall_map.
      eapply Forall_impl; [|exact (HX xb' Hxb')]. intros m Hm.
      now apply vecmat_fin. }
  eapply Forall_impl; [|exact Hs]. intros m Hm.
  apply matmul_fin; [exact HV|]. now apply map_sigmoid_fin.
Qed.

Lemma temporal_scores_fin (p : TemporalAttention) (X : tensor4) :
  fin_temporal p -> fin_tensor4 X ->
  fin_tensor3 (TemporalAttention_scores sigmoid p X).
Proof.
  intros (H1 & H2 & H3 & Hb & HV) HX. unfold TemporalAttention_scores.
  apply Forall_map.
  assert (Hs : fin_tensor3
            (add_broadcast
               (map2 matmul
                  (tmatmul
                     (map (fun xb => map (fun m => matvec m (_U1 p))
                                         (permute_210 xb)) X)
                     (_U2 p))
                  (map (fun xb => map (vecmat (_U3 p)) xb) X))
               (_be p))).
  { apply add_broadcast_fin; [|exact Hb].
    apply map2_Forall. intros l r Hin.
    pose proof (in_combine_l _ _ _ _ Hin) as Hl.
    pose proof (in_combine_r _ _ _ _ Hin) as Hr.
    unfold tmatmul in Hl. rewrite map_map in Hl.
    apply in_map_iff in Hl. destruct Hl as (xb & <- & Hxb).
    apply in_map_iff in Hr. destruct Hr as (xb' & <- & Hxb').
    unfold fin_tensor4 in HX. rewrite Forall_forall in HX.
    apply matmul_fin.
    - apply matmul_fin; [|exact H2]. apply Forall_map.
      pose proof (permute_210_fin xb (HX xb Hxb)) as Hp.
      eapply Forall_impl; [|exact Hp]. intros m Hm.
      now apply matvec_fin.
    - apply Forall_map.
      eapply Forall_impl; [|exact (HX xb' Hxb')]. intros m Hm.
      now apply vecmat_fin. }
  eapply Forall_impl; [|exact Hs]. intros m Hm.
  apply matmul_fin; [exact HV|]. now apply map_sigmoid_fin.
Qed.

End AttentionFinite.

(** ** The softmax over axis 1 *)

Lemma sgn_pos (s : Qc) : (Q2Qc 0 < s)%Qc -> sgn s = Gt.
Proof.
  intros H. unfold sgn, Qccompare. rewrite <- Qcompare_antisym.
  unfold Qclt in H. rewrite Qlt_alt in H. now rewrite H.
Qed.

Lemma Qc_pos_add (a q : Qc) :
  (Q2Qc 0 <= a)%Qc -> (Q2Qc 0 < q)%Qc -> (Q2Qc 0 < a + q)%Qc.
Proof.
  intros Ha Hq. unfold Qclt, Qcle in *.
  change (this (a + q)) with (Qred (this a + this q)).
  change (this (Q2Qc 0)) with 0%Q in *.
  rewrite Qred_correct. lra.
Qed.

Lemma Qc_lt_le (a : Qc) : (Q2Qc 0 < a)%Qc -> (Q2Qc 0 <= a)%Qc.
Proof. apply Qclt_le_weak. Qed.

Lemma qsum_pos (qs : list Qc) (a : Qc) :
  (Q2Qc 0 <= a)%Qc -> Forall (fun q => (Q2Qc 0 < q)%Qc) qs -> qs <> [] ->
  (Q2Qc 0 < fold_left Qcplus qs a)%Qc.
Proof.
  intros Ha Hq Hne. revert a Ha.
  induction Hq as [|q qs Hq Hqs IH]; intros a Ha; [congruence|].
  simpl. destruct qs as [|q' qs].
  - simpl. now apply Qc_pos_add.
  - apply IH; [discriminate|]. apply Qc_lt_le. now apply Qc_pos_add.
Qed.

Lemma qsum_div (qs : list Qc) (a s : Qc) :
  fold_left Qcplus (map (fun q => q / s)%Qc qs) (a / s)%Qc
  = (fold_left Qcplus qs a / s)%Qc.
Proof.
  revert a. induction qs as [|q qs IH]; intros a; simpl; [reflexivity|].
  rewrite <- IH. f_equal. unfold Qcdiv. ring.
Qed.

Lemma vsum_Fin (qs : list Qc) :
  vsum (map Fin qs) = Fin (fold_left Qcplus qs (Q2Qc 0)).
Proof.
  unfold vsum, f0. generalize (Q2Qc 0).
  induction qs as [|q qs IH]; intros a; simpl; [reflexivity|]. apply IH.
Qed.

(** Dividing positive numbers by their sum gives numbers that sum to 1. *)
Lemma normalized_sum (qs : list Qc) :
  Forall (fun q => (Q2Qc 0 < q)%Qc) qs -> qs <> [] ->
  vsum (map (fun a => fdiv a (vsum (map Fin qs))) (map Fin qs)) = f1.
Proof.
  intros Hq Hne. rewrite vsum_Fin.
  set (s := fold_left Qcplus qs (Q2Qc 0)).
  assert (Hs : (Q2Qc 0 < s)%Qc).
  { subst s. apply qsum_pos; auto. apply Qcle_refl. }
  rewrite map_map.
  assert (Hd : map (fun q => fdiv (Fin q) (Fin s)) qs
               = map Fin (map (fun q => q / s)%Qc qs)).
  { rewrite map_map. apply map_ext. intros q. simpl.
    now rewrite (sgn_pos s Hs). }
  rewrite Hd, vsum_Fin.
  replace (Q2Qc 0) with (Q2Qc 0 / s)%Qc by (unfold Qcdiv; ring).
  rewrite qsum_div. fold s. unfold f1. f_equal.
  unfold Qcdiv. apply Qcmult_inv_r. intros E. rewrite E in Hs.
  unfold Qclt in Hs. change (this (Q2Qc 0)) with 0%Q in Hs. lra.
Qed.

Lemma nth_map2 {A B C} (f : A -> B -> C) (l : list A) (l' : list B)
  (j : nat) (da : A) (db : B) (dc : C) :
  j < length l -> j < length l' ->
  nth j (map2 f l l') dc = f (nth j l da) (nth j l' db).
Proof.
  revert l l'. induction j as [|j IH]; intros [|a l] [|b l'] H H';
    simpl in *; try lia; auto.
  apply IH; lia.
Qed.

Section Softmax.

Variable exp : fval -> fval.
Hypothesis exp_pos : exp_positive exp.

Lemma exp_column (M : mat) (j c : nat) :
  fin_mat M -> Forall (fun r => length r = c) M -> j < c ->
  exists qs,
    column j (map (map exp) M) = map Fin qs /\
    Forall (fun q => (Q2Qc 0 < q)%Qc) qs /\ length qs = length M.
Proof.
  intros Hf Hc Hj. induction M as [|r M IH].
  - exists []. repeat split; constructor.
  - inversion Hf as [|? ? Hr HM]; inversion Hc as [|? ? Hlr HcM]; subst.
    destruct (IH HM HcM) as (qs & Hqs & Hpos & Hlen).
    assert (Ha : is_fin (nth j r f0) = true) by now apply nth_fin.
    destruct (nth j r f0) as [q| | |] eqn:Hq; try discriminate.
    destruct (exp_pos q) as (e & He & Hepos).
    exists (e :: qs). simpl. repeat split.
    + f_equal; [|exact Hqs].
      rewrite (nth_indep _ f0 (exp f0)) by (rewrite length_map; lia).
      now rewrite map_nth, Hq.
    + now constructor.
    + now rewrite Hlen.
Qed.

(** Every column of the softmax of a finite matrix sums to 1. *)
Lemma softmax_column_sum (M : mat) (c j : nat) :
  fin_mat M -> M <> [] -> Forall (fun r => length r = c) M -> j < c ->
  vsum (column j (softmax_dim1 exp M)) = f1.
Proof.
  intros Hf Hne Hc Hj.
  destruct (exp_column M j c Hf Hc Hj) as (qs & Hqs & Hpos & Hlen).
  unfold softmax_dim1.
  set (E := map (map exp) M) in *.
  assert (HcE : Forall (fun r => length r = c) E).
  { subst E. apply Forall_map. eapply Forall_impl; [|exact Hc].
    intros r Hr. now rewrite length_map. }
  assert (Hnc : ncols E = c).
  { subst E. destruct M as [|r M]; [congruence|].
    inversion HcE; subst. reflexivity. }
  rewrite Hnc.
  set (total := map (fun k => vsum (column k E)) (seq 0 c)).
  assert (Hcol : column j (map (fun r => map2 fdiv r total) E)
                 = map (fun a => fdiv a (vsum (column j E))) (column j E)).
  { unfold column. rewrite !map_map. apply map_ext_in. intros r Hr.
    rewrite Forall_forall in HcE.
    rewrite (nth_map2 fdiv r total j f0 f0 f0).
    - f_equal. subst total.
      rewrite (nth_indep _ f0 (vsum (column 0 E)))
        by (rewrite length_map, length_seq; exact Hj).
      rewrite map_nth with (d := 0) (f := fun k => vsum (column k E)).
      now rewrite seq_nth.
    - rewrite (HcE r Hr). exact Hj.
    - subst total. rewrite length_map, length_seq. exact Hj. }
  rewrite Hcol, Hqs. apply normalized_sum; [exact Hpos|].
  destruct qs; [|discriminate]. destruct M; [congruence|discriminate].
Qed.

End Softmax.

(** ** Shapes of the attention scores *)

Lemma ncols_map_map (g : fval -> fval) (m : mat) :
  ncols (map (map g) m) = ncols m.
Proof. destruct m as [|r m]; simpl; [reflexivity|apply length_map]. Qed.

Lemma ncols_madd (a b : mat) :
  a <> [] -> b <> [] -> ncols (madd a b) = Nat.min (ncols a) (ncols b).
Proof.
  destruct a as [|r a], b as [|r' b]; try congruence. intros _ _.
  unfold ncols. simpl. unfold vadd. apply map2_length.
Qed.

Lemma ncols_matmul (a b : mat) : a <> [] -> ncols (matmul a b) = ncols b.
Proof.
  destruct a as [|r a]; [congruence|]. intros _.
  unfold ncols at 1. simpl. now rewrite length_map, length_seq.
Qed.

Lemma ncols_transpose (m : mat) :
  0 < ncols m -> ncols (transpose m) = length m.
Proof.
  intros H. unfold transpose, ncols at 1.
  destruct (ncols m) as [|c]; [llia|]. simpl.
  unfold column. apply length_map.
Qed.

Lemma ncols_is_mat_pos (r c : nat) (m : mat) :
  is_mat r c m -> 0 < r -> ncols m = c.
Proof.
  intros [Hl Hr] Hpos. destruct m as [|x m]; simpl in *; [llia|].
  inversion Hr; subst. reflexivity.
Qed.

Lemma matmul_is_mat (a b : mat) : is_mat (length a) (ncols b) (matmul a b).
Proof.
  split; [apply matmul_rows|]. unfold matmul. apply Forall_map.
  apply Forall_forall. intros r _. now rewrite length_map, length_seq.
Qed.

Lemma add_broadcast_length (t bias : tensor3) :
  length bias = 1 -> length (add_broadcast t bias) = length t.
Proof.
  destruct bias as [|b0 [|b1 bias]]; try discriminate. intros _.
  apply length_map.
Qed.

Lemma add_broadcast_in (t bias : tensor3) (b0 m : mat) :
  bias = [b0] -> In m (add_broadcast t bias) ->
  exists a, In a t /\ m = madd a b0.
Proof.
  intros -> Hin. simpl in Hin. apply in_map_iff in Hin.
  destruct Hin as (a & <- & Ha). eauto.
Qed.

Section AttentionShape.

Variable sigmoid : fval -> fval.

(** The spatial scores have shape (b, n, n). *)
Lemma spatial_scores_shape (p : SpatialAttention) (X : tensor4)
  (b n f t : nat) :
  is_tensor4 b n f t X -> shape_spatial n f t p ->
  0 < n -> 0 < f -> 0 < t ->
  is_tensor3 b n n (SpatialAttention_scores sigmoid p X).
Proof.
  intros [HXl HX] (H1 & H2 & H3 & [Hbl Hb] & HV) Hn Hf Ht.
  unfold SpatialAttention_scores.
  destruct (_bs p) as [|b0 [|b1 bs]] eqn:Ebs; try discriminate.
  assert (Hb0 : is_mat n n b0) by (inversion Hb; assumption).
  split.
  - rewrite length_map, add_broadcast_length by reflexivity.
    unfold tmatmul. rewrite map2_length, !length_map. llia.
  - apply Forall_map. apply Forall_forall. intros m Hm.
    destruct (add_broadcast_in _ _ b0 m eq_refl Hm) as (a & Ha & ->).
    rewrite map2_combine in Ha. apply in_map_iff in Ha.
    destruct Ha as ([l r] & <- & Hin). simpl.
    pose proof (in_combine_l _ _ _ _ Hin) as Hl.
    pose proof (in_combine_r _ _ _ _ Hin) as Hr.
    unfold tmatmul in Hl. rewrite map_map in Hl.
    apply in_map_iff in Hl. destruct Hl as (xb & <- & Hxb).
    apply in_map_iff in Hr. destruct Hr as (xb' & <- & Hxb').
    rewrite Forall_forall in HX.
    destruct (HX xb Hxb) as [Hxl _]. destruct (HX xb' Hxb') as [Hxl' Hxr'].
    pose proof (matmul_is_mat (_Vs p)
                  (map (map sigmoid)
                     (madd (matmul (matmul (map (fun m => matvec m (_W1 p)) xb)
                                           (_W2 p))
                                   (transpose (map (vecmat (_W3 p)) xb')))
                           b0))) as HM.
    rewrite (proj1 HV) in HM.
    rewrite ncols_map_map, ncols_madd, ncols_matmul, ncols_transpose in HM.
    + rewrite length_map, Hxl', (ncols_is_mat_pos n n b0 Hb0 Hn) in HM.
      now rewrite Nat.min_id in HM.
    + destruct xb' as [|x0 xb']; simpl in *; [llia|].
      unfold ncols. simpl. unfold vecmat. rewrite length_map, length_seq.
      assert (Hx0 : is_mat f t x0) by (inversion Hxr'; assumption).
      rewrite (ncols_is_mat_pos f t x0 Hx0 Hf). exact Ht.
    + destruct xb; simpl in *; [llia|discriminate].
    + destruct xb; simpl in *; [llia|discriminate].
    + destruct b0; [destruct Hb0; simpl in *; llia|discriminate].
Qed.

Lemma permute_210_length (n f t : nat) (x : tensor3) :
  is_tensor3 n f t x -> 0 < n -> 0 < f -> length (permute_210 x) = t.
Proof.
  intros [Hl Hx] Hn Hf. unfold permute_210.
  rewrite length_map, length_seq.
  destruct x as [|m x]; simpl in *; [llia|].
  assert (Hm : is_mat f t m) by (inversion Hx; assumption).
  exact (ncols_is_mat_pos f t m Hm Hf).
Qed.

(** The temporal scores have shape (b, t, t). *)
Lemma temporal_scores_shape (p : TemporalAttention) (X : tensor4)
  (b n f t : nat) :
  is_tensor4 b n f t X -> shape_temporal n f t p ->
  0 < n -> 0 < f -> 0 < t ->
  is_tensor3 b t t (TemporalAttention_scores sigmoid p X).
Proof.
  intros [HXl HX] (H1 & H2 & H3 & [Hbl Hb] & HV) Hn Hf Ht.
  unfold TemporalAttention_scores.
  destruct (_be p) as [|b0 [|b1 bs]] eqn:Ebs; try discriminate.
  assert (Hb0 : is_mat t t b0) by (inversion Hb; assumption).
  split.
  - rewrite length_map, add_broadcast_length by reflexivity.
    unfold tmatmul. rewrite map2_length, !length_map. llia.
  - apply Forall_map. apply Forall_forall. intros m Hm.
    destruct (add_broadcast_in _ _ b0 m eq_refl Hm) as (a & Ha & ->).
    rewrite map2_combine in Ha. apply in_map_iff in Ha.
    destruct Ha as ([l r] & <- & Hin). simpl.
    pose proof (in_combine_l _ _ _ _ Hin) as Hl.
    pose proof (in_combine_r _ _ _ _ Hin) as Hr.
    unfold tmatmul in Hl. rewrite map_map in Hl.
    apply in_map_iff in Hl. destruct Hl as (xb & <- & Hxb).
    apply in_map_iff in Hr. destruct Hr as (xb' & <- & Hxb').
    rewrite Forall_forall in HX.
    pose proof (permute_210_length n f t xb (HX xb Hxb) Hn Hf) as Hpl.
    destruct (HX xb' Hxb') as [Hxl' Hxr'].
    pose proof (matmul_is_mat (_Ve p)
                  (map (map sigmoid)
                     (madd (matmul
                              (matmul (map (fun m => matvec m (_U1 p))
                                           (permute_210 xb))
                                      (_U2 p))
                              (map (vecmat (_U3 p)) xb'))
                           b0))) as HM.
    rewrite (proj1 HV) in HM.
    rewrite ncols_map_map, ncols_madd, ncols_matmul in HM.
    + assert (Hc : ncols (map (vecmat (_U3 p)) xb') = t).
      { destruct xb' as [|x0 xb']; simpl in *; [llia|].
        unfold ncols. simpl. unfold vecmat. rewrite length_map, length_seq.
        assert (Hx0 : is_mat f t x0) by (inversion Hxr'; assumption).
        exact (ncols_is_mat_pos f t x0 Hx0 Hf). }
      rewrite Hc, (ncols_is_mat_pos t t b0 Hb0 Ht) in HM.
      now rewrite Nat.min_id in HM.
    + intros E. apply (f_equal (@length _)) in E.
      rewrite matmul_rows, length_map, Hpl in E. simpl in E. llia.
    + intros E. apply (f_equal (@length _)) in E.
      rewrite !matmul_rows, length_map, Hpl in E. simpl in E. llia.
    + destruct b0; [destruct Hb0; simpl in *; llia|discriminate].
Qed.

End AttentionShape.

(** ** The attention matrices sum to 1 along axis 1 *)

Lemma softmax_shape (exp : fval -> fval) (r c : nat) (M : mat) :
  is_mat r c M -> 0 < r -> is_mat r c (softmax_dim1 exp M).
Proof.
  intros [Hl Hc] Hr. unfold softmax_dim1.
  assert (Hnc : ncols (map (map exp) M) = c).
  { destruct M as [|x M]; simpl in *; [llia|].
    unfold ncols. simpl. rewrite length_map. now inversion Hc. }
  rewrite Hnc. split.
  - now rewrite !length_map.
  - apply Forall_map, Forall_map. eapply Forall_impl; [|exact Hc].
    intros x Hx. rewrite map2_length, !length_map, length_seq, Hx.
    apply Nat.min_id.
Qed.

Lemma softmax_batch (exp : fval -> fval) (b n : nat) (scores : tensor3) :
  exp_positive exp -> is_tensor3 b n n scores -> fin_tensor3 scores ->
  0 < n ->
  is_tensor3 b n n (map (softmax_dim1 exp) scores) /\
  forall k j, k < b -> j < n ->
    vsum (column j (nth k (map (softmax_dim1 exp) scores) [])) = f1.
Proof.
  intros Hexp [Hl Hs] Hf Hn. split.
  - split; [now rewrite length_map|].
    apply Forall_map. eapply Forall_impl; [|exact Hs].
    intros M HM. now apply softmax_shape.
  - intros k j Hk Hj.
    change (@nil vec) with (softmax_dim1 exp []) at 1.
    rewrite map_nth.
    assert (Hin : In (nth k scores []) scores) by (apply nth_In; llia).
    rewrite Forall_forall in Hs. destruct (Hs _ Hin) as [HMl HMc].
    unfold fin_tensor3 in Hf. rewrite Forall_forall in Hf.
    apply (softmax_column_sum exp Hexp _ n j); auto.
    intros E. rewrite E in HMl. simpl in HMl. llia.
Qed.

(** C5.  On finite inputs the output of [SpatialAttention], of shape
    (batch, node, node), sums to 1 along axis 1 for every batch element and
    every index of the last axis, and so does the output of
    [TemporalAttention], of shape (batch, time, time). *)
Theorem attention_sums_to_one (sigmoid exp : fval -> fval)
  (ps : SpatialAttention) (pt : TemporalAttention) (X : tensor4)
  (b n f t : nat) :
  exp_positive exp -> sigmoid_finite sigmoid ->
  is_tensor4 b n f t X -> fin_tensor4 X ->
  0 < n -> 0 < f -> 0 < t ->
  shape_spatial n f t ps -> fin_spatial ps ->
  shape_temporal n f t pt -> fin_temporal pt ->
  (is_tensor3 b n n (SpatialAttention_forward sigmoid exp ps X) /\
   forall k j, k < b -> j < n ->
     vsum (column j (nth k (SpatialAttention_forward sigmoid exp ps X) []))
     = f1) /\
  (is_tensor3 b t t (TemporalAttention_forward sigmoid exp pt X) /\
   forall k j, k < b -> j < t ->
     vsum (column j (nth k (TemporalAttention_forward sigmoid exp pt X) []))
     = f1).
Proof.
  intros Hexp Hsig HX HfX Hn Hf Ht Hss Hfs Hst Hft.
  unfold SpatialAttention_forward, TemporalAttention_forward. split.
  - apply softmax_batch; auto.
    + now apply (spatial_scores_shape sigmoid ps X b n f t).
    + now apply spatial_scores_fin.
  - apply softmax_batch; auto.
    + now apply (temporal_scores_shape sigmoid pt X b n f t).
    + now apply temporal_scores_fin.
Qed.

Lemma sgn_Gt_pos (q : Qc) : sgn q = Gt -> (0 < this q)%Q.
Proof.
  unfold sgn, Qccompare. intros H.
  change (this (Q2Qc 0)) with 0%Q in H. now apply Qgt_alt in H.
Qed.

Lemma sgn_not_Gt (q : Qc) : sgn q <> Gt -> (this q <= 0)%Q.
Proof.
  unfold sgn, Qccompare. intros H.
  change (this (Q2Qc 0)) with 0%Q in H. now apply Qle_alt.
Qed.

Lemma exp_below_positive (q : Qc) :
  (this q <= 0)%Q -> (Q2Qc 0 < Q2Qc 1 / (Q2Qc 1 - q))%Qc.
Proof.
  intros Hq. unfold Qclt.
  change (this (Q2Qc 0)) with 0%Q.
  change (this (Q2Qc 1 / (Q2Qc 1 - q))%Qc)
    with (Qred (Qred 1 * Qred (/ Qred (Qred 1 + Qred (- this q))))).
  rewrite !Qred_correct.
  apply Qmult_lt_0_compat; [reflexivity|].
  apply Qinv_lt_0_compat. lra.
Qed.

Lemma exp_above_positive (q : Qc) :
  (0 < this q)%Q -> (Q2Qc 0 < Q2Qc 1 + q)%Qc.
Proof.
  intros Hq. unfold Qclt.
  change (this (Q2Qc 0)) with 0%Q.
  change (this (Q2Qc 1 + q)%Qc) with (Qred (Qred 1 + this q)).
  rewrite !Qred_correct. lra.
Qed.

Lemma exp_approx_positive : exp_positive exp_approx.
Proof.
  intros q. unfold exp_approx. destruct (sgn q) eqn:Hs.
  - eexists; split; [reflexivity|].
    apply exp_below_positive, sgn_not_Gt. congruence.
  - eexists; split; [reflexivity|].
    apply exp_below_positive, sgn_not_Gt. congruence.
  - eexists; split; [reflexivity|].
    now apply exp_above_positive, sgn_Gt_pos.
Qed.

Lemma sigmoid_approx_finite : sigmoid_finite sigmoid_approx.
Proof.
  intros q. unfold sigmoid_approx. simpl fneg.
  destruct (exp_approx_positive (- q)%Qc) as (r & -> & Hr).
  unfold f1. simpl fadd.
  assert (Hpos : (Q2Qc 0 < Q2Qc 1 + r)%Qc).
  { apply Qc_pos_add; [|exact Hr]. unfold Qcle. simpl. lra. }
  unfold fdiv. now rewrite (sgn_pos _ Hpos).
Qed.

Lemma attention_sums_to_one_witness :
  (is_tensor3 1 2 2
     (SpatialAttention_forward sigmoid_approx exp_approx ex_spatial ex_X) /\
   forall k j, k < 1 -> j < 2 ->
     vsum (column j (nth k (SpatialAttention_forward sigmoid_approx
                              exp_approx ex_spatial ex_X) []))
     = f1) /\
  (is_tensor3 1 2 2
     (TemporalAttention_forward sigmoid_approx exp_approx ex_temporal ex_X) /\
   forall k j, k < 1 -> j < 2 ->
     vsum (column j (nth k (TemporalAttention_forward sigmoid_approx
                              exp_approx ex_temporal ex_X) []))
     = f1).
Proof.
  apply (attention_sums_to_one sigmoid_approx exp_approx ex_spatial
           ex_temporal ex_X 1 2 1 2).
  - exact exp_approx_positive.
  - exact sigmoid_approx_finite.
  - split; [reflexivity|]. repeat constructor.
  - repeat constructor.
  - lia.
  - lia.
  - lia.
  - repeat split; repeat constructor.
  - repeat split; repeat constructor.
  - repeat split; repeat constructor.
  - repeat split; repeat constructor.
Defined.


(** The spatial attention of the small instance, column by column. *)
Example spatial_attention_run :
  map (map (map (fun a => match a with Fin q => this q | _ => 0%Q end)))
      (SpatialAttention_forward sigmoid_approx exp_approx ex_spatial ex_X)
  = [[[Qmake 33 68; Qmake 391 796]; [Qmake 35 68; Qmake 405 796]]].
Proof. vm_compute. reflexivity. Qed.

(** ** The time convolution of ASTGCNBlock *)

Lemma firstn3_skipn {A} (d : A) (k : nat) (l : list A) :
  k + 3 <= length l ->
  firstn 3 (skipn k l) = [nth k l d; nth (k + 1) l d; nth (k + 2) l d].
Proof.
  revert l. induction k as [|k IH]; intros l H.
  - destruct l as [|a [|b [|c l]]]; simpl in *; try lia. reflexivity.
  - destruct l as [|a l]; simpl in *; [lia|]. apply IH. lia.
Qed.

Lemma tap_padded (r : vec) (k : nat) :
  nth k (zeros 1 ++ r ++ zeros 1) f0 = tap r k.
Proof.
  unfold tap. simpl. destruct k as [|k]; [reflexivity|].
  destruct (Nat.lt_ge_cases k (length r)) as [H|H].
  - now rewrite app_nth1.
  - rewrite app_nth2 by exact H. rewrite (nth_overflow r) by exact H.
    destruct (k - length r) as [|[|m]]; reflexivity.
Qed.

(** The window of width 3 at [k] of a row padded with one zero on each
    side. *)
Lemma window_taps (r : vec) (k : nat) :
  k + 1 <= length r ->
  firstn 3 (skipn k (zeros 1 ++ r ++ zeros 1))
  = [tap r k; tap r (k + 1); tap r (k + 2)].
Proof.
  intros H. rewrite (firstn3_skipn f0).
  - now rewrite !tap_padded.
  - rewrite !length_app. simpl. lia.
Qed.

Lemma nth_nil_nil {A} (k : nat) : nth k (@nil (list A)) [] = [].
Proof. destruct k; reflexivity. Qed.

Lemma swap01_hd (n c t : nat) (x : tensor3) :
  is_tensor3 n c t x -> 0 < n -> 0 < c ->
  nrows (hd [] (swap01 x)) = n /\ ncols (hd [] (swap01 x)) = t /\
  length (hd [] x) = c.
Proof.
  intros [Hl Hx] Hn Hc. unfold swap01.
  destruct x as [|m x]; simpl in *; [lia|].
  inversion Hx as [|? ? [Hml Hmr] Hxs]; subst.
  destruct m as [|r m]; simpl in *; [lia|]. repeat split.
  - unfold nrows. simpl. now rewrite length_map.
  - inversion Hmr; subst. reflexivity.
Qed.

Lemma div_mul_le (a s j : nat) : 0 < s -> j < a / s + 1 -> j * s <= a.
Proof.
  intros Hs Hj. assert (H : j <= a / s) by lia.
  apply Nat.le_trans with (a / s * s).
  - now apply Nat.mul_le_mono_r.
  - rewrite Nat.mul_comm. apply Nat.Div0.mul_div_le.
Qed.

(** One batch element of step (e). *)
Lemma conv2d_one_time (w : list (list mat)) (bias : vec) (s : nat)
  (xb : tensor3) (n c t : nat) :
  is_tensor3 n c t xb -> 0 < s -> 0 < n -> 0 < c -> 0 < t ->
  conv2d_one (time_convolution w bias s) (swap01 xb)
  = Ok (map2 (fun wo bo =>
                map (fun i =>
                       map (fun j =>
                              conv3_at wo bo s
                                (map (fun k => nth k (nth i xb []) [])
                                     (seq 0 c)) j)
                           (seq 0 ((t - 1) / s + 1)))
                    (seq 0 n))
             w bias).
Proof.
  intros Hx Hs Hn Hc Ht.
  destruct (swap01_hd n c t xb Hx Hn Hc) as (Hh & Hw & Hcl).
  unfold conv2d_one, time_convolution. cbn [cv_kernel_size cv_stride
    cv_padding cv_weight cv_bias].
  rewrite Hh, Hw.
  replace (n + 2 * 0 <? 1) with false by (symmetry; apply Nat.ltb_ge; lia).
  replace (t + 2 * 1 <? 3) with false by (symmetry; apply Nat.ltb_ge; lia).
  replace (s =? 0) with false by (symmetry; apply Nat.eqb_neq; lia).
  cbn [orb Nat.eqb]. f_equal.
  unfold out_size.
  replace ((n + 2 * 0 - 1) / 1 + 1) with n
    by (rewrite Nat.div_1_r; lia).
  replace (t + 2 * 1 - 3) with (t - 1) by lia.
  apply map2_ext_in. intros wo bo _.
  apply map_ext_in. intros i Hi. apply in_seq in Hi.
  apply map_ext_in. intros j Hj. apply in_seq in Hj.
  unfold conv3_at. do 2 f_equal.
  unfold swap01. rewrite Hcl, !map_map, !map2_map_r.
  apply map2_ext_in. intros wc k Hin.
  apply in_combine_r, in_seq in Hin.
  f_equal. unfold window, pad2. cbn [repeat app].
  rewrite app_nil_r, Nat.mul_1_r, map_map.
  destruct Hx as [Hxl Hxr].
  assert (Hrow : firstn 1 (skipn i
                   (map (fun m => zeros 1 ++ nth k m [] ++ zeros 1) xb))
                 = [zeros 1 ++ nth k (nth i xb []) [] ++ zeros 1]).
  { rewrite <- (firstn_skipn i xb) at 1. rewrite map_app.
    rewrite skipn_app, skipn_all2
      by (rewrite length_map, length_firstn; llia).
    rewrite length_map, length_firstn.
    replace (i - Nat.min i (length xb)) with 0 by llia. simpl skipn.
    assert (Hsk : skipn i xb = nth i xb [] :: skipn (S i) xb).
    { clear - Hxl Hi. revert i Hi Hxl. generalize n.
      induction xb as [|m xb IH]; intros n0 i Hi Hl; simpl in *; [lia|].
      destruct i as [|i]; [reflexivity|].
      simpl. apply (IH (length xb)); lia. }
    rewrite Hsk. reflexivity. }
  transitivity
    (map (fun r : vec => firstn 3 (skipn (j * s) r))
         [zeros 1 ++ nth k (nth i xb []) [] ++ zeros 1]);
    [f_equal; exact Hrow|].
  cbn [map]. f_equal.
  apply window_taps.
  assert (Hlen : length (nth k (nth i xb []) []) = t).
  { rewrite Forall_forall in Hxr.
    destruct (Hxr (nth i xb [])) as [Hml Hmr]; [apply nth_In; llia|].
    rewrite Forall_forall in Hmr. apply Hmr. apply nth_In. llia. }
  rewrite Hlen.
  pose proof (div_mul_le (t - 1) s j Hs) as Hd. lia.
Qed.

(** C6, as the code has it.  Step (e) of [ASTGCNBlock.forward] applies the
    plain convolution [_time_convolution] (one [Conv2d], no gate) to the
    rectified, concatenated tensor [X_hat] of shape (b, n, c, t): with
    kernel width 3 along time, one zero of padding at each end of the time
    axis and stride [s], the output has shape (b, o, n, (t - 1) / s + 1) and
    its entry at output channel [o'], node [i] and time [j] is the sum over
    the input channels of the three kernel taps on
    [X_hat[.., i, k, j * s - 1 .. j * s + 1]], plus the bias. *)
Theorem time_branch_plain (self : ASTGCNBlock) (w : list (list mat))
  (bias : vec) (s : nat) (X_hat : tensor4) (b n c t o : nat) :
  _time_convolution self = time_convolution w bias s ->
  is_kernel o c 1 3 w -> length bias = o ->
  is_tensor4 b n c t X_hat ->
  0 < s -> 0 < n -> 0 < c -> 0 < t ->
  exists Y,
    block_time_branch self X_hat = Ok Y /\
    Y = map (fun xb =>
               map2 (fun wo bo =>
                       map (fun i =>
                              map (fun j =>
                                     conv3_at wo bo s
                                       (map (fun k => nth k (nth i xb []) [])
                                            (seq 0 c)) j)
                                  (seq 0 ((t - 1) / s + 1)))
                           (seq 0 n))
                    w bias)
            X_hat /\
    is_tensor4 b o n ((t - 1) / s + 1) Y.
Proof.
  intros Hcv [Hwl Hw] Hb [HXl HX] Hs Hn Hc Ht.
  eexists. split; [|split; [reflexivity|]].
  - unfold block_time_branch, conv2d. rewrite Hcv, mapM_map.
    apply mapM_ok. eapply Forall_impl; [|exact HX].
    intros xb Hxb. now apply (conv2d_one_time w bias s xb n c t).
  - split; [now rewrite length_map|].
    apply Forall_map. apply Forall_forall. intros xb _. split.
    + rewrite map2_length. llia.
    + apply map2_Forall. intros wo bo _. split.
      * now rewrite length_map, length_seq.
      * apply Forall_map. apply Forall_forall. intros i _.
        now rewrite length_map, length_seq.
Qed.

Lemma time_branch_plain_witness :
  exists Y,
    block_time_branch ex_block ex_X_hat = Ok Y /\
    Y = map (fun xb =>
               map2 (fun wo bo =>
                       map (fun i =>
                              map (fun j =>
                                     conv3_at wo bo 1
                                       (map (fun k => nth k (nth i xb []) [])
                                            (seq 0 1)) j)
                                  (seq 0 ((2 - 1) / 1 + 1)))
                           (seq 0 1))
                    [[[[num 0; num (-1); num 0]]]] [num 0])
            ex_X_hat /\
    is_tensor4 1 1 1 ((2 - 1) / 1 + 1) Y.
Proof.
  apply (time_branch_plain ex_block [[[[num 0; num (-1); num 0]]]] [num 0] 1
           ex_X_hat 1 1 1 2 1).
  - reflexivity.
  - split; [reflexivity|]. repeat constructor.
  - reflexivity.
  - split; [reflexivity|]. repeat constructor.
  - lia.
  - lia.
  - lia.
  - lia.
Defined.

Lemma relu_idem (a : fval) : rectified (relu a).
Proof.
  unfold rectified. destruct a as [q| | |]; simpl; try reflexivity.
  - destruct (sgn q) eqn:Hq; simpl; try rewrite Hq; reflexivity.
Qed.

Lemma permute_210_all (P : fval -> Prop) (x : tensor3) :
  P f0 -> Forall (Forall (Forall P)) x ->
  Forall (Forall (Forall P)) (permute_210 x).
Proof.
  intros H0 Hx. unfold permute_210.
  apply Forall_map. apply Forall_forall. intros k _.
  apply Forall_map. apply Forall_forall. intros j _.
  apply Forall_map. eapply Forall_impl; [|exact Hx]. intros m Hm.
  destruct (Nat.lt_ge_cases j (length m)) as [Hj|Hj].
  - rewrite Forall_forall in Hm. specialize (Hm (nth j m []) (nth_In _ _ Hj)).
    destruct (Nat.lt_ge_cases k (length (nth j m []))) as [Hk|Hk].
    + rewrite Forall_forall in Hm. apply Hm. now apply nth_In.
    + now rewrite nth_overflow.
  - rewrite (nth_overflow m) by exact Hj. now destruct k.
Qed.

(** Every entry of the output of the gated [TemporalConv] is rectified. *)
Lemma TemporalConv_rectified (sigmoid : fval -> fval) (self : TemporalConv)
  (X Y : tensor4) :
  TemporalConv_forward sigmoid self X = Ok Y -> all4 rectified Y.
Proof.
  unfold TemporalConv_forward. intros H.
  destruct (conv2d (conv_1 self) (map permute_210 X)) as [P|]; [|discriminate].
  destruct (conv2d (conv_2 self) (map permute_210 X)) as [Q|]; [|discriminate].
  destruct (conv2d (conv_3 self) (map permute_210 X)) as [R|]; [|discriminate].
  simpl in H. injection H as <-.
  unfold all4. apply Forall_map.
  unfold relu4. apply Forall_map. apply Forall_forall. intros x _.
  apply permute_210_all.
  - unfold rectified. eval_eq.
  - apply Forall_map. apply Forall_forall. intros m _.
    apply Forall_map. apply Forall_forall. intros r _.
    apply Forall_map. apply Forall_forall. intros a _.
    apply relu_idem.
Qed.

(** C6 as stated fails.  On the small block step (e) returns [-1] and [-2]:
    the three taps times the kernel [0, -1, 0], with nothing applied to
    the sum.  The gated temporal convolution of this repository,
    [TemporalConv] of stgcn.py, returns [relu(P * sigmoid(Q) + R)], which
    has no negative entry whatever its weights, its gate and its input. *)
Lemma time_branch_not_gated :
  block_time_branch ex_block ex_X_hat = Ok [[[[num (-1); num (-2)]]]] /\
  ~ (exists sigmoid tc X,
       TemporalConv_forward sigmoid tc X
       = block_time_branch ex_block ex_X_hat).
Proof.
  assert (Hrun : block_time_branch ex_block ex_X_hat
                 = Ok [[[[num (-1); num (-2)]]]]) by eval_eq.
  split; [exact Hrun|].
  intros (sg & tc & X & H). rewrite Hrun in H.
  apply TemporalConv_rectified in H.
  unfold all4 in H.
  repeat match goal with
         | H : Forall _ (_ :: _) |- _ => inversion H; clear H; subst
         end.
  match goal with
  | H : rectified (num (-1)) |- _ =>
      unfold rectified in H; vm_compute in H; discriminate H
  end.
Qed.

(** ** Effects of the forward pass on the store *)

Lemma extends_refl (s : state) : extends s s.
Proof.
  split; [apply firstn_all|]. exists []. split; [now rewrite app_nil_r|].
  constructor.
Qed.

Lemma extends_length (s0 s : state) :
  extends s0 s -> length (heap s0) <= length (heap s).
Proof.
  intros [H _]. apply (f_equal (@length _)) in H.
  rewrite length_firstn in H. lia.
Qed.

Lemma extends_holds (s0 s : state) (l : nat) (v : tval) :
  extends s0 s -> holds s0 l v -> holds s l v.
Proof.
  unfold holds. intros [H _] Hl.
  assert (Hlt : l < length (heap s0)).
  { apply nth_error_Some. congruence. }
  rewrite <- H, nth_error_firstn in Hl.
  apply Nat.ltb_lt in Hlt. now rewrite Hlt in Hl.
Qed.

Lemma firstn_set_nth {A} (n l : nat) (v : A) (h : list A) :
  n <= l -> firstn n (set_nth l v h) = firstn n h.
Proof.
  revert n l. induction h as [|x h IH]; intros n l H.
  - destruct l; reflexivity.
  - destruct l as [|l]; simpl.
    + assert (n = 0) by lia. subst n. reflexivity.
    + destruct n as [|n]; simpl; [reflexivity|]. f_equal. apply IH. lia.
Qed.

Lemma set_nth_length {A} (l : nat) (v : A) (h : list A) :
  length (set_nth l v h) = length h.
Proof.
  revert l. induction h as [|x h IH]; intros [|l]; simpl; auto.
Qed.

Lemma nth_error_set_nth {A} (l : nat) (v : A) (h : list A) :
  l < length h -> nth_error (set_nth l v h) l = Some v.
Proof.
  revert l. induction h as [|x h IH]; intros [|l] H; simpl in *; try lia.
  - reflexivity.
  - apply IH. lia.
Qed.

Section Keeps.

Variable s0 : state.

Lemma keeps_ret {A} (a : A) (Q : A -> Prop) : Q a -> keeps s0 (ret a) Q.
Proof.
  intros HQ s Hs. split; [exact Hs|]. simpl. intros a' H.
  injection H as <-. exact HQ.
Qed.

Lemma keeps_raise {A} (e : error) (Q : A -> Prop) : keeps s0 (raise e) Q.
Proof. intros s Hs. split; [exact Hs|]. simpl. discriminate. Qed.

Lemma keeps_lift {A} (r : res A) : keeps s0 (lift r) (fun _ => True).
Proof. intros s Hs. split; [exact Hs|]. auto. Qed.

Lemma keeps_weaken {A} (m : M A) (Q Q' : A -> Prop) :
  keeps s0 m Q -> (forall a, Q a -> Q' a) -> keeps s0 m Q'.
Proof.
  intros Hm HQ s Hs. destruct (Hm s Hs) as [He Ha]. split; auto.
Qed.

Lemma keeps_bind {A B} (m : M A) (k : A -> M B) (Q : A -> Prop)
  (R : B -> Prop) :
  keeps s0 m Q -> (forall a, Q a -> keeps s0 (k a) R) ->
  keeps s0 (bindM m k) R.
Proof.
  intros Hm Hk s Hs. destruct (Hm s Hs) as [He Ha]. unfold bindM.
  destruct (m s) as [[a|e] s']; simpl in *.
  - apply (Hk a (Ha a eq_refl) s' He).
  - split; [exact He|]. discriminate.
Qed.

(** A new tensor does not touch the old ones, and is fresh. *)
Lemma keeps_alloc (v : tval) : keeps s0 (alloc v) (fresh s0).
Proof.
  intros s Hs. pose proof (extends_length s0 s Hs) as Hlen.
  destruct Hs as [Hh Hw]. unfold alloc. simpl. split.
  - split; [|exact Hw]. simpl.
    rewrite firstn_app. replace (length (heap s0) - length (heap s)) with 0
      by lia.
    simpl. now rewrite app_nil_r.
  - intros a H. injection H as <-. exact Hlen.
Qed.

Lemma keeps_load (l : nat) : keeps s0 (load l) (fun _ => True).
Proof. intros s Hs. split; [exact Hs|]. auto. Qed.

(** An in-place write to a fresh tensor does not touch the old ones. *)
Lemma keeps_store (l : nat) (v : tval) :
  fresh s0 l -> keeps s0 (store_ l v) (fun _ => True).
Proof.
  intros Hl s Hs. unfold store_.
  destruct (l <? length (heap s)); simpl; [|split; [exact Hs|auto]].
  split; [|auto]. destruct Hs as [Hh (ws & Hw & Hf)]. split; simpl.
  - now rewrite firstn_set_nth.
  - exists (ws ++ [l]). split; [now rewrite Hw, app_assoc|].
    apply Forall_app. split; [exact Hf|]. constructor; [exact Hl|constructor].
Qed.

End Keeps.

Section Frame.

Variable pow_neg_half : fval -> fval.
Variable s0 : state.

(** One step of a computation in the store: the first operation is one of
    the primitives, the rest is left to prove. *)
Ltac keeps_step :=
  eapply keeps_bind;
  [ first [ apply keeps_alloc | apply keeps_load | apply keeps_lift ]
  | intros ? ? ].

Lemma keeps_typed A (l : nat) (f : tval -> M A) :
  (forall v, keeps s0 (f v) (fun _ => True)) ->
  keeps s0 (v <~ load l ;; f v) (fun _ => True).
Proof. intros H. keeps_step. apply H. Qed.

Lemma keeps_load_float1 (l : nat) : keeps s0 (load_float1 l) (fun _ => True).
Proof.
  apply keeps_typed. intros []; try apply keeps_raise. now apply keeps_ret.
Qed.

Lemma keeps_load_float3 (l : nat) : keeps s0 (load_float3 l) (fun _ => True).
Proof.
  apply keeps_typed. intros []; try apply keeps_raise. now apply keeps_ret.
Qed.

Lemma keeps_load_edges (l : nat) : keeps s0 (load_edges l) (fun _ => True).
Proof.
  apply keeps_typed. intros []; try apply keeps_raise. now apply keeps_ret.
Qed.

Lemma keeps_load_long1 (l : nat) : keeps s0 (load_long1 l) (fun _ => True).
Proof.
  apply keeps_typed. intros []; try apply keeps_raise. now apply keeps_ret.
Qed.

Lemma keeps_load_lam (l : nat) : keeps s0 (load_lam l) (fun _ => True).
Proof.
  apply keeps_typed. intros []; try apply keeps_raise. now apply keeps_ret.
Qed.

Lemma keeps_load_opt_float1 (l : option nat) :
  keeps s0 (load_opt_float1 l) (fun _ => True).
Proof.
  destruct l as [l|]; simpl; [|now apply keeps_ret].
  eapply keeps_bind; [apply keeps_load_float1|]. intros v _.
  now apply keeps_ret.
Qed.

Lemma keeps_alloc_opt_float1 (v : option vec) :
  keeps s0 (alloc_opt_float1 v) (fun _ => True).
Proof.
  destruct v as [v|]; simpl; [|now apply keeps_ret].
  keeps_step. now apply keeps_ret.
Qed.

(** [__norm__] writes in place to one tensor only, the scaled weights it
    has just built, and returns new tensors. *)
Lemma keeps_norm_st (edge_index num_nodes : nat) (edge_weight : option nat)
  (norm : normalization) (lambda_max : nat) (batch : option nat) :
  keeps s0
    (norm_st pow_neg_half edge_index num_nodes edge_weight norm lambda_max
             batch)
    (fun p => fresh s0 (fst p) /\ fresh s0 (snd p)).
Proof.
  unfold norm_st.
  eapply keeps_bind; [apply keeps_load_edges|]. intros ei _.
  eapply keeps_bind; [apply keeps_load_opt_float1|]. intros ew _.
  destruct (remove_self_loops ei ew) as [ei1 ew1].
  keeps_step.
  eapply keeps_bind; [apply keeps_alloc_opt_float1|]. intros ? _.
  keeps_step. destruct a1 as [ei2 ew2].
  keeps_step. keeps_step.
  eapply keeps_bind; [apply keeps_load_lam|]. intros lam _.
  eapply keeps_bind with (Q := fun _ => True).
  { destruct batch as [b|]; [|now apply keeps_ret].
    destruct (1 <? numel lam); [|now apply keeps_ret].
    eapply keeps_bind; [apply keeps_load_long1|]. intros bv _.
    keeps_step. keeps_step.
    eapply keeps_weaken; [apply keeps_alloc|]. auto. }
  intros lambda_max' _.
  eapply keeps_bind; [apply keeps_load_lam|]. intros lam' _.
  keeps_step.
  eapply keeps_bind; [apply keeps_alloc|]. intros lw Hlw.
  eapply keeps_bind; [apply keeps_store; exact Hlw|]. intros _ _.
  eapply keeps_bind; [apply keeps_load_float1|]. intros w _.
  destruct (add_self_loops ei2 (Some w) fm1 num_nodes) as [ei4 [w4|]];
    [|apply keeps_raise].
  eapply keeps_bind; [apply keeps_alloc|]. intros l1 Hl1.
  eapply keeps_bind; [apply keeps_alloc|]. intros l2 Hl2.
  apply keeps_ret. split; assumption.
Qed.

Lemma keeps_foldM_st {A B} (f : A -> B -> M A) (Q : A -> Prop)
  (l : list B) (a : A) :
  (forall a b, Q a -> keeps s0 (f a b) Q) -> Q a ->
  keeps s0 (foldM_st f l a) Q.
Proof.
  intros Hf. revert a. induction l as [|b l IH]; intros a Ha; simpl.
  - now apply keeps_ret.
  - eapply keeps_bind; [apply Hf; exact Ha|]. intros a' Ha'. now apply IH.
Qed.

Lemma keeps_cheb_step_st (rev : edges) (norm : vec)
  (st : (nat * tensor3) * tensor3 * tensor3) (wk : mat) :
  keeps s0 (cheb_step_st rev norm st wk)
        (fun st' => fresh s0 (fst (fst (fst st')))).
Proof.
  destruct st as [[[out outv] T0] T1]. unfold cheb_step_st.
  keeps_step. keeps_step. keeps_step.
  eapply keeps_bind; [apply keeps_alloc|]. intros l Hl.
  apply keeps_ret. exact Hl.
Qed.

(** The forward pass leaves every tensor of the initial store as it was:
    it writes in place only to tensors that it has built itself, and it
    returns a new tensor. *)
Lemma keeps_forward_st (self : ChebConvAttention)
  (x edge_index spatial_attention : nat) (edge_weight batch : option nat)
  (lambda_max : option lam_arg) :
  keeps s0
    (forward_st pow_neg_half self x edge_index spatial_attention
                edge_weight batch lambda_max)
    (fresh s0).
Proof.
  unfold forward_st.
  destruct (negb (is_sym (_normalization self)) && is_None lambda_max);
    [apply keeps_raise|].
  eapply keeps_bind; [apply keeps_load_float3|]. intros xv _.
  eapply keeps_bind with (Q := fun _ => True).
  { destruct lambda_max as [[v|l]|].
    - eapply keeps_weaken; [apply keeps_alloc|]. auto.
    - now apply keeps_ret.
    - eapply keeps_weaken; [apply keeps_alloc|]. auto. }
  intros lam _.
  eapply keeps_bind; [apply keeps_norm_st|]. intros [ei_l norm_l] _.
  eapply keeps_bind; [apply keeps_load_edges|]. intros ei _.
  eapply keeps_bind; [apply keeps_load_float1|]. intros normv _.
  eapply keeps_bind; [apply keeps_load_float3|]. intros att _.
  keeps_step. keeps_step. keeps_step. keeps_step.
  eapply keeps_bind; [apply keeps_alloc|]. intros out Hout.
  keeps_step.
  eapply keeps_bind with (Q := fun p => fresh s0 (fst p)).
  { destruct (skipn 1 (_weight self)) as [|w1 ws].
    - apply keeps_ret. exact Hout.
    - keeps_step. keeps_step.
      eapply keeps_bind; [apply keeps_alloc|]. intros out' Hout'.
      eapply keeps_bind.
      + apply (keeps_foldM_st
                 (cheb_step_st (map swap ei) normv)
                 (fun st' => fresh s0 (fst (fst (fst st'))))).
        * intros st wk _. apply keeps_cheb_step_st.
        * exact Hout'.
      + intros [[[o ov] T0] T1] Ho. apply keeps_ret. exact Ho. }
  intros [o ov] Ho. simpl in Ho.
  destruct (_bias self) as [bv|].
  - eapply keeps_bind; [apply keeps_store; exact Ho|]. intros _ _.
    apply keeps_ret. exact Ho.
  - apply keeps_ret. exact Ho.
Qed.

End Frame.

(** ** The value that the forward pass leaves in the store *)

Lemma holds_grow (s : state) (l : nat) (v v' : tval) :
  holds s l v -> holds (grow s v') l v.
Proof.
  unfold holds, grow. simpl. intros H.
  rewrite nth_error_app1; [exact H|]. apply nth_error_Some. congruence.
Qed.

Lemma holds_new (s : state) (v : tval) :
  holds (grow s v) (length (heap s)) v.
Proof.
  unfold holds, grow. simpl.
  rewrite nth_error_app2 by lia. now rewrite Nat.sub_diag.
Qed.

Lemma holds_overwrite (s : state) (l : nat) (v v' : tval) :
  holds s l v -> holds (overwrite s l v') l v'.
Proof.
  unfold holds, overwrite. simpl. intros H.
  apply nth_error_set_nth. apply nth_error_Some. congruence.
Qed.

Lemma holds_lt (s : state) (l : nat) (v : tval) :
  holds s l v -> (l <? length (heap s)) = true.
Proof.
  unfold holds. intros H. apply Nat.ltb_lt. apply nth_error_Some. congruence.
Qed.

Lemma holds_opt_grow (s : state) (l : option nat) (v : option vec)
  (v' : tval) :
  holds_opt s l v -> holds_opt (grow s v') l v.
Proof. destruct l, v; simpl; auto using holds_grow. Qed.

Lemma holds_long_opt_grow (s : state) (l : option nat)
  (v : option (list nat)) (v' : tval) :
  holds_long_opt s l v -> holds_long_opt (grow s v') l v.
Proof. destruct l, v; simpl; auto using holds_grow. Qed.

(** Running a computation whose first operation is known. *)
Lemma run_load {A} (s : state) (l : nat) (v : tval) (k : tval -> M A) :
  holds s l v -> bindM (load l) k s = k v s.
Proof.
  unfold holds, bindM, load, index. intros ->. reflexivity.
Qed.

Lemma run_load_float1 {A} (s : state) (l : nat) (v : vec) (k : vec -> M A) :
  holds s l (TFloat1 v) -> bindM (load_float1 l) k s = k v s.
Proof.
  intros H. unfold load_float1, bindM at 1.
  now rewrite (run_load s l (TFloat1 v)).
Qed.

Lemma run_load_float3 {A} (s : state) (l : nat) (v : tensor3)
  (k : tensor3 -> M A) :
  holds s l (TFloat3 v) -> bindM (load_float3 l) k s = k v s.
Proof.
  intros H. unfold load_float3, bindM at 1.
  now rewrite (run_load s l (TFloat3 v)).
Qed.

Lemma run_load_edges {A} (s : state) (l : nat) (v : edges)
  (k : edges -> M A) :
  holds s l (TEdges v) -> bindM (load_edges l) k s = k v s.
Proof.
  intros H. unfold load_edges, bindM at 1.
  now rewrite (run_load s l (TEdges v)).
Qed.

Lemma run_load_long1 {A} (s : state) (l : nat) (v : list nat)
  (k : list nat -> M A) :
  holds s l (TLong1 v) -> bindM (load_long1 l) k s = k v s.
Proof.
  intros H. unfold load_long1, bindM at 1.
  now rewrite (run_load s l (TLong1 v)).
Qed.

Lemma run_load_lam {A} (s : state) (l : nat) (v : lam) (k : lam -> M A) :
  holds s l (TLam v) -> bindM (load_lam l) k s = k v s.
Proof.
  intros H. unfold load_lam, bindM at 1.
  now rewrite (run_load s l (TLam v)).
Qed.

Lemma run_alloc {A} (s : state) (v : tval) (k : nat -> M A) :
  bindM (alloc v) k s = k (length (heap s)) (grow s v).
Proof. reflexivity. Qed.

Lemma run_ret {A B} (s : state) (a : A) (k : A -> M B) :
  bindM (ret a) k s = k a s.
Proof. reflexivity. Qed.

Lemma run_lift_ok {A B} (s : state) (a : A) (k : A -> M B) :
  bindM (lift (Ok a)) k s = k a s.
Proof. reflexivity. Qed.

Lemma run_lift_raise {A B} (s : state) (e : error) (k : A -> M B) :
  bindM (lift (Raise e)) k s = (Raise e, s).
Proof. reflexivity. Qed.

Lemma run_store {A} (s : state) (l : nat) (v v' : tval) (k : unit -> M A) :
  holds s l v' -> bindM (store_ l v) k s = k tt (overwrite s l v).
Proof.
  intros H. unfold bindM, store_. now rewrite (holds_lt s l v' H).
Qed.

Lemma mono_refl (s : state) : mono s s.
Proof. intros l v H. exact H. Qed.

Lemma mono_grow (s : state) (v : tval) : mono s (grow s v).
Proof. intros l x H. now apply holds_grow. Qed.

Lemma mono_trans (s1 s2 s3 : state) : mono s1 s2 -> mono s2 s3 -> mono s1 s3.
Proof. intros H12 H23 l v H. apply H23, H12, H. Qed.

Lemma mono_opt (s s' : state) (l : option nat) (v : option vec) :
  mono s s' -> holds_opt s l v -> holds_opt s' l v.
Proof. intros Hm. destruct l, v; simpl; auto. Qed.

Lemma mono_long_opt (s s' : state) (l : option nat) (v : option (list nat)) :
  mono s s' -> holds_long_opt s l v -> holds_long_opt s' l v.
Proof. intros Hm. destruct l, v; simpl; auto. Qed.

Lemma run_assoc {A B C} (s : state) (m : M A) (f : A -> M B)
  (k : B -> M C) :
  bindM (bindM m f) k s = bindM m (fun a => bindM (f a) k) s.
Proof.
  unfold bindM. destruct (m s) as [[a|e] s']; reflexivity.
Qed.

Lemma run_load_opt_float1 {A} (s : state) (l : option nat) (v : option vec)
  (k : option vec -> M A) :
  holds_opt s l v -> bindM (load_opt_float1 l) k s = k v s.
Proof.
  destruct l as [l|], v as [v|]; simpl; try contradiction.
  - intros H. rewrite run_assoc. now rewrite (run_load_float1 s l v).
  - reflexivity.
Qed.

Lemma run_alloc_opt_float1 {A} (s : state) (v : option vec)
  (k : option nat -> M A) :
  exists o s', bindM (alloc_opt_float1 v) k s = k o s' /\ mono s s'.
Proof.
  destruct v as [v|]; simpl.
  - eexists _, _. split; [reflexivity|]. apply mono_grow.
  - eexists _, _. split; [reflexivity|]. apply mono_refl.
Qed.

Section StoreResult.

Variable pow_neg_half : fval -> fval.

(** The choice of the divisor, per edge or not, in the store and in the
    pure model. *)
Lemma run_select_lam {A} (s : state) (lam_l : nat) (lamv : lam)
  (batch_l : option nat) (bv : option (list nat)) (ei2 : edges)
  (k : nat -> M A) :
  holds s lam_l (TLam lamv) -> holds_long_opt s batch_l bv ->
  match (match bv with
         | Some b =>
             if 1 <? numel lamv
             then (i <- gather b (map fst ei2) ;; lam_index lamv i)
             else Ok lamv
         | None => Ok lamv
         end) with
  | Ok lamv' =>
      exists l' s',
        bindM (match batch_l with
               | Some b =>
                   if 1 <? numel lamv
                   then (bv <~ load_long1 b ;;
                         i <~ lift (gather bv (map fst ei2)) ;;
                         l' <~ lift (lam_index lamv i) ;;
                         alloc (TLam l'))
                   else ret lam_l
               | None => ret lam_l
               end) k s = k l' s' /\
        mono s s' /\ holds s' l' (TLam lamv')
  | Raise e =>
      fst (bindM (match batch_l with
                  | Some b =>
                      if 1 <? numel lamv
                      then (bv <~ load_long1 b ;;
                            i <~ lift (gather bv (map fst ei2)) ;;
                            l' <~ lift (lam_index lamv i) ;;
                            alloc (TLam l'))
                      else ret lam_l
                  | None => ret lam_l
                  end) k s) = Raise e
  end.
Proof.
  intros Hl Hb.
  destruct batch_l as [b|], bv as [bvv|]; simpl in Hb; try contradiction.
  - destruct (1 <? numel lamv).
    + rewrite run_assoc, (run_load_long1 s b bvv) by exact Hb.
      rewrite run_assoc.
      destruct (gather bvv (map fst ei2)) as [i|e]; [|reflexivity].
      rewrite run_lift_ok, run_assoc. cbn [bind].
      destruct (lam_index lamv i) as [l'|e]; [|reflexivity].
      rewrite run_lift_ok, run_alloc.
      eexists _, _. split; [reflexivity|]. split; [apply mono_grow|].
      apply holds_new.
    + eexists _, _. split; [reflexivity|]. split; [apply mono_refl|exact Hl].
  - eexists _, _. split; [reflexivity|]. split; [apply mono_refl|exact Hl].
Qed.

(** [norm_st] computes what [__norm__] computes, and leaves it at the
    locations that it returns. *)
Lemma norm_st_result (s : state) (ei_l num_nodes : nat)
  (ew_l : option nat) (norm : normalization) (lam_l : nat)
  (batch_l : option nat) (E : edges) (ewv : option vec) (lamv : lam)
  (bv : option (list nat)) :
  holds s ei_l (TEdges E) -> holds_opt s ew_l ewv ->
  holds s lam_l (TLam lamv) -> holds_long_opt s batch_l bv ->
  match __norm__ pow_neg_half E num_nodes ewv norm lamv bv with
  | Ok (E', w') =>
      exists l1 l2,
        fst (norm_st pow_neg_half ei_l num_nodes ew_l norm lam_l batch_l s)
        = Ok (l1, l2) /\
        holds (snd (norm_st pow_neg_half ei_l num_nodes ew_l norm lam_l
                            batch_l s)) l1 (TEdges E') /\
        holds (snd (norm_st pow_neg_half ei_l num_nodes ew_l norm lam_l
                            batch_l s)) l2 (TFloat1 w')
  | Raise e =>
      fst (norm_st pow_neg_half ei_l num_nodes ew_l norm lam_l batch_l s)
      = Raise e
  end.
Proof.
  intros HE Hew Hlam Hb. unfold norm_st, __norm__.
  rewrite (run_load_edges s ei_l E) by exact HE.
  rewrite (run_load_opt_float1 s ew_l ewv) by exact Hew.
  destruct (remove_self_loops E ewv) as [ei1 ew1].
  rewrite run_alloc.
  match goal with
  | |- context [bindM (alloc_opt_float1 ew1) ?k ?s1] =>
      destruct (run_alloc_opt_float1 s1 ew1 k) as (o & s2 & -> & Hm2)
  end.
  assert (Hm : mono s s2).
  { eapply mono_trans; [apply mono_grow|exact Hm2]. }
  destruct (get_laplacian pow_neg_half ei1 ew1 norm num_nodes)
    as [[ei2 ew2]|e]; [|reflexivity].
  rewrite run_lift_ok. cbn [bind]. rewrite !run_alloc.
  set (s4 := grow (grow s2 (TEdges ei2)) (TFloat1 ew2)).
  assert (Hm4 : mono s s4).
  { eapply mono_trans; [exact Hm|].
    eapply mono_trans; apply mono_grow. }
  rewrite (run_load_lam s4 lam_l lamv) by (apply Hm4; exact Hlam).
  match goal with
  | |- context [bindM (match batch_l with _ => _ end) ?k s4] =>
      pose proof (run_select_lam s4 lam_l lamv batch_l bv ei2 k
                    (Hm4 _ _ Hlam) (mono_long_opt _ _ _ _ Hm4 Hb)) as Hsel
  end.
  destruct (match bv with Some _ => _ | None => _ end) as [lamv'|e];
    [|exact Hsel].
  destruct Hsel as (l' & s5 & -> & Hm5 & Hl').
  cbn [bind].
  rewrite (run_load_lam s5 l' lamv') by exact Hl'.
  destruct (div_lam (map (fmul f2) ew2) lamv') as [w|e]; [|reflexivity].
  rewrite run_lift_ok. cbn [bind]. rewrite run_alloc.
  rewrite (run_store _ _ _ (TFloat1 w)) by apply holds_new.
  rewrite (run_load_float1 _ _ (mask_inf w))
    by (eapply holds_overwrite; apply holds_new).
  unfold add_self_loops. cbn [option_map].
  rewrite !run_alloc. unfold ret. cbn [fst snd].
  eexists _, _. split; [reflexivity|]. split.
  - apply holds_grow. apply holds_new.
  - apply holds_new.
Qed.

Lemma run_ok {A B} (s : state) (m : M A) (k : A -> M B) (a : A) :
  fst (m s) = Ok a -> bindM m k s = k a (snd (m s)).
Proof.
  unfold bindM. destruct (m s) as [[a'|e] s']; simpl; [|discriminate].
  now intros [= ->].
Qed.

Lemma run_raise {A B} (s : state) (m : M A) (k : A -> M B) (e : error) :
  fst (m s) = Raise e -> fst (bindM m k s) = Raise e.
Proof.
  unfold bindM. destruct (m s) as [[a'|e'] s']; simpl; [discriminate|].
  now intros [= ->].
Qed.

(** The loop of [forward] in the store follows the loop of the pure
    model. *)
Lemma cheb_loop_st_result (rev : edges) (w : vec) (ws : list mat)
  (s : state) (out : nat) (outv T0 T1 : tensor3) :
  holds s out (TFloat3 outv) ->
  match foldM (cheb_step rev w) ws (outv, T0, T1) with
  | Ok (outv', Ta, Tb) =>
      exists out',
        fst (foldM_st (cheb_step_st rev w) ws ((out, outv), T0, T1) s)
        = Ok ((out', outv'), Ta, Tb) /\
        holds (snd (foldM_st (cheb_step_st rev w) ws
                             ((out, outv), T0, T1) s))
              out' (TFloat3 outv')
  | Raise e =>
      fst (foldM_st (cheb_step_st rev w) ws ((out, outv), T0, T1) s)
      = Raise e
  end.
Proof.
  revert s out outv T0 T1.
  induction ws as [|wk ws IH]; intros s out outv T0 T1 H.
  - simpl. exists out. split; [reflexivity|exact H].
  - cbn [foldM foldM_st]. unfold cheb_step, cheb_step_st.
    rewrite run_assoc.
    destruct (propagate rev T1 (Norm1 w)) as [P|e]; [|reflexivity].
    rewrite run_lift_ok. cbn [bind].
    rewrite run_assoc, run_alloc, run_assoc, run_alloc, run_assoc, run_alloc.
    rewrite run_ret.
    apply IH. apply holds_new.
Qed.

(** The last statements of [forward]: the bias is added in place. *)
Lemma run_bias (self : ChebConvAttention) (s : state) (out : nat)
  (outv : tensor3) :
  holds s out (TFloat3 outv) ->
  exists s',
    match _bias self with
    | Some _ =>
        store_ out (TFloat3 (add_bias (_bias self) outv)) ;;; ret out
    | None => ret out
    end s = (Ok out, s') /\
    holds s' out (TFloat3 (add_bias (_bias self) outv)).
Proof.
  intros H. destruct (_bias self) as [b|] eqn:Hb.
  - rewrite (run_store s out _ (TFloat3 outv)) by exact H.
    eexists. split; [reflexivity|]. eapply holds_overwrite. exact H.
  - eexists. split; [reflexivity|]. exact H.
Qed.

Lemma run_default_lam {A} (s : state) (lm : option lam_arg)
  (lmv : option lam) (k : nat -> M A) :
  holds_lam s lm lmv ->
  exists l s',
    bindM (match lm with
           | None => alloc (TLam (Scalar f2))
           | Some (LamFloat v) => alloc (TLam (Scalar v))
           | Some (LamTensor l) => ret l
           end) k s = k l s' /\
    mono s s' /\ holds s' l (TLam (lam_or_default lmv)).
Proof.
  intros H. destruct lm as [[v|l]|], lmv as [lv|]; simpl in H;
    try contradiction.
  - destruct lv as [y|]; [|contradiction]. subst y.
    eexists _, _. split; [reflexivity|]. split; [apply mono_grow|].
    apply holds_new.
  - eexists _, _. split; [reflexivity|]. split; [apply mono_refl|exact H].
  - eexists _, _. split; [reflexivity|]. split; [apply mono_grow|].
    apply holds_new.
Qed.

Lemma holds_lam_None (s : state) (lm : option lam_arg) (lmv : option lam) :
  holds_lam s lm lmv -> is_None lm = is_None lmv.
Proof.
  destruct lm as [[v|l]|], lmv as [lv|]; simpl; try contradiction; auto.
Qed.

(** [forward_st] computes what [forward] computes, and leaves it at the
    location that it returns. *)
Lemma forward_st_result (self : ChebConvAttention) (s : state)
  (x_l ei_l att_l : nat) (ew_l batch_l : option nat)
  (lm : option lam_arg) (xv : tensor3) (E : edges) (attv : tensor3)
  (ewv : option vec) (bv : option (list nat)) (lmv : option lam) :
  holds s x_l (TFloat3 xv) -> holds s ei_l (TEdges E) ->
  holds s att_l (TFloat3 attv) -> holds_opt s ew_l ewv ->
  holds_long_opt s batch_l bv -> holds_lam s lm lmv ->
  match forward pow_neg_half self xv E attv ewv bv lmv with
  | Ok out =>
      exists l,
        fst (forward_st pow_neg_half self x_l ei_l att_l ew_l batch_l lm s)
        = Ok l /\
        holds (snd (forward_st pow_neg_half self x_l ei_l att_l ew_l
                               batch_l lm s)) l (TFloat3 out)
  | Raise e =>
      fst (forward_st pow_neg_half self x_l ei_l att_l ew_l batch_l lm s)
      = Raise e
  end.
Proof.
  intros Hx HE Hatt Hew Hb Hlm. unfold forward_st, forward.
  rewrite (holds_lam_None s lm lmv Hlm).
  destruct (negb (is_sym (_normalization self)) && is_None lmv);
    [reflexivity|].
  rewrite (run_load_float3 s x_l xv) by exact Hx.
  match goal with
  | |- context [bindM (match lm with _ => _ end) ?k s] =>
      destruct (run_default_lam s lm lmv k Hlm) as (lam_l & s1 & -> & Hm1 & Hl1)
  end.
  fold (lam_or_default lmv).
  pose proof (norm_st_result s1 ei_l (size_node xv) ew_l
                (_normalization self) lam_l batch_l E ewv
                (lam_or_default lmv) bv (Hm1 _ _ HE)
                (mono_opt _ _ _ _ Hm1 Hew) Hl1
                (mono_long_opt _ _ _ _ Hm1 Hb)) as Hn.
  destruct (__norm__ pow_neg_half E (size_node xv) ewv (_normalization self)
              (lam_or_default lmv) bv) as [[E' w']|e];
    [|now apply run_raise].
  destruct Hn as (l1 & l2 & Hr & Hl1' & Hl2').
  rewrite (run_ok _ _ _ _ Hr). cbn [bind].
  set (s2 := snd (norm_st pow_neg_half ei_l (size_node xv) ew_l
                          (_normalization self) lam_l batch_l s1)) in *.
  assert (Hm2 : mono s s2).
  { intros l v Hv. apply (extends_holds s1 s2); [|now apply Hm1].
    apply (keeps_norm_st pow_neg_half s1). apply extends_refl. }
  rewrite (run_load_edges s2 l1 E') by exact Hl1'.
  rewrite (run_load_float1 s2 l2 w') by exact Hl2'.
  rewrite (run_load_float3 s2 att_l attv) by (apply Hm2; exact Hatt).
  destruct (index_rc attv (map fst E') (map snd E')) as [a|e];
    [|reflexivity].
  rewrite run_lift_ok, !run_alloc. cbn [bind].
  destruct (index (_weight self) 0) as [w0|e]; [|reflexivity].
  rewrite run_lift_ok, !run_alloc. cbn [bind].
  fold (order0 attv xv).
  match goal with
  | |- context [grow (grow (grow (grow s2 ?a) ?b) ?c) ?d] =>
      set (s4 := grow (grow s2 a) b);
      set (s6 := grow (grow s4 c) d)
  end.
  set (out := length (heap s4)).
  assert (Hout : holds s6 out (TFloat3 (tmatmul (order0 attv xv) w0))).
  { subst s6 out. apply holds_grow, holds_new. }
  destruct (skipn 1 (_weight self)) as [|w1 ws].
  - rewrite run_ret.
    destruct (run_bias self s6 out _ Hout) as (s' & -> & Hs').
    exists out. split; [reflexivity|exact Hs'].
  - rewrite run_assoc.
    destruct (propagate (map swap E') (order0 attv xv)
                (Norm2 (map (map2 fmul w') a))) as [T1|e]; [|reflexivity].
    rewrite run_lift_ok. cbn [bind].
    rewrite run_assoc, run_alloc, run_assoc, run_alloc, run_assoc.
    match goal with
    | |- context [foldM_st _ ws ((?o, ?ov), ?T0, ?T1') ] =>
        pose proof (cheb_loop_st_result (map swap E') w' ws
                      (grow (grow s6 (TFloat3 T1)) (TFloat3 ov))
                      o ov T0 T1' (holds_new _ _)) as Hloop
    end.
    destruct (foldM (cheb_step (map swap E') w') ws _) as [[[ov' Ta] Tb]|e];
      [|now apply run_raise].
    destruct Hloop as (o' & Hr' & Ho').
    rewrite (run_ok _ _ _ _ Hr'). rewrite run_ret.
    match goal with
    | |- context [snd ?m] =>
        destruct (run_bias self (snd m) o' ov' Ho') as (s' & -> & Hs')
    end.
    exists o'. split; [reflexivity|exact Hs'].
Qed.

End StoreResult.

(** ** The forward pass and the tensors of its caller *)

(** C10, as the code has it.  A call of [ChebConvAttention.forward] leaves
    every tensor that exists before the call with its content, the
    arguments [x], [edge_index], [spatial_attention], [edge_weight],
    [batch] and a tensor [lambda_max] among them, whether it returns or
    raises.  Its in-place operations, [masked_fill_] in [__norm__] and
    [out += self._bias], write only to tensors that the call has built
    itself, and the tensor it returns is a new one.  On arguments with the
    contents [xv], [E], ... it returns what the pure [forward] returns. *)
Theorem forward_leaves_arguments (pow_neg_half : fval -> fval)
  (self : ChebConvAttention) (s : state) (x edge_index spatial_attention : nat)
  (edge_weight batch : option nat) (lambda_max : option lam_arg) :
  (forall l v,
     holds s l v ->
     holds (snd (forward_st pow_neg_half self x edge_index spatial_attention
                            edge_weight batch lambda_max s)) l v) /\
  (exists ws,
     written (snd (forward_st pow_neg_half self x edge_index
                              spatial_attention edge_weight batch
                              lambda_max s))
     = written s ++ ws /\
     Forall (fresh s) ws) /\
  (forall l,
     fst (forward_st pow_neg_half self x edge_index spatial_attention
                     edge_weight batch lambda_max s) = Ok l ->
     fresh s l) /\
  (forall xv E attv ewv bv lmv,
     holds s x (TFloat3 xv) -> holds s edge_index (TEdges E) ->
     holds s spatial_attention (TFloat3 attv) ->
     holds_opt s edge_weight ewv -> holds_long_opt s batch bv ->
     holds_lam s lambda_max lmv ->
     match forward pow_neg_half self xv E attv ewv bv lmv with
     | Ok out =>
         exists l,
           fst (forward_st pow_neg_half self x edge_index spatial_attention
                           edge_weight batch lambda_max s) = Ok l /\
           holds (snd (forward_st pow_neg_half self x edge_index
                                  spatial_attention edge_weight batch
                                  lambda_max s)) l (TFloat3 out)
     | Raise e =>
         fst (forward_st pow_neg_half self x edge_index spatial_attention
                         edge_weight batch lambda_max s) = Raise e
     end).
Proof.
  destruct (keeps_forward_st pow_neg_half s self x edge_index
              spatial_attention edge_weight batch lambda_max s
              (extends_refl s)) as [Hext Hfresh].
  split; [|split; [|split]].
  - intros l v Hl. now apply (extends_holds s).
  - exact (proj2 Hext).
  - exact Hfresh.
  - intros xv E attv ewv bv lmv Hx HE Ha Hw Hb Hlm.
    now apply forward_st_result.
Qed.

Lemma forward_leaves_arguments_witness :
  holds (snd (forward_st pow_neg_half_approx ex_conv1 0 1 2 None None None
                         ex_store)) 0 (TFloat3 ex_x) /\
  holds (snd (forward_st pow_neg_half_approx ex_conv1 0 1 2 None None None
                         ex_store)) 1 (TEdges ex_edges) /\
  holds (snd (forward_st pow_neg_half_approx ex_conv1 0 1 2 None None None
                         ex_store)) 2 (TFloat3 ex_att) /\
  exists l,
    fst (forward_st pow_neg_half_approx ex_conv1 0 1 2 None None None
                    ex_store) = Ok l /\
    fresh ex_store l /\
    holds (snd (forward_st pow_neg_half_approx ex_conv1 0 1 2 None None None
                           ex_store)) l (TFloat3 [[[num 2]; [num 9]]]).
Proof.
  destruct (forward_leaves_arguments pow_neg_half_approx ex_conv1 ex_store
              0 1 2 None None None) as (Hkeep & _ & Hfresh & Hres).
  split; [apply Hkeep; reflexivity|].
  split; [apply Hkeep; reflexivity|].
  split; [apply Hkeep; reflexivity|].
  specialize (Hres ex_x ex_edges ex_att None None None
                eq_refl eq_refl eq_refl I I I).
  assert (Hrun : forward pow_neg_half_approx ex_conv1 ex_x ex_edges ex_att
                         None None None = Ok [[[num 2]; [num 9]]])
    by eval_eq.
  rewrite Hrun in Hres. destruct Hres as (l & Hl & Hout).
  exists l. split; [exact Hl|]. split; [now apply Hfresh|exact Hout].
Defined.

(** C10 as stated fails in one point.  On the small instance, whose layer
    has a bias, the call writes in place twice: to the scaled Laplacian
    weights (location 7, by [masked_fill_]) and to the output (location 12,
    by [out += self._bias]).  The second write is not to a Laplacian weight
    tensor; both tensors are new. *)
Lemma bias_added_in_place :
  written (snd (forward_st pow_neg_half_approx ex_conv1 0 1 2 None None None
                           ex_store)) = [7; 12] /\
  fst (forward_st pow_neg_half_approx ex_conv1 0 1 2 None None None ex_store)
  = Ok 12 /\
  holds (snd (forward_st pow_neg_half_approx ex_conv1 0 1 2 None None None
                         ex_store)) 7 (TFloat1 [fm1; fm1; f1; f1]) /\
  holds (snd (forward_st pow_neg_half_approx ex_conv1 0 1 2 None None None
                         ex_store)) 12 (TFloat3 [[[num 2]; [num 9]]]) /\
  ~ (forall l,
       In l (written (snd (forward_st pow_neg_half_approx ex_conv1 0 1 2
                                      None None None ex_store))) ->
       exists w,
         holds (snd (forward_st pow_neg_half_approx ex_conv1 0 1 2 None None
                                None ex_store)) l (TFloat1 w)).
Proof.
  assert (Hw : written (snd (forward_st pow_neg_half_approx ex_conv1 0 1 2
                                        None None None ex_store)) = [7; 12])
    by (vm_compute; reflexivity).
  assert (H12 : holds (snd (forward_st pow_neg_half_approx ex_conv1 0 1 2
                                       None None None ex_store)) 12
                      (TFloat3 [[[num 2]; [num 9]]]))
    by (unfold holds; eval_eq).
  split; [exact Hw|]. split; [vm_compute; reflexivity|].
  split; [unfold holds; eval_eq|]. split; [exact H12|].
  intros H. destruct (H 12) as (w & Hh).
  - rewrite Hw. simpl. auto.
  - unfold holds in *. rewrite H12 in Hh. discriminate Hh.
Qed.
(** ** More on ChebConvAttention *)

Lemma tadd_shape (b n o : nat) (X Y : tensor3) :
  is_tensor3 b n o X -> is_tensor3 b n o Y -> is_tensor3 b n o (tadd X Y).
Proof.
  intros [HXl HX] [HYl HY]. split.
  - unfold tadd. rewrite map2_length. llia.
  - apply map2_Forall. intros m m' Hin.
    rewrite Forall_forall in HX, HY.
    destruct (HX m (in_combine_l _ _ _ _ Hin)) as [Hml Hmr].
    destruct (HY m' (in_combine_r _ _ _ _ Hin)) as [Hml' Hmr'].
    split; [unfold madd; rewrite map2_length; llia|].
    apply map2_Forall. intros r r' Hin'.
    rewrite Forall_forall in Hmr, Hmr'.
    specialize (Hmr r (in_combine_l _ _ _ _ Hin')).
    specialize (Hmr' r' (in_combine_r _ _ _ _ Hin')).
    unfold vadd. rewrite map2_length. llia.
Qed.

Lemma fold_tadd_shape (b n o : nat) (l : list tensor3) (X : tensor3) :
  is_tensor3 b n o X -> Forall (is_tensor3 b n o) l ->
  is_tensor3 b n o (fold_left tadd l X).
Proof.
  intros HX Hl. revert X HX.
  induction Hl as [|Y l HY _ IH]; intros X HX; simpl; auto.
  apply IH. now apply tadd_shape.
Qed.

Lemma tmatmul_shape (b n f o : nat) (T : tensor3) (w : mat) :
  length T = b -> rows_are n T -> is_mat f o w -> 0 < f ->
  is_tensor3 b n o (tmatmul T w).
Proof.
  intros Hl Hr Hw Hf. split.
  - unfold tmatmul. now rewrite length_map.
  - unfold tmatmul. apply Forall_map. unfold rows_are in Hr.
    eapply Forall_impl; [|exact Hr]. intros m Hm.
    pose proof (matmul_is_mat m w) as HM.
    now rewrite Hm, (ncols_is_mat_pos f o w Hw Hf) in HM.
Qed.

Lemma add_bias_shape (b n o : nat) (bias : option vec) (out : tensor3) :
  (forall bv, bias = Some bv -> length bv = o) ->
  is_tensor3 b n o out -> is_tensor3 b n o (add_bias bias out).
Proof.
  intros Hb [Hl Ho]. destruct bias as [bv|]; simpl; [|now split].
  specialize (Hb bv eq_refl). split; [now rewrite length_map|].
  apply Forall_map. eapply Forall_impl; [|exact Ho].
  intros m [Hml Hmr]. split; [now rewrite length_map|].
  apply Forall_map. eapply Forall_impl; [|exact Hmr].
  intros r Hr. unfold vadd. rewrite map2_length. llia.
Qed.

(** The sum of the Chebyshev terms times their weight slices has the
    shape (b, n, o). *)
Lemma terms_shape (b n f o : nat) (Ts : list tensor3) (W : list mat) :
  Forall (fun T => length T = b /\ rows_are n T) Ts ->
  Forall (is_mat f o) W -> 0 < f -> length Ts = length W -> W <> [] ->
  is_tensor3 b n o (tsum (map2 tmatmul Ts W)).
Proof.
  intros HT HW Hf Hlen Hne.
  assert (H : Forall (is_tensor3 b n o) (map2 tmatmul Ts W)).
  { apply map2_Forall. intros T w Hin.
    rewrite Forall_forall in HT, HW.
    destruct (HT T (in_combine_l _ _ _ _ Hin)) as [Hl Hr].
    apply (tmatmul_shape b n f o); auto.
    apply HW. exact (in_combine_r _ _ _ _ Hin). }
  destruct Ts as [|T Ts], W as [|w W]; simpl in *; try congruence;
    try discriminate.
  inversion H; subst. now apply fold_tadd_shape.
Qed.

Section ChebMore.

Variable pow_neg_half : fval -> fval.

(** [__norm__] starts by removing the self-loops of its input. *)
Lemma norm_remove_self_loops (E : edges) (n : nat) (ew : option vec)
  (norm : normalization) (l : lam) (batch : option (list nat)) :
  weights_ok E ew ->
  __norm__ pow_neg_half (fst (remove_self_loops E ew)) n
           (snd (remove_self_loops E ew)) norm l batch
  = __norm__ pow_neg_half E n ew norm l batch.
Proof.
  intros Hw. unfold __norm__.
  pose proof (remove_self_loops_idem E ew Hw) as H.
  destruct (remove_self_loops E ew) as [E1 w1]. cbn [fst snd] in *.
  rewrite H. reflexivity.
Qed.

(** Self-loops of the input graph, and their weights, have no influence on
    the normalized graph and on the output of the layer: both are those of
    the input without its self-loops. *)
Theorem forward_ignores_self_loops (self : ChebConvAttention) (x : tensor3)
  (ei : edges) (att : tensor3) (ew : option vec) (batch : option (list nat))
  (lm : option lam) (l : lam) :
  weights_ok ei ew ->
  fst (remove_self_loops ei ew) = no_loops ei /\
  __norm__ pow_neg_half (fst (remove_self_loops ei ew)) (size_node x)
           (snd (remove_self_loops ei ew)) (_normalization self) l batch
  = __norm__ pow_neg_half ei (size_node x) ew (_normalization self) l batch /\
  forward pow_neg_half self x (fst (remove_self_loops ei ew)) att
          (snd (remove_self_loops ei ew)) batch lm
  = forward pow_neg_half self x ei att ew batch lm.
Proof.
  intros Hw. split; [apply remove_self_loops_fst|]. split.
  - now apply norm_remove_self_loops.
  - unfold forward.
    now rewrite (norm_remove_self_loops ei _ ew _ _ _ Hw).
Qed.

(** A Laplacian that [get_laplacian] returns is on the edges without
    self-loops followed by one loop per node. *)
Lemma get_laplacian_inv (E : edges) (ew : option vec) (norm : normalization)
  (n : nat) (Eo : edges) (wo : vec) :
  get_laplacian pow_neg_half E ew norm n = Ok (Eo, wo) ->
  Eo = no_loops E ++ loop_index n.
Proof.
  unfold get_laplacian.
  pose proof (remove_self_loops_fst E ew) as HE.
  destruct (remove_self_loops E ew) as [E1 w1]. simpl in HE. subst E1.
  intros H. apply bind_ok in H. destruct H as (deg & _ & H).
  destruct norm.
  - simpl in H. now injection H as <- _.
  - apply bind_ok in H. destruct H as (dr & _ & H).
    apply bind_ok in H. destruct H as (dc & _ & H).
    simpl in H. now injection H as <- _.
  - apply bind_ok in H. destruct H as (dr & _ & H).
    simpl in H. now injection H as <- _.
Qed.

Lemma norm_inv (E : edges) (n : nat) (ew : option vec)
  (norm : normalization) (l : lam) (batch : option (list nat))
  (Eo : edges) (wo : vec) :
  __norm__ pow_neg_half E n ew norm l batch = Ok (Eo, wo) ->
  Eo = (no_loops E ++ loop_index n) ++ loop_index n.
Proof.
  unfold __norm__.
  pose proof (remove_self_loops_fst E ew) as HE.
  destruct (remove_self_loops E ew) as [E1 w1]. simpl in HE. subst E1.
  intros H. apply bind_ok in H. destruct H as ([E2 w2] & Hg & H).
  apply get_laplacian_inv in Hg. rewrite no_loops_idem in Hg. subst E2.
  apply bind_ok in H. destruct H as (l' & _ & H).
  apply bind_ok in H. destruct H as (w3 & _ & H).
  simpl in H. now injection H as <- _.
Qed.

(** An edge that is not a self-loop and names a node that does not exist
    makes the forward pass raise, whatever the other arguments are. *)
Theorem forward_rejects_bad_edge (self : ChebConvAttention) (x : tensor3)
  (ei : edges) (att : tensor3) (ew : option vec) (batch : option (list nat))
  (lm : option lam) (b n f : nat) (e : nat * nat) :
  is_tensor3 b n f x -> is_tensor3 b n n att -> 0 < b ->
  In e ei -> fst e <> snd e -> n <= fst e \/ n <= snd e ->
  exists err, forward pow_neg_half self x ei att ew batch lm = Raise err.
Proof.
  intros Hx Ha Hb Hin Hne Hbad.
  destruct (forward pow_neg_half self x ei att ew batch lm) as [out|err]
    eqn:Hf; [exfalso|eauto].
  apply forward_inv in Hf. destruct Hf as (_ & E & w & a & Hn & Hi).
  apply norm_inv in Hn. subst E.
  destruct (index_rc_inv n att _ a (proj2 Ha) Hi) as [_ Hv].
  assert (Hatt : att <> []).
  { destruct Ha as [Hl _]. intros ->. simpl in Hl. lia. }
  specialize (Hv Hatt). unfold valid_edges in Hv.
  rewrite Forall_forall in Hv. destruct (Hv e) as [H1 H2]; [|lia].
  apply in_or_app. left. apply in_or_app. left.
  apply filter_In. split; [exact Hin|].
  apply negb_true_iff. now apply Nat.eqb_neq.
Qed.

(** On valid inputs [__norm__] returns one weight per edge: the edges of
    the input without its self-loops, then two loops per node, all on
    existing nodes. *)
Theorem norm_returns_aligned (E : edges) (n : nat) (ew : option vec)
  (norm : normalization) (l : lam) (batch : option (list nat)) :
  valid_edges n E -> weights_ok E ew -> valid_lam n batch l ->
  exists Eo wo,
    __norm__ pow_neg_half E n ew norm l batch = Ok (Eo, wo) /\
    Eo = no_loops E ++ loop_index n ++ loop_index n /\
    length wo = length Eo /\
    length Eo = length (no_loops E) + 2 * n /\
    valid_edges n Eo.
Proof.
  intros Hv Hw Hl.
  destruct (norm_struct pow_neg_half E n ew norm l batch Hv Hw Hl)
    as (off & diag & w' & Hn & Hlen & _).
  eexists _, _. split; [exact Hn|].
  split; [now rewrite app_assoc|].
  rewrite !length_app, repeat_length, !loop_index_length, Hlen.
  repeat split; try lia.
  repeat apply valid_edges_app; auto using no_loops_valid, loop_index_valid.
Qed.

Lemma forward_shape (self : ChebConvAttention) (x : tensor3)
  (ei : edges) (att : tensor3) (ew : option vec) (batch : option (list nat))
  (lm : option lam) (b n f o : nat) :
  shapes self x att b n f o -> _weight self <> [] -> 0 < b -> 0 < f ->
  lam_given (_normalization self) lm ->
  valid_lam n batch (lam_or_default lm) ->
  valid_edges n ei -> weights_ok ei ew ->
  exists out,
    forward pow_neg_half self x ei att ew batch lm = Ok out /\
    is_tensor3 b n o out.
Proof.
  intros [Hx Ha HW Hbias] Hne Hb Hf Hg Hl Hv Hw.
  destruct (forward_valid pow_neg_half self x ei att ew batch lm b n f
              Hx Ha Hb Hne Hg Hl Hv Hw) as (E & w & _ & Hfw).
  eexists. split; [exact Hfw|].
  apply add_bias_shape; [exact Hbias|].
  apply (terms_shape b n f o); auto.
  - apply cheb_term_list_shape.
    + rewrite att_norm_spec_length. apply Ha.
    + apply (order0_length b n f); assumption.
    + apply (order0_rows b n f); assumption.
  - apply cheb_term_list_length.
Qed.

(** On valid inputs the forward pass returns a tensor of shape (b, n, o),
    for an input of shape (b, n, f) and weights of shape (K, f, o). *)
Theorem forward_output_shape (self : ChebConvAttention) (x : tensor3)
  (ei : edges) (att : tensor3) (ew : option vec) (batch : option (list nat))
  (lm : option lam) (b n f o : nat) :
  shapes self x att b n f o -> _weight self <> [] -> 0 < b -> 0 < f ->
  lam_given (_normalization self) lm ->
  valid_lam n batch (lam_or_default lm) ->
  valid_edges n ei -> weights_ok ei ew ->
  exists out,
    forward pow_neg_half self x ei att ew batch lm = Ok out /\
    is_tensor3 b n o out.
Proof. apply forward_shape. Qed.

End ChebMore.

Lemma forward_ignores_self_loops_witness :
  fst (remove_self_loops [(0, 1); (7, 7); (1, 0)]
         (Some [num 1; num 5; num 1]))
  = no_loops [(0, 1); (7, 7); (1, 0)] /\
  __norm__ pow_neg_half_approx
     (fst (remove_self_loops [(0, 1); (7, 7); (1, 0)]
             (Some [num 1; num 5; num 1])))
     (size_node ex_x)
     (snd (remove_self_loops [(0, 1); (7, 7); (1, 0)]
             (Some [num 1; num 5; num 1])))
     (_normalization ex_conv3) (Scalar f2) None
  = __norm__ pow_neg_half_approx [(0, 1); (7, 7); (1, 0)] (size_node ex_x)
      (Some [num 1; num 5; num 1]) (_normalization ex_conv3) (Scalar f2)
      None /\
  forward pow_neg_half_approx ex_conv3 ex_x
     (fst (remove_self_loops [(0, 1); (7, 7); (1, 0)]
             (Some [num 1; num 5; num 1])))
     ex_att
     (snd (remove_self_loops [(0, 1); (7, 7); (1, 0)]
             (Some [num 1; num 5; num 1])))
     None None
  = forward pow_neg_half_approx ex_conv3 ex_x [(0, 1); (7, 7); (1, 0)] ex_att
      (Some [num 1; num 5; num 1]) None None.
Proof.
  apply (forward_ignores_self_loops pow_neg_half_approx ex_conv3 ex_x
           [(0, 1); (7, 7); (1, 0)] ex_att (Some [num 1; num 5; num 1])
           None None (Scalar f2)).
  reflexivity.
Defined.

Lemma forward_rejects_bad_edge_witness :
  exists err,
    forward pow_neg_half_approx ex_conv1 ex_x [(0, 1); (1, 2)] ex_att None
            None None = Raise err.
Proof.
  apply (forward_rejects_bad_edge pow_neg_half_approx ex_conv1 ex_x
           [(0, 1); (1, 2)] ex_att None None None 1 2 1 (1, 2)).
  - split; [reflexivity|]. repeat constructor.
  - split; [reflexivity|]. repeat constructor.
  - lia.
  - right. left. reflexivity.
  - simpl. lia.
  - right. simpl. lia.
Defined.

Lemma norm_returns_aligned_witness :
  exists Eo wo,
    __norm__ pow_neg_half_approx ex_edges 2 None NormSym (Scalar f2) None
    = Ok (Eo, wo) /\
    Eo = no_loops ex_edges ++ loop_index 2 ++ loop_index 2 /\
    length wo = length Eo /\
    length Eo = length (no_loops ex_edges) + 2 * 2 /\
    valid_edges 2 Eo.
Proof.
  apply (norm_returns_aligned pow_neg_half_approx ex_edges 2 None NormSym
           (Scalar f2) None).
  - repeat constructor.
  - exact I.
  - exact I.
Defined.

Lemma forward_output_shape_witness :
  exists out,
    forward pow_neg_half_approx ex_conv3 ex_x ex_edges ex_att None None None
    = Ok out /\
    is_tensor3 1 2 1 out.
Proof.
  apply (forward_output_shape pow_neg_half_approx ex_conv3 ex_x ex_edges
           ex_att None None None 1 2 1 1).
  - split.
    + split; [reflexivity|]. repeat constructor.
    + split; [reflexivity|]. repeat constructor.
    + repeat constructor.
    + intros bv [= <-]. reflexivity.
  - discriminate.
  - lia.
  - lia.
  - left. reflexivity.
  - exact I.
  - repeat constructor.
  - exact I.
Defined.
(** ** Row sums of the scaled Laplacian *)

Lemma combine_app {A B} (l1 l2 : list A) (l1' l2' : list B) :
  length l1 = length l1' ->
  combine (l1 ++ l2) (l1' ++ l2') = combine l1 l1' ++ combine l2 l2'.
Proof.
  revert l1'. induction l1 as [|a l1 IH]; intros [|b l1'] H; simpl in *;
    try discriminate; auto.
  f_equal. apply IH. lia.
Qed.

Lemma row_weights_app (E1 E2 : edges) (w1 w2 : vec) (i : nat) :
  length E1 = length w1 ->
  row_weights (E1 ++ E2) (w1 ++ w2) i
  = row_weights E1 w1 i ++ row_weights E2 w2 i.
Proof.
  intros H. unfold row_weights.
  now rewrite combine_app, filter_app, map_app.
Qed.

Lemma row_weights_loops (n : nat) (d : vec) (i : nat) :
  length d = n -> i < n -> row_weights (loop_index n) d i = [nth i d f0].
Proof.
  intros Hd Hi. rewrite <- (weights_at_loops n d i Hd Hi).
  unfold row_weights, weights_at. f_equal. apply filter_ext_in.
  intros [[a b] c] Hin. apply in_combine_l in Hin.
  unfold loop_index in Hin. apply in_map_iff in Hin.
  destruct Hin as (k & [= <- <-] & _). simpl.
  now rewrite andb_diag.
Qed.

Lemma row_weights_map (g : fval -> fval) (E : edges) (w : vec) (i : nat) :
  row_weights E (map g w) i = map g (row_weights E w i).
Proof.
  unfold row_weights. revert w.
  induction E as [|e E IH]; intros [|a w]; simpl; auto.
  destruct (fst e =? i); simpl; now rewrite IH.
Qed.

(** Weights multiplied by a factor that depends on the row. *)
Lemma row_weights_scaled (di : vec) (E : edges) (w : vec) (i : nat) :
  row_weights E (map2 fmul (map (fun r => nth r di f0) (map fst E)) w) i
  = map (fmul (nth i di f0)) (row_weights E w i).
Proof.
  unfold row_weights. revert w.
  induction E as [|e E IH]; intros [|a w]; simpl; auto.
  destruct (Nat.eqb_spec (fst e) i) as [->|Hne]; simpl; now rewrite IH.
Qed.

Lemma row_weights_sent (E : edges) (w : vec) (i : nat) :
  sent_to i (combine (map fst E) w) = row_weights E w i.
Proof.
  unfold sent_to, row_weights. revert w.
  induction E as [|e E IH]; intros [|a w]; simpl; auto.
  destruct (fst e =? i); simpl; now rewrite IH.
Qed.

Lemma row_weights_fin (E : edges) (w : vec) (i : nat) :
  fin_vec w -> fin_vec (row_weights E w i).
Proof.
  intros Hw. unfold fin_vec, row_weights in *. apply Forall_map.
  apply Forall_forall. intros [e a] Hin. apply filter_In in Hin.
  destruct Hin as [Hin _]. apply in_combine_r in Hin. simpl.
  rewrite Forall_forall in Hw. now apply Hw.
Qed.

Lemma fin_vec_Fin (v : vec) : fin_vec v -> exists qs, v = map Fin qs.
Proof.
  induction 1 as [|a v Ha _ (qs & ->)].
  - now exists [].
  - destruct a as [q| | |]; try discriminate. now exists (q :: qs).
Qed.

(** The degrees that [get_laplacian] computes. *)
Lemma scatter_degree (E : edges) (w : vec) (n : nat) :
  valid_edges n E ->
  exists deg,
    scatter w (map fst E) n = Ok deg /\ length deg = n /\
    forall k, k < n -> nth k deg f0 = row_sum E w k.
Proof.
  intros Hv. unfold scatter, scatter_add.
  destruct (scatter_add_ok fadd f0 (combine (map fst E) w) (zeros n))
    as (deg & Hdeg & Hlen & Hnth).
  - rewrite zeros_length. apply Forall_forall. intros [k a] Hin.
    apply in_combine_l in Hin. apply valid_edges_rows in Hv.
    rewrite Forall_forall in Hv. now apply Hv.
  - exists deg. split; [exact Hdeg|]. rewrite zeros_length in Hlen.
    split; [exact Hlen|]. intros k Hk.
    rewrite Hnth, row_weights_sent. unfold zeros.
    now rewrite nth_repeat_lt.
Qed.

Lemma weights_or_ones_length (E : edges) (ew : option vec) :
  weights_ok E ew -> length (weights_or_ones E ew) = length (no_loops E).
Proof.
  intros Hw. unfold weights_or_ones.
  pose proof (remove_self_loops_weights E ew Hw) as H.
  destruct (snd (remove_self_loops E ew)); [exact H|apply repeat_length].
Qed.

Lemma mask_select_fin {A} (p : A -> bool) (l : list A) (v : vec) :
  fin_vec v -> fin_vec (mask_select (map p l) v).
Proof.
  intros Hv. revert l. induction Hv as [|a v Ha _ IH]; intros [|x l]; simpl;
    try constructor.
  destruct (p x); [constructor; auto|]; apply IH.
Qed.

Lemma weights_or_ones_fin (E : edges) (ew : option vec) :
  fin_weights ew -> fin_vec (weights_or_ones E ew).
Proof.
  intros Hf. unfold weights_or_ones, remove_self_loops.
  destruct ew as [v|]; simpl.
  - now apply mask_select_fin.
  - apply Forall_forall. intros a Ha. apply repeat_spec in Ha. now subst.
Qed.

Section RowSums.

Variable pow_neg_half : fval -> fval.

(** The Laplacian without normalization: [-w] off the diagonal and the
    degree on it. *)
Lemma get_laplacian_none (E : edges) (ew : option vec) (n : nat) :
  valid_edges n E -> weights_ok E ew ->
  exists deg,
    get_laplacian pow_neg_half E ew NormNone n
    = Ok (no_loops E ++ loop_index n,
          map fneg (weights_or_ones E ew) ++ deg) /\
    length deg = n /\
    forall k, k < n -> nth k deg f0 = degree E ew k.
Proof.
  intros Hv Hw. unfold get_laplacian, degree, weights_or_ones.
  pose proof (remove_self_loops_fst E ew) as HE.
  destruct (remove_self_loops E ew) as [E1 w1]. simpl in HE. subst E1.
  cbn [snd].
  set (w := match w1 with Some w => w | None => repeat f1 _ end).
  destruct (scatter_degree (no_loops E) w n (no_loops_valid n E Hv))
    as (deg & -> & Hlen & Hnth).
  exists deg. simpl. auto.
Qed.

(** The random-walk Laplacian: [-w / deg] off the diagonal, with [1 / deg]
    replaced by [0] where the degree is zero, and [1] on the diagonal. *)
Lemma get_laplacian_rw (E : edges) (ew : option vec) (n : nat) :
  valid_edges n E -> weights_ok E ew ->
  exists deg,
    get_laplacian pow_neg_half E ew NormRw n
    = Ok (no_loops E ++ loop_index n,
          map fneg
              (map2 fmul
                 (map (fun r => nth r (mask_inf (map (fdiv f1) deg)) f0)
                      (map fst (no_loops E)))
                 (weights_or_ones E ew))
          ++ repeat f1 n) /\
    length deg = n /\
    forall k, k < n -> nth k deg f0 = degree E ew k.
Proof.
  intros Hv Hw. unfold get_laplacian, degree, weights_or_ones.
  pose proof (remove_self_loops_fst E ew) as HE.
  destruct (remove_self_loops E ew) as [E1 w1]. simpl in HE. subst E1.
  cbn [snd].
  set (w := match w1 with Some w => w | None => repeat f1 _ end).
  pose proof (no_loops_valid n E Hv) as Hv1.
  destruct (scatter_degree (no_loops E) w n Hv1) as (deg & -> & Hlen & Hnth).
  exists deg. cbn [bind].
  rewrite (gather_ok f0).
  - simpl. auto.
  - rewrite mask_inf_length, length_map, Hlen.
    now apply valid_edges_rows.
Qed.


Lemma get_laplacian_idem (E : edges) (ew : option vec) (norm : normalization)
  (n : nat) :
  weights_ok E ew ->
  get_laplacian pow_neg_half (fst (remove_self_loops E ew))
                (snd (remove_self_loops E ew)) norm n
  = get_laplacian pow_neg_half E ew norm n.
Proof.
  intros Hw. unfold get_laplacian.
  pose proof (remove_self_loops_idem E ew Hw) as H.
  destruct (remove_self_loops E ew) as [E1 w1]. cbn [fst snd] in *.
  now rewrite H.
Qed.

(** [__norm__] with a scalar [lambda_max]: the Laplacian, scaled entry by
    entry, then one loop of weight [-1] per node. *)
Lemma norm_scalar (E : edges) (n : nat) (ew : option vec)
  (norm : normalization) (v : fval) (batch : option (list nat)) :
  weights_ok E ew ->
  __norm__ pow_neg_half E n ew norm (Scalar v) batch
  = ('(E2, w2) <- get_laplacian pow_neg_half E ew norm n ;;
     Ok (E2 ++ loop_index n,
         map (fun a => clamp_inf (fdiv (fmul f2 a) v)) w2 ++ repeat fm1 n)).
Proof.
  intros Hw. unfold __norm__.
  rewrite <- (get_laplacian_idem E ew norm n Hw).
  destruct (remove_self_loops E ew) as [E1 w1]. cbn [fst snd].
  destruct (get_laplacian pow_neg_half E1 w1 norm n) as [[E2 w2]|e];
    [|reflexivity].
  cbn [bind].
  assert (Hl : match batch with
               | Some b =>
                   if 1 <? numel (Scalar v)
                   then (i <- gather b (map fst E2) ;; lam_index (Scalar v) i)
                   else Ok (Scalar v)
               | None => Ok (Scalar v)
               end = Ok (Scalar v)) by (destruct batch; reflexivity).
  rewrite Hl. cbn [bind div_lam add_self_loops option_map].
  now rewrite mask_inf_map, !map_map.
Qed.

End RowSums.

(** *** The arithmetic of a row *)

Lemma sgn_nonzero (q : Qc) : q <> Q2Qc 0 -> sgn q <> Eq.
Proof. intros H E. apply H. now apply Qceq_alt. Qed.

(** Scaling a finite number by [2 / lambda_max], for a finite non-zero
    [lambda_max]. *)
Lemma scale_fin (q a : Qc) :
  q <> Q2Qc 0 ->
  clamp_inf (fdiv (fmul f2 (Fin a)) (Fin q)) = Fin (Q2Qc 2 * a / q)%Qc.
Proof.
  intros Hq. simpl. pose proof (sgn_nonzero q Hq) as Hs.
  destruct (sgn q); [congruence| |]; reflexivity.
Qed.

Lemma qsum_shift (l : list Qc) (a : Qc) :
  fold_left Qcplus l a = (a + fold_left Qcplus l (Q2Qc 0))%Qc.
Proof.
  revert a. induction l as [|x l IH]; intros a; simpl.
  - ring.
  - rewrite (IH (a + x)%Qc), (IH (Q2Qc 0 + x)%Qc). ring.
Qed.

Lemma qsum_scaled (c : Qc) (l : list Qc) :
  fold_left Qcplus (map (fun a => c * a)%Qc l) (Q2Qc 0)
  = (c * fold_left Qcplus l (Q2Qc 0))%Qc.
Proof.
  induction l as [|x l IH]; simpl.
  - ring.
  - rewrite qsum_shift, IH, (qsum_shift l (Q2Qc 0 + x)%Qc). ring.
Qed.

Lemma vsum_app_Fin (l : list Qc) (v : vec) :
  vsum (map Fin l ++ v)
  = fold_left fadd v (Fin (fold_left Qcplus l (Q2Qc 0))).
Proof. unfold vsum. now rewrite fold_left_app, <- vsum_Fin. Qed.

(** The row [i] of what [__norm__] returns: the scaled off-diagonal
    entries of the row, the scaled diagonal entry, and [-1]. *)
Lemma row_weights_scaled_laplacian (g : fval -> fval) (E' : edges)
  (off diag : vec) (n i : nat) :
  length off = length E' -> length diag = n -> i < n ->
  row_weights ((E' ++ loop_index n) ++ loop_index n)
              (map g (off ++ diag) ++ repeat fm1 n) i
  = map g (row_weights E' off i) ++ [g (nth i diag f0); fm1].
Proof.
  intros Hoff Hdiag Hi.
  rewrite row_weights_app
    by (rewrite length_map, !length_app, loop_index_length; lia).
  rewrite (row_weights_loops n (repeat fm1 n) i (repeat_length _ _) Hi).
  rewrite nth_repeat_lt by exact Hi.
  rewrite map_app, row_weights_app by (rewrite length_map; lia).
  rewrite row_weights_map.
  rewrite (row_weights_loops n (map g diag) i)
    by (rewrite ?length_map; auto).
  rewrite (nth_indep _ f0 (g f0)) by (rewrite length_map; lia).
  rewrite map_nth, <- app_assoc. reflexivity.
Qed.

Lemma row_none_arith (q : Qc) (qs : list Qc) :
  q <> Q2Qc 0 ->
  vsum (map (fun a => clamp_inf (fdiv (fmul f2 a) (Fin q)))
            (map fneg (map Fin qs))
        ++ [clamp_inf (fdiv (fmul f2 (vsum (map Fin qs))) (Fin q)); fm1])
  = fm1.
Proof.
  intros Hq. rewrite vsum_Fin, scale_fin by exact Hq.
  rewrite !map_map.
  rewrite (map_ext _ (fun a => Fin ((- (Q2Qc 2 / q)) * a)%Qc)).
  2:{ intros a. cbn [fneg]. rewrite scale_fin by exact Hq.
      f_equal. unfold Qcdiv. ring. }
  rewrite <- (map_map (fun a => (- (Q2Qc 2 / q) * a)%Qc) Fin).
  rewrite vsum_app_Fin, qsum_scaled. cbn [fold_left fadd fm1].
  unfold fm1. f_equal. unfold Qcdiv. ring.
Qed.

Lemma row_rw_arith (q d : Qc) (qs : list Qc) :
  q <> Q2Qc 0 -> d <> Q2Qc 0 -> fold_left Qcplus qs (Q2Qc 0) = d ->
  vsum (map (fun a => clamp_inf (fdiv (fmul f2 a) (Fin q)))
            (map fneg (map (fmul (Fin (Q2Qc 1 / d)%Qc)) (map Fin qs)))
        ++ [clamp_inf (fdiv (fmul f2 f1) (Fin q)); fm1])
  = fm1.
Proof.
  intros Hq Hd Hsum. unfold f1. rewrite scale_fin by exact Hq.
  rewrite !map_map.
  rewrite (map_ext _ (fun a => Fin ((- (Q2Qc 2 / q / d)) * a)%Qc)).
  2:{ intros a. cbn [fneg fmul]. rewrite scale_fin by exact Hq.
      f_equal. unfold Qcdiv. ring. }
  rewrite <- (map_map (fun a => (- (Q2Qc 2 / q / d) * a)%Qc) Fin).
  rewrite vsum_app_Fin, qsum_scaled, Hsum. cbn [fold_left fadd fm1].
  unfold fm1. f_equal. unfold Qcdiv.
  transitivity (- (Q2Qc 2 * / q) * (d * / d) + Q2Qc 2 * Q2Qc 1 * / q
                + Q2Qc (-1))%Qc; [ring|].
  rewrite Qcmult_inv_r by exact Hd. ring.
Qed.

Lemma row_rw_arith_zero (q : Qc) (qs : list Qc) :
  q <> Q2Qc 0 ->
  vsum (map (fun a => clamp_inf (fdiv (fmul f2 a) (Fin q)))
            (map fneg (map (fmul f0) (map Fin qs)))
        ++ [clamp_inf (fdiv (fmul f2 f1) (Fin q)); fm1])
  = fadd (fdiv f2 (Fin q)) fm1.
Proof.
  intros Hq. unfold f1. rewrite scale_fin by exact Hq.
  rewrite !map_map.
  rewrite (map_ext _ (fun a => Fin (Q2Qc 0 * a)%Qc)).
  2:{ intros a. unfold f0. cbn [fneg fmul]. rewrite scale_fin by exact Hq.
      f_equal. unfold Qcdiv. ring. }
  rewrite <- (map_map (fun a => (Q2Qc 0 * a)%Qc) Fin).
  rewrite vsum_app_Fin, qsum_scaled. cbn [fold_left fadd fm1].
  pose proof (sgn_nonzero q Hq) as Hs.
  unfold f2, fm1. cbn [fdiv]. destruct (sgn q); [congruence| |];
    cbn [fadd]; f_equal; unfold Qcdiv; ring.
Qed.

Section RowSumTheorems.

Variable pow_neg_half : fval -> fval.

(** Without normalization, and for a finite non-zero [lambda_max], every
    row of the matrix that [__norm__] returns sums to [-1]: the rows of
    [L = D - A] sum to zero, and [__norm__] returns [2 L / lambda_max - I].
    The weights are finite and the arithmetic exact. *)
Theorem norm_none_rows_sum (E : edges) (n : nat) (ew : option vec) (q : Qc)
  (batch : option (list nat)) (i : nat) :
  valid_edges n E -> weights_ok E ew -> fin_weights ew ->
  q <> Q2Qc 0 -> i < n ->
  exists Eo wo,
    __norm__ pow_neg_half E n ew NormNone (Scalar (Fin q)) batch
    = Ok (Eo, wo) /\
    row_sum Eo wo i = fm1.
Proof.
  intros Hv Hw Hf Hq Hi.
  rewrite norm_scalar by exact Hw.
  destruct (get_laplacian_none pow_neg_half E ew n Hv Hw)
    as (deg & -> & Hlen & Hdeg).
  cbn [bind]. eexists _, _. split; [reflexivity|].
  unfold row_sum.
  rewrite row_weights_scaled_laplacian; auto.
  2:{ rewrite length_map. now apply weights_or_ones_length. }
  rewrite row_weights_map, (Hdeg i Hi). unfold degree, row_sum.
  destruct (fin_vec_Fin (row_weights (no_loops E) (weights_or_ones E ew) i))
    as (qs & ->).
  { apply row_weights_fin. now apply weights_or_ones_fin. }
  now apply row_none_arith.
Qed.


End RowSumTheorems.

Lemma norm_none_rows_sum_witness :
  exists Eo wo,
    __norm__ pow_neg_half_approx [(0, 1); (0, 0); (1, 0)] 2
             (Some [num 3; num 7; num 5]) NormNone (Scalar (Fin (Q2Qc 4)))
             None
    = Ok (Eo, wo) /\
    row_sum Eo wo 0 = fm1.
Proof.
  apply (norm_none_rows_sum pow_neg_half_approx [(0, 1); (0, 0); (1, 0)] 2
           (Some [num 3; num 7; num 5]) (Q2Qc 4) None 0).
  - repeat constructor.
  - reflexivity.
  - repeat constructor.
  - discriminate.
  - lia.
Defined.


Example norm_none_run :
  __norm__ pow_neg_half_approx [(0, 1); (0, 0); (1, 0)] 2
           (Some [num 3; num 7; num 5]) NormNone (Scalar (Fin (Q2Qc 4))) None
  = Ok ([(0, 1); (1, 0); (0, 0); (1, 1); (0, 0); (1, 1)],
        [Fin (Q2Qc (-3 # 2)); Fin (Q2Qc (-5 # 2)); Fin (Q2Qc (3 # 2));
         Fin (Q2Qc (5 # 2)); fm1; fm1]).
Proof. eval_eq. Qed.
(** ** The attention weights lie between 0 and 1 *)

Lemma Qc_this_add (a b : Qc) : (this (a + b) == this a + this b)%Q.
Proof. change (this (a + b)) with (Qred (this a + this b)). apply Qred_correct. Qed.

Lemma Qc_this_div (a s : Qc) : (this (a / s) == this a / this s)%Q.
Proof.
  unfold Qcdiv.
  change (this (a * / s)) with (Qred (this a * Qred (/ this s))).
  now rewrite !Qred_correct.
Qed.

Lemma qsum_nonneg (qs : list Qc) (a : Qc) :
  (Q2Qc 0 <= a)%Qc -> Forall (fun q => (Q2Qc 0 < q)%Qc) qs ->
  (a <= fold_left Qcplus qs a)%Qc.
Proof.
  intros Ha Hq. revert a Ha.
  induction Hq as [|q qs Hq _ IH]; intros a Ha; simpl.
  - apply Qcle_refl.
  - assert (Haq : (a <= a + q)%Qc).
    { unfold Qcle, Qclt in *. rewrite Qc_this_add.
      change (this (Q2Qc 0)) with 0%Q in *. lra. }
    eapply Qcle_trans; [exact Haq|]. apply IH.
    eapply Qcle_trans; [exact Ha|exact Haq].
Qed.

(** A member of a list of positive numbers is at most their sum. *)
Lemma member_le_qsum (qs : list Qc) (i : nat) (a : Qc) :
  (Q2Qc 0 <= a)%Qc -> Forall (fun q => (Q2Qc 0 < q)%Qc) qs ->
  i < length qs ->
  (nth i qs (Q2Qc 0) <= fold_left Qcplus qs a)%Qc.
Proof.
  intros Ha Hq. revert a i Ha.
  induction Hq as [|q qs Hq Hqs IH]; intros a i Ha Hi; simpl in *; [lia|].
  assert (Haq : (Q2Qc 0 <= a + q)%Qc /\ (q <= a + q)%Qc).
  { unfold Qcle, Qclt in *. rewrite !Qc_this_add.
    change (this (Q2Qc 0)) with 0%Q in *. lra. }
  destruct i as [|i].
  - eapply Qcle_trans; [exact (proj2 Haq)|].
    apply qsum_nonneg; tauto.
  - apply IH; [tauto|lia].
Qed.

(** A positive number over a sum that contains it is in (0, 1]. *)
Lemma ratio_unit (e s : Qc) :
  (Q2Qc 0 < e)%Qc -> (e <= s)%Qc ->
  (Q2Qc 0 < e / s)%Qc /\ (e / s <= Q2Qc 1)%Qc.
Proof.
  unfold Qclt, Qcle. rewrite Qc_this_div.
  change (this (Q2Qc 0)) with 0%Q. change (this (Q2Qc 1)) with 1%Q.
  intros He Hs. split.
  - apply Qlt_shift_div_l; lra.
  - apply Qle_shift_div_r; lra.
Qed.

Section SoftmaxEntries.

Variable exp : fval -> fval.
Hypothesis exp_pos : exp_positive exp.

(** A column of the softmax is the column of exponentials over its sum. *)
Lemma softmax_column (M : mat) (c j : nat) :
  M <> [] -> Forall (fun r => length r = c) M -> j < c ->
  column j (softmax_dim1 exp M)
  = map (fun a => fdiv a (vsum (column j (map (map exp) M))))
        (column j (map (map exp) M)).
Proof.
  intros Hne Hc Hj. unfold softmax_dim1.
  set (E := map (map exp) M) in *.
  assert (HcE : Forall (fun r => length r = c) E).
  { subst E. apply Forall_map. eapply Forall_impl; [|exact Hc].
    intros r Hr. now rewrite length_map. }
  assert (Hnc : ncols E = c).
  { subst E. destruct M as [|r M]; [congruence|].
    inversion HcE; subst. reflexivity. }
  rewrite Hnc.
  set (total := map (fun k => vsum (column k E)) (seq 0 c)).
  unfold column. rewrite !map_map. apply map_ext_in. intros r Hr.
  rewrite Forall_forall in HcE.
  rewrite (nth_map2 fdiv r total j f0 f0 f0).
  - f_equal. subst total.
    rewrite (nth_indep _ f0 (vsum (column 0 E)))
      by (rewrite length_map, length_seq; exact Hj).
    rewrite map_nth with (d := 0) (f := fun k => vsum (column k E)).
    now rewrite seq_nth.
  - rewrite (HcE r Hr). exact Hj.
  - subst total. rewrite length_map, length_seq. exact Hj.
Qed.

(** Every entry of the softmax of a finite matrix is a number in (0, 1]. *)
Lemma softmax_entry (M : mat) (r c i j : nat) :
  fin_mat M -> is_mat r c M -> i < r -> j < c ->
  exists q,
    nth j (nth i (softmax_dim1 exp M) []) f0 = Fin q /\
    (Q2Qc 0 < q)%Qc /\ (q <= Q2Qc 1)%Qc.
Proof.
  intros Hf [Hl Hc] Hi Hj.
  assert (Hne : M <> []) by (intros ->; simpl in Hl; lia).
  destruct (exp_column exp exp_pos M j c Hf Hc Hj) as (qs & Hqs & Hpos & Hlen).
  pose proof (softmax_column M c j Hne Hc Hj) as Hcol.
  rewrite Hqs in Hcol.
  assert (Hs : (Q2Qc 0 < fold_left Qcplus qs (Q2Qc 0))%Qc).
  { apply qsum_pos; auto; [apply Qcle_refl|].
    destruct qs; [|discriminate]. simpl in Hlen. llia. }
  assert (Hent : nth i (column j (softmax_dim1 exp M)) f0
                 = nth j (nth i (softmax_dim1 exp M) []) f0).
  { unfold column.
    rewrite (nth_indep _ f0 (nth j [] f0)).
    - now rewrite (map_nth (fun r0 => nth j r0 f0)).
    - rewrite length_map. unfold softmax_dim1. rewrite !length_map. llia. }
  rewrite <- Hent, Hcol, vsum_Fin, map_map.
  rewrite (nth_indep _ f0
             (fdiv (Fin (Q2Qc 0)) (Fin (fold_left Qcplus qs (Q2Qc 0)))))
    by (rewrite length_map; llia).
  rewrite (map_nth (fun q => fdiv (Fin q) (Fin _))).
  cbn [fdiv]. rewrite (sgn_pos _ Hs).
  eexists. split; [reflexivity|].
  apply ratio_unit.
  - rewrite Forall_forall in Hpos. apply Hpos. apply nth_In. llia.
  - apply member_le_qsum; auto; [apply Qcle_refl|llia].
Qed.

End SoftmaxEntries.

(** On finite inputs every entry of the spatial and of the temporal
    attention is a finite number greater than 0 and at most 1. *)
Theorem attention_weights_in_unit_interval (sigmoid exp : fval -> fval)
  (ps : SpatialAttention) (pt : TemporalAttention) (X : tensor4)
  (b n f t : nat) :
  exp_positive exp -> sigmoid_finite sigmoid ->
  is_tensor4 b n f t X -> fin_tensor4 X ->
  0 < n -> 0 < f -> 0 < t ->
  shape_spatial n f t ps -> fin_spatial ps ->
  shape_temporal n f t pt -> fin_temporal pt ->
  (forall k i j, k < b -> i < n -> j < n ->
     exists q,
       nth j (nth i (nth k (SpatialAttention_forward sigmoid exp ps X) [])
                [])
           f0 = Fin q /\
       (Q2Qc 0 < q)%Qc /\ (q <= Q2Qc 1)%Qc) /\
  (forall k i j, k < b -> i < t -> j < t ->
     exists q,
       nth j (nth i (nth k (TemporalAttention_forward sigmoid exp pt X) [])
                [])
           f0 = Fin q /\
       (Q2Qc 0 < q)%Qc /\ (q <= Q2Qc 1)%Qc).
Proof.
  intros Hexp Hsig HX HfX Hn Hf Ht Hss Hfs Hst Hft.
  unfold SpatialAttention_forward, TemporalAttention_forward. split.
  - intros k i j Hk Hi Hj.
    pose proof (spatial_scores_shape sigmoid ps X b n f t HX Hss Hn Hf Ht)
      as [Hl Hs].
    pose proof (spatial_scores_fin sigmoid Hsig ps X Hfs HfX) as Hfin.
    change (@nil vec) with (softmax_dim1 exp []) at 1. rewrite map_nth.
    assert (Hin : In (nth k (SpatialAttention_scores sigmoid ps X) [])
                     (SpatialAttention_scores sigmoid ps X))
      by (apply nth_In; llia).
    rewrite Forall_forall in Hs. unfold fin_tensor3 in Hfin.
    rewrite Forall_forall in Hfin.
    apply (softmax_entry exp Hexp _ n n); auto.
  - intros k i j Hk Hi Hj.
    pose proof (temporal_scores_shape sigmoid pt X b n f t HX Hst Hn Hf Ht)
      as [Hl Hs].
    pose proof (temporal_scores_fin sigmoid Hsig pt X Hft HfX) as Hfin.
    change (@nil vec) with (softmax_dim1 exp []) at 1. rewrite map_nth.
    assert (Hin : In (nth k (TemporalAttention_scores sigmoid pt X) [])
                     (TemporalAttention_scores sigmoid pt X))
      by (apply nth_In; llia).
    rewrite Forall_forall in Hs. unfold fin_tensor3 in Hfin.
    rewrite Forall_forall in Hfin.
    apply (softmax_entry exp Hexp _ t t); auto.
Qed.

Lemma attention_weights_in_unit_interval_witness :
  (forall k i j, k < 1 -> i < 2 -> j < 2 ->
     exists q,
       nth j (nth i (nth k (SpatialAttention_forward sigmoid_approx
                              exp_approx ex_spatial ex_X) []) [])
           f0 = Fin q /\
       (Q2Qc 0 < q)%Qc /\ (q <= Q2Qc 1)%Qc) /\
  (forall k i j, k < 1 -> i < 2 -> j < 2 ->
     exists q,
       nth j (nth i (nth k (TemporalAttention_forward sigmoid_approx
                              exp_approx ex_temporal ex_X) []) [])
           f0 = Fin q /\
       (Q2Qc 0 < q)%Qc /\ (q <= Q2Qc 1)%Qc).
Proof.
  apply (attention_weights_in_unit_interval sigmoid_approx exp_approx
           ex_spatial ex_temporal ex_X 1 2 1 2).
  - exact exp_approx_positive.
  - exact sigmoid_approx_finite.
  - split; [reflexivity|]. repeat constructor.
  - repeat constructor.
  - lia.
  - lia.
  - lia.
  - repeat split; repeat constructor.
  - repeat split; repeat constructor.
  - repeat split; repeat constructor.
  - repeat split; repeat constructor.
Defined.
(** ** Shapes of permutations and convolutions *)

Lemma is_mat_hd (n m : nat) (a : mat) :
  is_mat n m a -> 0 < n -> length (hd [] a) = m.
Proof.
  intros [Hl Hr] Hn. destruct a as [|r a]; simpl in *; [lia|].
  now inversion Hr.
Qed.

Lemma is_tensor3_hd (b n m : nat) (x : tensor3) :
  is_tensor3 b n m x -> 0 < b -> is_mat n m (hd [] x).
Proof.
  intros [Hl Hx] Hb. destruct x as [|a x]; simpl in *; [lia|].
  now inversion Hx.
Qed.

Lemma is_tensor4_hd (b n f t : nat) (X : tensor4) :
  is_tensor4 b n f t X -> 0 < b -> is_tensor3 n f t (hd [] X).
Proof.
  intros [Hl Hx] Hb. destruct X as [|a x]; simpl in *; [lia|].
  now inversion Hx.
Qed.

(** [permute(2, 1, 0)] turns the shape (a, b, c) into (c, b, a). *)
Lemma permute_210_shape (a b c : nat) (x : tensor3) :
  is_tensor3 a b c x -> 0 < a -> 0 < b ->
  is_tensor3 c b a (permute_210 x).
Proof.
  intros Hx Ha Hb. unfold permute_210.
  pose proof (is_tensor3_hd a b c x Hx Ha) as Hm.
  rewrite (is_mat_hd b c _ Hm Hb), (proj1 Hm).
  split; [now rewrite length_map, length_seq|].
  apply Forall_map, Forall_forall. intros k _.
  split; [now rewrite length_map, length_seq|].
  apply Forall_map, Forall_forall. intros j _.
  rewrite length_map. apply Hx.
Qed.

(** The shape of what [Conv2d] returns. *)
Lemma conv2d_one_shape (cv : Conv2d) (x y : tensor3) (o : nat) :
  conv2d_one cv x = Ok y ->
  length (cv_weight cv) = o -> length (cv_bias cv) = o ->
  is_tensor3 o
    (out_size (nrows (hd [] x)) (fst (cv_kernel_size cv))
              (fst (cv_stride cv)) (fst (cv_padding cv)))
    (out_size (ncols (hd [] x)) (snd (cv_kernel_size cv))
              (snd (cv_stride cv)) (snd (cv_padding cv)))
    y.
Proof.
  unfold conv2d_one.
  destruct (cv_kernel_size cv) as [kh kw], (cv_stride cv) as [sh sw],
           (cv_padding cv) as [ph pw].
  destruct (_ || _); [discriminate|]. intros [= <-] Hw Hb. cbn [fst snd].
  split; [rewrite map2_length; llia|].
  apply map2_Forall. intros wo bo _.
  split; [now rewrite length_map, length_seq|].
  apply Forall_map, Forall_forall. intros i _.
  now rewrite length_map, length_seq.
Qed.

(** [Conv2d] raises exactly when the kernel is larger than the padded
    input or a stride is zero. *)
Lemma conv2d_one_ok (cv : Conv2d) (x : tensor3) :
  fst (cv_kernel_size cv) <= nrows (hd [] x) + 2 * fst (cv_padding cv) ->
  snd (cv_kernel_size cv) <= ncols (hd [] x) + 2 * snd (cv_padding cv) ->
  0 < fst (cv_stride cv) -> 0 < snd (cv_stride cv) ->
  exists y, conv2d_one cv x = Ok y.
Proof.
  unfold conv2d_one.
  destruct (cv_kernel_size cv) as [kh kw], (cv_stride cv) as [sh sw],
           (cv_padding cv) as [ph pw]. cbn [fst snd].
  intros H1 H2 H3 H4.
  replace (_ <? kh) with false by (symmetry; apply Nat.ltb_ge; lia).
  replace (_ <? kw) with false by (symmetry; apply Nat.ltb_ge; lia).
  replace (sh =? 0) with false by (symmetry; apply Nat.eqb_neq; lia).
  replace (sw =? 0) with false by (symmetry; apply Nat.eqb_neq; lia).
  cbn [orb]. eauto.
Qed.

Lemma conv2d_one_raises (cv : Conv2d) (x : tensor3) :
  nrows (hd [] x) + 2 * fst (cv_padding cv) < fst (cv_kernel_size cv) \/
  ncols (hd [] x) + 2 * snd (cv_padding cv) < snd (cv_kernel_size cv) \/
  fst (cv_stride cv) = 0 \/ snd (cv_stride cv) = 0 ->
  conv2d_one cv x = Raise RuntimeError.
Proof.
  unfold conv2d_one.
  destruct (cv_kernel_size cv) as [kh kw], (cv_stride cv) as [sh sw],
           (cv_padding cv) as [ph pw]. cbn [fst snd].
  intros H.
  assert (Hc : (nrows (hd [] x) + 2 * ph <? kh)
               || (ncols (hd [] x) + 2 * pw <? kw)
               || (sh =? 0) || (sw =? 0) = true).
  { rewrite !orb_true_iff, !Nat.ltb_lt, !Nat.eqb_eq. tauto. }
  now rewrite Hc.
Qed.

(** A batch of convolutions: all succeed, with one shape. *)
Lemma conv2d_shape (cv : Conv2d) (X : tensor4) (b c h w o : nat) :
  is_tensor4 b c h w X -> 0 < c -> 0 < h ->
  length (cv_weight cv) = o -> length (cv_bias cv) = o ->
  fst (cv_kernel_size cv) <= h + 2 * fst (cv_padding cv) ->
  snd (cv_kernel_size cv) <= w + 2 * snd (cv_padding cv) ->
  0 < fst (cv_stride cv) -> 0 < snd (cv_stride cv) ->
  exists Y,
    conv2d cv X = Ok Y /\
    is_tensor4 b o
      (out_size h (fst (cv_kernel_size cv)) (fst (cv_stride cv))
                (fst (cv_padding cv)))
      (out_size w (snd (cv_kernel_size cv)) (snd (cv_stride cv))
                (snd (cv_padding cv)))
      Y.
Proof.
  intros [Hl HX] Hc Hh Hwl Hbl H1 H2 H3 H4. unfold conv2d. subst b.
  induction HX as [|x X Hx _ IH]; simpl.
  - exists []. split; [reflexivity|]. split; [reflexivity|constructor].
  - pose proof (is_tensor3_hd c h w x Hx Hc) as Hm.
    assert (Hr : nrows (hd [] x) = h) by apply Hm.
    assert (Hcw : ncols (hd [] x) = w) by exact (is_mat_hd h w _ Hm Hh).
    destruct (conv2d_one_ok cv x) as (y & Hy); rewrite ?Hr, ?Hcw; auto.
    pose proof (conv2d_one_shape cv x y o Hy Hwl Hbl) as Hys.
    rewrite Hr, Hcw in Hys.
    destruct IH as (Y & HY & HYl & HYs).
    rewrite Hy, HY. simpl. eexists. split; [reflexivity|].
    split; [simpl; now rewrite HYl|]. now constructor.
Qed.

(** ** The gated temporal convolution *)

Lemma hadamard_shape (n m : nat) (a b : mat) :
  is_mat n m a -> is_mat n m b -> is_mat n m (hadamard a b).
Proof.
  intros [Hal Ha] [Hbl Hb]. unfold hadamard. split.
  - rewrite map2_length. llia.
  - apply map2_Forall. intros r r' Hin. rewrite map2_length.
    rewrite Forall_forall in Ha, Hb.
    rewrite (Ha r (in_combine_l _ _ _ _ Hin)),
            (Hb r' (in_combine_r _ _ _ _ Hin)). lia.
Qed.

Lemma map2_shape {A} (P : A -> Prop) (f : A -> A -> A) (b : nat)
  (X Y : list A) :
  (forall x y, P x -> P y -> P (f x y)) ->
  length X = b -> Forall P X -> length Y = b -> Forall P Y ->
  length (map2 f X Y) = b /\ Forall P (map2 f X Y).
Proof.
  intros Hf HXl HX HYl HY. split; [rewrite map2_length; lia|].
  apply map2_Forall. intros x y Hin. rewrite Forall_forall in HX, HY.
  apply Hf; [apply HX; exact (in_combine_l _ _ _ _ Hin)
            |apply HY; exact (in_combine_r _ _ _ _ Hin)].
Qed.

Lemma gate_shape (b o n t : nat) (P Q : tensor4) :
  is_tensor4 b o n t P -> is_tensor4 b o n t Q ->
  is_tensor4 b o n t (map2 (map2 hadamard) P Q).
Proof.
  intros [HPl HP] [HQl HQ].
  apply (map2_shape (is_tensor3 o n t)); auto.
  intros x y [Hxl Hx] [Hyl Hy].
  apply (map2_shape (is_mat n t)); auto. apply hadamard_shape.
Qed.

Lemma tadd4_shape (b o n t : nat) (P Q : tensor4) :
  is_tensor4 b o n t P -> is_tensor4 b o n t Q ->
  is_tensor4 b o n t (tadd4 P Q).
Proof.
  intros [HPl HP] [HQl HQ].
  apply (map2_shape (is_tensor3 o n t)); auto. apply tadd_shape.
Qed.

Lemma map4_shape (g : fval -> fval) (b o n t : nat) (X : tensor4) :
  is_tensor4 b o n t X -> is_tensor4 b o n t (map (map (map (map g))) X).
Proof.
  intros [Hl HX]. split; [now rewrite length_map|].
  apply Forall_map. eapply Forall_impl; [|exact HX].
  intros x [Hxl Hx]. split; [now rewrite length_map|].
  apply Forall_map. eapply Forall_impl; [|exact Hx].
  intros m [Hml Hm]. split; [now rewrite length_map|].
  apply Forall_map. eapply Forall_impl; [|exact Hm].
  intros r Hr. now rewrite length_map.
Qed.

Lemma permute_210_batch (b a n c : nat) (X : tensor4) :
  is_tensor4 b a n c X -> 0 < a -> 0 < n ->
  is_tensor4 b c n a (map permute_210 X).
Proof.
  intros [Hl HX] Ha Hn. split; [now rewrite length_map|].
  apply Forall_map. eapply Forall_impl; [|exact HX].
  intros x Hx. now apply permute_210_shape.
Qed.

Section GatedConv.

Variable sigmoid : fval -> fval.

(** The shape of what the gated convolution returns. *)
Lemma TemporalConv_forward_shape (k : nat) (w1 w2 w3 : list (list mat))
  (b1 b2 b3 : vec) (X : tensor4) (b t n c o : nat) :
  is_tensor4 b t n c X ->
  is_kernel o c 1 k w1 -> is_kernel o c 1 k w2 -> is_kernel o c 1 k w3 ->
  length b1 = o -> length b2 = o -> length b3 = o ->
  0 < k -> k <= t -> 0 < n -> 0 < c -> 0 < o ->
  exists H,
    TemporalConv_forward sigmoid (TemporalConv_init k w1 w2 w3 b1 b2 b3) X
    = Ok H /\
    is_tensor4 b (t - k + 1) n o H.
Proof.
  intros HX [Hw1 _] [Hw2 _] [Hw3 _] Hb1 Hb2 Hb3 Hk Hkt Hn Hc Ho.
  assert (Ht : 0 < t) by lia.
  pose proof (permute_210_batch b t n c X HX Ht Hn) as HXp.
  assert (Hconv : forall w bias, length w = o -> length bias = o ->
            exists Y, conv2d (conv_1xk w bias k) (map permute_210 X) = Ok Y
                      /\ is_tensor4 b o n (t - k + 1) Y).
  { intros w bias Hwl Hbl.
    destruct (conv2d_shape (conv_1xk w bias k) (map permute_210 X)
                b c n t o HXp Hc Hn Hwl Hbl) as (Y & HY & HYs);
      cbn [conv_1xk cv_kernel_size cv_stride cv_padding fst snd]; try lia.
    exists Y. split; [exact HY|].
    cbn [conv_1xk cv_kernel_size cv_stride cv_padding fst snd] in HYs.
    unfold out_size in HYs.
    replace ((n + 2 * 0 - 1) / 1 + 1) with n in HYs
      by (rewrite Nat.div_1_r; lia).
    replace ((t + 2 * 0 - k) / 1 + 1) with (t - k + 1) in HYs
      by (rewrite Nat.div_1_r; lia).
    exact HYs. }
  destruct (Hconv w1 b1 Hw1 Hb1) as (P & HP & HPs).
  destruct (Hconv w2 b2 Hw2 Hb2) as (Q & HQ & HQs).
  destruct (Hconv w3 b3 Hw3 Hb3) as (R & HR & HRs).
  assert (Hrun : TemporalConv_forward sigmoid
                   (TemporalConv_init k w1 w2 w3 b1 b2 b3) X
                 = Ok (map permute_210
                         (relu4 (tadd4 (map2 (map2 hadamard) P
                                          (map (map (map (map sigmoid))) Q))
                                       R)))).
  { unfold TemporalConv_forward, TemporalConv_init.
    cbn [conv_1 conv_2 conv_3]. now rewrite HP, HQ, HR. }
  eexists. split; [exact Hrun|].
  apply permute_210_batch; auto. unfold relu4. apply map4_shape.
  apply tadd4_shape; [|exact HRs].
  apply gate_shape; [exact HPs|]. now apply map4_shape.
Qed.

(** A [TemporalConv] with kernel width [k] and [o] output channels turns an
    input of shape (b, t, n, c) with [k <= t] into an output of shape
    (b, t - k + 1, n, o), as the note in the docstring of [STGCN] says, and
    no entry of the output is negative. *)
Theorem TemporalConv_output (k : nat) (w1 w2 w3 : list (list mat))
  (b1 b2 b3 : vec) (X : tensor4) (b t n c o : nat) :
  is_tensor4 b t n c X ->
  is_kernel o c 1 k w1 -> is_kernel o c 1 k w2 -> is_kernel o c 1 k w3 ->
  length b1 = o -> length b2 = o -> length b3 = o ->
  0 < k -> k <= t -> 0 < n -> 0 < c -> 0 < o ->
  exists H,
    TemporalConv_forward sigmoid (TemporalConv_init k w1 w2 w3 b1 b2 b3) X
    = Ok H /\
    is_tensor4 b (t - k + 1) n o H /\
    all4 rectified H.
Proof.
  intros HX Hw1 Hw2 Hw3 Hb1 Hb2 Hb3 Hk Hkt Hn Hc Ho.
  destruct (TemporalConv_forward_shape k w1 w2 w3 b1 b2 b3 X b t n c o)
    as (H & Hrun & Hs); auto.
  exists H. split; [exact Hrun|]. split; [exact Hs|].
  exact (TemporalConv_rectified sigmoid _ X _ Hrun).
Qed.

(** The first convolution raises on a short input. *)
Lemma TemporalConv_forward_short (k : nat) (w1 w2 w3 : list (list mat))
  (b1 b2 b3 : vec) (X : tensor4) (b t n c : nat) :
  is_tensor4 b t n c X -> 0 < b -> 0 < t -> 0 < n -> 0 < c -> t < k ->
  TemporalConv_forward sigmoid (TemporalConv_init k w1 w2 w3 b1 b2 b3) X
  = Raise RuntimeError.
Proof.
  intros HX Hb Ht Hn Hc Hk.
  pose proof (permute_210_batch b t n c X HX Ht Hn) as [Hl HXp].
  unfold TemporalConv_forward, TemporalConv_init. cbn [conv_1].
  destruct (map permute_210 X) as [|x Xs]; [simpl in Hl; lia|].
  inversion HXp as [|? ? Hx _]; subst.
  pose proof (is_tensor3_hd c n t x Hx Hc) as Hm.
  unfold conv2d. cbn [mapM]. rewrite conv2d_one_raises; [reflexivity|].
  cbn [conv_1xk cv_kernel_size cv_stride cv_padding fst snd].
  right. left. unfold ncols. rewrite (is_mat_hd n t _ Hm Hn). lia.
Qed.

(** An input with fewer time steps than the kernel is wide makes
    [TemporalConv] raise the [RuntimeError] of the convolution. *)
Theorem TemporalConv_short_input (k : nat) (w1 w2 w3 : list (list mat))
  (b1 b2 b3 : vec) (X : tensor4) (b t n c : nat) :
  is_tensor4 b t n c X -> 0 < b -> 0 < t -> 0 < n -> 0 < c -> t < k ->
  TemporalConv_forward sigmoid (TemporalConv_init k w1 w2 w3 b1 b2 b3) X
  = Raise RuntimeError.
Proof.
  intros HX Hb Ht Hn Hc Hk.
  exact (TemporalConv_forward_short k w1 w2 w3 b1 b2 b3 X b t n c
           HX Hb Ht Hn Hc Hk).
Qed.

End GatedConv.

Lemma TemporalConv_output_witness :
  exists H,
    TemporalConv_forward sigmoid_approx
      (TemporalConv_init 3 ex_kernel ex_kernel ex_kernel
                         [num 0] [num 0] [num 1]) ex_seq
    = Ok H /\
    is_tensor4 1 (4 - 3 + 1) 1 1 H /\
    all4 rectified H.
Proof.
  apply (TemporalConv_output sigmoid_approx 3 ex_kernel ex_kernel ex_kernel
           [num 0] [num 0] [num 1] ex_seq 1 4 1 1 1);
    try (split; [reflexivity|]; repeat constructor);
    try reflexivity; try lia.
Defined.

Lemma TemporalConv_short_input_witness :
  TemporalConv_forward sigmoid_approx
    (TemporalConv_init 5 ex_kernel ex_kernel ex_kernel
                       [num 0] [num 0] [num 1]) ex_seq
  = Raise RuntimeError.
Proof.
  apply (TemporalConv_short_input sigmoid_approx 5 ex_kernel ex_kernel
           ex_kernel [num 0] [num 0] [num 1] ex_seq 1 4 1 1);
    try (split; [reflexivity|]; repeat constructor); lia.
Defined.

(** The gated convolution on the small sequence: [P = (-2, -7)],
    [Q = sigmoid(P)], [R = P + 1], and [relu(P * Q + R)] is zero at both
    output steps. *)
Example TemporalConv_run :
  TemporalConv_forward sigmoid_approx ex_tconv ex_seq
  = Ok [[[[num 0]]; [[num 0]]]].
Proof. eval_eq. Qed.
(** ** The edge lists of an ASTGCNBlock *)

Lemma mapM_raises {A B} (f : A -> res B) (l : list A) (a : A) :
  In a l -> (exists e, f a = Raise e) -> exists e, mapM f l = Raise e.
Proof.
  intros Hin (e & He). induction l as [|x l IH]; [contradiction|].
  simpl. destruct Hin as [->|Hin].
  - rewrite He. simpl. eauto.
  - destruct (f x); simpl; [|eauto].
    destruct (IH Hin) as (e' & ->). simpl. eauto.
Qed.

Lemma index_repeat {A} (a : A) (n t : nat) :
  t < n -> index (repeat a n) t = Ok a.
Proof.
  intros H. rewrite (index_ok a) by now rewrite repeat_length.
  f_equal. now apply nth_repeat_lt.
Qed.

Lemma index_firstn {A} (l : list A) (n t : nat) :
  t < n -> index (firstn n l) t = index l t.
Proof.
  intros H. unfold index. revert n t H.
  induction l as [|a l IH]; intros [|n] [|t] H; simpl; try lia; auto.
  apply IH. lia.
Qed.

Section BlockEdges.

Variable pow_neg_half : fval -> fval.
Variable sigmoid : fval -> fval.
Variable exp : fval -> fval.
Variable laplacian_lambda_max : edges -> nat -> fval.
Variable layer_norm : vec -> vec.

(** Two lists of edge lists that agree on the time steps of the input give
    the same result. *)
Lemma block_dynamic_ext (self : ASTGCNBlock) (X : tensor4)
  (es es' : list edges) :
  (forall t, t < length (hd [] (hd [] (hd [] X))) ->
             index es t = index es' t) ->
  ASTGCNBlock_forward pow_neg_half sigmoid exp laplacian_lambda_max
    layer_norm self X (Dynamic es)
  = ASTGCNBlock_forward pow_neg_half sigmoid exp laplacian_lambda_max
      layer_norm self X (Dynamic es').
Proof.
  intros H. unfold ASTGCNBlock_forward, block_X_hat. do 2 f_equal.
  apply mapM_ext. apply Forall_forall. intros t Ht. apply in_seq in Ht.
  rewrite H by lia. reflexivity.
Qed.


(** A block with a list of edge lists reads the entries [0 .. T - 1] of
    the list, for the [T] time steps of the input: later entries are
    ignored, and a list with fewer than [T] entries makes the block
    raise. *)
Theorem block_dynamic_edge_lists (self : ASTGCNBlock) (X : tensor4)
  (es : list edges) :
  ASTGCNBlock_forward pow_neg_half sigmoid exp laplacian_lambda_max
    layer_norm self X
    (Dynamic (firstn (length (hd [] (hd [] (hd [] X)))) es))
  = ASTGCNBlock_forward pow_neg_half sigmoid exp laplacian_lambda_max
      layer_norm self X (Dynamic es) /\
  (length es < length (hd [] (hd [] (hd [] X))) ->
   exists err,
     ASTGCNBlock_forward pow_neg_half sigmoid exp laplacian_lambda_max
       layer_norm self X (Dynamic es) = Raise err).
Proof.
  split.
  - apply block_dynamic_ext. intros t Ht. now apply index_firstn.
  - intros Hlen. unfold ASTGCNBlock_forward, block_X_hat.
    match goal with
    | |- context [mapM ?f ?l] =>
        destruct (mapM_raises f l (length es)) as (err & ->)
    end.
    + apply in_seq. lia.
    + exists IndexError. unfold index.
      replace (nth_error es (length es)) with (@None edges); [reflexivity|].
      symmetry. apply nth_error_None. lia.
    + simpl. eauto.
Qed.

End BlockEdges.

Lemma block_dynamic_edge_lists_witness :
  exists err,
    ASTGCNBlock_forward pow_neg_half_approx sigmoid_approx exp_approx
      (fun _ _ => f2) (fun v => v) ex_block ex_X (Dynamic [ex_edges])
    = Raise err.
Proof.
  apply (block_dynamic_edge_lists pow_neg_half_approx sigmoid_approx
           exp_approx (fun _ _ => f2) (fun v => v) ex_block ex_X
           [ex_edges]).
  simpl. lia.
Defined.
(** ** Shapes inside an ASTGCNBlock *)

Lemma select_last_shape (b n f T t : nat) (X : tensor4) :
  is_tensor4 b n f T X -> is_tensor3 b n f (select_last t X).
Proof.
  intros [Hl HX]. unfold select_last. split; [now rewrite length_map|].
  apply Forall_map. eapply Forall_impl; [|exact HX].
  intros x [Hxl Hx]. split; [now rewrite length_map|].
  apply Forall_map. eapply Forall_impl; [|exact Hx].
  intros m [Hml _]. now rewrite length_map.
Qed.

Lemma size_feat_shape (b n f : nat) (x : tensor3) :
  is_tensor3 b n f x -> 0 < b -> 0 < n -> size_feat x = f.
Proof.
  intros Hx Hb Hn. unfold size_feat, ncols.
  exact (is_mat_hd n f _ (is_tensor3_hd b n f x Hx Hb) Hn).
Qed.

(** Stacking [T] tensors of shape (b, n, c) along a new last axis. *)
Lemma stack_last_shape (b n c T : nat) (outs : list tensor3) :
  length outs = T -> Forall (is_tensor3 b n c) outs ->
  0 < T -> 0 < b -> 0 < n ->
  is_tensor4 b n c T (stack_last outs).
Proof.
  intros Hl Ho HT Hb Hn. unfold stack_last.
  assert (H0 : is_tensor3 b n c (hd [] outs)).
  { destruct outs as [|o0 outs]; simpl in *; [lia|]. now inversion Ho. }
  rewrite (size_node_shape b n c _ H0 Hb), (size_feat_shape b n c _ H0 Hb Hn),
    (proj1 H0).
  split; [now rewrite length_map, length_seq|].
  apply Forall_map, Forall_forall. intros k _.
  split; [now rewrite length_map, length_seq|].
  apply Forall_map, Forall_forall. intros i _.
  split; [now rewrite length_map, length_seq|].
  apply Forall_map, Forall_forall. intros j _.
  now rewrite length_map.
Qed.

(** [permute(1, 0, 2)] turns the shape (n, c, t) into (c, n, t). *)
Lemma swap01_shape (n c t : nat) (x : tensor3) :
  is_tensor3 n c t x -> 0 < n -> is_tensor3 c n t (swap01 x).
Proof.
  intros Hx Hn. unfold swap01.
  rewrite (proj1 (is_tensor3_hd n c t x Hx Hn)).
  split; [now rewrite length_map, length_seq|].
  apply Forall_map, Forall_forall. intros k Hk. apply in_seq in Hk.
  destruct Hx as [Hl Hx].
  split; [now rewrite length_map|].
  apply Forall_map. eapply Forall_impl; [|exact Hx].
  intros m [Hml Hm]. rewrite Forall_forall in Hm. apply Hm.
  apply nth_In. llia.
Qed.

Lemma swap01_batch (b n c t : nat) (X : tensor4) :
  is_tensor4 b n c t X -> 0 < n -> is_tensor4 b c n t (map swap01 X).
Proof.
  intros [Hl HX] Hn. split; [now rewrite length_map|].
  apply Forall_map. eapply Forall_impl; [|exact HX].
  intros x Hx. now apply swap01_shape.
Qed.

(** [permute(1, 2, 0)] turns the shape (t, n, c) into (n, c, t). *)
Lemma permute_120_shape (t n c : nat) (y : tensor3) :
  is_tensor3 t n c y -> 0 < t -> 0 < n -> is_tensor3 n c t (permute_120 y).
Proof.
  intros Hy Ht Hn. unfold permute_120.
  pose proof (is_tensor3_hd t n c y Hy Ht) as Hm.
  rewrite (is_mat_hd n c _ Hm Hn), (proj1 Hm).
  split; [now rewrite length_map, length_seq|].
  apply Forall_map, Forall_forall. intros i _.
  split; [now rewrite length_map, length_seq|].
  apply Forall_map, Forall_forall. intros j _.
  rewrite length_map. apply Hy.
Qed.

Lemma flatten01_shape (n f t : nat) (x : tensor3) :
  is_tensor3 n f t x -> is_mat (n * f) t (flatten01 x).
Proof.
  intros [Hl Hx]. unfold flatten01. subst n.
  induction Hx as [|m x [Hml Hm] _ IH]; simpl.
  - split; [reflexivity|constructor].
  - destruct IH as [IHl IHr]. split.
    + rewrite length_app. llia.
    + apply Forall_app. split; assumption.
Qed.

Lemma chunks_shape (n f t : nat) (m : mat) :
  is_mat (n * f) t m -> is_tensor3 n f t (chunks f n m).
Proof.
  revert m. induction n as [|n IH]; intros m [Hl Hm]; simpl.
  - split; [reflexivity|constructor].
  - destruct (IH (skipn f m)) as [IHl IHr].
    { split.
      - rewrite length_skipn. llia.
      - rewrite <- (firstn_skipn f m) in Hm.
        apply Forall_app in Hm. tauto. }
    split; [simpl; now rewrite IHl|].
    constructor; [|exact IHr]. split.
    + rewrite length_firstn. llia.
    + rewrite <- (firstn_skipn f m) in Hm.
      apply Forall_app in Hm. tauto.
Qed.

Lemma matmul_shape (r k c : nat) (a e : mat) :
  length a = r -> is_mat k c e -> 0 < k -> is_mat r c (matmul a e).
Proof.
  intros Ha He Hk. pose proof (matmul_is_mat a e) as H.
  now rewrite Ha, (ncols_is_mat_pos k c e He Hk) in H.
Qed.

Section BlockShapes.

Variable pow_neg_half : fval -> fval.
Variable sigmoid : fval -> fval.
Variable exp : fval -> fval.
Variable laplacian_lambda_max : edges -> nat -> fval.
Variable layer_norm : vec -> vec.

Hypothesis layer_norm_length : forall v, length (layer_norm v) = length v.

(** Steps (a) to (c): the spatial attention has shape (b, n, n). *)
Lemma block_attention_shape (self : ASTGCNBlock) (X : tensor4)
  (b n f t : nat) :
  is_tensor4 b n f t X ->
  shape_temporal n f t (_temporal_attention self) ->
  shape_spatial n f t (_spatial_attention self) ->
  0 < b -> 0 < n -> 0 < f -> 0 < t ->
  is_tensor3 b n n (block_attention sigmoid exp self X).
Proof.
  intros HX Hst Hss Hb Hn Hf Ht. unfold block_attention.
  pose proof (is_tensor4_hd b n f t X HX Hb) as Hx0.
  rewrite (proj1 Hx0), (proj1 (is_tensor3_hd n f t _ Hx0 Hn)).
  assert (HE : is_tensor3 b t t
                 (TemporalAttention_forward sigmoid exp
                    (_temporal_attention self) X)).
  { pose proof (temporal_scores_shape sigmoid _ X b n f t HX Hst Hn Hf Ht)
      as [Hl Hs].
    unfold TemporalAttention_forward. split; [now rewrite length_map|].
    apply Forall_map. eapply Forall_impl; [|exact Hs].
    intros M HM. now apply softmax_shape. }
  assert (HXt : is_tensor4 b n f t
                  (map (chunks f n)
                       (map2 matmul (map flatten01 X)
                             (TemporalAttention_forward sigmoid exp
                                (_temporal_attention self) X)))).
  { destruct HX as [HXl HXr], HE as [HEl HEr]. split.
    - rewrite length_map, map2_length, length_map. llia.
    - apply Forall_map. apply map2_Forall. intros m e Hin.
      pose proof (in_combine_l _ _ _ _ Hin) as Hm.
      pose proof (in_combine_r _ _ _ _ Hin) as He.
      apply in_map_iff in Hm. destruct Hm as (x & <- & Hx).
      rewrite Forall_forall in HXr, HEr.
      apply chunks_shape. apply (matmul_shape _ t).
      + apply (flatten01_shape n f t). now apply HXr.
      + now apply HEr.
      + exact Ht. }
  pose proof (spatial_scores_shape sigmoid _ _ b n f t HXt Hss Hn Hf Ht)
    as [Hl Hs].
  unfold SpatialAttention_forward. split; [now rewrite length_map|].
  apply Forall_map. eapply Forall_impl; [|exact Hs].
  intros M HM. now apply softmax_shape.
Qed.

Lemma mapM_all {A B} (P : B -> Prop) (f : A -> res B) (l : list A) :
  (forall a, In a l -> exists y, f a = Ok y /\ P y) ->
  exists ys, mapM f l = Ok ys /\ length ys = length l /\ Forall P ys.
Proof.
  induction l as [|a l IH]; intros H; simpl.
  - exists []. repeat split; constructor.
  - destruct (H a) as (y & -> & Hy); [now left|].
    destruct IH as (ys & -> & Hl & Hys).
    { intros a' Ha'. apply H. now right. }
    simpl. exists (y :: ys). repeat split; simpl; auto.
Qed.

Lemma valid_graph_edges (n t : nat) (g : graph_input) (k : nat) :
  valid_graph n t g -> k < t ->
  exists e,
    match g with
    | Static e => Ok e
    | Dynamic es => index es k
    end = Ok e /\ valid_edges n e.
Proof.
  destruct g as [e|es]; simpl.
  - intros Hv _. eauto.
  - intros [Hl Hv] Hk. exists (nth k es []). split.
    + apply index_ok. lia.
    + rewrite Forall_forall in Hv. apply Hv.
      rewrite <- (firstn_skipn t es) at 1.
      rewrite app_nth1 by (rewrite length_firstn; lia).
      apply nth_In. rewrite length_firstn. lia.
Qed.

(** Step (d): the rectified Chebyshev outputs have shape (b, n, c, t). *)
Lemma block_X_hat_shape (self : ASTGCNBlock) (X : tensor4)
  (g : graph_input) (b n f t K c o s : nat) (norm : normalization)
  (bias : bool) :
  built_ASTGCNBlock f K c o s n t norm bias self ->
  is_tensor4 b n f t X -> valid_graph n t g ->
  0 < b -> 0 < n -> 0 < f -> 0 < t ->
  exists X_hat,
    block_X_hat pow_neg_half sigmoid exp laplacian_lambda_max self X g
    = Ok X_hat /\
    is_tensor4 b n c t X_hat.
Proof.
  intros Hbuilt HX Hg Hb Hn Hf Ht. unfold block_X_hat.
  pose proof (is_tensor4_hd b n f t X HX Hb) as Hx0.
  pose proof (is_tensor3_hd n f t _ Hx0 Hn) as Hm0.
  rewrite (proj1 Hx0), (is_mat_hd f t _ Hm0 Hf).
  pose proof (block_attention_shape self X b n f t HX
                (built_temporal _ _ _ _ _ _ _ _ _ _ Hbuilt)
                (built_spatial _ _ _ _ _ _ _ _ _ _ Hbuilt)
                Hb Hn Hf Ht) as Hatt.
  destruct (built_weight _ _ _ _ _ _ _ _ _ _ Hbuilt) as [HWl HW].
  pose proof (built_K _ _ _ _ _ _ _ _ _ _ Hbuilt) as HK.
  pose proof (built_bias _ _ _ _ _ _ _ _ _ _ Hbuilt) as Hbias.
  pose proof (built_cheb_norm _ _ _ _ _ _ _ _ _ _ Hbuilt) as Hcn.
  pose proof (built_norm _ _ _ _ _ _ _ _ _ _ Hbuilt) as Hbn.
  match goal with
  | |- context [mapM ?step (seq 0 t)] =>
      destruct (mapM_all (is_tensor3 b n c) step (seq 0 t))
        as (outs & -> & Hlen & Houts)
  end.
  - intros k Hk. apply in_seq in Hk.
    destruct (valid_graph_edges n t g k Hg) as (e & -> & He); [lia|].
    cbn [bind].
    apply (forward_shape pow_neg_half _ _ e _ None None _ b n f c); auto.
    + split; auto.
      * now apply (select_last_shape b n f t).
      * intros bv Hbv. rewrite Hbv in Hbias. tauto.
    + intros E. rewrite E in HWl. simpl in HWl. lia.
    + rewrite Hcn, Hbn. unfold lam_given.
      destruct norm; simpl; auto; right; discriminate.
    + rewrite Hbn. destruct (is_sym norm); exact I.
    + exact I.
  - cbn [bind]. eexists. split; [reflexivity|].
    unfold relu4. apply map4_shape. rewrite length_seq in Hlen.
    now apply stack_last_shape.
Qed.

(** On an input of shape (b, n, f, t) and a valid graph, a block built for
    these sizes returns a tensor of shape (b, n, o, (t - 1) / s + 1),
    where [o] is the number of time filters and [s] the time stride. *)
Lemma block_forward_shape (self : ASTGCNBlock) (X : tensor4)
  (g : graph_input) (b n f t K c o s : nat) (norm : normalization)
  (bias : bool) :
  built_ASTGCNBlock f K c o s n t norm bias self ->
  is_tensor4 b n f t X -> valid_graph n t g ->
  0 < b -> 0 < n -> 0 < f -> 0 < t -> 0 < c -> 0 < o -> 0 < s ->
  exists Y,
    ASTGCNBlock_forward pow_neg_half sigmoid exp laplacian_lambda_max
                        layer_norm self X g = Ok Y /\
    is_tensor4 b n o ((t - 1) / s + 1) Y.
Proof.
  intros Hbuilt HX Hg Hb Hn Hf Ht Hc Ho Hs. unfold ASTGCNBlock_forward.
  destruct (block_X_hat_shape self X g b n f t K c o s norm bias)
    as (X_hat & -> & HXh); auto.
  cbn [bind]. unfold block_time_branch.
  destruct (built_time _ _ _ _ _ _ _ _ _ _ Hbuilt)
    as (tw & tb & -> & [Htw _] & Htb).
  destruct (built_residual _ _ _ _ _ _ _ _ _ _ Hbuilt)
    as (rw & rb & -> & [Hrw _] & Hrb).
  destruct (conv2d_shape (time_convolution tw tb s) (map swap01 X_hat)
              b c n t o) as (Yt & -> & HYt);
    cbn [time_convolution cv_weight cv_bias cv_kernel_size cv_stride
         cv_padding fst snd]; auto; try lia.
  { now apply swap01_batch. }
  destruct (conv2d_shape (residual_convolution rw rb s) (map swap01 X)
              b f n t o) as (Yr & -> & HYr);
    cbn [residual_convolution cv_weight cv_bias cv_kernel_size cv_stride
         cv_padding fst snd]; auto; try lia.
  { now apply swap01_batch. }
  cbn [bind]. eexists. split; [reflexivity|].
  cbn [time_convolution residual_convolution cv_weight cv_bias
       cv_kernel_size cv_stride cv_padding fst snd] in HYt, HYr.
  unfold out_size in HYt, HYr.
  replace ((n + 2 * 0 - 1) / 1 + 1) with n in HYt, HYr
    by (rewrite Nat.div_1_r; lia).
  replace (t + 2 * 1 - 3) with (t - 1) in HYt by lia.
  replace (t + 2 * 0 - 1) with (t - 1) in HYr by lia.
  set (T' := (t - 1) / s + 1) in *.
  assert (HT' : 0 < T') by (subst T'; lia).
  assert (Hsum : is_tensor4 b T' n o
                   (map permute_210 (relu4 (tadd4 Yr Yt)))).
  { apply permute_210_batch; auto. unfold relu4. apply map4_shape.
    now apply tadd4_shape. }
  destruct Hsum as [Hl Hsum].
  split; [rewrite length_map, length_map; exact Hl|].
  apply Forall_map, Forall_map. eapply Forall_impl; [|exact Hsum].
  intros y Hy. apply permute_120_shape; auto.
  destruct Hy as [Hyl Hy]. split; [now rewrite length_map|].
  apply Forall_map. eapply Forall_impl; [|exact Hy].
  intros m [Hml Hm]. split; [now rewrite length_map|].
  apply Forall_map. eapply Forall_impl; [|exact Hm].
  intros r Hr. now rewrite layer_norm_length.
Qed.

End BlockShapes.


Lemma ex_block_built :
  built_ASTGCNBlock 1 1 1 1 1 2 2 NormSym true ex_block.
Proof.
  split; cbn.
  - repeat split; repeat constructor.
  - repeat split; repeat constructor.
  - lia.
  - split; [reflexivity|]. repeat constructor.
  - split; reflexivity.
  - reflexivity.
  - exists [[[[num 0; num (-1); num 0]]]], [num 0].
    split; [reflexivity|]. split; [|reflexivity].
    split; [reflexivity|]. repeat constructor.
  - exists [[[[num 1]]]], [num 0].
    split; [reflexivity|]. split; [|reflexivity].
    split; [reflexivity|]. repeat constructor.
  - reflexivity.
Qed.

(** ** ASTGCN *)

(** [permute(2, 0, 1)] turns the shape (n, f, t) into (t, n, f). *)
Lemma permute_201_shape (n f t : nat) (x : tensor3) :
  is_tensor3 n f t x -> 0 < n -> 0 < f -> is_tensor3 t n f (permute_201 x).
Proof.
  intros Hx Hn Hf. unfold permute_201.
  pose proof (is_tensor3_hd n f t x Hx Hn) as Hm.
  rewrite (is_mat_hd f t _ Hm Hf).
  split; [now rewrite length_map, length_seq|].
  apply Forall_map, Forall_forall. intros k _.
  destruct Hx as [Hl Hx]. split; [now rewrite length_map|].
  apply Forall_map. eapply Forall_impl; [|exact Hx].
  intros m [Hml _]. now rewrite length_map.
Qed.

Lemma permute_201_batch (b n f t : nat) (X : tensor4) :
  is_tensor4 b n f t X -> 0 < n -> 0 < f ->
  is_tensor4 b t n f (map permute_201 X).
Proof.
  intros [Hl HX] Hn Hf. split; [now rewrite length_map|].
  apply Forall_map. eapply Forall_impl; [|exact HX].
  intros x Hx. now apply permute_201_shape.
Qed.

(** When the stride divides the number of time steps, a convolution of
    that stride returns [T / s] steps. *)
Lemma strided_steps (T s : nat) :
  0 < T -> 0 < s -> T mod s = 0 -> (T - 1) / s + 1 = T / s /\ 0 < T / s.
Proof.
  intros HT Hs Hmod.
  pose proof (Nat.div_mod_eq T s) as Hd. rewrite Hmod, Nat.add_0_r in Hd.
  assert (Hq : 0 < T / s).
  { destruct (T / s); [lia|lia]. }
  split; [|exact Hq].
  assert (Hdiv : (T - 1) / s = T / s - 1).
  { symmetry. apply (Nat.div_unique _ _ _ (s - 1)); [lia|]. nia. }
  lia.
Qed.

Lemma firstn_In_le {A} (l : list A) (t t' : nat) (a : A) :
  t' <= t -> In a (firstn t' l) -> In a (firstn t l).
Proof.
  revert t t'. induction l as [|x l IH]; intros [|t] [|t'] Hle; simpl;
    auto; try lia; try contradiction.
  intros [->|H]; [now left|right]. apply (IH t t'); [lia|exact H].
Qed.

Lemma valid_graph_le (n t t' : nat) (g : graph_input) :
  valid_graph n t g -> t' <= t -> valid_graph n t' g.
Proof.
  destruct g as [e|es]; simpl; [auto|]. intros [Hl Hv] Hle.
  split; [lia|]. rewrite Forall_forall in *. intros e He. apply Hv.
  now apply (firstn_In_le es t t').
Qed.

(** [X[:, :, :, -1]] on rows that are not empty. *)
Lemma select_final_ok (b c n w : nat) (X : tensor4) :
  is_tensor4 b c n w X -> 0 < w ->
  select_final X = Ok (map (map (map (fun r => last r f0))) X).
Proof.
  intros [_ HX] Hw. unfold select_final.
  apply mapM_ok. eapply Forall_impl; [|exact HX].
  intros x [_ Hx]. apply mapM_ok. eapply Forall_impl; [|exact Hx].
  intros m [_ Hm]. apply mapM_ok. eapply Forall_impl; [|exact Hm].
  intros r Hr. destruct r; [simpl in Hr; lia|reflexivity].
Qed.

Lemma concat_uniform_length {A} (m : nat) (ls : list (list A)) :
  Forall (fun l => length l = m) ls -> length (concat ls) = length ls * m.
Proof.
  induction 1 as [|l ls Hl _ IH]; simpl; [reflexivity|].
  rewrite length_app. lia.
Qed.

(** Row-major reading of a list of rows of one length. *)
Lemma nth_concat_uniform {A} (d : A) (m : nat) (ls : list (list A))
  (i j : nat) :
  Forall (fun l => length l = m) ls -> j < m ->
  nth (i * m + j) (concat ls) d = nth j (nth i ls []) d.
Proof.
  intros H Hj. revert i. induction H as [|l ls Hl _ IH]; intros i; simpl.
  - destruct (i * m + j), i, j; reflexivity.
  - destruct i as [|i]; simpl.
    + apply app_nth1. lia.
    + rewrite app_nth2 by lia.
      replace (m + i * m + j - length l) with (i * m + j) by lia.
      apply IH.
Qed.

Lemma concat_uniform_rows {A} (k m : nat) (Y : list (list (list A))) :
  Forall (fun y => length y = k /\ Forall (fun r => length r = m) y) Y ->
  Forall (fun r => length r = m) (concat Y).
Proof.
  induction 1 as [|y Y [_ Hy] _ IH]; simpl; [constructor|].
  apply Forall_app. split; assumption.
Qed.

(** [reshape(B, T, F, N)] of a tensor of shape (B, T * F, N) splits the
    middle axis: the entry [(b, t, f, n)] is the entry [(b, t * F + f, n)]
    of the argument. *)
Lemma reshape4_split (Y : tensor3) (B T F N : nat) :
  is_tensor3 B (T * F) N Y ->
  reshape4 Y B T F N
  = Ok (map (fun b =>
               map (fun t =>
                      map (fun f =>
                             map (fun n =>
                                    nth n (nth (t * F + f) (nth b Y []) [])
                                        f0)
                                 (seq 0 N))
                          (seq 0 F))
                   (seq 0 T))
            (seq 0 B)).
Proof.
  intros [Hl HY]. unfold reshape4. unfold tensor3, mat, vec in *.
  assert (Hrows : Forall (fun r : list fval => length r = N) (concat Y))
    by exact (concat_uniform_rows (T * F) N Y HY).
  assert (Hmid : Forall (fun y : list (list fval) => length y = T * F) Y).
  { eapply Forall_impl; [|exact HY]. intros y Hy. apply Hy. }
  rewrite (concat_uniform_length N (concat Y) Hrows),
          (concat_uniform_length (T * F) Y Hmid), Hl.
  replace (B * (T * F) * N =? B * T * F * N) with true
    by (symmetry; apply Nat.eqb_eq; lia).
  f_equal.
  apply map_ext_in. intros b Hb. apply map_ext_in. intros t Ht.
  apply map_ext_in. intros f Hf. apply map_ext_in. intros n Hn.
  apply in_seq in Hb, Ht, Hf, Hn.
  rewrite (nth_concat_uniform f0 N (concat Y)) by (auto; lia).
  replace ((b * T + t) * F + f) with (b * (T * F) + (t * F + f)) by lia.
  rewrite (nth_concat_uniform [] (T * F) Y) by (auto; nia).
  reflexivity.
Qed.

Lemma nth_tabulate {A} (g : nat -> A) (n i : nat) (d : A) :
  i < n -> nth i (map g (seq 0 n)) d = g i.
Proof.
  intros H. rewrite (nth_indep _ d (g 0)) by now rewrite length_map, length_seq.
  rewrite map_nth. f_equal. now apply seq_nth.
Qed.

Lemma nth_map_default {A B} (f : A -> B) (l : list A) (n : nat) (d : A)
  (d' : B) :
  f d = d' -> nth n (map f l) d' = f (nth n l d).
Proof. intros <-. apply map_nth. Qed.

Section NetworkShapes.

Variable pow_neg_half : fval -> fval.
Variable sigmoid : fval -> fval.
Variable exp : fval -> fval.
Variable laplacian_lambda_max : edges -> nat -> fval.

(** Blocks of stride 1 keep the shape of their input. *)
Lemma run_blocks_shape (rest : list block_module) (X : tensor4)
  (g : graph_input) (b n K c o T' : nat) (norm : normalization)
  (bias : bool) :
  Forall (fun blk =>
            built_ASTGCNBlock o K c o 1 n T' norm bias (block blk)) rest ->
  Forall (fun blk => forall v, length (_layer_norm blk v) = length v) rest ->
  is_tensor4 b n o T' X -> valid_graph n T' g ->
  0 < b -> 0 < n -> 0 < o -> 0 < T' -> 0 < c ->
  exists Y,
    run_blocks pow_neg_half sigmoid exp laplacian_lambda_max rest X g = Ok Y
    /\ is_tensor4 b n o T' Y.
Proof.
  intros Hbuilt Hln HX Hg Hb Hn Ho HT Hc. revert X HX.
  induction Hbuilt as [|blk rest Hblk _ IH]; intros X HX.
  - exists X. split; [reflexivity|exact HX].
  - inversion Hln as [|? ? Hl1 Hl2]; subst.
    destruct (block_forward_shape pow_neg_half sigmoid exp
                laplacian_lambda_max (_layer_norm blk) Hl1 (block blk) X g
                b n o T' K c o 1 norm bias)
      as (Y & HY & HYs); auto.
    replace ((T' - 1) / 1 + 1) with T' in HYs
      by (rewrite Nat.div_1_r; lia).
    destruct (IH Hl2 Y HYs) as (Z & HZ & HZs).
    exists Z. split; [|exact HZs].
    unfold run_blocks in *. cbn [foldM]. rewrite HY. exact HZ.
Qed.

(** The whole forward pass on a network built by [ASTGCN.__init__]: the
    blocks return a tensor [Xb] of shape (b, n, o, T / s), the final
    convolution a tensor [C] of shape (b, pred * F_out, n, 1), and the
    result holds at [(t, b', n', f')] the entry of channel
    [t * F_out + f'] of [C]. *)
Lemma ASTGCN_forward_ok (self : ASTGCN) (X : tensor4) (g : graph_input)
  (nb_block b n f T K c o s pred F_out : nat) (norm : normalization)
  (bias : bool) :
  built_ASTGCN nb_block f F_out K c o s pred T n norm bias self ->
  Forall (fun blk => forall v, length (_layer_norm blk v) = length v)
         (_blocklist self) ->
  is_tensor4 b n f T X -> valid_graph n T g ->
  0 < b -> 0 < n -> 0 < f -> 0 < T -> 0 < c -> 0 < o -> 0 < s ->
  T mod s = 0 ->
  exists Xb C,
    run_blocks pow_neg_half sigmoid exp laplacian_lambda_max
               (_blocklist self) X g = Ok Xb /\
    is_tensor4 b n o (T / s) Xb /\
    conv2d (_final_conv self) (map permute_201 Xb) = Ok C /\
    is_tensor4 b (pred * F_out) n 1 C /\
    ASTGCN_forward pow_neg_half sigmoid exp laplacian_lambda_max self X g
    = Ok (map (fun t =>
                 map (fun b' =>
                        map (fun n' =>
                               map (fun f' =>
                                      last (nth n'
                                              (nth (t * F_out + f')
                                                   (nth b' C []) [])
                                              [])
                                           f0)
                                   (seq 0 F_out))
                            (seq 0 n))
                     (seq 0 b))
             (seq 0 pred)).
Proof.
  intros Hbuilt Hln HX Hg Hb Hn Hf HT Hc Ho Hs Hmod.
  destruct (built_blocks _ _ _ _ _ _ _ _ _ _ _ _ _ Hbuilt)
    as (first & rest & Hbl & _ & Hfirst & Hrest).
  destruct (built_final_conv _ _ _ _ _ _ _ _ _ _ _ _ _ Hbuilt)
    as (w & bv & Hconv & [Hwl _] & Hbvl).
  destruct (strided_steps T s HT Hs Hmod) as [Hsteps HT'].
  rewrite Hbl in Hln. inversion Hln as [|? ? Hl1 Hl2]; subst.
  destruct (block_forward_shape pow_neg_half sigmoid exp
              laplacian_lambda_max (_layer_norm first) Hl1 (block first) X g
              b n f T K c o s norm bias) as (Y1 & HY1 & HY1s); auto.
  rewrite Hsteps in HY1s.
  destruct (run_blocks_shape rest Y1 g b n K c o (T / s) norm bias)
    as (Xb & HXb & HXbs); auto.
  { apply (valid_graph_le n T); [exact Hg|].
    apply Nat.Div0.div_le_upper_bound. nia. }
  assert (Hrun : run_blocks pow_neg_half sigmoid exp laplacian_lambda_max
                   (_blocklist self) X g = Ok Xb).
  { rewrite Hbl. unfold run_blocks in *. cbn [foldM]. rewrite HY1.
    exact HXb. }
  destruct (conv2d_shape (conv_1xk w bv o) (map permute_201 Xb)
              b (T / s) n o (pred * F_out)) as (C & HC & HCs);
    cbn [conv_1xk cv_weight cv_bias cv_kernel_size cv_stride cv_padding
         fst snd]; auto; try lia.
  { now apply permute_201_batch. }
  cbn [conv_1xk cv_weight cv_bias cv_kernel_size cv_stride cv_padding
       fst snd] in HCs.
  unfold out_size in HCs.
  replace ((n + 2 * 0 - 1) / 1 + 1) with n in HCs
    by (rewrite Nat.div_1_r; lia).
  replace ((o + 2 * 0 - o) / 1 + 1) with 1 in HCs
    by (rewrite Nat.div_1_r; lia).
  exists Xb, C. split; [exact Hrun|]. split; [exact HXbs|].
  rewrite Hconv. split; [exact HC|]. split; [exact HCs|].
  unfold ASTGCN_forward. rewrite Hrun. cbn [bind]. rewrite Hconv, HC.
  cbn [bind]. rewrite (select_final_ok b (pred * F_out) n 1 C HCs)
    by lia.
  cbn [bind].
  rewrite (built_pred_len _ _ _ _ _ _ _ _ _ _ _ _ _ Hbuilt),
          (built_output_size _ _ _ _ _ _ _ _ _ _ _ _ _ Hbuilt).
  rewrite (proj1 HX), (proj1 (is_tensor4_hd b n f T X HX Hb)).
  rewrite (reshape4_split _ b pred F_out n).
  2:{ destruct HCs as [HCl HCr]. split; [now rewrite length_map|].
      apply Forall_map. eapply Forall_impl; [|exact HCr].
      intros y [Hyl Hy]. split; [now rewrite length_map|].
      apply Forall_map. eapply Forall_impl; [|exact Hy].
      intros m [Hml _]. now rewrite length_map. }
  cbn [bind]. f_equal. unfold permute_1032.
  apply map_ext_in. intros t Ht. apply map_ext_in. intros b' Hb'.
  apply map_ext_in. intros n' Hn'. apply map_ext_in. intros f' Hf'.
  apply in_seq in Ht, Hb', Hn', Hf'.
  rewrite (nth_tabulate _ b b') by lia.
  rewrite (nth_tabulate _ pred t) by lia.
  rewrite (nth_tabulate _ F_out f') by lia.
  rewrite (nth_tabulate _ n n') by lia.
  unfold tensor4, tensor3, mat, vec in *.
  rewrite (nth_map_default (map (map (fun r : list fval => last r f0)))
             C b' [] []) by reflexivity.
  rewrite (nth_map_default (map (fun r : list fval => last r f0)) _ _ [] [])
    by reflexivity.
  now rewrite (nth_map_default (fun r : list fval => last r f0) _ _ [] f0).
Qed.

End NetworkShapes.



Lemma ex_net_built : built_ASTGCN 2 1 1 1 1 1 1 2 2 2 NormSym true ex_net.
Proof.
  split.
  - reflexivity.
  - reflexivity.
  - exists ex_module, [ex_module]. split; [reflexivity|].
    split; [reflexivity|]. split; [exact ex_block_built|].
    constructor; [exact ex_block_built|constructor].
  - eexists _, _. split; [reflexivity|]. split; [|reflexivity].
    split; [reflexivity|]. repeat constructor.
Qed.


(** ** Where ValueError can come from *)

Lemma raises_only_ok {A} (P : error -> Prop) (a : A) : raises_only P (Ok a).
Proof. intros e H. discriminate. Qed.

Lemma raises_only_raise {A} (P : error -> Prop) (e : error) :
  P e -> raises_only P (@Raise A e).
Proof. intros H e' [= <-]. exact H. Qed.

Lemma raises_only_bind {A B} (P : error -> Prop) (m : res A)
  (k : A -> res B) :
  raises_only P m -> (forall a, m = Ok a -> raises_only P (k a)) ->
  raises_only P (bind m k).
Proof.
  intros Hm Hk e. destruct m as [a|e']; simpl.
  - now apply Hk.
  - intros [= <-]. now apply Hm.
Qed.

Lemma raises_only_mapM {A B} (P : error -> Prop) (f : A -> res B)
  (l : list A) :
  (forall a, In a l -> raises_only P (f a)) -> raises_only P (mapM f l).
Proof.
  induction l as [|a l IH]; intros H; simpl.
  - apply raises_only_ok.
  - apply raises_only_bind; [apply H; now left|]. intros b _.
    apply raises_only_bind; [apply IH; intros; apply H; now right|].
    intros bs _. apply raises_only_ok.
Qed.

Lemma raises_only_foldM {A B} (P : error -> Prop) (f : A -> B -> res A)
  (l : list B) (a : A) :
  (forall a b, raises_only P (f a b)) -> raises_only P (foldM f l a).
Proof.
  intros H. revert a. induction l as [|b l IH]; intros a; simpl.
  - apply raises_only_ok.
  - apply raises_only_bind; [apply H|]. intros a' _. apply IH.
Qed.

Lemma raises_only_index {A} (t : list A) (i : nat) :
  raises_only not_ValueError (index t i).
Proof.
  unfold index. destruct (nth_error t i).
  - apply raises_only_ok.
  - apply raises_only_raise. discriminate.
Qed.

Lemma raises_only_gather {A} (t : list A) (idx : list nat) :
  raises_only not_ValueError (gather t idx).
Proof. apply raises_only_mapM. intros. apply raises_only_index. Qed.

Lemma raises_only_add_at {A} (add : A -> A -> A) (i : nat) (v : A)
  (acc : list A) :
  raises_only not_ValueError (add_at add i v acc).
Proof.
  revert i. induction acc as [|a acc IH]; intros i.
  - destruct i; apply raises_only_raise; discriminate.
  - destruct i as [|i]; simpl; [apply raises_only_ok|].
    apply raises_only_bind; [apply IH|]. intros. apply raises_only_ok.
Qed.

Lemma raises_only_scatter_add {A} (add : A -> A -> A) (init src : list A)
  (idx : list nat) :
  raises_only not_ValueError (scatter_add add init src idx).
Proof.
  unfold scatter_add. apply raises_only_foldM. intros.
  apply raises_only_add_at.
Qed.

Section ValueErrors.

Variable pow_neg_half : fval -> fval.

Lemma raises_only_get_laplacian (E : edges) (ew : option vec)
  (norm : normalization) (n : nat) :
  raises_only not_ValueError (get_laplacian pow_neg_half E ew norm n).
Proof.
  unfold get_laplacian. destruct (remove_self_loops E ew) as [E1 w1].
  apply raises_only_bind; [apply raises_only_scatter_add|]. intros deg _.
  destruct norm.
  - apply raises_only_ok.
  - apply raises_only_bind; [apply raises_only_gather|]. intros dr _.
    apply raises_only_bind; [apply raises_only_gather|]. intros dc _.
    apply raises_only_ok.
  - apply raises_only_bind; [apply raises_only_gather|]. intros dr _.
    apply raises_only_ok.
Qed.

Lemma raises_only_norm (E : edges) (n : nat) (ew : option vec)
  (norm : normalization) (l : lam) (batch : option (list nat)) :
  raises_only not_ValueError (__norm__ pow_neg_half E n ew norm l batch).
Proof.
  unfold __norm__. destruct (remove_self_loops E ew) as [E1 w1].
  apply raises_only_bind; [apply raises_only_get_laplacian|].
  intros [E2 w2] _.
  apply raises_only_bind.
  - destruct batch as [b|]; [|apply raises_only_ok].
    destruct (1 <? numel l); [|apply raises_only_ok].
    apply raises_only_bind; [apply raises_only_gather|]. intros i _.
    destruct l as [v|vs]; simpl.
    + apply raises_only_raise. discriminate.
    + apply raises_only_bind; [apply raises_only_gather|].
      intros. apply raises_only_ok.
  - intros l' _. apply raises_only_bind.
    + destruct l' as [v|[|v [|v' vs]]]; simpl;
        try apply raises_only_ok;
        match goal with
        | |- context [if ?c then _ else _] =>
            destruct c; [apply raises_only_ok
                        |apply raises_only_raise; discriminate]
        end.
    + intros w3 _. apply raises_only_ok.
Qed.

Lemma raises_only_propagate (E : edges) (x : tensor3) (norm : norm_arg) :
  raises_only not_ValueError (propagate E x norm).
Proof.
  unfold propagate.
  apply raises_only_bind.
  - apply raises_only_mapM. intros. apply raises_only_gather.
  - intros x_j _. apply raises_only_mapM. intros.
    apply raises_only_scatter_add.
Qed.

Lemma raises_only_index_rc (att : tensor3) (row col : list nat) :
  raises_only not_ValueError (index_rc att row col).
Proof.
  unfold index_rc. apply raises_only_mapM. intros a _.
  apply raises_only_mapM. intros rc _.
  apply raises_only_bind; [apply raises_only_index|].
  intros. apply raises_only_index.
Qed.

(** [forward] raises [ValueError] at its guard and nowhere else. *)
Lemma forward_ValueError_guard (self : ChebConvAttention) (x : tensor3)
  (ei : edges) (att : tensor3) (ew : option vec) (batch : option (list nat))
  (lm : option lam) :
  forward pow_neg_half self x ei att ew batch lm = Raise ValueError ->
  negb (is_sym (_normalization self)) && is_None lm = true.
Proof.
  unfold forward.
  destruct (negb (is_sym (_normalization self)) && is_None lm);
    [reflexivity|].
  intros H. exfalso. revert H.
  match goal with |- ?m = _ -> _ =>
    assert (Hr : raises_only not_ValueError m) end.
  { apply raises_only_bind; [apply raises_only_norm|]. intros [E w] _.
    apply raises_only_bind; [apply raises_only_index_rc|]. intros a _.
    apply raises_only_bind; [apply raises_only_index|]. intros w0 _.
    destruct (skipn 1 (_weight self)) as [|w1 ws];
      [apply raises_only_ok|].
    apply raises_only_bind; [apply raises_only_propagate|]. intros T1 _.
    apply raises_only_bind.
    - apply raises_only_foldM. intros [[out T0] T1'] wk.
      unfold cheb_step.
      apply raises_only_bind; [apply raises_only_propagate|].
      intros. apply raises_only_ok.
    - intros [[out T0] T1'] _. apply raises_only_ok. }
  intros H. now apply (Hr ValueError H).
Qed.

End ValueErrors.

Lemma raises_only_conv2d (cv : Conv2d) (X : tensor4) :
  raises_only not_ValueError (conv2d cv X).
Proof.
  unfold conv2d. apply raises_only_mapM. intros x _. unfold conv2d_one.
  destruct (cv_kernel_size cv), (cv_stride cv), (cv_padding cv).
  destruct (_ || _); [apply raises_only_raise; discriminate
                     |apply raises_only_ok].
Qed.


(** ** Finite weights out of the normalization *)

Lemma nonneg_fin (v : vec) : Forall nonneg v -> fin_vec v.
Proof.
  intros H. eapply Forall_impl; [|exact H]. now intros a (q & -> & _).
Qed.

Lemma nonneg_add (a b : fval) : nonneg a -> nonneg b -> nonneg (fadd a b).
Proof.
  intros (p & -> & Hp) (q & -> & Hq). exists (p + q)%Qc.
  split; [reflexivity|]. unfold Qcle in *. rewrite Qc_this_add.
  change (this (Q2Qc 0)) with 0%Q in *. lra.
Qed.

Lemma nonneg_vsum (v : vec) : Forall nonneg v -> nonneg (vsum v).
Proof.
  intros H. unfold vsum.
  assert (H0 : nonneg f0) by (exists (Q2Qc 0); split; [reflexivity|apply Qcle_refl]).
  revert H0. generalize f0. induction H as [|a v Ha _ IH]; intros s Hs;
    simpl; [exact Hs|].
  apply IH. now apply nonneg_add.
Qed.

Lemma row_weights_nonneg (E : edges) (w : vec) (i : nat) :
  Forall nonneg w -> Forall nonneg (row_weights E w i).
Proof.
  intros Hw. unfold row_weights. apply Forall_map.
  apply Forall_forall. intros [e a] Hin. apply filter_In in Hin.
  destruct Hin as [Hin _]. apply in_combine_r in Hin. simpl.
  rewrite Forall_forall in Hw. now apply Hw.
Qed.

Lemma mask_select_nonneg {A} (p : A -> bool) (l : list A) (v : vec) :
  Forall nonneg v -> Forall nonneg (mask_select (map p l) v).
Proof.
  intros Hv. revert l. induction Hv as [|a v Ha _ IH]; intros [|x l]; simpl;
    try constructor.
  destruct (p x); [constructor; auto|]; apply IH.
Qed.

Lemma weights_or_ones_nonneg (E : edges) (ew : option vec) :
  nonneg_weights ew -> Forall nonneg (weights_or_ones E ew).
Proof.
  intros Hf. unfold weights_or_ones, remove_self_loops.
  destruct ew as [v|]; simpl.
  - now apply mask_select_nonneg.
  - apply Forall_forall. intros a Ha. apply repeat_spec in Ha. subst a.
    exists (Q2Qc 1). split; [reflexivity|]. unfold Qcle. simpl. lra.
Qed.

Lemma Forall_nth_lt {A} (P : A -> Prop) (d : A) (l : list A) :
  (forall k, k < length l -> P (nth k l d)) -> Forall P l.
Proof.
  intros H. apply Forall_forall. intros a Ha.
  destruct (In_nth l a d Ha) as (k & Hk & <-). now apply H.
Qed.

Lemma clamp_inf_fin (a : fval) :
  a = PInf \/ is_fin a = true -> is_fin (clamp_inf a) = true.
Proof.
  intros [->|H]; [reflexivity|]. destruct a; try discriminate. reflexivity.
Qed.

Lemma fneg_fin (v : vec) : fin_vec v -> fin_vec (map fneg v).
Proof.
  intros H. apply Forall_map. eapply Forall_impl; [|exact H].
  intros a Ha. destruct a; try discriminate. reflexivity.
Qed.

Lemma map_nth_fin (d : vec) (idx : list nat) :
  fin_vec d -> fin_vec (map (fun r => nth r d f0) idx).
Proof.
  intros Hd. apply Forall_map. apply Forall_forall. intros r _.
  now apply nth_fin.
Qed.

Lemma repeat_fin (a : fval) (n : nat) :
  is_fin a = true -> fin_vec (repeat a n).
Proof.
  intros Ha. apply Forall_forall. intros x Hx.
  apply repeat_spec in Hx. now subst.
Qed.

Section FiniteWeights.

Variable pow_neg_half : fval -> fval.
Hypothesis pow_total : pow_neg_half_total pow_neg_half.

(** The symmetric Laplacian: [-w / sqrt (deg_i deg_j)] off the diagonal,
    with [deg ^ -1/2] replaced by [0] where it is infinite, and [1] on the
    diagonal. *)
Lemma get_laplacian_sym (E : edges) (ew : option vec) (n : nat) :
  valid_edges n E -> weights_ok E ew ->
  exists deg,
    get_laplacian pow_neg_half E ew NormSym n
    = Ok (no_loops E ++ loop_index n,
          map fneg
              (map2 fmul
                 (map2 fmul
                    (map (fun r => nth r (mask_inf (map pow_neg_half deg)) f0)
                         (map fst (no_loops E)))
                    (weights_or_ones E ew))
                 (map (fun r => nth r (mask_inf (map pow_neg_half deg)) f0)
                      (map snd (no_loops E))))
          ++ repeat f1 n) /\
    length deg = n /\
    forall k, k < n -> nth k deg f0 = degree E ew k.
Proof.
  intros Hv Hw. unfold get_laplacian, degree, weights_or_ones.
  pose proof (remove_self_loops_fst E ew) as HE.
  destruct (remove_self_loops E ew) as [E1 w1]. simpl in HE. subst E1.
  cbn [snd].
  set (w := match w1 with Some w => w | None => repeat f1 _ end).
  pose proof (no_loops_valid n E Hv) as Hv1.
  destruct (scatter_degree (no_loops E) w n Hv1) as (deg & -> & Hlen & Hnth).
  exists deg. cbn [bind].
  rewrite !(gather_ok f0).
  - simpl. auto.
  - rewrite mask_inf_length, length_map, Hlen.
    now apply valid_edges_cols.
  - rewrite mask_inf_length, length_map, Hlen.
    now apply valid_edges_rows.
Qed.

Lemma degrees_nonneg (E : edges) (ew : option vec) (n : nat) (deg : vec) :
  nonneg_weights ew -> length deg = n ->
  (forall k, k < n -> nth k deg f0 = degree E ew k) ->
  Forall nonneg deg.
Proof.
  intros Hw Hlen Hdeg. apply (Forall_nth_lt _ f0). intros k Hk.
  rewrite Hdeg by llia. unfold degree, row_sum.
  apply nonneg_vsum, row_weights_nonneg. now apply weights_or_ones_nonneg.
Qed.

(** The Laplacian of a graph with finite non-negative weights is finite. *)
Lemma get_laplacian_fin (E : edges) (ew : option vec) (norm : normalization)
  (n : nat) :
  valid_edges n E -> weights_ok E ew -> nonneg_weights ew ->
  exists E2 w2,
    get_laplacian pow_neg_half E ew norm n = Ok (E2, w2) /\ fin_vec w2.
Proof.
  intros Hv Hw Hnn.
  pose proof (nonneg_fin _ (weights_or_ones_nonneg E ew Hnn)) as Hfw.
  destruct norm.
  - destruct (get_laplacian_none pow_neg_half E ew n Hv Hw)
      as (deg & -> & Hlen & Hdeg).
    eexists _, _. split; [reflexivity|].
    apply Forall_app. split; [now apply fneg_fin|].
    apply nonneg_fin. now apply (degrees_nonneg E ew n).
  - destruct (get_laplacian_sym E ew n Hv Hw) as (deg & -> & Hlen & Hdeg).
    eexists _, _. split; [reflexivity|].
    assert (Hdis : fin_vec (mask_inf (map pow_neg_half deg))).
    { rewrite mask_inf_map, map_map. apply Forall_map.
      pose proof (degrees_nonneg E ew n deg Hnn Hlen Hdeg) as Hd.
      eapply Forall_impl; [|exact Hd].
      intros a (q & -> & Hq). apply clamp_inf_fin. now apply pow_total. }
    apply Forall_app. split; [|now apply repeat_fin].
    apply fneg_fin. apply map2_fmul_fin; [|now apply map_nth_fin].
    apply map2_fmul_fin; [now apply map_nth_fin|exact Hfw].
  - destruct (get_laplacian_rw pow_neg_half E ew n Hv Hw)
      as (deg & -> & Hlen & Hdeg).
    eexists _, _. split; [reflexivity|].
    assert (Hdi : fin_vec (mask_inf (map (fdiv f1) deg))).
    { rewrite mask_inf_map, map_map. apply Forall_map.
      pose proof (degrees_nonneg E ew n deg Hnn Hlen Hdeg) as Hd.
      eapply Forall_impl; [|exact Hd].
      intros a (q & -> & Hq). apply clamp_inf_fin.
      unfold f1. cbn [fdiv]. destruct (sgn q); auto. }
    apply Forall_app. split; [|now apply repeat_fin].
    apply fneg_fin. apply map2_fmul_fin; [now apply map_nth_fin|exact Hfw].
Qed.


End FiniteWeights.

Lemma pow_neg_half_approx_total : pow_neg_half_total pow_neg_half_approx.
Proof.
  intros q Hq. unfold pow_neg_half_approx. destruct (sgn q) eqn:Hs.
  - now left.
  - exfalso. apply (Qcle_not_lt _ _ Hq). now apply Qclt_alt.
  - right. destruct (_ && _); reflexivity.
Qed.


(** Symmetric normalization of the weights 4 and 9 on the two edges of
    three nodes, the third without edges: [-w / sqrt (4 * 9)] off the
    diagonal. *)
Example norm_sym_run :
  __norm__ pow_neg_half_approx [(0, 1); (0, 0); (1, 0)] 3
           (Some [num 4; num 7; num 9]) NormSym (Scalar (Fin (Q2Qc 2))) None
  = Ok ([(0, 1); (1, 0); (0, 0); (1, 1); (2, 2); (0, 0); (1, 1); (2, 2)],
        [Fin (Q2Qc (-2 # 3)); Fin (Q2Qc (-3 # 2)); f1; f1; f1;
         fm1; fm1; fm1]).
Proof. eval_eq. Qed.
(** ** The residual branch and the output of a block *)

Lemma skipn_nth {A} (d : A) (i : nat) (l : list A) :
  i < length l -> skipn i l = nth i l d :: skipn (S i) l.
Proof.
  revert l. induction i as [|i IH]; intros [|a l] H; simpl in *; try lia.
  - reflexivity.
  - apply IH. lia.
Qed.

Lemma firstn1_skipn {A} (d : A) (i : nat) (l : list A) :
  i < length l -> firstn 1 (skipn i l) = [nth i l d].
Proof. intros H. now rewrite (skipn_nth d i l H). Qed.

(** One batch element of the residual convolution. *)
Lemma conv2d_one_residual (w : list (list mat)) (bias : vec) (s : nat)
  (xb : tensor3) (n c t : nat) :
  is_tensor3 n c t xb -> 0 < s -> 0 < n -> 0 < c -> 0 < t ->
  conv2d_one (residual_convolution w bias s) (swap01 xb)
  = Ok (map2 (fun wo bo =>
                map (fun i =>
                       map (fun j =>
                              conv1_at wo bo
                                (map (fun k =>
                                        nth (j * s) (nth k (nth i xb []) [])
                                            f0)
                                     (seq 0 c)))
                           (seq 0 ((t - 1) / s + 1)))
                    (seq 0 n))
             w bias).
Proof.
  intros Hx Hs Hn Hc Ht.
  destruct (swap01_hd n c t xb Hx Hn Hc) as (Hh & Hw & Hcl).
  unfold conv2d_one, residual_convolution. cbn [cv_kernel_size cv_stride
    cv_padding cv_weight cv_bias].
  rewrite Hh, Hw.
  replace (n + 2 * 0 <? 1) with false by (symmetry; apply Nat.ltb_ge; lia).
  replace (t + 2 * 0 <? 1) with false by (symmetry; apply Nat.ltb_ge; lia).
  replace (s =? 0) with false by (symmetry; apply Nat.eqb_neq; lia).
  cbn [orb Nat.eqb]. f_equal.
  unfold out_size.
  replace ((n + 2 * 0 - 1) / 1 + 1) with n
    by (rewrite Nat.div_1_r; lia).
  replace (t + 2 * 0 - 1) with (t - 1) by lia.
  apply map2_ext_in. intros wo bo _.
  apply map_ext_in. intros i Hi. apply in_seq in Hi.
  apply map_ext_in. intros j Hj. apply in_seq in Hj.
  unfold conv1_at. do 2 f_equal.
  unfold swap01. rewrite Hcl, !map_map, !map2_map_r.
  apply map2_ext_in. intros wc k Hin.
  apply in_combine_r, in_seq in Hin.
  f_equal. unfold window, pad2. cbn [repeat app].
  rewrite app_nil_r, Nat.mul_1_r, map_map.
  destruct Hx as [Hxl Hxr].
  rewrite (firstn1_skipn (@nil fval) i) by (rewrite length_map; llia).
  cbn [map].
  rewrite (nth_map_default
             (fun m : list (list fval) => zeros 0 ++ nth k m [] ++ zeros 0)
             xb i [] []) by (destruct k; reflexivity).
  cbn [zeros repeat app]. rewrite app_nil_r.
  assert (Hlen : length (nth k (nth i xb []) []) = t).
  { rewrite Forall_forall in Hxr.
    destruct (Hxr (nth i xb [])) as [Hml Hmr]; [apply nth_In; llia|].
    rewrite Forall_forall in Hmr. apply Hmr. apply nth_In. llia. }
  pose proof (div_mul_le (t - 1) s j Hs) as Hd.
  unfold tensor3, mat, vec in *.
  rewrite (firstn1_skipn f0); [reflexivity|]. lia.
Qed.

(** The residual branch of a block is a convolution of kernel 1 by 1 with
    the time stride [s]: its entry at output channel [o'], node [i] and
    output step [j] combines the channels of the input at node [i] and
    time [j * s], and nothing else. *)
Theorem residual_branch_subsamples (self : ASTGCNBlock)
  (w : list (list mat)) (bias : vec) (s : nat) (X : tensor4)
  (b n c t o : nat) :
  _residual_convolution self = residual_convolution w bias s ->
  is_kernel o c 1 1 w -> length bias = o ->
  is_tensor4 b n c t X ->
  0 < s -> 0 < n -> 0 < c -> 0 < t ->
  exists Xr,
    conv2d (_residual_convolution self) (map swap01 X) = Ok Xr /\
    Xr = map (fun xb =>
                map2 (fun wo bo =>
                        map (fun i =>
                               map (fun j =>
                                      conv1_at wo bo
                                        (map (fun k =>
                                                nth (j * s)
                                                    (nth k (nth i xb []) [])
                                                    f0)
                                             (seq 0 c)))
                                   (seq 0 ((t - 1) / s + 1)))
                            (seq 0 n))
                     w bias)
             X /\
    is_tensor4 b o n ((t - 1) / s + 1) Xr.
Proof.
  intros Hcv [Hwl Hw] Hb [HXl HX] Hs Hn Hc Ht.
  eexists. split; [|split; [reflexivity|]].
  - unfold conv2d. rewrite Hcv, mapM_map.
    apply mapM_ok. eapply Forall_impl; [|exact HX].
    intros xb Hxb. now apply (conv2d_one_residual w bias s xb n c t).
  - split; [now rewrite length_map|].
    apply Forall_map. apply Forall_forall. intros xb _. split.
    + rewrite map2_length. llia.
    + apply map2_Forall. intros wo bo _. split.
      * now rewrite length_map, length_seq.
      * apply Forall_map. apply Forall_forall. intros i _.
        now rewrite length_map, length_seq.
Qed.

Section BlockOutput.

Variable pow_neg_half : fval -> fval.
Variable sigmoid : fval -> fval.
Variable exp : fval -> fval.
Variable laplacian_lambda_max : edges -> nat -> fval.
Variable layer_norm : vec -> vec.

Hypothesis layer_norm_length : forall v, length (layer_norm v) = length v.

(** The last three steps on one batch element [S] of shape (o, n, t): the
    entry at node [i], channel [o'] and time [j] of the result is the
    entry [o'] of the layer normalization of the channels at [(i, j)]. *)
Lemma block_tail_entry (S : tensor3) (o n t i j o' : nat) :
  is_tensor3 o n t S -> 0 < o -> 0 < n -> i < n -> j < t -> o' < o ->
  nth j (nth o' (nth i (permute_120 (map (map layer_norm) (permute_210 S)))
                     []) []) f0
  = nth o' (layer_norm (channel_vector S i j)) f0.
Proof.
  intros HS Ho Hn Hi Hj Ho'.
  pose proof (permute_210_shape o n t S HS Ho Hn) as HP.
  assert (Ht : 0 < t) by lia.
  assert (HL : is_tensor3 t n o (map (map layer_norm) (permute_210 S))).
  { destruct HP as [HPl HPr]. split; [now rewrite length_map|].
    apply Forall_map. eapply Forall_impl; [|exact HPr].
    intros m [Hml Hm]. split; [now rewrite length_map|].
    apply Forall_map. eapply Forall_impl; [|exact Hm].
    intros r Hr. now rewrite layer_norm_length. }
  unfold permute_120.
  pose proof (is_tensor3_hd t n o _ HL Ht) as Hm0.
  rewrite (is_mat_hd n o _ Hm0 Hn), (proj1 Hm0).
  rewrite (nth_tabulate _ n i) by lia.
  rewrite (nth_tabulate _ o o') by lia.
  set (L := map (map layer_norm) (permute_210 S)) in *.
  unfold tensor3, mat, vec in *.
  rewrite (nth_map_default
             (fun m : list (list fval) => nth o' (nth i m []) f0) L j [] f0)
    by (destruct i, o'; reflexivity).
  f_equal. subst L.
  rewrite (nth_map_default (map layer_norm) _ j [] []) by reflexivity.
  assert (Hrow : nth i (nth j (permute_210 S) []) [] = channel_vector S i j).
  { unfold permute_210.
    pose proof (is_tensor3_hd o n t S HS Ho) as HS0.
    rewrite (is_mat_hd n t _ HS0 Hn), (proj1 HS0).
    rewrite (nth_tabulate _ t j) by lia.
    now rewrite (nth_tabulate _ n i) by lia. }
  rewrite <- Hrow.
  rewrite (nth_indep _ [] (layer_norm [])).
  - apply map_nth.
  - rewrite length_map. destruct HP as [HPl HPr].
    rewrite Forall_forall in HPr.
    destruct (HPr (nth j (permute_210 S) [])) as [Hml _];
      [apply nth_In; llia|].
    llia.
Qed.


End BlockOutput.

Lemma residual_branch_subsamples_witness :
  exists Xr,
    conv2d (_residual_convolution ex_block) (map swap01 ex_X) = Ok Xr /\
    Xr = map (fun xb =>
                map2 (fun wo bo =>
                        map (fun i =>
                               map (fun j =>
                                      conv1_at wo bo
                                        (map (fun k =>
                                                nth (j * 1)
                                                    (nth k (nth i xb []) [])
                                                    f0)
                                             (seq 0 1)))
                                   (seq 0 ((2 - 1) / 1 + 1)))
                            (seq 0 2))
                     [[[[num 1]]]] [num 0])
             ex_X /\
    is_tensor4 1 1 2 ((2 - 1) / 1 + 1) Xr.
Proof.
  apply (residual_branch_subsamples ex_block [[[[num 1]]]] [num 0] 1 ex_X
           1 2 1 2 1).
  - reflexivity.
  - split; [reflexivity|]. repeat constructor.
  - reflexivity.
  - split; [reflexivity|]. repeat constructor.
  - lia.
  - lia.
  - lia.
  - lia.
Defined.

(** ** Broadcasting of the edge weights in [message] *)

Lemma map2_repeat_l {A B C} (f : A -> B -> C) (a : A) (l : list B) :
  map2 f (repeat a (length l)) l = map (f a) l.
Proof. induction l as [|b l IH]; simpl; [reflexivity|]. now rewrite IH. Qed.

Lemma mapM_length {A B} (f : A -> res B) (l : list A) (l' : list B) :
  mapM f l = Ok l' -> length l' = length l.
Proof.
  intros H. apply mapM_inv in H. symmetry. exact (Forall2_length H).
Qed.

(** Weights with one entry per edge are the weights of every batch
    element: propagating with a one-dimensional [norm] is propagating with
    the two-dimensional [norm] that repeats it for each batch element. *)
Theorem message_broadcast (edge_index : edges) (x : tensor3) (norm : vec) :
  propagate edge_index x (Norm1 norm)
  = propagate edge_index x (Norm2 (repeat norm (length x))).
Proof.
  unfold propagate.
  destruct (mapM (fun xb => gather xb (map fst edge_index)) x) as [x_j|e]
    eqn:Hx; [|reflexivity].
  cbn [bind]. f_equal. unfold message.
  pose proof (mapM_length _ _ _ Hx) as Hl.
  unfold tensor3, mat, vec in *. rewrite <- Hl. symmetry.
  apply (map2_repeat_l (fun nb xb => map2 vscale nb xb)).
Qed.

(** ** The temporal reweighting of a block *)

(** Reshaping (n, f, t) to (n * f, t) and back. *)
Lemma chunks_flatten01 (n f t : nat) (x : tensor3) :
  is_tensor3 n f t x -> chunks f n (flatten01 x) = x.
Proof.
  intros [Hl Hx]. unfold flatten01. subst n.
  induction Hx as [|m x [Hml _] _ IH]; simpl; [reflexivity|].
  rewrite firstn_app, firstn_all2 by llia.
  replace (f - length m) with 0 by llia. simpl firstn. rewrite app_nil_r.
  rewrite skipn_app, skipn_all2 by llia.
  replace (f - length m) with 0 by llia. simpl. now rewrite IH.
Qed.

Lemma matmul_rows_vecmat (a e : mat) :
  matmul a e = map (fun r => vecmat r e) a.
Proof. reflexivity. Qed.

Section TemporalReweighting.

Variable sigmoid : fval -> fval.
Variable exp : fval -> fval.

(** Steps (a) to (c) of a block: every time series [X[b, i, k, :]] of the
    input is multiplied with the temporal attention matrix of its batch
    element, and the spatial attention is computed from the result.  The
    two reshapes around the product cancel. *)
Theorem block_temporal_reweighting (self : ASTGCNBlock) (X : tensor4)
  (b n f t : nat) :
  is_tensor4 b n f t X -> 0 < b -> 0 < n ->
  block_attention sigmoid exp self X
  = SpatialAttention_forward sigmoid exp (_spatial_attention self)
      (map2 (fun xb E => map (map (fun r => vecmat r E)) xb) X
            (TemporalAttention_forward sigmoid exp
               (_temporal_attention self) X)).
Proof.
  intros HX Hb Hn. unfold block_attention.
  pose proof (is_tensor4_hd b n f t X HX Hb) as Hx0.
  rewrite (proj1 Hx0), (proj1 (is_tensor3_hd n f t _ Hx0 Hn)).
  f_equal. rewrite map2_map_l.
  rewrite !map2_combine, map_map. apply map_ext_in.
  intros [xb E] Hin. cbn [fst snd].
  apply in_combine_l in Hin. destruct HX as [_ HX].
  rewrite Forall_forall in HX. specialize (HX xb Hin).
  rewrite matmul_rows_vecmat. unfold flatten01.
  rewrite concat_map.
  apply (chunks_flatten01 n f (ncols E)).
  destruct HX as [Hl Hx]. split; [now rewrite length_map|].
  apply Forall_map. eapply Forall_impl; [|exact Hx].
  intros m [Hml _]. split; [now rewrite length_map|].
  apply Forall_map, Forall_forall. intros r _.
  unfold vecmat. now rewrite length_map, length_seq.
Qed.

End TemporalReweighting.

Lemma block_temporal_reweighting_witness :
  block_attention sigmoid_approx exp_approx ex_block ex_X
  = SpatialAttention_forward sigmoid_approx exp_approx
      (_spatial_attention ex_block)
      (map2 (fun xb E => map (map (fun r => vecmat r E)) xb) ex_X
            (TemporalAttention_forward sigmoid_approx exp_approx
               (_temporal_attention ex_block) ex_X)).
Proof.
  apply (block_temporal_reweighting sigmoid_approx exp_approx ex_block ex_X
           1 2 1 2).
  - split; [reflexivity|]. repeat constructor.
  - lia.
  - lia.
Defined.
(** ** The batch elements of a forward pass do not interact *)

Lemma size_node_app (T1 T2 : tensor3) :
  T1 <> [] -> size_node (T1 ++ T2) = size_node T1.
Proof. destruct T1; [congruence|reflexivity]. Qed.

Lemma is_tensor3_app (b1 b2 n f : nat) (T1 T2 : tensor3) :
  is_tensor3 b1 n f T1 -> is_tensor3 b2 n f T2 ->
  is_tensor3 (b1 + b2) n f (T1 ++ T2).
Proof.
  intros [H1 F1] [H2 F2]. split.
  - rewrite length_app. llia.
  - apply Forall_app. split; assumption.
Qed.

Lemma fold_vadd_length (f : nat) (l : list vec) (a : vec) :
  length a = f -> Forall (fun r => length r = f) l ->
  length (fold_left vadd l a) = f.
Proof.
  intros Ha Hl. revert a Ha.
  induction Hl as [|r l Hr _ IH]; intros a Ha; simpl; [exact Ha|].
  apply IH. unfold vadd. rewrite map2_length. llia.
Qed.

(** Propagation keeps the shape of a batch element. *)
Lemma propagate_mat_shape (rev : edges) (w : vec) (n f : nat) (T : mat) :
  valid_edges n rev -> is_mat n f T ->
  is_mat n f (propagate_mat rev w n f T).
Proof.
  intros Hv [Hl HT]. split; [apply propagate_mat_rows|].
  unfold propagate_mat. apply Forall_map, Forall_forall. intros v _.
  unfold incoming. apply fold_vadd_length; [apply zeros_length|].
  apply Forall_map, Forall_forall. intros [[u v'] a] Hin.
  apply filter_In in Hin. destruct Hin as [Hin _].
  apply in_combine_l in Hin. cbn [fst snd].
  unfold vscale. rewrite length_map.
  unfold valid_edges in Hv. rewrite Forall_forall in Hv, HT.
  apply HT. apply nth_In. destruct (Hv _ Hin) as [Hu _]. simpl in Hu. llia.
Qed.

Lemma propagate_plain_map (rev : edges) (w : vec) (b n f : nat)
  (T : tensor3) :
  is_tensor3 b n f T -> 0 < b -> 0 < n ->
  propagate_plain rev w T = map (propagate_mat rev w n f) T.
Proof.
  intros HT Hb Hn. unfold propagate_plain.
  now rewrite (size_node_shape b n f T HT Hb),
              (size_feat_shape b n f T HT Hb Hn).
Qed.

Lemma propagate_att_map (rev : edges) (ws : list vec) (b n f : nat)
  (T : tensor3) :
  is_tensor3 b n f T -> 0 < b -> 0 < n ->
  propagate_att rev ws T
  = map2 (fun wb Tb => propagate_mat rev wb n f Tb) ws T.
Proof.
  intros HT Hb Hn. unfold propagate_att.
  now rewrite (size_node_shape b n f T HT Hb),
              (size_feat_shape b n f T HT Hb Hn).
Qed.

Lemma tsub_shape (b n f : nat) (X Y : tensor3) :
  is_tensor3 b n f X -> is_tensor3 b n f Y -> is_tensor3 b n f (tsub X Y).
Proof.
  intros [HXl HX] [HYl HY].
  apply (map2_shape (is_mat n f)); auto.
  intros x y [Hxl Hx] [Hyl Hy].
  apply (map2_shape (fun r : vec => length r = f)); auto.
  intros r r' Hr Hr'. unfold vsub. rewrite map2_length. llia.
Qed.

Lemma tscale_shape (a : fval) (b n f : nat) (X : tensor3) :
  is_tensor3 b n f X -> is_tensor3 b n f (tscale a X).
Proof.
  intros [Hl HX]. split; [unfold tscale; now rewrite length_map|].
  apply Forall_map. eapply Forall_impl; [|exact HX].
  intros m [Hml Hm]. split; [unfold mscale; now rewrite length_map|].
  apply Forall_map. eapply Forall_impl; [|exact Hm].
  intros r Hr. unfold vscale. now rewrite length_map.
Qed.

Lemma map_propagate_shape (rev : edges) (w : vec) (b n f : nat)
  (T : tensor3) :
  valid_edges n rev -> is_tensor3 b n f T ->
  is_tensor3 b n f (map (propagate_mat rev w n f) T).
Proof.
  intros Hv [Hl HT]. split; [now rewrite length_map|].
  apply Forall_map. eapply Forall_impl; [|exact HT].
  intros m Hm. now apply propagate_mat_shape.
Qed.

Lemma order0_shape (b n f : nat) (x att : tensor3) :
  is_tensor3 b n f x -> is_tensor3 b n n att -> 0 < b -> 0 < n ->
  is_tensor3 b n f (order0 att x).
Proof.
  intros Hx Ha Hb Hn. split; [now apply (order0_length b n f)|].
  unfold order0. rewrite (size_node_shape b n f x Hx Hb).
  apply map2_Forall. intros g xb Hin.
  pose proof (in_combine_l _ _ _ _ Hin) as Hg.
  pose proof (in_combine_r _ _ _ _ Hin) as Hxb.
  apply in_map_iff in Hg. destruct Hg as (a & <- & Hain).
  destruct Hx as [_ Hx], Ha as [_ Ha]. rewrite Forall_forall in Hx, Ha.
  apply (matmul_shape _ n); [now apply gate_rows, Ha|now apply Hx|exact Hn].
Qed.

(** The later Chebyshev terms of a batch [A1 ++ A2] are those of [A1]
    followed by those of [A2]. *)
Lemma cheb_terms_app (rev : edges) (w : vec) (b1 b2 n f : nat)
  (A1 A2 B1 B2 : tensor3) (m : nat) :
  valid_edges n rev -> 0 < b1 -> 0 < b2 -> 0 < n ->
  is_tensor3 b1 n f A1 -> is_tensor3 b1 n f B1 ->
  is_tensor3 b2 n f A2 -> is_tensor3 b2 n f B2 ->
  cheb_terms rev w (A1 ++ A2) (B1 ++ B2) m
  = map2 (@app mat) (cheb_terms rev w A1 B1 m) (cheb_terms rev w A2 B2 m) /\
  Forall (is_tensor3 b1 n f) (cheb_terms rev w A1 B1 m) /\
  Forall (is_tensor3 b2 n f) (cheb_terms rev w A2 B2 m).
Proof.
  intros Hv Hb1 Hb2 Hn. revert A1 A2 B1 B2.
  induction m as [|m IH]; intros A1 A2 B1 B2 HA1 HB1 HA2 HB2.
  - simpl. repeat split; constructor.
  - cbn [cheb_terms].
    assert (HB : is_tensor3 (b1 + b2) n f (B1 ++ B2))
      by now apply is_tensor3_app.
    rewrite (propagate_plain_map rev w (b1 + b2) n f _ HB) by lia.
    rewrite (propagate_plain_map rev w b1 n f _ HB1) by lia.
    rewrite (propagate_plain_map rev w b2 n f _ HB2) by lia.
    set (N1 := tsub (tscale f2 (map (propagate_mat rev w n f) B1)) A1).
    set (N2 := tsub (tscale f2 (map (propagate_mat rev w n f) B2)) A2).
    assert (HN1 : is_tensor3 b1 n f N1).
    { apply tsub_shape; [|exact HA1]. apply tscale_shape.
      now apply map_propagate_shape. }
    assert (HN2 : is_tensor3 b2 n f N2).
    { apply tsub_shape; [|exact HA2]. apply tscale_shape.
      now apply map_propagate_shape. }
    assert (HN : tsub (tscale f2 (map (propagate_mat rev w n f) (B1 ++ B2)))
                      (A1 ++ A2) = N1 ++ N2).
    { subst N1 N2. unfold tsub, tscale. rewrite !map_app.
      apply map2_app. rewrite !length_map.
      destruct HA1 as [-> _], HB1 as [-> _]. reflexivity. }
    rewrite HN.
    destruct (IH B1 B2 N1 N2 HB1 HN1 HB2 HN2) as (-> & H1 & H2).
    cbn [map2]. repeat split; try constructor; auto.
Qed.

Lemma tadd_app (X1 X2 Y1 Y2 : tensor3) :
  length X1 = length Y1 ->
  tadd (X1 ++ X2) (Y1 ++ Y2) = tadd X1 Y1 ++ tadd X2 Y2.
Proof. intros H. unfold tadd. now apply map2_app. Qed.

Lemma tmatmul_app (T1 T2 : tensor3) (w : mat) :
  tmatmul (T1 ++ T2) w = tmatmul T1 w ++ tmatmul T2 w.
Proof. unfold tmatmul. apply map_app. Qed.

(** The weighted sum of the terms of a batch [.. ++ ..]. *)
Lemma weighted_sum_app (b1 : nat) (L1 L2 : list tensor3) (W : list mat)
  (X1 X2 : tensor3) :
  length X1 = b1 -> Forall (fun T => length T = b1) L1 ->
  length L1 = length L2 ->
  fold_left tadd (map2 tmatmul (map2 (@app mat) L1 L2) W) (X1 ++ X2)
  = fold_left tadd (map2 tmatmul L1 W) X1
    ++ fold_left tadd (map2 tmatmul L2 W) X2.
Proof.
  intros HX HL. revert L2 W X1 X2 HX.
  induction HL as [|T1 L1 HT1 _ IH]; intros [|T2 L2] W X1 X2 HX Hlen;
    simpl in *; try discriminate; auto.
  destruct W as [|w W]; [reflexivity|]. cbn [map2 fold_left].
  rewrite tmatmul_app.
  rewrite tadd_app by (unfold tmatmul; rewrite length_map; llia).
  apply IH; [|lia].
  unfold tadd, tmatmul. rewrite map2_length, length_map. llia.
Qed.

Lemma add_bias_app (bias : option vec) (X1 X2 : tensor3) :
  add_bias bias (X1 ++ X2) = add_bias bias X1 ++ add_bias bias X2.
Proof. destruct bias; simpl; [apply map_app|reflexivity]. Qed.

Lemma order0_app (b1 b2 n f : nat) (x1 x2 att1 att2 : tensor3) :
  is_tensor3 b1 n f x1 -> is_tensor3 b1 n n att1 ->
  is_tensor3 b2 n f x2 -> 0 < b1 -> 0 < b2 ->
  order0 (att1 ++ att2) (x1 ++ x2) = order0 att1 x1 ++ order0 att2 x2.
Proof.
  intros Hx1 Ha1 Hx2 Hb1 Hb2. unfold order0.
  rewrite size_node_app
    by (destruct Hx1 as [Hl _]; intros ->; simpl in Hl; lia).
  rewrite (size_node_shape b1 n f x1 Hx1 Hb1),
          (size_node_shape b2 n f x2 Hx2 Hb2).
  rewrite map_app. apply map2_app. rewrite length_map.
  destruct Hx1 as [-> _], Ha1 as [-> _]. reflexivity.
Qed.

Lemma att_norm_spec_app (w : vec) (E : edges) (att1 att2 : tensor3) :
  att_norm_spec w E (att1 ++ att2)
  = att_norm_spec w E att1 ++ att_norm_spec w E att2.
Proof. unfold att_norm_spec. apply map_app. Qed.

Section BatchIndependence.

Variable pow_neg_half : fval -> fval.

(** The forward pass on a batch is the forward pass on each part of the
    batch: the output for a batch element depends on no other batch
    element. *)
Theorem forward_batch_independent (self : ChebConvAttention)
  (x1 x2 : tensor3) (ei : edges) (att1 att2 : tensor3) (ew : option vec)
  (batch : option (list nat)) (lm : option lam) (b1 b2 n f : nat) :
  is_tensor3 b1 n f x1 -> is_tensor3 b1 n n att1 ->
  is_tensor3 b2 n f x2 -> is_tensor3 b2 n n att2 ->
  0 < b1 -> 0 < b2 -> 0 < n ->
  _weight self <> [] ->
  lam_given (_normalization self) lm ->
  valid_lam n batch (lam_or_default lm) ->
  valid_edges n ei -> weights_ok ei ew ->
  exists o1 o2,
    forward pow_neg_half self x1 ei att1 ew batch lm = Ok o1 /\
    forward pow_neg_half self x2 ei att2 ew batch lm = Ok o2 /\
    forward pow_neg_half self (x1 ++ x2) ei (att1 ++ att2) ew batch lm
    = Ok (o1 ++ o2).
Proof.
  intros Hx1 Ha1 Hx2 Ha2 Hb1 Hb2 Hn HW Hg Hl Hv Hw.
  pose proof (is_tensor3_app b1 b2 n f x1 x2 Hx1 Hx2) as Hx.
  pose proof (is_tensor3_app b1 b2 n n att1 att2 Ha1 Ha2) as Ha.
  destruct (forward_valid pow_neg_half self x1 ei att1 ew batch lm b1 n f)
    as (E & w & Hn1 & ->); auto.
  destruct (forward_valid pow_neg_half self x2 ei att2 ew batch lm b2 n f)
    as (E2 & w2 & Hn2 & ->); auto.
  destruct (forward_valid pow_neg_half self (x1 ++ x2) ei (att1 ++ att2) ew
              batch lm (b1 + b2) n f)
    as (E3 & w3 & Hn3 & ->); auto; [lia|].
  rewrite (size_node_shape b1 n f x1 Hx1 Hb1) in Hn1.
  rewrite (size_node_shape b2 n f x2 Hx2 Hb2) in Hn2.
  rewrite (size_node_shape (b1 + b2) n f _ Hx) in Hn3 by lia.
  rewrite Hn1 in Hn2, Hn3. injection Hn2 as <- <-. injection Hn3 as <- <-.
  eexists _, _. split; [reflexivity|]. split; [reflexivity|]. f_equal.
  rewrite <- add_bias_app. f_equal.
  assert (Hrev : valid_edges n (map swap E)).
  { apply valid_edges_swap. rewrite (norm_inv pow_neg_half _ _ _ _ _ _ _ _ Hn1).
    repeat apply valid_edges_app;
      auto using no_loops_valid, loop_index_valid. }
  pose proof (order0_shape b1 n f x1 att1 Hx1 Ha1 Hb1 Hn) as H01.
  pose proof (order0_shape b2 n f x2 att2 Hx2 Ha2 Hb2 Hn) as H02.
  rewrite (order0_app b1 b2 n f) by assumption.
  set (T01 := order0 att1 x1) in *. set (T02 := order0 att2 x2) in *.
  rewrite att_norm_spec_app.
  set (A1 := att_norm_spec w E att1). set (A2 := att_norm_spec w E att2).
  assert (HA1 : length A1 = b1).
  { subst A1. rewrite att_norm_spec_length. apply Ha1. }
  destruct (_weight self) as [|w0 [|w1 W]]; [congruence| |].
  - cbn. apply tmatmul_app.
  - cbn [length cheb_term_list map2 tsum].
    pose proof (is_tensor3_app b1 b2 n f T01 T02 H01 H02) as H0.
    rewrite (propagate_att_map _ _ (b1 + b2) n f _ H0) by lia.
    rewrite (propagate_att_map _ _ b1 n f _ H01) by lia.
    rewrite (propagate_att_map _ _ b2 n f _ H02) by lia.
    assert (HAT : length A1 = length T01)
      by (destruct H01 as [H01l _]; llia).
    rewrite map2_app by exact HAT.
    set (T11 := map2 _ A1 T01). set (T12 := map2 _ A2 T02).
    assert (H11 : is_tensor3 b1 n f T11).
    { subst T11. destruct H01 as [H01l H01r].
      split; [rewrite map2_length; llia|].
      apply map2_Forall. intros wb Tb Hin. apply propagate_mat_shape; auto.
      rewrite Forall_forall in H01r. apply H01r.
      exact (in_combine_r _ _ _ _ Hin). }
    assert (H12 : is_tensor3 b2 n f T12).
    { subst T12. destruct H02 as [H02l H02r].
      split.
      - rewrite map2_length. subst A2. rewrite att_norm_spec_length.
        destruct Ha2 as [-> _]. llia.
      - apply map2_Forall. intros wb Tb Hin. apply propagate_mat_shape; auto.
        rewrite Forall_forall in H02r. apply H02r.
        exact (in_combine_r _ _ _ _ Hin). }
    destruct (cheb_terms_app (map swap E) w b1 b2 n f T01 T02 T11 T12
                (length W) Hrev Hb1 Hb2 Hn H01 H11 H02 H12)
      as (-> & HL1 & HL2).
    rewrite (tmatmul_app T01 T02 w0).
    apply (weighted_sum_app b1
             (T11 :: cheb_terms (map swap E) w T01 T11 (length W))
             (T12 :: cheb_terms (map swap E) w T02 T12 (length W))
             (w1 :: W)).
    + unfold tmatmul. rewrite length_map. apply H01.
    + constructor; [apply H11|].
      eapply Forall_impl; [|exact HL1]. intros T HT. apply HT.
    + simpl. now rewrite !cheb_terms_length.
Qed.

End BatchIndependence.

Lemma forward_batch_independent_witness :
  exists o1 o2,
    forward pow_neg_half_approx ex_conv3 ex_x ex_edges ex_att None None None
    = Ok o1 /\
    forward pow_neg_half_approx ex_conv3 [[[num 3]; [num 4]]] ex_edges
      [[[num 0; num 1]; [num 1; num 0]]] None None None
    = Ok o2 /\
    forward pow_neg_half_approx ex_conv3 (ex_x ++ [[[num 3]; [num 4]]])
      ex_edges (ex_att ++ [[[num 0; num 1]; [num 1; num 0]]]) None None None
    = Ok (o1 ++ o2).
Proof.
  apply (forward_batch_independent pow_neg_half_approx ex_conv3 ex_x
           [[[num 3]; [num 4]]] ex_edges ex_att
           [[[num 0; num 1]; [num 1; num 0]]] None None None 1 1 2 1).
  - split; [reflexivity|]. repeat constructor.
  - split; [reflexivity|]. repeat constructor.
  - split; [reflexivity|]. repeat constructor.
  - split; [reflexivity|]. repeat constructor.
  - lia.
  - lia.
  - lia.
  - discriminate.
  - left. reflexivity.
  - exact I.
  - repeat constructor.
  - exact I.
Defined.

(** ** STGCN *)

Lemma mapM_Forall_out {A B} (P : B -> Prop) (f : A -> res B) (l : list A)
  (l' : list B) :
  mapM f l = Ok l' ->
  (forall a b, In a l -> f a = Ok b -> P b) ->
  Forall P l'.
Proof.
  intros H. apply mapM_inv in H.
  induction H as [|a b l l' Hab _ IH]; intros HP; constructor.
  - apply (HP a b); [now left|exact Hab].
  - apply IH. intros a' b' Ha'. apply HP. now right.
Qed.

(** Broadcasting returns a list of the length asked for, made of entries
    of its argument. *)
Lemma expand_to_inv {A} (n : nat) (l l' : list A) :
  expand_to n l = Ok l' ->
  length l' = n /\ (forall a, In a l' -> In a l).
Proof.
  unfold expand_to. destruct (Nat.eqb_spec (length l) n) as [H|H].
  - intros [= <-]. auto.
  - destruct l as [|a [|? ?]]; try discriminate. intros [= <-].
    split; [apply repeat_length|].
    intros a' Ha'. apply repeat_spec in Ha'. subst. now left.
Qed.

Lemma expand_to_same {A} (n : nat) (l : list A) :
  length l = n -> expand_to n l = Ok l.
Proof. intros H. unfold expand_to. now rewrite H, Nat.eqb_refl. Qed.

(** What is written into a slot has the shape of the slot. *)
Lemma assign_slot_shape (n m : nat) (y z : mat) :
  assign_slot n m y = Ok z -> is_mat n m z.
Proof.
  unfold assign_slot. intros H.
  apply bind_ok in H as (rows & Hr & Hz).
  apply expand_to_inv in Hz as [Hl Hin]. split; [exact Hl|].
  apply Forall_forall. intros r Hr'. apply Hin in Hr'.
  assert (Hall : Forall (fun r : vec => length r = m) rows).
  { apply (mapM_Forall_out _ _ _ _ Hr). intros a b _ Hab.
    now apply expand_to_inv in Hab. }
  rewrite Forall_forall in Hall. now apply Hall.
Qed.

Lemma assign_slot_same (n m : nat) (y : mat) :
  is_mat n m y -> assign_slot n m y = Ok y.
Proof.
  intros [Hl Hy]. unfold assign_slot.
  rewrite (mapM_ok (expand_to m) (fun r => r)).
  - rewrite map_id. cbn [bind]. now apply expand_to_same.
  - eapply Forall_impl; [|exact Hy]. intros r Hr. now apply expand_to_same.
Qed.

(** The last step of a tensor of shape (b, n, t, c), as a tensor of shape
    (c, b, n). *)
Lemma last_step_channels_ok (b n t c : nat) (Y : tensor4) :
  is_tensor4 b n t c Y -> 0 < b -> 0 < n -> 0 < t ->
  last_step_channels Y
  = Ok (map (fun c' => map (map (fun steps => nth c' (last steps []) f0)) Y)
            (seq 0 c)).
Proof.
  intros HY Hb Hn Ht. unfold last_step_channels.
  pose proof (is_tensor4_hd b n t c Y HY Hb) as H3.
  pose proof (is_tensor3_hd n t c _ H3 Hn) as H2.
  rewrite (proj1 H2), (is_mat_hd t c _ H2 Ht).
  destruct (Nat.eqb_spec t 0) as [H0|_]; [lia|reflexivity].
Qed.

Lemma last_step_channels_shape (b n t c : nat) (Y : tensor4) :
  is_tensor4 b n t c Y ->
  is_tensor3 c b n
    (map (fun c' => map (map (fun steps => nth c' (last steps []) f0)) Y)
         (seq 0 c)).
Proof.
  intros [Hl HY]. split; [now rewrite length_map, length_seq|].
  apply Forall_map, Forall_forall. intros c' _.
  split; [now rewrite length_map|].
  apply Forall_map. eapply Forall_impl; [|exact HY].
  intros y [Hyl _]. now rewrite length_map.
Qed.

(** [reshape(a, b, n, -1)] of a tensor of shape (c, b, n) returns when [a]
    divides [c], and reads the entries in row-major order. *)
Lemma reshape_infer_spec (c b n a : nat) (U : tensor3) :
  is_tensor3 c b n U -> 0 < a -> 0 < b -> 0 < n ->
  reshape_infer U a b n
  = if c mod a =? 0
    then
      Ok (map (fun i =>
                 map (fun j =>
                        map (fun k =>
                               map (fun l =>
                                      let q :=
                                        ((i * b + j) * n + k) * (c / a) + l in
                                      nth (q mod n)
                                          (nth ((q / n) mod b)
                                               (nth (q / (b * n)) U []) [])
                                          f0)
                                   (seq 0 (c / a)))
                            (seq 0 n))
                     (seq 0 b))
              (seq 0 a))
    else Raise RuntimeError.
Proof.
  intros [Hl HU] Ha Hb Hn. unfold reshape_infer.
  unfold tensor3, mat, vec in *.
  assert (Hrows : Forall (fun r : list fval => length r = n) (concat U))
    by exact (concat_uniform_rows b n U HU).
  assert (Hmid : Forall (fun y : list (list fval) => length y = b) U).
  { eapply Forall_impl; [|exact HU]. intros y Hy. apply Hy. }
  rewrite (concat_uniform_length n (concat U) Hrows),
          (concat_uniform_length b U Hmid), Hl.
  replace (c * b * n) with (c * (b * n)) by lia.
  replace (a * b * n) with (a * (b * n)) by lia.
  assert (Hbn : b * n <> 0) by nia.
  rewrite Nat.Div0.mul_mod_distr_r, Nat.Div0.div_mul_cancel_r by exact Hbn.
  destruct (Nat.eqb_spec (a * (b * n)) 0) as [H0|_]; [nia|]. cbn [orb].
  destruct (Nat.eqb_spec (c mod a) 0) as [Hm|Hm].
  - rewrite Hm. cbn [Nat.mul Nat.eqb negb].
    f_equal.
    apply map_ext_in. intros i _. apply map_ext_in. intros j _.
    apply map_ext_in. intros k _. apply map_ext_in. intros l _.
    cbv zeta.
    set (q := ((i * b + j) * n + k) * (c / a) + l).
    rewrite (Nat.div_mod_eq q n) at 1.
    rewrite (Nat.mul_comm n (q / n)).
    rewrite (nth_concat_uniform f0 n (concat U))
      by (auto; apply Nat.mod_upper_bound; lia).
    f_equal.
    rewrite (Nat.div_mod_eq (q / n) b) at 1.
    rewrite (Nat.mul_comm b (q / n / b)).
    rewrite (nth_concat_uniform [] b U)
      by (auto; apply Nat.mod_upper_bound; lia).
    rewrite Nat.Div0.div_div, (Nat.mul_comm n b). reflexivity.
  - destruct (Nat.eqb_spec (c mod a * (b * n)) 0) as [H0|_]; [nia|].
    reflexivity.
Qed.

Section SpatioTemporalShapes.

Variable sigmoid : fval -> fval.

(** The loop over the graph convolutions keeps the shape of [T_0], whatever
    the graph convolution returns. *)
Lemma graph_loop_shape (self : STGCN) (ei : edges) (ew : option vec)
  (T0 T : tensor4) (b t n h : nat) :
  is_tensor4 b t n h T0 -> 0 < n ->
  mapM (mapM (STGCN_graph_step self ei ew)) T0 = Ok T ->
  is_tensor4 b t n h T.
Proof.
  intros [Hl H0] Hn HT. split.
  - pose proof (mapM_length _ _ _ HT) as HTl. llia.
  - apply (mapM_Forall_out _ _ _ _ HT). intros x y Hx Hy.
    rewrite Forall_forall in H0. destruct (H0 x Hx) as [Hxl Hxs]. split.
    + pose proof (mapM_length _ _ _ Hy) as Hyl. llia.
    + apply (mapM_Forall_out _ _ _ _ Hy). intros m z Hm Hz.
      rewrite Forall_forall in Hxs. pose proof (Hxs m Hm) as Hms.
      unfold STGCN_graph_step in Hz. apply bind_ok in Hz as (y' & _ & Hz).
      apply assign_slot_shape in Hz.
      unfold nrows, ncols in Hz.
      now rewrite (proj1 Hms), (is_mat_hd n h m Hms Hn) in Hz.
Qed.

(** The loop succeeds when the graph convolution returns signals of the
    shape of its argument. *)
Lemma graph_loop_ok (self : STGCN) (ei : edges) (ew : option vec)
  (T0 : tensor4) (b t n h : nat) :
  is_tensor4 b t n h T0 -> 0 < n ->
  (forall x, is_mat n h x ->
             exists y, _graph_conv self x ei ew = Ok y /\ is_mat n h y) ->
  exists T, mapM (mapM (STGCN_graph_step self ei ew)) T0 = Ok T.
Proof.
  intros [Hl H0] Hn Hg.
  destruct (mapM_all (fun _ => True)
              (mapM (STGCN_graph_step self ei ew)) T0) as (T & HT & _).
  - intros x Hx. rewrite Forall_forall in H0. destruct (H0 x Hx) as [_ Hxs].
    destruct (mapM_all (fun _ => True) (STGCN_graph_step self ei ew) x)
      as (y & Hy & _); [|eauto].
    intros m Hm. rewrite Forall_forall in Hxs. pose proof (Hxs m Hm) as Hms.
    destruct (Hg m Hms) as (z & Hz & Hzs).
    exists z. split; [|exact I].
    unfold STGCN_graph_step. rewrite Hz. cbn [bind].
    unfold nrows, ncols. rewrite (proj1 Hms), (is_mat_hd n h m Hms Hn).
    now apply assign_slot_same.
  - eauto.
Qed.

(** The sizes that [forward] reads from the permuted input. *)
Lemma STGCN_input_sizes (X : tensor4) (b n d t : nat) :
  is_tensor4 b n d t X -> 0 < b -> 0 < n -> 0 < d -> 0 < t ->
  length (map permute_201 X) = b /\
  length (hd [] (map permute_201 X)) = t /\
  length (hd [] (hd [] (map permute_201 X))) = n.
Proof.
  intros HX Hb Hn Hd Ht.
  pose proof (permute_201_batch b n d t X HX Hn Hd) as HXp.
  pose proof (is_tensor4_hd b t n d _ HXp Hb) as H3.
  pose proof (is_tensor3_hd t n d _ H3 Ht) as H2.
  split; [apply HXp|]. split; [apply H3|apply H2].
Qed.

(** When the features are computed, the input has more than [2 (k - 1)]
    time steps and the features have the shape (b, n, t - 2 (k - 1),
    output_size * pred_len). *)
Lemma STGCN_features_inv (self : STGCN) (X Y : tensor4) (ei : edges)
  (ew : option vec) (d h o k p b n t : nat) :
  built_STGCN d h o k p self ->
  is_tensor4 b n d t X ->
  0 < b -> 0 < n -> 0 < d -> 0 < t -> 0 < k -> 0 < h -> 0 < o * p ->
  (forall Y Z, is_tensor4 b n (t - 2 * (k - 1)) (o * p) Y ->
               _batch_norm self Y = Ok Z ->
               is_tensor4 b n (t - 2 * (k - 1)) (o * p) Z) ->
  STGCN_features sigmoid self X ei ew = Ok Y ->
  2 * (k - 1) < t /\ is_tensor4 b n (t - 2 * (k - 1)) (o * p) Y.
Proof.
  intros [H1 H2] HX Hb Hn Hd Ht Hk Hh Hc Hbn HY.
  destruct H1 as (w1 & w2 & w3 & b1 & b2 & b3 & E1 & K1 & K2 & K3 & L1 & L2
                  & L3).
  destruct H2 as (v1 & v2 & v3 & c1 & c2 & c3 & E2 & M1 & M2 & M3 & N1 & N2
                  & N3).
  pose proof (permute_201_batch b n d t X HX Hn Hd) as HXp.
  unfold STGCN_features in HY. cbv zeta in HY. rewrite E1, E2 in HY.
  destruct (Nat.lt_ge_cases t k) as [Hs|Hs].
  { rewrite (TemporalConv_forward_short sigmoid k w1 w2 w3 b1 b2 b3 _
               b t n d HXp Hb Ht Hn Hd Hs) in HY. discriminate. }
  destruct (TemporalConv_forward_shape sigmoid k w1 w2 w3 b1 b2 b3 _
              b t n d h HXp K1 K2 K3 L1 L2 L3 Hk Hs Hn Hd Hh)
    as (T0 & HT0e & HT0).
  rewrite HT0e in HY. cbn [bind] in HY.
  apply bind_ok in HY as (T & HT & HY).
  pose proof (graph_loop_shape self ei ew T0 T b (t - k + 1) n h HT0 Hn HT)
    as HTs.
  pose proof (map4_shape relu _ _ _ _ T HTs) as HR. fold (relu4 T) in HR.
  destruct (Nat.lt_ge_cases (t - k + 1) k) as [Hs2|Hs2].
  { rewrite (TemporalConv_forward_short sigmoid k v1 v2 v3 c1 c2 c3 _
               b (t - k + 1) n h HR Hb) in HY by lia. discriminate. }
  destruct (TemporalConv_forward_shape sigmoid k v1 v2 v3 c1 c2 c3 _
              b (t - k + 1) n h (o * p) HR M1 M2 M3 N1 N2 N3 Hk Hs2 Hn Hh Hc)
    as (T2 & HT2 & HT2s).
  rewrite HT2 in HY. cbn [bind] in HY.
  replace (t - k + 1 - k + 1) with (t - 2 * (k - 1)) in HT2s by lia.
  split; [lia|].
  apply (Hbn (map swap01 T2)); [|exact HY].
  apply swap01_batch; [exact HT2s|lia].
Qed.

(** The features are computed when the input is long enough and the two
    library layers return tensors of the shape of their argument. *)
Lemma STGCN_features_ok (self : STGCN) (X : tensor4) (ei : edges)
  (ew : option vec) (d h o k p b n t : nat) :
  built_STGCN d h o k p self ->
  is_tensor4 b n d t X ->
  0 < b -> 0 < n -> 0 < d -> 0 < k -> 0 < h -> 0 < o * p ->
  2 * (k - 1) < t ->
  (forall x, is_mat n h x ->
             exists y, _graph_conv self x ei ew = Ok y /\ is_mat n h y) ->
  (forall Y, is_tensor4 b n (t - 2 * (k - 1)) (o * p) Y ->
             exists Z, _batch_norm self Y = Ok Z /\
                       is_tensor4 b n (t - 2 * (k - 1)) (o * p) Z) ->
  exists Y, STGCN_features sigmoid self X ei ew = Ok Y.
Proof.
  intros [H1 H2] HX Hb Hn Hd Hk Hh Hc Ht Hg Hbn.
  destruct H1 as (w1 & w2 & w3 & b1 & b2 & b3 & E1 & K1 & K2 & K3 & L1 & L2
                  & L3).
  destruct H2 as (v1 & v2 & v3 & c1 & c2 & c3 & E2 & M1 & M2 & M3 & N1 & N2
                  & N3).
  pose proof (permute_201_batch b n d t X HX Hn Hd) as HXp.
  unfold STGCN_features. cbv zeta. rewrite E1, E2.
  destruct (TemporalConv_forward_shape sigmoid k w1 w2 w3 b1 b2 b3 _
              b t n d h HXp K1 K2 K3 L1 L2 L3 Hk) as (T0 & -> & HT0);
    try lia.
  cbn [bind].
  destruct (graph_loop_ok self ei ew T0 b (t - k + 1) n h HT0 Hn Hg)
    as (T & HT).
  pose proof (graph_loop_shape self ei ew T0 T b (t - k + 1) n h HT0 Hn HT)
    as HTs.
  rewrite HT. cbn [bind].
  pose proof (map4_shape relu _ _ _ _ T HTs) as HR. fold (relu4 T) in HR.
  destruct (TemporalConv_forward_shape sigmoid k v1 v2 v3 c1 c2 c3 _
              b (t - k + 1) n h (o * p) HR M1 M2 M3 N1 N2 N3 Hk)
    as (T2 & -> & HT2s); try lia.
  cbn [bind].
  replace (t - k + 1 - k + 1) with (t - 2 * (k - 1)) in HT2s by lia.
  destruct (Hbn (map swap01 T2)) as (Z & HZ & _); [|eauto].
  apply swap01_batch; [exact HT2s|lia].
Qed.

(** What [forward] makes of the features: a reshape of the last step, which
    raises unless the number of input steps divides the number of
    channels. *)
Lemma STGCN_forward_tail (self : STGCN) (X Y : tensor4) (ei : edges)
  (ew : option vec) (b n d t t' c : nat) :
  is_tensor4 b n d t X ->
  0 < b -> 0 < n -> 0 < d -> 0 < t -> 0 < t' ->
  STGCN_features sigmoid self X ei ew = Ok Y ->
  is_tensor4 b n t' c Y ->
  STGCN_forward sigmoid self X ei ew
  = if c mod t =? 0
    then
      Ok (map (fun i =>
                 map (fun j =>
                        map (fun k =>
                               map (fun l =>
                                      let q :=
                                        ((i * b + j) * n + k) * (c / t) + l in
                                      nth (q / (b * n))
                                          (last (nth (q mod n)
                                                     (nth ((q / n) mod b)
                                                          Y []) [])
                                                [])
                                          f0)
                                   (seq 0 (c / t)))
                            (seq 0 n))
                     (seq 0 b))
              (seq 0 t))
    else Raise RuntimeError.
Proof.
  intros HX Hb Hn Hd Ht Ht' HY HYs. unfold STGCN_forward.
  destruct (STGCN_input_sizes X b n d t HX Hb Hn Hd Ht) as (-> & -> & ->).
  rewrite HY. cbn [bind].
  rewrite (last_step_channels_ok b n t' c Y HYs Hb Hn Ht'). cbn [bind].
  rewrite (reshape_infer_spec c b n t _
             (last_step_channels_shape b n t' c Y HYs) Ht Hb Hn).
  destruct (Nat.eqb_spec (c mod t) 0) as [Hm|Hm]; [|reflexivity].
  f_equal.
  apply map_ext_in. intros i Hi. apply map_ext_in. intros j Hj.
  apply map_ext_in. intros k Hk. apply map_ext_in. intros l Hl.
  apply in_seq in Hi, Hj, Hk, Hl. cbv zeta.
  set (q := ((i * b + j) * n + k) * (c / t) + l).
  assert (Hc : c = t * (c / t)).
  { rewrite (Nat.div_mod_eq c t) at 1. lia. }
  assert (Hq : q / (b * n) < c).
  { apply Nat.Div0.div_lt_upper_bound. subst q.
    remember (c / t) as m eqn:Em. rewrite Hc.
    assert (A1 : i * b + j + 1 <= t * b) by nia.
    assert (A2 : (i * b + j) * n + k + 1 <= t * b * n) by nia.
    assert (A3 : ((i * b + j) * n + k) * m + l + 1
                 <= ((i * b + j) * n + k + 1) * m) by nia.
    assert (A4 : ((i * b + j) * n + k + 1) * m <= t * b * n * m)
      by (apply Nat.mul_le_mono_r; exact A2).
    lia. }
  unfold tensor4, tensor3, mat, vec in *.
  rewrite (nth_tabulate _ c (q / (b * n)) []) by exact Hq.
  rewrite (nth_map_default _ Y _ [] []) by reflexivity.
  rewrite (nth_map_default _ _ _ [] f0) by (now destruct (q / (b * n))).
  reflexivity.
Qed.

(** A layer that returns a tensor of the shape of its argument keeps the
    shape whenever it returns. *)
Lemma batch_norm_keeps (self : STGCN) (b n t c : nat) :
  (forall Y, is_tensor4 b n t c Y ->
             exists Z, _batch_norm self Y = Ok Z /\ is_tensor4 b n t c Z) ->
  forall Y Z, is_tensor4 b n t c Y -> _batch_norm self Y = Ok Z ->
              is_tensor4 b n t c Z.
Proof.
  intros H Y Z HY HZ. destruct (H Y HY) as (Z' & HZ' & HZs).
  rewrite HZ in HZ'. now injection HZ' as ->.
Qed.

(** What a returning [forward] has computed. *)
Lemma STGCN_forward_inv (self : STGCN) (X Z : tensor4) (ei : edges)
  (ew : option vec) (d h o k p b n t : nat) :
  built_STGCN d h o k p self ->
  is_tensor4 b n d t X ->
  0 < b -> 0 < n -> 0 < d -> 0 < t -> 0 < k -> 0 < h -> 0 < o * p ->
  (forall Y Z, is_tensor4 b n (t - 2 * (k - 1)) (o * p) Y ->
               _batch_norm self Y = Ok Z ->
               is_tensor4 b n (t - 2 * (k - 1)) (o * p) Z) ->
  STGCN_forward sigmoid self X ei ew = Ok Z ->
  2 * (k - 1) < t /\ (o * p) mod t = 0.
Proof.
  intros Hbuilt HX Hb Hn Hd Ht Hk Hh Hc Hbn HZ.
  assert (HF : exists Y, STGCN_features sigmoid self X ei ew = Ok Y).
  { unfold STGCN_forward in HZ. cbv zeta in HZ.
    apply bind_ok in HZ as (Y & HY & _). eauto. }
  destruct HF as (Y & HY).
  destruct (STGCN_features_inv self X Y ei ew d h o k p b n t)
    as [Hlong HYs]; auto.
  split; [exact Hlong|].
  rewrite (STGCN_forward_tail self X Y ei ew b n d t (t - 2 * (k - 1))
             (o * p)) in HZ; auto; [|lia].
  destruct (Nat.eqb_spec ((o * p) mod t) 0) as [Hm|Hm];
    [exact Hm|discriminate].
Qed.

Lemma tabulate4_shape (g : nat -> nat -> nat -> nat -> fval)
  (a b c m : nat) :
  is_tensor4 a b c m
    (map (fun i =>
            map (fun j =>
                   map (fun k => map (fun l => g i j k l) (seq 0 m))
                       (seq 0 c))
                (seq 0 b))
         (seq 0 a)).
Proof.
  split; [now rewrite length_map, length_seq|].
  apply Forall_map, Forall_forall. intros i _.
  split; [now rewrite length_map, length_seq|].
  apply Forall_map, Forall_forall. intros j _.
  split; [now rewrite length_map, length_seq|].
  apply Forall_map, Forall_forall. intros k _.
  now rewrite length_map, length_seq.
Qed.

(** An [STGCN] built for kernels of width [k] returns, on an input of shape
    (b, n, d, t) with [2 (k - 1) < t] whose number of steps divides
    [output_size * pred_len], a tensor of shape
    (t, b, n, output_size * pred_len / t): the first axis of the result has
    as many entries as the input has steps, whatever [pred_len] is. *)
Theorem STGCN_output_shape (self : STGCN) (X : tensor4) (ei : edges)
  (ew : option vec) (d h o k p b n t : nat) :
  built_STGCN d h o k p self ->
  is_tensor4 b n d t X ->
  0 < b -> 0 < n -> 0 < d -> 0 < k -> 0 < h -> 0 < o * p ->
  2 * (k - 1) < t -> (o * p) mod t = 0 ->
  (forall x, is_mat n h x ->
             exists y, _graph_conv self x ei ew = Ok y /\ is_mat n h y) ->
  (forall Y, is_tensor4 b n (t - 2 * (k - 1)) (o * p) Y ->
             exists Z, _batch_norm self Y = Ok Z /\
                       is_tensor4 b n (t - 2 * (k - 1)) (o * p) Z) ->
  exists Z,
    STGCN_forward sigmoid self X ei ew = Ok Z /\
    is_tensor4 t b n (o * p / t) Z.
Proof.
  intros Hbuilt HX Hb Hn Hd Hk Hh Hc Hlong Hdiv Hg Hbn.
  destruct (STGCN_features_ok self X ei ew d h o k p b n t) as (Y & HY);
    auto.
  destruct (STGCN_features_inv self X Y ei ew d h o k p b n t)
    as [_ HYs]; auto; [lia|now apply batch_norm_keeps|].
  rewrite (STGCN_forward_tail self X Y ei ew b n d t (t - 2 * (k - 1))
             (o * p)); auto; try lia.
  rewrite Hdiv. cbn [Nat.eqb].
  eexists. split; [reflexivity|]. apply tabulate4_shape.
Qed.

(** [forward] raises on an input of at most [2 (k - 1)] steps, and on an
    input whose number of steps does not divide [output_size * pred_len],
    whatever the graph convolution computes. *)
Theorem STGCN_rejects (self : STGCN) (X : tensor4) (ei : edges)
  (ew : option vec) (d h o k p b n t : nat) :
  built_STGCN d h o k p self ->
  is_tensor4 b n d t X ->
  0 < b -> 0 < n -> 0 < d -> 0 < t -> 0 < k -> 0 < h -> 0 < o * p ->
  (forall Y Z, is_tensor4 b n (t - 2 * (k - 1)) (o * p) Y ->
               _batch_norm self Y = Ok Z ->
               is_tensor4 b n (t - 2 * (k - 1)) (o * p) Z) ->
  t <= 2 * (k - 1) \/ (o * p) mod t <> 0 ->
  exists err, STGCN_forward sigmoid self X ei ew = Raise err.
Proof.
  intros Hbuilt HX Hb Hn Hd Ht Hk Hh Hc Hbn Hbad.
  destruct (STGCN_forward sigmoid self X ei ew) as [Z|err] eqn:HZ;
    [|eauto].
  destruct (STGCN_forward_inv self X Z ei ew d h o k p b n t); auto.
  lia.
Qed.

(** The entries of the result are the channels of the last step of the
    normalized features, read in row-major order over (channel, batch,
    node): with [m = output_size * pred_len / t] the entry
    [(s, b', n', j)] is the entry of number
    [q = ((s * b + b') * n + n') * m + j], that is channel [q / (b * n)] of
    batch element [(q / n) mod b] at node [q mod n]. *)
Theorem STGCN_output_entries (self : STGCN) (X : tensor4) (ei : edges)
  (ew : option vec) (d h o k p b n t : nat) :
  built_STGCN d h o k p self ->
  is_tensor4 b n d t X ->
  0 < b -> 0 < n -> 0 < d -> 0 < k -> 0 < h -> 0 < o * p ->
  2 * (k - 1) < t -> (o * p) mod t = 0 ->
  (forall x, is_mat n h x ->
             exists y, _graph_conv self x ei ew = Ok y /\ is_mat n h y) ->
  (forall Y, is_tensor4 b n (t - 2 * (k - 1)) (o * p) Y ->
             exists Z, _batch_norm self Y = Ok Z /\
                       is_tensor4 b n (t - 2 * (k - 1)) (o * p) Z) ->
  exists Y Z,
    STGCN_features sigmoid self X ei ew = Ok Y /\
    STGCN_forward sigmoid self X ei ew = Ok Z /\
    forall s b' n' j, s < t -> b' < b -> n' < n -> j < o * p / t ->
      let q := ((s * b + b') * n + n') * (o * p / t) + j in
      nth j (nth n' (nth b' (nth s Z []) []) []) f0
      = nth (q / (b * n))
            (last (nth (q mod n) (nth ((q / n) mod b) Y []) []) []) f0.
Proof.
  intros Hbuilt HX Hb Hn Hd Hk Hh Hc Hlong Hdiv Hg Hbn.
  destruct (STGCN_features_ok self X ei ew d h o k p b n t) as (Y & HY);
    auto.
  destruct (STGCN_features_inv self X Y ei ew d h o k p b n t)
    as [_ HYs]; auto; [lia|now apply batch_norm_keeps|].
  exists Y. eexists. split; [exact HY|]. split.
  - rewrite (STGCN_forward_tail self X Y ei ew b n d t (t - 2 * (k - 1))
               (o * p)); auto; try lia.
    rewrite Hdiv. cbn [Nat.eqb]. reflexivity.
  - intros s b' n' j Hs Hb' Hn' Hj. cbv zeta.
    rewrite (nth_tabulate _ t s) by lia.
    rewrite (nth_tabulate _ b b') by lia.
    rewrite (nth_tabulate _ n n') by lia.
    rewrite (nth_tabulate _ (o * p / t) j) by lia.
    reflexivity.
Qed.

(** When [output_size * pred_len] is the number of input steps, the result
    has one feature, and its entry at step [s], batch element [b'] and node
    [n'] is channel [s] of the last step of the normalized features of this
    batch element and node. *)
Theorem STGCN_output_steps (self : STGCN) (X : tensor4) (ei : edges)
  (ew : option vec) (d h o k p b n : nat) :
  built_STGCN d h o k p self ->
  is_tensor4 b n d (o * p) X ->
  0 < b -> 0 < n -> 0 < d -> 0 < k -> 0 < h ->
  2 * (k - 1) < o * p ->
  (forall x, is_mat n h x ->
             exists y, _graph_conv self x ei ew = Ok y /\ is_mat n h y) ->
  (forall Y, is_tensor4 b n (o * p - 2 * (k - 1)) (o * p) Y ->
             exists Z, _batch_norm self Y = Ok Z /\
                       is_tensor4 b n (o * p - 2 * (k - 1)) (o * p) Z) ->
  exists Y Z,
    STGCN_features sigmoid self X ei ew = Ok Y /\
    STGCN_forward sigmoid self X ei ew = Ok Z /\
    forall s b' n', s < o * p -> b' < b -> n' < n ->
      nth n' (nth b' (nth s Z []) []) []
      = [nth s (last (nth n' (nth b' Y []) []) []) f0].
Proof.
  intros Hbuilt HX Hb Hn Hd Hk Hh Hlong Hg Hbn.
  assert (Hc : 0 < o * p) by lia.
  destruct (STGCN_features_ok self X ei ew d h o k p b n (o * p))
    as (Y & HY); auto.
  destruct (STGCN_features_inv self X Y ei ew d h o k p b n (o * p))
    as [_ HYs]; auto; [now apply batch_norm_keeps|].
  exists Y. eexists. split; [exact HY|]. split.
  - rewrite (STGCN_forward_tail self X Y ei ew b n d (o * p)
               (o * p - 2 * (k - 1)) (o * p)); auto; try lia.
    rewrite Nat.Div0.mod_same. cbn [Nat.eqb]. reflexivity.
  - intros s b' n' Hs Hb' Hn'.
    rewrite (nth_tabulate _ (o * p) s) by lia.
    rewrite (nth_tabulate _ b b') by lia.
    rewrite (nth_tabulate _ n n') by lia.
    rewrite Nat.div_same by lia. cbn [seq map]. cbv zeta.
    rewrite Nat.mul_1_r, Nat.add_0_r.
    set (q := (s * b + b') * n + n').
    assert (Q1 : q mod n = n').
    { subst q. rewrite Nat.add_comm, Nat.Div0.mod_add.
      now apply Nat.mod_small. }
    assert (Q2 : q / n = s * b + b').
    { subst q. rewrite Nat.add_comm, Nat.div_add by lia.
      rewrite Nat.div_small by lia. reflexivity. }
    assert (Q3 : (q / n) mod b = b').
    { rewrite Q2, Nat.add_comm, Nat.Div0.mod_add.
      now apply Nat.mod_small. }
    assert (Q4 : q / (b * n) = s).
    { rewrite (Nat.mul_comm b n), <- Nat.Div0.div_div, Q2.
      rewrite Nat.add_comm, Nat.div_add by lia.
      rewrite Nat.div_small by lia. reflexivity. }
    now rewrite Q1, Q3, Q4.
Qed.

End SpatioTemporalShapes.

Lemma ex_stgcn_built : built_STGCN 1 1 2 2 3 ex_stgcn.
Proof.
  split.
  - eexists _, _, _, _, _, _. split; [reflexivity|].
    repeat split; repeat constructor.
  - eexists _, _, _, _, _, _. split; [reflexivity|].
    repeat split; repeat constructor.
Qed.

Lemma STGCN_output_shape_witness :
  exists Z,
    STGCN_forward sigmoid_approx ex_stgcn ex_steps3 ex_edges None = Ok Z /\
    is_tensor4 3 2 1 (2 * 3 / 3) Z.
Proof.
  apply (STGCN_output_shape sigmoid_approx ex_stgcn ex_steps3 ex_edges None
           1 1 2 2 3 2 1 3).
  - exact ex_stgcn_built.
  - split; [reflexivity|]. repeat constructor.
  - lia.
  - lia.
  - lia.
  - lia.
  - lia.
  - lia.
  - lia.
  - reflexivity.
  - intros x Hx. exists x. split; [reflexivity|exact Hx].
  - intros Y HY. exists Y. split; [reflexivity|exact HY].
Defined.

Lemma STGCN_rejects_witness :
  exists err,
    STGCN_forward sigmoid_approx ex_stgcn ex_steps4 ex_edges None
    = Raise err.
Proof.
  apply (STGCN_rejects sigmoid_approx ex_stgcn ex_steps4 ex_edges None
           1 1 2 2 3 2 1 4).
  - exact ex_stgcn_built.
  - split; [reflexivity|]. repeat constructor.
  - lia.
  - lia.
  - lia.
  - lia.
  - lia.
  - lia.
  - lia.
  - intros Y Z HY [= <-]. exact HY.
  - right. discriminate.
Defined.

Lemma STGCN_output_entries_witness :
  exists Y Z,
    STGCN_features sigmoid_approx ex_stgcn ex_steps3 ex_edges None = Ok Y /\
    STGCN_forward sigmoid_approx ex_stgcn ex_steps3 ex_edges None = Ok Z /\
    forall s b' n' j, s < 3 -> b' < 2 -> n' < 1 -> j < 2 * 3 / 3 ->
      let q := ((s * 2 + b') * 1 + n') * (2 * 3 / 3) + j in
      nth j (nth n' (nth b' (nth s Z []) []) []) f0
      = nth (q / (2 * 1))
            (last (nth (q mod 1) (nth ((q / 1) mod 2) Y []) []) []) f0.
Proof.
  apply (STGCN_output_entries sigmoid_approx ex_stgcn ex_steps3 ex_edges None
           1 1 2 2 3 2 1 3).
  - exact ex_stgcn_built.
  - split; [reflexivity|]. repeat constructor.
  - lia.
  - lia.
  - lia.
  - lia.
  - lia.
  - lia.
  - lia.
  - reflexivity.
  - intros x Hx. exists x. split; [reflexivity|exact Hx].
  - intros Y HY. exists Y. split; [reflexivity|exact HY].
Defined.

Lemma STGCN_output_steps_witness :
  exists Y Z,
    STGCN_features sigmoid_approx ex_stgcn ex_steps6 ex_edges None = Ok Y /\
    STGCN_forward sigmoid_approx ex_stgcn ex_steps6 ex_edges None = Ok Z /\
    forall s b' n', s < 2 * 3 -> b' < 2 -> n' < 1 ->
      nth n' (nth b' (nth s Z []) []) []
      = [nth s (last (nth n' (nth b' Y []) []) []) f0].
Proof.
  apply (STGCN_output_steps sigmoid_approx ex_stgcn ex_steps6 ex_edges None
           1 1 2 2 3 2 1).
  - exact ex_stgcn_built.
  - split; [reflexivity|]. repeat constructor.
  - lia.
  - lia.
  - lia.
  - lia.
  - lia.
  - lia.
  - intros x Hx. exists x. split; [reflexivity|exact Hx].
  - intros Y HY. exists Y. split; [reflexivity|exact HY].
Defined.

(** With two batch elements and two features per step, the row-major
    reading puts features of the second batch element into the result of
    the first: the entry (0, 0, 0, 1) of the result is channel 0 of the
    second batch element. *)
Example STGCN_reads_across_batch :
  exists Y Z,
    STGCN_features sigmoid_approx ex_stgcn ex_steps3 ex_edges None = Ok Y /\
    STGCN_forward sigmoid_approx ex_stgcn ex_steps3 ex_edges None = Ok Z /\
    nth 1 (nth 0 (nth 0 (nth 0 Z []) []) []) f0
    = nth 0 (last (nth 0 (nth 1 Y []) []) []) f0 /\
    nth 1 (nth 0 (nth 0 (nth 0 Z []) []) []) f0
    <> nth 1 (last (nth 0 (nth 0 Y []) []) []) f0.
Proof.
  eexists _, _. split; [eval_eq|]. split; [eval_eq|]. split; [eval_eq|].
  vm_compute. discriminate.
Qed.
